(** * anchorpy: the Borsh codec (anchorpy/borsh.py) and the account coder
    (anchorpy/coder/accounts.py), embedded in Rocq.

    The Python code is a thin layer over the [construct] library: every codec
    is a [Construct] object with a [_parse] and a [_build] method working on a
    byte stream.  The embedding keeps that shape:

    - a Python object is a [value];
    - a codec is a term of the inductive type [Construct], one constructor per
      codec that borsh.py exports or builds;
    - [_parse] consumes a prefix of the remaining stream and returns the
      decoded object with the rest of the stream, [_build] returns the bytes
      it writes; both live in the error monad [result], an exception being an
      [Err]. *)

From Stdlib Require Import String Ascii Strings.Byte ZArith List Bool.
From Stdlib Require Import Lia ZifyBool Permutation Sorted.
From Stdlib Require Import Floats.SpecFloat.
Import ListNotations.
Open Scope Z_scope.
Set Warnings "-register-all".

(** ** Exceptions and the error monad *)

Inductive error : Type :=
| StreamError        (* construct: the stream holds fewer bytes than asked *)
| FormatFieldError   (* construct: struct.pack / struct.unpack failed *)
| IntegerError       (* construct: BytesInteger out of range *)
| RangeError         (* construct: Array length mismatch *)
| SizeofError        (* construct: the size depends on the data *)
| UnicodeError       (* str.encode / bytes.decode failed *)
| ValueError
| TypeError
| IndexError
| KeyError
| AttributeError
| OverflowError
| StopIteration.

Inductive result (A : Type) : Type :=
| Ok (a : A)
| Err (e : error).
Arguments Ok {A} a.
Arguments Err {A} e.

Definition bind {A B} (r : result A) (k : A -> result B) : result B :=
  match r with
  | Ok a => k a
  | Err e => Err e
  end.

Declare Scope result_scope.
Delimit Scope result_scope with result.
Notation "x <- r ;; k" := (bind r (fun x => k))
  (at level 61, r at next level, right associativity) : result_scope.
Notation "' p <- r ;; k" := (bind r (fun x => match x with p => k end))
  (at level 61, p pattern, r at next level, right associativity) : result_scope.
Open Scope result_scope.

Definition is_ok {A} (r : result A) : bool :=
  match r with Ok _ => true | Err _ => false end.

Definition raises {A} (r : result A) : Prop := exists e, r = Err e.

(** [mapM f l]: run [f] on the elements from left to right, stop at the first
    exception. *)
Definition mapM {A B} (f : A -> result B) : list A -> result (list B) :=
  fix go (l : list A) : result (list B) :=
    match l with
    | [] => Ok []
    | a :: l' => b <- f a ;; bs <- go l' ;; Ok (b :: bs)
    end.

(** ** Bytes and integers *)

Definition bytes := list byte.

Definition Z_of_byte (b : byte) : Z := Z.of_N (Byte.to_N b).

Definition byte_of_Z (z : Z) : byte :=
  match Byte.of_N (Z.to_N (z mod 256)) with
  | Some b => b
  | None => x00
  end.

(** [n] bytes of [z], least significant first. *)
Fixpoint int_to_le (n : nat) (z : Z) : bytes :=
  match n with
  | O => []
  | S n' => byte_of_Z z :: int_to_le n' (z / 256)
  end.

Fixpoint le_to_int (bs : bytes) : Z :=
  match bs with
  | [] => 0
  | b :: bs' => Z_of_byte b + 256 * le_to_int bs'
  end.

Definition byte_eqb (a b : byte) : bool := Byte.eqb a b.

(** Lexicographic order on byte strings, the order of Python's [bytes]. *)
Fixpoint bytes_ltb (a b : bytes) : bool :=
  match a, b with
  | [], [] => false
  | [], _ :: _ => true
  | _ :: _, [] => false
  | x :: a', y :: b' =>
      if Z_of_byte x <? Z_of_byte y then true
      else if Z_of_byte y <? Z_of_byte x then false
      else bytes_ltb a' b'
  end.

(** [stream_read stream n]: the next [n] bytes and the rest of the stream. *)
Definition stream_read (stream : bytes) (n : nat) : result (bytes * bytes) :=
  if (n <=? length stream)%nat
  then Ok (firstn n stream, skipn n stream)
  else Err StreamError.

(** ** Python strings: sequences of code points *)

Definition pystr := list Z.

Definition str (s : string) : pystr :=
  map (fun a => Z.of_N (N_of_ascii a)) (list_ascii_of_string s).

Fixpoint pystr_eqb (a b : pystr) : bool :=
  match a, b with
  | [], [] => true
  | x :: a', y :: b' => (x =? y) && pystr_eqb a' b'
  | _, _ => false
  end.

Fixpoint pystr_ltb (a b : pystr) : bool :=
  match a, b with
  | [], [] => false
  | [], _ :: _ => true
  | _ :: _, [] => false
  | x :: a', y :: b' =>
      if x <? y then true else if y <? x then false else pystr_ltb a' b'
  end.

(** [str.encode("utf8")]: a lone surrogate or a value outside the code space
    cannot be encoded. *)
Definition utf8_encode_char (c : Z) : result bytes :=
  if (c <? 0) || (0x10FFFF <? c) then Err UnicodeError
  else if c <? 0x80 then Ok [byte_of_Z c]
  else if c <? 0x800 then
    Ok [byte_of_Z (0xC0 + c / 64); byte_of_Z (0x80 + c mod 64)]
  else if (0xD800 <=? c) && (c <=? 0xDFFF) then Err UnicodeError
  else if c <? 0x10000 then
    Ok [byte_of_Z (0xE0 + c / 4096); byte_of_Z (0x80 + (c / 64) mod 64);
        byte_of_Z (0x80 + c mod 64)]
  else
    Ok [byte_of_Z (0xF0 + c / 262144); byte_of_Z (0x80 + (c / 4096) mod 64);
        byte_of_Z (0x80 + (c / 64) mod 64); byte_of_Z (0x80 + c mod 64)].

Definition utf8_encode (s : pystr) : result bytes :=
  bss <- mapM utf8_encode_char s ;; Ok (concat bss).

Definition is_cont (b : byte) : bool :=
  (0x80 <=? Z_of_byte b) && (Z_of_byte b <=? 0xBF).

(** [bytes.decode("utf8")], strict: truncated and overlong forms, surrogates,
    stray continuation bytes and values above U+10FFFF are rejected.  [fuel]
    bounds the number of characters; the length of the input is always
    enough. *)
Fixpoint utf8_decode_aux (fuel : nat) (bs : bytes) : result pystr :=
  match fuel with
  | O => match bs with [] => Ok [] | _ => Err UnicodeError end
  | S fuel' =>
      match bs with
      | [] => Ok []
      | b0 :: r0 =>
          let z0 := Z_of_byte b0 in
          if z0 <? 0x80 then
            s <- utf8_decode_aux fuel' r0 ;; Ok (z0 :: s)
          else if (0xC2 <=? z0) && (z0 <=? 0xDF) then
            match r0 with
            | b1 :: r1 =>
                if is_cont b1 then
                  s <- utf8_decode_aux fuel' r1 ;;
                  Ok ((z0 - 0xC0) * 64 + (Z_of_byte b1 - 0x80) :: s)
                else Err UnicodeError
            | _ => Err UnicodeError
            end
          else if (0xE0 <=? z0) && (z0 <=? 0xEF) then
            match r0 with
            | b1 :: b2 :: r2 =>
                let c := (z0 - 0xE0) * 4096 + (Z_of_byte b1 - 0x80) * 64
                         + (Z_of_byte b2 - 0x80) in
                if is_cont b1 && is_cont b2 && (0x800 <=? c)
                   && negb ((0xD800 <=? c) && (c <=? 0xDFFF)) then
                  s <- utf8_decode_aux fuel' r2 ;; Ok (c :: s)
                else Err UnicodeError
            | _ => Err UnicodeError
            end
          else if (0xF0 <=? z0) && (z0 <=? 0xF4) then
            match r0 with
            | b1 :: b2 :: b3 :: r3 =>
                let c := (z0 - 0xF0) * 262144 + (Z_of_byte b1 - 0x80) * 4096
                         + (Z_of_byte b2 - 0x80) * 64 + (Z_of_byte b3 - 0x80) in
                if is_cont b1 && is_cont b2 && is_cont b3
                   && (0x10000 <=? c) && (c <=? 0x10FFFF) then
                  s <- utf8_decode_aux fuel' r3 ;; Ok (c :: s)
                else Err UnicodeError
            | _ => Err UnicodeError
            end
          else Err UnicodeError
      end
  end.

Definition utf8_decode (bs : bytes) : result pystr :=
  utf8_decode_aux (length bs) bs.

(** ** Python objects *)

(** The objects the codecs consume and produce.  [VList] stands for [list] and
    construct's [ListContainer], [VDict] for [dict] and construct's
    [Container] (both keep insertion order), [VSet] for [set]: the list
    holds the elements of the set, without repetition, and its order carries
    no meaning, since the order in which a set is iterated depends on the
    hashes of its elements and is not modelled.
    [VVariant index cname attrs] is an instance of a constructor class
    generated by [sumtypes] for an enum: [index] is the class attribute set by
    [rust_enum], [attrs] are the [attr.ib] fields in declaration order. *)
Inductive value : Type :=
| VNone
| VBool (b : bool)
| VInt (z : Z)
| VFloat (f : spec_float)
| VBytes (bs : bytes)
| VStr (s : pystr)
| VList (l : list value)
| VTuple (l : list value)
| VSet (l : list value)
| VDict (d : list (value * value))
| VVariant (index : nat) (cname : pystr) (attrs : list (pystr * value)).

(** *** Numbers *)

Inductive number : Type :=
| NumInt (z : Z)
| NumFloat (f : spec_float).

Definition as_number (v : value) : option number :=
  match v with
  | VBool b => Some (NumInt (if b then 1 else 0))
  | VInt z => Some (NumInt z)
  | VFloat f => Some (NumFloat f)
  | _ => None
  end.

(** Exact comparison of an integer with a double; [None] when the double is
    NaN. *)
Definition Z_sf_compare (z : Z) (f : spec_float) : option comparison :=
  match f with
  | S754_nan => None
  | S754_infinity s => Some (if s then Gt else Lt)
  | S754_zero _ => Some (z ?= 0)
  | S754_finite s m e =>
      let v := if s then Z.neg m else Z.pos m in
      Some (if 0 <=? e then z ?= v * 2 ^ e else z * 2 ^ (- e) ?= v)
  end.

Definition number_compare (a b : number) : option comparison :=
  match a, b with
  | NumInt x, NumInt y => Some (x ?= y)
  | NumInt x, NumFloat g => Z_sf_compare x g
  | NumFloat f, NumInt y => option_map CompOpp (Z_sf_compare y f)
  | NumFloat f, NumFloat g => SFcompare f g
  end.

Definition cmp_is (c : comparison) (o : option comparison) : bool :=
  match o, c with
  | Some Eq, Eq | Some Lt, Lt | Some Gt, Gt => true
  | _, _ => false
  end.

(** *** Equality: Python's [==] *)

Fixpoint py_eq (a b : value) {struct a} : bool :=
  match a, b with
  | VNone, VNone => true
  | VBytes x, VBytes y => negb (bytes_ltb x y) && negb (bytes_ltb y x)
  | VStr x, VStr y => pystr_eqb x y
  | VList x, VList y | VTuple x, VTuple y =>
      (fix eq_list (l1 l2 : list value) : bool :=
         match l1, l2 with
         | [], [] => true
         | u :: l1', w :: l2' => py_eq u w && eq_list l1' l2'
         | _, _ => false
         end) x y
  | VSet x, VSet y =>
      (length x =? length y)%nat
      && forallb (fun u => existsb (fun w => py_eq u w) y) x
  | VDict x, VDict y =>
      (length x =? length y)%nat
      && forallb (fun kv => existsb (fun kv' =>
                    py_eq (fst kv) (fst kv') && py_eq (snd kv) (snd kv')) y) x
  | VVariant i n x, VVariant j m y =>
      (i =? j)%nat && pystr_eqb n m
      && (fix eq_attrs (l1 l2 : list (pystr * value)) : bool :=
            match l1, l2 with
            | [], [] => true
            | u :: l1', w :: l2' =>
                pystr_eqb (fst u) (fst w) && py_eq (snd u) (snd w)
                && eq_attrs l1' l2'
            | _, _ => false
            end) x y
  | _, _ =>
      match as_number a, as_number b with
      | Some x, Some y => cmp_is Eq (number_compare x y)
      | _, _ => false
      end
  end.

(** *** Order: Python's [<], which raises [TypeError] between objects that
    are not ordered *)

Fixpoint py_lt (a b : value) {struct a} : result bool :=
  match a, b with
  | VBytes x, VBytes y => Ok (bytes_ltb x y)
  | VStr x, VStr y => Ok (pystr_ltb x y)
  | VList x, VList y | VTuple x, VTuple y =>
      (fix lt_list (l1 l2 : list value) : result bool :=
         match l1, l2 with
         | [], [] => Ok false
         | [], _ :: _ => Ok true
         | _ :: _, [] => Ok false
         | u :: l1', w :: l2' =>
             if py_eq u w then lt_list l1' l2' else py_lt u w
         end) x y
  | VSet x, VSet y =>
      Ok ((length x <? length y)%nat
          && forallb (fun u => existsb (fun w => py_eq u w) y) x)
  | VVariant i n x, VVariant j m y =>
      if (i =? j)%nat && pystr_eqb n m then
        (fix lt_attrs (l1 l2 : list (pystr * value)) : result bool :=
           match l1, l2 with
           | [], [] => Ok false
           | [], _ :: _ => Ok true
           | _ :: _, [] => Ok false
           | u :: l1', w :: l2' =>
               if py_eq (snd u) (snd w) then lt_attrs l1' l2'
               else py_lt (snd u) (snd w)
           end) x y
      else Err TypeError
  | _, _ =>
      match as_number a, as_number b with
      | Some x, Some y => Ok (cmp_is Lt (number_compare x y))
      | _, _ => Err TypeError
      end
  end.

(** *** [sorted]

    [sorted] is a stable sort that compares with [<] only.  It is modelled as
    a stable insertion sort; the two agree whenever every comparison between
    two elements succeeds, which is the case in every statement below. *)
Fixpoint py_insert (x : value) (l : list value) : result (list value) :=
  match l with
  | [] => Ok [x]
  | y :: l' =>
      lt <- py_lt y x ;;
      if lt then r <- py_insert x l' ;; Ok (y :: r)
      else Ok (x :: y :: l')
  end.

Fixpoint sorted (l : list value) : result (list value) :=
  match l with
  | [] => Ok []
  | x :: l' => r <- sorted l' ;; py_insert x r
  end.

(** *** Hashing, [dict(...)] and [set(...)]

    Lists, dicts and sets (hence construct's containers) cannot be hashed,
    and neither can an instance of a constructor class: attrs gives the class
    an [__eq__] and no [__hash__]. *)

Fixpoint hashable (v : value) : bool :=
  match v with
  | VNone | VBool _ | VInt _ | VFloat _ | VBytes _ | VStr _ => true
  | VTuple l => forallb hashable l
  | VList _ | VSet _ | VDict _ | VVariant _ _ _ => false
  end.

Fixpoint dict_get (d : list (value * value)) (k : value) : option value :=
  match d with
  | [] => None
  | (k', v) :: d' => if py_eq k' k then Some v else dict_get d' k
  end.

(** [d[k] = v]: an existing key keeps its place. *)
Fixpoint dict_set (d : list (value * value)) (k v : value)
  : list (value * value) :=
  match d with
  | [] => [(k, v)]
  | (k', v') :: d' =>
      if py_eq k' k then (k', v) :: d' else (k', v') :: dict_set d' k v
  end.

(** [dict(pairs)]: every element of [pairs] is a sequence of two objects. *)
Fixpoint dict_of (pairs : list value) (acc : list (value * value))
  : result (list (value * value)) :=
  match pairs with
  | [] => Ok acc
  | (VList [k; v] | VTuple [k; v]) :: pairs' =>
      if hashable k then dict_of pairs' (dict_set acc k v) else Err TypeError
  | (VList _ | VTuple _) :: _ => Err ValueError
  | _ :: _ => Err TypeError
  end.

(** [set(elems)]: the elements are added one by one, a repeated element
    being dropped.  The list that stands for the set is in the order of
    insertion, one of the orders in which the set may be iterated. *)
Definition set_add (s : list value) (x : value) : list value :=
  if existsb (fun y => py_eq y x) s then s else s ++ [x].

Fixpoint set_of (elems : list value) (acc : list value)
  : result (list value) :=
  match elems with
  | [] => Ok acc
  | x :: elems' =>
      if hashable x then set_of elems' (set_add acc x) else Err TypeError
  end.

(** The items of a dict, as [dict.items()] yields them. *)
Definition items (d : list (value * value)) : list value :=
  map (fun kv => VTuple [fst kv; snd kv]) d.

(** *** Floats: [math.isnan] and [struct]'s formats [f] and [d]

    A Python float is an IEEE-754 binary64: a [spec_float] of precision 53,
    in the normal form of [valid_binary 53 1024]. *)

Definition float_of_int (z : Z) : result spec_float :=
  match binary_normalize 53 1024 z 0 false with
  | S754_infinity _ => Err OverflowError
  | f => Ok f
  end.

(** The C double of an object, as [math.isnan] and [struct.pack] obtain it. *)
Definition as_float (v : value) : result spec_float :=
  match v with
  | VFloat f => Ok f
  | VInt z => float_of_int z
  | VBool b => float_of_int (if b then 1 else 0)
  | _ => Err TypeError
  end.

Definition isnan (v : value) : result bool :=
  f <- as_float v ;;
  Ok (match f with S754_nan => true | _ => false end).

(** The interchange encoding of a float of precision [prec] and exponent
    range [emax]: sign, biased exponent on [log2 (2 * emax)] bits, fraction on
    [prec - 1] bits. *)
Definition float_bits (prec emax : Z) (f : spec_float) : Z :=
  let frac := 2 ^ (prec - 1) in
  let sign (s : bool) := if s then frac * (2 * emax) else 0 in
  match f with
  | S754_zero s => sign s
  | S754_infinity s => sign s + (2 * emax - 1) * frac
  | S754_nan => (2 * emax - 1) * frac + frac / 2
  | S754_finite s m e =>
      sign s +
      (if frac <=? Z.pos m
       then (e - emin prec emax + 1) * frac + (Z.pos m - frac)
       else Z.pos m)
  end.

Definition bits_float (prec emax : Z) (bits : Z) : spec_float :=
  let frac := 2 ^ (prec - 1) in
  let m := bits mod frac in
  let e := (bits / frac) mod (2 * emax) in
  let s := 1 <=? bits / (frac * (2 * emax)) in
  if e =? 2 * emax - 1 then
    if m =? 0 then S754_infinity s else S754_nan
  else if e =? 0 then
    match m with
    | Z.pos p => S754_finite s p (emin prec emax)
    | _ => S754_zero s
    end
  else
    match m + frac with
    | Z.pos p => S754_finite s p (e + emin prec emax - 1)
    | _ => S754_nan
    end.

(** [struct.pack("<d", x)] and [struct.pack("<f", x)]; the latter rounds to
    binary32 and raises [OverflowError] when a finite double does not fit. *)
Definition pack_float (double : bool) (v : value) : result bytes :=
  f <- as_float v ;;
  if double then Ok (int_to_le 8 (float_bits 53 1024 f))
  else
    match f with
    | S754_finite s m e =>
        match binary_round 24 128 s m e with
        | S754_infinity _ => Err OverflowError
        | g => Ok (int_to_le 4 (float_bits 24 128 g))
        end
    | _ => Ok (int_to_le 4 (float_bits 24 128 f))
    end.

(** [struct.unpack("<d", data)[0]] and [struct.unpack("<f", data)[0]]; a
    binary32 is widened to the double of the same value. *)
Definition unpack_float (double : bool) (data : bytes) : spec_float :=
  if double then bits_float 53 1024 (le_to_int data)
  else
    match bits_float 24 128 (le_to_int data) with
    | S754_finite s m e => binary_round 53 1024 s m e
    | f => f
    end.

(** *** [attr.asdict]

    [attr.asdict(inst)] is called with its defaults: [recurse=True] turns
    every attrs instance met on the way into a dict of its fields, and
    [retain_collection_types=False] turns tuples and sets into lists (into
    tuples when they are dict keys). *)
Fixpoint asdict_anything (is_key : bool) (v : value) {struct v} : value :=
  match v with
  | VVariant _ _ attrs =>
      VDict (map (fun a => (VStr (fst a), asdict_anything false (snd a))) attrs)
  | VList l | VTuple l | VSet l =>
      (if is_key then VTuple else VList) (map (asdict_anything false) l)
  | VDict d =>
      VDict (map (fun kv => (asdict_anything true (fst kv),
                             asdict_anything false (snd kv))) d)
  | _ => v
  end.

Definition asdict (inst : value) : result (list (value * value)) :=
  match inst with
  | VVariant _ _ attrs =>
      Ok (map (fun a => (VStr (fst a), asdict_anything false (snd a))) attrs)
  | _ => Err TypeError    (* attr.exceptions.NotAnAttrsClassError *)
  end.

(** *** Truth value, [len], iteration, subscription *)

Definition truthy (v : value) : bool :=
  match v with
  | VNone => false
  | VBool b => b
  | VInt z => negb (z =? 0)
  | VFloat (S754_zero _) => false
  | VFloat _ => true
  | VBytes bs => negb (length bs =? 0)%nat
  | VStr s => negb (length s =? 0)%nat
  | VList l | VTuple l | VSet l => negb (length l =? 0)%nat
  | VDict d => negb (length d =? 0)%nat
  | VVariant _ _ _ => true
  end.

Definition py_iter (v : value) : result (list value) :=
  match v with
  | VList l | VTuple l | VSet l => Ok l
  | VDict d => Ok (map fst d)
  | VBytes bs => Ok (map (fun b => VInt (Z_of_byte b)) bs)
  | VStr s => Ok (map (fun c => VStr [c]) s)
  | _ => Err TypeError
  end.

Definition py_len (v : value) : result Z :=
  match v with
  | VBytes bs => Ok (Z.of_nat (length bs))
  | VStr s => Ok (Z.of_nat (length s))
  | VList l | VTuple l | VSet l => Ok (Z.of_nat (length l))
  | VDict d => Ok (Z.of_nat (length d))
  | _ => Err TypeError
  end.

(** [seq[i]] for a tuple or list [seq]: a negative index counts from the
    end. *)
Definition py_getitem {A} (seq : list A) (i : value) : result A :=
  match i with
  | VInt _ | VBool _ =>
      let z := match i with VInt z => z | VBool true => 1 | _ => 0 end in
      let n := Z.of_nat (length seq) in
      let k := if z <? 0 then z + n else z in
      if (0 <=? k) && (k <? n) then
        match nth_error seq (Z.to_nat k) with
        | Some a => Ok a
        | None => Err IndexError
        end
      else Err IndexError
  | _ => Err TypeError
  end.

(** ** The codec: anchorpy/borsh.py *)

Module Borsh.

Definition TUPLE_DATA : pystr := str "tuple_data".

(** *** The enum class built by [_make_enum]

    A [sumtypes.constructor] is described by the names of its attributes.
    While [_make_enum] fills it, the class is its attribute dictionary
    [vars(EnumDef)], in which an attribute is a constructor or an object of
    another kind ([None] here).  [sumtype(klass)] lists the attributes that
    are constructors, in the order of the dictionary
    ([_sumtype_constructor_names]), and [rust_enum] numbers them from 0: an
    [EnumDef] is the class as [Enum] reads it, its constructors in the order
    of their ordinals. *)
Definition constructor := list pystr.

Definition tuple_struct : constructor := [TUPLE_DATA].
Definition unit_struct : constructor := [].
Definition clike_struct (fields : list pystr) : constructor := fields.

Definition EnumDef := list (pystr * constructor).

Definition class_dict := list (pystr * option constructor).

(** [class EnumDef] with a docstring for a body: [vars(EnumDef)] holds the
    module and the docstring, then the two descriptors that the class
    statement adds. *)
Definition class_EnumDef : class_dict :=
  [(str "__module__", None); (str "__doc__", None);
   (str "__dict__", None); (str "__weakref__", None)].

(** Storing an attribute in the dictionary of the class: a new name is
    appended, an existing one keeps its place. *)
Fixpoint setattr (enum_def : class_dict) (name : pystr) (c : constructor)
  : class_dict :=
  match enum_def with
  | [] => [(name, Some c)]
  | (n, c') :: rest =>
      if pystr_eqb n name then (n, Some c) :: rest
      else (n, c') :: setattr rest name c
  end.

(** [setattr] on a class is [type.__setattr__], which obeys the data
    descriptors of [type] and of [object]: [__class__], [__name__],
    [__qualname__] and [__bases__] take a class, a [str] or a tuple only, and
    the others below are read-only.  ([__module__] and [__doc__] have a
    setter that stores any object in the dictionary.) *)
Definition type_descriptor (name : pystr) : option error :=
  if existsb (pystr_eqb name)
       (map str ["__class__"; "__name__"; "__qualname__"; "__bases__"]%string)
  then Some TypeError
  else if existsb (pystr_eqb name)
            (map str ["__dict__"; "__mro__"; "__base__"; "__basicsize__";
                      "__itemsize__"; "__flags__"; "__weakrefoffset__";
                      "__dictoffset__"; "__text_signature__"]%string)
  then Some AttributeError
  else None.

(** [sumtype(klass)]: the constructors of the class, in the order of its
    dictionary. *)
Definition sumtype (klass : class_dict) : EnumDef :=
  flat_map (fun a => match snd a with
                     | Some c => [(fst a, c)]
                     | None => []
                     end) klass.

(** [cls.getitem(_index)]: the constructor class of ordinal [_index], with the
    [index] that [rust_enum] gave it. *)
Definition getitem (enum : EnumDef) (_index : Z)
  : result (nat * pystr * constructor) :=
  match py_getitem enum (VInt _index) with
  | Ok (cname, c) =>
      Ok (Z.to_nat (if _index <? 0 then _index + Z.of_nat (length enum)
                    else _index), cname, c)
  | Err e => Err e
  end.

Fixpoint assoc {A} (name : pystr) (l : list (pystr * A)) : option A :=
  match l with
  | [] => None
  | (n, a) :: l' => if pystr_eqb n name then Some a else assoc name l'
  end.

Fixpoint str_keys (d : list (value * value)) : result (list (pystr * value)) :=
  match d with
  | [] => Ok []
  | (VStr n, v) :: d' => r <- str_keys d' ;; Ok ((n, v) :: r)
  | _ :: _ => Err TypeError
  end.

(** Calling a constructor class: the [__init__] that attrs generates binds
    the positional arguments to the first attributes and the keyword
    arguments by name; a missing, repeated or unknown argument is a
    [TypeError]. *)
Definition call (variant : nat * pystr * constructor)
  (args : list value) (kwargs : list (value * value)) : result value :=
  let '(index, cname, attrs) := variant in
  kw <- str_keys kwargs ;;
  let positional := firstn (length args) attrs in
  let by_name := skipn (length args) attrs in
  if (length attrs <? length args)%nat then Err TypeError
  else if negb (forallb (fun a => existsb (pystr_eqb (fst a)) by_name) kw)
  then Err TypeError
  else
    named <- mapM (fun n => match assoc n kw with
                            | Some v => Ok (n, v)
                            | None => Err TypeError
                            end) by_name ;;
    Ok (VVariant index cname (combine positional args ++ named)).

(** [obj.index]: [rust_enum] sets [index] as an attribute of the constructor
    class, and the attributes of an instance are looked up before those of
    its class. *)
Definition index_attr (obj : value) : result value :=
  match obj with
  | VVariant index _ attrs =>
      match assoc (str "index") attrs with
      | Some v => Ok v
      | None => Ok (VInt (Z.of_nat index))
      end
  | _ => Err AttributeError
  end.

(** *** Codecs

    One constructor for each codec of borsh.py; the comment gives the
    construct expression it stands for.  [Enum] keeps the two fields of the
    class: the enum class [self.enum] and the declarations [self.variants].
    [PublicKey], an adapter over [String] that goes through
    [solana.publickey], is left out. *)

Inductive variant_of (C : Type) : Type :=
| VName (name : pystr)       (* a [str]: a unit variant *)
| VSub (subcon : C).         (* a construct: a tuple or struct variant *)
Arguments VName {C} name.
Arguments VSub {C} subcon.

Inductive Construct : Type :=
| Bool                                               (* construct.Flag *)
| FormatField (length : nat) (signed : bool)         (* "<B", "<b", ... "<q" *)
| BytesInteger (length : nat) (signed swapped : bool)
| FormatFieldNoNan (double : bool)                   (* "<f" and "<d" *)
| Bytes                                    (* Prefixed(U32, GreedyBytes) *)
| String                                   (* StringAdapter(Bytes) *)
| Vec (subcon : Construct)                 (* PrefixedArray(U32, subcon) *)
| Array (count : nat) (subcon : Construct) (* subcon[count] *)
| TupleStruct (subcons : list Construct)   (* construct.Sequence *)
| CStruct (subcons : list Construct)       (* construct.Struct *)
| Renamed (name : value) (subcon : Construct)        (* name / subcon *)
| Option (subcon : Construct)
| Enum (enum : EnumDef) (variants : list (variant_of Construct))
| HashMap (key_subcon value_subcon : Construct)
| HashSet (subcon : Construct).

Definition U8 := FormatField 1 false.
Definition I8 := FormatField 1 true.
Definition U16 := FormatField 2 false.
Definition I16 := FormatField 2 true.
Definition U32 := FormatField 4 false.
Definition I32 := FormatField 4 true.
Definition U64 := FormatField 8 false.
Definition I64 := FormatField 8 true.
Definition U128 := BytesInteger 16 false true.
Definition I128 := BytesInteger 16 true true.
Definition F32 := FormatFieldNoNan false.
Definition F64 := FormatFieldNoNan true.

(** [subcon.name]: [None] unless the construct was renamed.  [Renamed]
    keeps the name of its subcon when the new name is [None] or empty
    ([newname if newname else subcon.name]). *)
Fixpoint name_of (c : Construct) : value :=
  match c with
  | Renamed name subcon => if truthy name then name else name_of subcon
  | _ => VNone
  end.

(** [subcon.flagbuildnone]: whether [None] may stand for a missing field. *)
Fixpoint flagbuildnone (c : Construct) : bool :=
  match c with
  | TupleStruct subcons | CStruct subcons => forallb flagbuildnone subcons
  | Renamed _ subcon | Option subcon | Array _ subcon => flagbuildnone subcon
  | _ => false
  end.

(** [subcon.sizeof()]: [None] stands for [SizeofError]. *)
Fixpoint sizeof (c : Construct) : option Z :=
  match c with
  | Bool => Some 1
  | FormatField length _ | BytesInteger length _ _ => Some (Z.of_nat length)
  | FormatFieldNoNan double => Some (if double then 8 else 4)
  | Array count subcon =>
      option_map (Z.mul (Z.of_nat count)) (sizeof subcon)
  | TupleStruct subcons | CStruct subcons =>
      (fix sum (l : list Construct) : option Z :=
         match l with
         | [] => Some 0
         | sc :: l' =>
             match sizeof sc, sum l' with
             | Some a, Some b => Some (a + b)
             | _, _ => None
             end
         end) subcons
  | Renamed _ subcon => sizeof subcon
  | Bytes | String | Vec _ | Option _ | Enum _ _ | HashMap _ _ | HashSet _ =>
      None
  end.

(** *** Building the enum class: schema validation *)

Definition _check_name_not_null (name : value) : result unit :=
  match name with
  | VNone => Err ValueError      (* "Unnamed struct fields not allowed." *)
  | _ => Ok tt
  end.

Definition _check_variant_name (name : value) : result unit :=
  _ <- _check_name_not_null name ;;
  match name with
  | VStr s =>
      if py_eq name (VStr TUPLE_DATA) then Err ValueError
      else
        match s with
        | [] => Err IndexError                       (* name[0] *)
        | c0 :: _ => if pystr_eqb [c0] (str "_") then Err ValueError else Ok tt
        end
  | _ => Err ValueError          (* "Variant names must be strings." *)
  end.

(** [setattr(enum_def, variant_name, c)]: the name of an attribute is a
    [str], and not one that [type] keeps for itself. *)
Definition py_setattr (enum_def : class_dict) (variant_name : value)
  (c : constructor) : result class_dict :=
  match variant_name with
  | VStr s =>
      match type_descriptor s with
      | Some e => Err e
      | None => Ok (setattr enum_def s c)
      end
  | _ => Err TypeError
  end.

Definition _handle_cstruct_variant (subcons : list Construct)
  (variant_name : value) (enum_def : class_dict) : result class_dict :=
  subcon_names <-
    mapM (fun s =>
            let name := name_of s in
            _ <- _check_variant_name name ;;
            match name with VStr n => Ok n | _ => Err TypeError end)
         subcons ;;
  py_setattr enum_def variant_name (clike_struct subcon_names).

Definition _handle_struct_variant (variant : Construct)
  (enum_def : class_dict) : result class_dict :=
  let variant_name := name_of variant in
  match variant_name with
  | VNone => Err ValueError      (* "Unnamed enum variants not allowed." *)
  | _ =>
      let underlying_variant :=
        match variant with Renamed _ subcon => subcon | _ => variant end in
      match underlying_variant with
      | TupleStruct _ => py_setattr enum_def variant_name tuple_struct
      | CStruct subcons =>
          _handle_cstruct_variant subcons variant_name enum_def
      | _ => Err ValueError      (* "Unrecognized variant type" *)
      end
  end.

(** [rust_enum] numbers the constructors that [sumtype] lists; an
    [EnumDef] is read in that order by [getitem]. *)
Definition rust_enum (klass : class_dict) : EnumDef := sumtype klass.

Fixpoint _make_enum_loop (variants : list (variant_of Construct))
  (enum_def : class_dict) : result class_dict :=
  match variants with
  | [] => Ok enum_def
  | VName variant :: rest =>
      e <- py_setattr enum_def (VStr variant) unit_struct ;;
      _make_enum_loop rest e
  | VSub variant :: rest =>
      e <- _handle_struct_variant variant enum_def ;;
      _make_enum_loop rest e
  end.

Definition _make_enum (variants : list (variant_of Construct))
  : result EnumDef :=
  e <- _make_enum_loop variants class_EnumDef ;; Ok (rust_enum e).

(** The initialiser of the class [Enum]: it fails when
    [_make_enum] does. *)
Definition new_Enum (variants : list (variant_of Construct))
  : result Construct :=
  enum <- _make_enum variants ;; Ok (Enum enum variants).

(** *** Parsing and building *)

Definition parser := bytes -> result (value * bytes).
Definition builder := value -> result bytes.

Fixpoint bytes_eqb (a b : bytes) : bool :=
  match a, b with
  | [], [] => true
  | x :: a', y :: b' => byte_eqb x y && bytes_eqb a' b'
  | _, _ => false
  end.

(** [struct.pack] and [struct.unpack] for the integer formats. *)
Definition pack_int (length : nat) (signed : bool) (obj : value)
  : result bytes :=
  let bits := 8 * Z.of_nat length in
  let lo := if signed then - 2 ^ (bits - 1) else 0 in
  let hi := if signed then 2 ^ (bits - 1) else 2 ^ bits in
  match obj with
  | VInt _ | VBool _ =>
      let z := match obj with VInt z => z | VBool true => 1 | _ => 0 end in
      if (lo <=? z) && (z <? hi) then Ok (int_to_le length z)
      else Err FormatFieldError
  | _ => Err FormatFieldError
  end.

Definition unpack_int (signed : bool) (data : bytes) : Z :=
  let bits := 8 * Z.of_nat (length data) in
  let u := le_to_int data in
  if signed && (2 ^ (bits - 1) <=? u) then u - 2 ^ bits else u.

Definition FormatField_parse (length : nat) (signed : bool) : parser :=
  fun stream =>
    '(data, stream) <- stream_read stream length ;;
    Ok (VInt (unpack_int signed data), stream).

Definition FormatField_build (length : nat) (signed : bool) : builder :=
  fun obj => pack_int length signed obj.

(** construct's [integer2bytes], [bytes2integer] (big-endian) and
    [swapbytes]. *)
Definition integer2bytes (number : Z) (width : nat) : bytes :=
  rev (int_to_le width number).

Definition bytes2integer (data : bytes) (signed : bool) : Z :=
  unpack_int signed (rev data).

Definition swapbytes (data : bytes) : bytes := rev data.

Definition BytesInteger_parse (length : nat) (signed swapped : bool)
  : parser :=
  fun stream =>
    if (length =? 0)%nat then Err IntegerError
    else
      '(data, stream) <- stream_read stream length ;;
      let data := if swapped then swapbytes data else data in
      Ok (VInt (bytes2integer data signed), stream).

Definition BytesInteger_build (length : nat) (signed swapped : bool)
  : builder :=
  fun obj =>
    let bits := 8 * Z.of_nat length in
    let lo := if signed then - 2 ^ (bits - 1) else 0 in
    let hi := if signed then 2 ^ (bits - 1) else 2 ^ bits in
    match obj with
    | VInt _ | VBool _ =>
        let z := match obj with VInt z => z | VBool true => 1 | _ => 0 end in
        if (length =? 0)%nat then Err IntegerError
        else if (lo <=? z) && (z <? hi) then
          let data := integer2bytes z length in
          Ok (if swapped then swapbytes data else data)
        else Err IntegerError
    | _ => Err IntegerError
    end.

(** [Prefixed(U32, GreedyBytes)] *)
Definition Bytes_parse : parser :=
  fun stream =>
    '(length, stream) <- FormatField_parse 4 false stream ;;
    match length with
    | VInt n =>
        '(data, stream) <- stream_read stream (Z.to_nat n) ;;
        Ok (VBytes data, stream)
    | _ => Err TypeError
    end.

Definition Bytes_build : builder :=
  fun obj =>
    match obj with
    | VBytes data =>
        prefix <- FormatField_build 4 false (VInt (Z.of_nat (length data))) ;;
        Ok (prefix ++ data)
    | _ => Err TypeError
    end.

(** [Array(count, subcon)] *)
Fixpoint Array_parse (subcon : parser) (count : nat) (stream : bytes)
  : result (list value * bytes) :=
  match count with
  | O => Ok ([], stream)
  | S count' =>
      '(e, stream) <- subcon stream ;;
      '(es, stream) <- Array_parse subcon count' stream ;;
      Ok (e :: es, stream)
  end.

Definition Array_build (subcon : builder) (count : Z) (obj : value)
  : result bytes :=
  n <- py_len obj ;;
  if negb (n =? count) then Err RangeError
  else
    es <- py_iter obj ;;
    data <- mapM subcon es ;;
    Ok (concat data).

(** [PrefixedArray(U32, subcon)]: the count is the length of the object. *)
Definition PrefixedArray_parse (subcon : parser) : parser :=
  fun stream =>
    '(count, stream) <- FormatField_parse 4 false stream ;;
    match count with
    | VInt n =>
        '(es, stream) <- Array_parse subcon (Z.to_nat n) stream ;;
        Ok (VList es, stream)
    | _ => Err TypeError
    end.

Definition PrefixedArray_build (subcon : builder) : builder :=
  fun obj =>
    count <- py_len obj ;;
    prefix <- FormatField_build 4 false (VInt count) ;;
    data <- Array_build subcon count obj ;;
    Ok (prefix ++ data).

(** construct.Sequence *)
Fixpoint Sequence_parse (subcons : list parser) (stream : bytes)
  : result (list value * bytes) :=
  match subcons with
  | [] => Ok ([], stream)
  | sc :: subcons' =>
      '(subobj, stream) <- sc stream ;;
      '(objs, stream) <- Sequence_parse subcons' stream ;;
      Ok (subobj :: objs, stream)
  end.

Fixpoint Sequence_build_loop (subcons : list builder) (objiter : list value)
  : result bytes :=
  match subcons with
  | [] => Ok []
  | sc :: subcons' =>
      match objiter with
      | [] => Err StopIteration
      | subobj :: objiter' =>
          data <- sc subobj ;;
          rest <- Sequence_build_loop subcons' objiter' ;;
          Ok (data ++ rest)
      end
  end.

Definition Sequence_build (subcons : list builder) : builder :=
  fun obj =>
    objiter <- match obj with
               | VNone => Ok (map (fun _ => VNone) subcons)
               | _ => py_iter obj
               end ;;
    Sequence_build_loop subcons objiter.

(** construct.Struct: a subcon is given with its name and its
    [flagbuildnone]. *)
Fixpoint Struct_parse (subcons : list (value * parser))
  (obj : list (value * value)) (stream : bytes)
  : result (list (value * value) * bytes) :=
  match subcons with
  | [] => Ok (obj, stream)
  | (name, sc) :: subcons' =>
      '(subobj, stream) <- sc stream ;;
      Struct_parse subcons'
        (if truthy name then dict_set obj name subobj else obj) stream
  end.

Fixpoint Struct_build_loop (subcons : list (value * bool * builder))
  (obj : list (value * value)) : result bytes :=
  match subcons with
  | [] => Ok []
  | (name, buildnone, sc) :: subcons' =>
      subobj <- match dict_get obj name with
                | Some v => Ok v
                | None => if buildnone then Ok VNone else Err KeyError
                end ;;
      data <- sc subobj ;;
      rest <- Struct_build_loop subcons' obj ;;
      Ok (data ++ rest)
  end.

Definition Struct_build (subcons : list (value * bool * builder)) : builder :=
  fun obj =>
    match obj with
    | VNone => Struct_build_loop subcons []
    | VDict d => Struct_build_loop subcons d
    | _ => Err TypeError
    end.

(** [key[0] != "_"] for a key of a [Container]. *)
Definition not_private (key : value) : result bool :=
  match key with
  | VStr [] => Err IndexError
  | VStr (c0 :: _) => Ok (negb (pystr_eqb [c0] (str "_")))
  | VBytes [] => Err IndexError
  | VBytes _ => Ok true
  | _ => Err TypeError
  end.

Fixpoint public_items (container : list (value * value))
  : result (list (value * value)) :=
  match container with
  | [] => Ok []
  | (key, val) :: rest =>
      keep <- not_private key ;;
      r <- public_items rest ;;
      Ok (if keep then (key, val) :: r else r)
  end.

(** [U8.parse(index_bytes)] *)
Definition U8_parse (index_bytes : bytes) : Z := unpack_int false index_bytes.

Definition is_none_flag : bytes := [x00].
Definition is_some_flag : bytes := [x01].

(** [_parse] of every codec.  The classes [Option] and [Enum] are those of
    borsh.py, [HashMap], [HashSet] and [String] are its adapters ([_decode]
    applied to what the subcon parsed), the others are construct's. *)
Fixpoint _parse (c : Construct) : parser :=
  match c with
  | Bool =>
      fun stream =>
        '(data, stream) <- stream_read stream 1 ;;
        Ok (VBool (negb (bytes_eqb data [x00])), stream)
  | FormatField length signed => FormatField_parse length signed
  | BytesInteger length signed swapped =>
      BytesInteger_parse length signed swapped
  | FormatFieldNoNan double =>
      fun stream =>
        '(data, stream) <- stream_read stream (if double then 8 else 4)%nat ;;
        let parsed := VFloat (unpack_float double data) in
        nan <- isnan parsed ;;
        if nan then Err ValueError      (* "Borsh does not support nan." *)
        else Ok (parsed, stream)
  | Bytes => Bytes_parse
  | String =>
      fun stream =>
        '(obj, stream) <- Bytes_parse stream ;;
        match obj with
        | VBytes data => s <- utf8_decode data ;; Ok (VStr s, stream)
        | _ => Err AttributeError
        end
  | Vec subcon => PrefixedArray_parse (_parse subcon)
  | Array count subcon =>
      fun stream =>
        '(es, stream) <- Array_parse (_parse subcon) count stream ;;
        Ok (VList es, stream)
  | TupleStruct subcons =>
      fun stream =>
        '(objs, stream) <- Sequence_parse (map _parse subcons) stream ;;
        Ok (VList objs, stream)
  | CStruct subcons =>
      fun stream =>
        '(obj, stream) <-
          Struct_parse (map (fun sc => (name_of sc, _parse sc)) subcons)
                       [] stream ;;
        Ok (VDict obj, stream)
  | Renamed _ subcon => _parse subcon
  | Option subcon =>
      fun stream =>
        '(discriminator, stream) <- stream_read stream 1 ;;
        if bytes_eqb discriminator is_none_flag then Ok (VNone, stream)
        else _parse subcon stream
  | Enum enum variants =>
      fun stream =>
        '(index_bytes, stream) <- stream_read stream 1 ;;
        let index := U8_parse index_bytes in
        variant <- getitem enum index ;;
        parser <- py_getitem
                    (map (fun v => match v with
                                   | VName n => VName n
                                   | VSub sc => VSub (_parse sc)
                                   end) variants)
                    (VInt index) ;;
        match parser with
        | VName _ => obj <- call variant [] [] ;; Ok (obj, stream)
        | VSub parse =>
            '(container, stream) <- parse stream ;;
            match container with
            | VDict d =>
                as_dict <- public_items d ;;
                obj <- call variant [] as_dict ;;
                Ok (obj, stream)
            | _ =>
                elems <- py_iter container ;;
                obj <- call variant [VTuple elems] [] ;;
                Ok (obj, stream)
            end
        end
  | HashMap key_subcon value_subcon =>
      fun stream =>
        '(obj, stream) <-
          PrefixedArray_parse
            (fun stream =>
               '(kv, stream) <-
                 Sequence_parse [_parse key_subcon; _parse value_subcon]
                                stream ;;
               Ok (VList kv, stream))
            stream ;;
        pairs <- py_iter obj ;;
        d <- dict_of pairs [] ;;
        Ok (VDict d, stream)
  | HashSet subcon =>
      fun stream =>
        '(obj, stream) <- PrefixedArray_parse (_parse subcon) stream ;;
        elems <- py_iter obj ;;
        s <- set_of elems [] ;;
        Ok (VSet s, stream)
  end.

(** [_build] of every codec: the bytes written to the stream. *)
Fixpoint _build (c : Construct) : builder :=
  match c with
  | Bool => fun obj => Ok (if truthy obj then [x01] else [x00])
  | FormatField length signed => FormatField_build length signed
  | BytesInteger length signed swapped =>
      BytesInteger_build length signed swapped
  | FormatFieldNoNan double =>
      fun obj =>
        nan <- isnan obj ;;
        if nan then Err ValueError      (* "Borsh does not support nan." *)
        else
          match pack_float double obj with
          | Ok data => Ok data
          | Err _ => Err FormatFieldError
          end
  | Bytes => Bytes_build
  | String =>
      fun obj =>
        match obj with
        | VStr s => data <- utf8_encode s ;; Bytes_build (VBytes data)
        | _ => Err TypeError
        end
  | Vec subcon => PrefixedArray_build (_build subcon)
  | Array count subcon => Array_build (_build subcon) (Z.of_nat count)
  | TupleStruct subcons => Sequence_build (map _build subcons)
  | CStruct subcons =>
      Struct_build
        (map (fun sc => (name_of sc, flagbuildnone sc, _build sc)) subcons)
  | Renamed _ subcon => _build subcon
  | Option subcon =>
      fun obj =>
        match obj with
        | VNone => Ok is_none_flag
        | _ => data <- _build subcon obj ;; Ok (is_some_flag ++ data)
        end
  | Enum enum variants =>
      fun obj =>
        index <- index_attr obj ;;
        builder <- py_getitem
                     (map (fun v => match v with
                                    | VName n => VName n
                                    | VSub sc => VSub (_build sc)
                                    end) variants)
                     index ;;
        as_dict <- asdict obj ;;
        index_byte <- FormatField_build 1 false index ;;
        if truthy (VDict as_dict) then
          let to_build :=
            match dict_get as_dict (VStr TUPLE_DATA) with
            | Some tuple_data => tuple_data
            | None => VDict as_dict
            end in
          match builder with
          | VName _ => Err AttributeError
          | VSub build => data <- build to_build ;; Ok (index_byte ++ data)
          end
        else Ok index_byte
  | HashMap key_subcon value_subcon =>
      fun obj =>
        match obj with
        | VDict d =>
            entries <- sorted (items d) ;;
            PrefixedArray_build
              (Sequence_build [_build key_subcon; _build value_subcon])
              (VList entries)
        | _ => Err AttributeError
        end
  | HashSet subcon =>
      fun obj =>
        elems <- py_iter obj ;;
        entries <- sorted elems ;;
        PrefixedArray_build (_build subcon) (VList entries)
  end.

(** [subcon.parse(data)] and [subcon.build(obj)], the public entry points. *)
Definition parse (c : Construct) (data : bytes) : result value :=
  '(obj, _) <- _parse c data ;; Ok obj.

Definition build (c : Construct) (obj : value) : result bytes := _build c obj.

(** The object that [Enum._build] hands to the codec of the variant. *)
Definition to_build (attrs : list (pystr * value)) : value :=
  let as_dict :=
    map (fun a => (VStr (fst a), asdict_anything false (snd a))) attrs in
  match dict_get as_dict (VStr TUPLE_DATA) with
  | Some tuple_data => tuple_data
  | None => VDict as_dict
  end.

(** *** Round trip

    A codec round-trips on an object when it builds it and parses what it
    built, whatever follows in the stream, back to the same object. *)
Definition roundtrips_with (b : builder) (p : parser) (v : value) : Prop :=
  exists data, b v = Ok data /\ forall rest, p (data ++ rest) = Ok (v, rest).

Definition roundtrips (c : Construct) (v : value) : Prop :=
  roundtrips_with (_build c) (_parse c) v.

(** The integers of a format of [length] bytes. *)
Definition in_range (length : nat) (signed : bool) (z : Z) : Prop :=
  let bits := 8 * Z.of_nat length in
  if signed then - 2 ^ (bits - 1) <= z < 2 ^ (bits - 1) else 0 <= z < 2 ^ bits.

(** An object that [attr.asdict] leaves as it is. *)
Definition plain (v : value) : Prop := asdict_anything false v = v.

(** The name of a field of a struct variant that passes
    [_check_variant_name] and does not hide the attribute [index]. *)
Definition field_name (n : pystr) : Prop :=
  (exists c0 s, n = c0 :: s /\ c0 <> 95) /\ n <> TUPLE_DATA /\ n <> str "index".

(** The objects of each codec on which the round trip is established.  A
    struct is given by its fields: name, codec and value.  Floats, maps and
    sets are left out, and so are, for a union, the variants whose fields
    hold an object that [attr.asdict] rewrites. *)
Inductive admits : Construct -> value -> Prop :=
| admits_Bool b : admits Bool (VBool b)
| admits_FormatField length signed z :
    in_range length signed z -> admits (FormatField length signed) (VInt z)
| admits_BytesInteger length signed swapped z :
    length <> O -> in_range length signed z ->
    admits (BytesInteger length signed swapped) (VInt z)
| admits_Bytes data :
    Z.of_nat (length data) < 2 ^ 32 -> admits Bytes (VBytes data)
| admits_String s data :
    utf8_encode s = Ok data -> Z.of_nat (length data) < 2 ^ 32 ->
    admits String (VStr s)
| admits_Vec subcon l :
    Z.of_nat (length l) < 2 ^ 32 -> Forall (admits subcon) l ->
    admits (Vec subcon) (VList l)
| admits_Array subcon l :
    Forall (admits subcon) l -> admits (Array (length l) subcon) (VList l)
| admits_TupleStruct subcons l :
    Forall2 admits subcons l -> admits (TupleStruct subcons) (VList l)
| admits_CStruct (fields : list (pystr * Construct * value)) :
    NoDup (map (fun f => fst (fst f)) fields) ->
    Forall (fun f => fst (fst f) <> []) fields ->
    Forall (fun f => admits (snd (fst f)) (snd f)) fields ->
    admits (CStruct (map (fun f => Renamed (VStr (fst (fst f))) (snd (fst f)))
                         fields))
           (VDict (map (fun f => (VStr (fst (fst f)), snd f)) fields))
| admits_Renamed name subcon v :
    admits subcon v -> admits (Renamed name subcon) v
| admits_Option_none subcon : admits (Option subcon) VNone
| admits_Option_some subcon v :
    v <> VNone -> admits subcon v -> admits (Option subcon) v
| admits_Enum_unit enum variants index cname n :
    nth_error enum index = Some (cname, unit_struct) ->
    nth_error variants index = Some (VName n) ->
    (index < 256)%nat ->
    admits (Enum enum variants) (VVariant index cname [])
| admits_Enum_tuple enum variants index cname name subcons l :
    nth_error enum index = Some (cname, tuple_struct) ->
    nth_error variants index
    = Some (VSub (Renamed name (TupleStruct subcons))) ->
    (index < 256)%nat ->
    Forall2 admits subcons l -> Forall plain l ->
    admits (Enum enum variants)
           (VVariant index cname [(TUPLE_DATA, VTuple l)])
| admits_Enum_struct enum variants index cname name
    (fields : list (pystr * Construct * value)) :
    nth_error enum index
    = Some (cname, clike_struct (map (fun f => fst (fst f)) fields)) ->
    nth_error variants index
    = Some (VSub (Renamed name
                    (CStruct (map (fun f => Renamed (VStr (fst (fst f)))
                                              (snd (fst f))) fields)))) ->
    (index < 256)%nat ->
    NoDup (map (fun f => fst (fst f)) fields) ->
    Forall (fun f => field_name (fst (fst f))) fields ->
    Forall (fun f => admits (snd (fst f)) (snd f)) fields ->
    Forall (fun f => plain (snd f)) fields ->
    admits (Enum enum variants)
           (VVariant index cname (map (fun f => (fst (fst f), snd f)) fields)).

(** Induction on a codec, with the hypothesis for every codec inside it. *)
Section ConstructInduction.
Variable P : Construct -> Prop.
Hypothesis P_Bool : P Bool.
Hypothesis P_FormatField : forall length signed, P (FormatField length signed).
Hypothesis P_BytesInteger :
  forall length signed swapped, P (BytesInteger length signed swapped).
Hypothesis P_FormatFieldNoNan : forall double, P (FormatFieldNoNan double).
Hypothesis P_Bytes : P Bytes.
Hypothesis P_String : P String.
Hypothesis P_Vec : forall subcon, P subcon -> P (Vec subcon).
Hypothesis P_Array : forall count subcon, P subcon -> P (Array count subcon).
Hypothesis P_TupleStruct :
  forall subcons, Forall P subcons -> P (TupleStruct subcons).
Hypothesis P_CStruct : forall subcons, Forall P subcons -> P (CStruct subcons).
Hypothesis P_Renamed : forall name subcon, P subcon -> P (Renamed name subcon).
Hypothesis P_Option : forall subcon, P subcon -> P (Option subcon).
Hypothesis P_Enum :
  forall enum variants,
    Forall (fun v => match v with VName _ => True | VSub sc => P sc end)
           variants ->
    P (Enum enum variants).
Hypothesis P_HashMap :
  forall key_subcon value_subcon,
    P key_subcon -> P value_subcon -> P (HashMap key_subcon value_subcon).
Hypothesis P_HashSet : forall subcon, P subcon -> P (HashSet subcon).

Fixpoint Construct_nested_ind (c : Construct) : P c :=
  match c with
  | Bool => P_Bool
  | FormatField length signed => P_FormatField length signed
  | BytesInteger length signed swapped => P_BytesInteger length signed swapped
  | FormatFieldNoNan double => P_FormatFieldNoNan double
  | Bytes => P_Bytes
  | String => P_String
  | Vec subcon => P_Vec subcon (Construct_nested_ind subcon)
  | Array count subcon => P_Array count subcon (Construct_nested_ind subcon)
  | TupleStruct subcons =>
      P_TupleStruct subcons
        ((fix all (l : list Construct) : Forall P l :=
            match l with
            | [] => Forall_nil P
            | sc :: l' => Forall_cons sc (Construct_nested_ind sc) (all l')
            end) subcons)
  | CStruct subcons =>
      P_CStruct subcons
        ((fix all (l : list Construct) : Forall P l :=
            match l with
            | [] => Forall_nil P
            | sc :: l' => Forall_cons sc (Construct_nested_ind sc) (all l')
            end) subcons)
  | Renamed name subcon => P_Renamed name subcon (Construct_nested_ind subcon)
  | Option subcon => P_Option subcon (Construct_nested_ind subcon)
  | Enum enum variants =>
      P_Enum enum variants
        ((fix all (l : list (variant_of Construct))
            : Forall (fun v => match v with
                               | VName _ => True
                               | VSub sc => P sc
                               end) l :=
            match l with
            | [] => Forall_nil _
            | v :: l' =>
                Forall_cons v
                  (match v return match v with
                                  | VName _ => True
                                  | VSub sc => P sc
                                  end with
                   | VName _ => I
                   | VSub sc => Construct_nested_ind sc
                   end)
                  (all l')
            end) variants)
  | HashMap key_subcon value_subcon =>
      P_HashMap key_subcon value_subcon (Construct_nested_ind key_subcon)
                (Construct_nested_ind value_subcon)
  | HashSet subcon => P_HashSet subcon (Construct_nested_ind subcon)
  end.
End ConstructInduction.

(** *** The size probe

    [_calc_bytes_to_read] returns the pair [(bytes_to_read, aux)].  In the
    branches that call it again, [bytes_to_read] is bound to the pair that
    the inner call returns, so the first component is either an integer or
    such a pair. *)
Inductive probe : Type :=
| PInt (n : Z)
| PTuple (bytes_to_read : probe) (aux : value).

(** For an [Option] the function calls itself on the same [subcon] and the
    rest of the stream: [again] is that call.  Reading one byte with
    [stream_read] is written as a match on the stream. *)
Fixpoint _calc_bytes_to_read (subcon : Construct)
  : bytes -> result (probe * value * bytes) :=
  fix again (stream : bytes) : result (probe * value * bytes) :=
    match sizeof subcon with
    | Some bytes_to_read => Ok (PInt bytes_to_read, VNone, stream)
    | None =>
        match subcon with
        | Option _ =>
            match stream with
            | [] => Err StreamError
            | discriminator :: stream =>
                if bytes_eqb [discriminator] is_none_flag
                then Ok (PInt 0, VNone, stream)
                else
                  '(bytes_to_read, aux, stream) <- again stream ;;
                  Ok (PTuple bytes_to_read aux, VNone, stream)
            end
        | Enum enum variants =>
            '(index_bytes, stream) <- stream_read stream 1 ;;
            let index := U8_parse index_bytes in
            subsubcon <- py_getitem
                           (map (fun v => match v with
                                          | VName n => VName n
                                          | VSub sc =>
                                              VSub (_calc_bytes_to_read sc)
                                          end) variants)
                           (VInt index) ;;
            match subsubcon with
            | VName _ =>
                variant <- getitem enum index ;;
                aux <- call variant [] [] ;;
                Ok (PInt 0, aux, stream)
            | VSub calc =>
                '(bytes_to_read, aux, stream) <- calc stream ;;
                Ok (PTuple bytes_to_read aux, VInt index, stream)
            end
        | _ => Err ValueError      (* "Unexpected type" *)
        end
    end.

Definition is_Option (c : Construct) : bool :=
  match c with Option _ => true | _ => false end.

Definition is_Enum (c : Construct) : bool :=
  match c with Enum _ _ => true | _ => false end.

Definition _parse_key_or_val (stream : bytes) (subcon : Construct)
  : result (value * bytes) :=
  '(bytes_to_read, aux, stream) <- _calc_bytes_to_read subcon stream ;;
  match bytes_to_read with
  | PInt 0 => Ok (if is_Option subcon then VNone else aux, stream)
  | PInt n =>
      if n <? 0 then Err StreamError
      else
        '(to_parse, stream) <- stream_read stream (Z.to_nat n) ;;
        to_parse <- (if is_Enum subcon
                     then prefix <- FormatField_build 4 false aux ;;
                          Ok (prefix ++ to_parse)
                     else Ok to_parse) ;;
        obj <- parse subcon to_parse ;;
        Ok (obj, stream)
  | PTuple _ _ => Err TypeError
  end.

End Borsh.

(** ** SHA-256 ([hashlib.sha256]), on 32-bit words held in [Z] *)

Module SHA256.

Definition w32 (x : Z) : Z := x mod 2 ^ 32.
Definition add (x y : Z) : Z := w32 (x + y).
Definition rotr (n x : Z) : Z :=
  Z.lor (Z.shiftr x n) (w32 (Z.shiftl x (32 - n))).
Definition Ch (x y z : Z) : Z :=
  Z.lxor (Z.land x y) (Z.land (Z.lxor x 0xFFFFFFFF) z).
Definition Maj (x y z : Z) : Z :=
  Z.lxor (Z.lxor (Z.land x y) (Z.land x z)) (Z.land y z).
Definition Sigma0 (x : Z) : Z :=
  Z.lxor (Z.lxor (rotr 2 x) (rotr 13 x)) (rotr 22 x).
Definition Sigma1 (x : Z) : Z :=
  Z.lxor (Z.lxor (rotr 6 x) (rotr 11 x)) (rotr 25 x).
Definition sigma0 (x : Z) : Z :=
  Z.lxor (Z.lxor (rotr 7 x) (rotr 18 x)) (Z.shiftr x 3).
Definition sigma1 (x : Z) : Z :=
  Z.lxor (Z.lxor (rotr 17 x) (rotr 19 x)) (Z.shiftr x 10).

(** The round constants are the first 32 bits of the fractional parts of the
    cube roots of the first 64 primes, the initial state those of the square
    roots of the first 8. *)
Definition is_prime (n : Z) : bool :=
  forallb (fun d => negb (n mod Z.of_nat d =? 0)) (seq 2 (Z.to_nat n - 2)).

Definition primes : list Z :=
  firstn 64 (filter is_prime (map Z.of_nat (seq 2 320))).

Fixpoint cube_root (steps : nat) (lo hi x : Z) : Z :=
  match steps with
  | O => lo
  | S steps' =>
      let mid := (lo + hi) / 2 in
      if mid * mid * mid <=? x then cube_root steps' mid hi x
      else cube_root steps' lo mid x
  end.

Definition K : list Z :=
  Eval vm_compute in
    map (fun p => w32 (cube_root 64 0 (2 ^ 40) (p * 2 ^ 96))) primes.

Definition state : Type := Z * Z * Z * Z * Z * Z * Z * Z.

Definition H0 : state :=
  Eval vm_compute in
    match map (fun p => w32 (Z.sqrt (p * 2 ^ 64))) primes with
    | a :: b :: c :: d :: e :: f :: g :: h :: _ => (a, b, c, d, e, f, g, h)
    | _ => (0, 0, 0, 0, 0, 0, 0, 0)
    end.

(** The message with its padding: a bit 1, zeros, and the length in bits on
    eight bytes, most significant first. *)
Definition pad (msg : bytes) : bytes :=
  let len := Z.of_nat (length msg) in
  let zeros := Z.to_nat ((55 - len) mod 64) in
  msg ++ [x80] ++ repeat x00 zeros ++ rev (int_to_le 8 (8 * len)).

Fixpoint words (n : nat) (bs : bytes) : list Z :=
  match n with
  | O => []
  | S n' =>
      match bs with
      | b0 :: b1 :: b2 :: b3 :: bs' =>
          le_to_int [b3; b2; b1; b0] :: words n' bs'
      | _ => []
      end
  end.

(** The message schedule, most recent word first. *)
Fixpoint schedule (n : nat) (w : list Z) : list Z :=
  match n with
  | O => w
  | S n' =>
      let wt := add (add (sigma1 (nth 1 w 0)) (nth 6 w 0))
                    (add (sigma0 (nth 14 w 0)) (nth 15 w 0)) in
      schedule n' (wt :: w)
  end.

Definition round (s : state) (kw : Z * Z) : state :=
  let '(a, b, c, d, e, f, g, h) := s in
  let t1 := add (add (add h (Sigma1 e)) (add (Ch e f g) (fst kw))) (snd kw) in
  let t2 := add (Sigma0 a) (Maj a b c) in
  (add t1 t2, a, b, c, add d t1, e, f, g).

Definition compress (s : state) (block : list Z) : state :=
  let w := rev (schedule 48 (rev block)) in
  let '(a, b, c, d, e, f, g, h) := fold_left round (combine K w) s in
  let '(a0, b0, c0, d0, e0, f0, g0, h0) := s in
  (add a0 a, add b0 b, add c0 c, add d0 d,
   add e0 e, add f0 f, add g0 g, add h0 h).

Fixpoint blocks (n : nat) (s : state) (bs : bytes) : state :=
  match n with
  | O => s
  | S n' => blocks n' (compress s (words 16 bs)) (skipn 64 bs)
  end.

Definition be32 (x : Z) : bytes := rev (int_to_le 4 x).

Definition digest (msg : bytes) : bytes :=
  let padded := pad msg in
  let '(a, b, c, d, e, f, g, h) :=
    blocks (length padded / 64) H0 padded in
  be32 a ++ be32 b ++ be32 c ++ be32 d ++ be32 e ++ be32 f ++ be32 g ++ be32 h.

End SHA256.

(** ** The account coder: anchorpy/coder/accounts.py *)

Module Accounts.

Definition ACCOUNT_DISCRIMINATOR_SIZE : nat := 8.

(** [sha256(f"account:{name}".encode()).digest()[:8]] *)
Definition account_discriminator (name : pystr) : result bytes :=
  data <- utf8_encode (str "account:" ++ name) ;;
  Ok (firstn 8 (SHA256.digest data)).

(** The dicts of the coder, keyed by a [str] or by [bytes]: a dict
    comprehension inserts the pairs in order, a later pair overwriting the
    value of an equal key. *)
Section Dict.
Context {K V : Type} (eqb : K -> K -> bool).

Fixpoint get (d : list (K * V)) (k : K) : option V :=
  match d with
  | [] => None
  | (k', v) :: d' => if eqb k' k then Some v else get d' k
  end.

Fixpoint put (d : list (K * V)) (k : K) (v : V) : list (K * V) :=
  match d with
  | [] => [(k, v)]
  | (k', v') :: d' =>
      if eqb k' k then (k', v) :: d' else (k', v') :: put d' k v
  end.

Definition comprehension (pairs : list (K * V)) : list (K * V) :=
  fold_left (fun d kv => put d (fst kv) (snd kv)) pairs [].
End Dict.

Section AccountsCoder.
(** The IDL and [typedef_layout] belong to other modules ([anchorpy.idl],
    [anchorpy.coder.idl]): an account definition is any type with a [name],
    and [typedef_layout] any function from an account definition and the
    types of the IDL to a codec. *)
Variable IdlTypeDef : Type.
Variable name : IdlTypeDef -> pystr.
Variable typedef_layout : IdlTypeDef -> list IdlTypeDef -> Borsh.Construct.

Record Idl : Type := {
  accounts : list IdlTypeDef;
  types : list IdlTypeDef
}.

Record AccountsCoder : Type := {
  _accounts_layout : list (pystr * Borsh.Construct);
  acc_name_to_discriminator : list (pystr * bytes);
  discriminator_to_acc_name : list (bytes * pystr);
  discriminator_to_typedef_layout : list (bytes * Borsh.Construct)
}.

(** [{acc.name: typedef_layout(acc, idl.types) for acc in idl.accounts}] *)
Definition layouts (idl : Idl) : list (pystr * Borsh.Construct) :=
  comprehension pystr_eqb
    (map (fun acc => (name acc, typedef_layout acc (types idl)))
         (accounts idl)).

(** The layout found for an entry of [acc_name_to_discriminator]; the
    default stands where the lookup would raise [KeyError]. *)
Definition layout_of (idl : Idl) (nd : pystr * bytes) : Borsh.Construct :=
  match get pystr_eqb (layouts idl) (fst nd) with
  | Some layout => layout
  | None => Borsh.Bool
  end.

(** [AccountsCoder.__init__] *)
Definition new_AccountsCoder (idl : Idl) : result AccountsCoder :=
  let layouts := layouts idl in
  discs <- mapM (fun acc => d <- account_discriminator (name acc) ;;
                            Ok (name acc, d)) (accounts idl) ;;
  let name_to_disc := comprehension pystr_eqb discs in
  let disc_to_name :=
    comprehension Borsh.bytes_eqb
      (map (fun nd => (snd nd, fst nd)) name_to_disc) in
  disc_to_layout <-
    mapM (fun nd => match get pystr_eqb layouts (fst nd) with
                    | Some layout => Ok (snd nd, layout)
                    | None => Err KeyError
                    end) name_to_disc ;;
  Ok {| _accounts_layout := layouts;
        acc_name_to_discriminator := name_to_disc;
        discriminator_to_acc_name := disc_to_name;
        discriminator_to_typedef_layout :=
          comprehension Borsh.bytes_eqb disc_to_layout |}.

Variable self : AccountsCoder.

(** [Switch(lambda this: this.discriminator, cases)]: an unknown key
    selects [Pass], which reads and writes nothing. *)
Definition Switch_parse (key : bytes) : Borsh.parser :=
  match get Borsh.bytes_eqb (discriminator_to_typedef_layout self) key with
  | Some sc => Borsh._parse sc
  | None => fun stream => Ok (VNone, stream)
  end.

Definition Switch_build (key : bytes) : Borsh.builder :=
  match get Borsh.bytes_eqb (discriminator_to_typedef_layout self) key with
  | Some sc => Borsh._build sc
  | None => fun _ => Ok []
  end.

(** [Sequence("discriminator" / Bytes(8), Switch(...))] *)
Definition subcon_parse (stream : bytes)
  : result (bytes * value * bytes) :=
  '(discriminator, stream) <-
    stream_read stream ACCOUNT_DISCRIMINATOR_SIZE ;;
  '(data, stream) <- Switch_parse discriminator stream ;;
  Ok (discriminator, data, stream).

Definition subcon_build (obj : bytes * value) : result bytes :=
  let '(discriminator, data) := obj in
  if negb (length discriminator =? ACCOUNT_DISCRIMINATOR_SIZE)%nat
  then Err StreamError
  else
    payload <- Switch_build discriminator data ;;
    Ok (discriminator ++ payload).

Definition _decode (obj : bytes * value) : result value :=
  match get Borsh.bytes_eqb (discriminator_to_acc_name self) (fst obj) with
  | Some acc_name =>
      Ok (VDict [(VStr (str "data"), snd obj);
                 (VStr (str "name"), VStr acc_name)])
  | None => Err KeyError
  end.

Definition subscript (obj : value) (key : pystr) : result value :=
  match obj with
  | VDict d =>
      match dict_get d (VStr key) with
      | Some v => Ok v
      | None => Err KeyError
      end
  | _ => Err TypeError
  end.

Definition _encode (obj : value) : result (bytes * value) :=
  acc_name <- subscript obj (str "name") ;;
  discriminator <-
    match acc_name with
    | VStr n =>
        match get pystr_eqb (acc_name_to_discriminator self) n with
        | Some d => Ok d
        | None => Err KeyError
        end
    | _ => Err KeyError
    end ;;
  data <- subscript obj (str "data") ;;
  Ok (discriminator, data).

Definition _parse (stream : bytes) : result (value * bytes) :=
  '(discriminator, data, stream) <- subcon_parse stream ;;
  obj <- _decode (discriminator, data) ;;
  Ok (obj, stream).

Definition _build (obj : value) : result bytes :=
  obj2 <- _encode obj ;;
  subcon_build obj2.

End AccountsCoder.

Arguments new_AccountsCoder {IdlTypeDef} name typedef_layout idl.
Arguments layouts {IdlTypeDef} name typedef_layout idl.
Arguments layout_of {IdlTypeDef} name typedef_layout idl nd.
Arguments accounts {IdlTypeDef} i.
Arguments types {IdlTypeDef} i.

End Accounts.

(** ** The behaviour the specification describes, where it is compared with
    the code *)

Module Spec.

(** Insertion sort of entries by the lexicographic order of a byte string
    attached to each. *)
Fixpoint insert_by_bytes {A} (key : A -> bytes) (x : A) (l : list A)
  : list A :=
  match l with
  | [] => [x]
  | y :: l' =>
      if bytes_ltb (key y) (key x) then y :: insert_by_bytes key x l'
      else x :: y :: l'
  end.

Fixpoint sort_by_bytes {A} (key : A -> bytes) (l : list A) : list A :=
  match l with
  | [] => []
  | x :: l' => insert_by_bytes key x (sort_by_bytes key l')
  end.

(** Section 4.4 and the table of section 6 for a map: every entry is encoded,
    the entries are sorted ascending by the encoded key bytes, and emitted
    after a u32 little-endian count. *)
Definition encode_map (K V : Borsh.Construct) (d : list (value * value))
  : result bytes :=
  entries <- mapM (fun kv => k <- Borsh.build K (fst kv) ;;
                             v <- Borsh.build V (snd kv) ;;
                             Ok (k, v)) d ;;
  Ok (int_to_le 4 (Z.of_nat (length d))
      ++ concat (map (fun e => fst e ++ snd e) (sort_by_bytes fst entries))).

(** The same for a set, sorted by the encoded element bytes. *)
Definition encode_set (T : Borsh.Construct) (s : list value) : result bytes :=
  entries <- mapM (Borsh.build T) s ;;
  Ok (int_to_le 4 (Z.of_nat (length s))
      ++ concat (sort_by_bytes (fun e => e) entries)).

(** Section 4.7 for an Option over a codec of static size [inner]: the tag is
    read; absent gives size 1, present gives 1 plus the size of the inner
    codec. *)
Definition probe_option (inner : Z) (stream : bytes) : result Z :=
  match stream with
  | [] => Err StreamError
  | tag :: _ => Ok (if byte_eqb tag x00 then 1 else 1 + inner)
  end.

End Spec.

(** ** Schemas and values used in the statements *)

Module Examples.
Import Borsh.

Definition b (z : Z) : byte := byte_of_Z z.

(** ["name" / subcon] *)
Definition named (name : string) (subcon : Construct) : Construct :=
  Renamed (VStr (str name)) subcon.

(** [Enum("A", "B", "C" / CStruct("x" / U8))] *)
Definition three_variants : list (variant_of Construct) :=
  [VName (str "A"); VName (str "B");
   VSub (named "C" (CStruct [named "x" U8]))].

(** [Enum("A" / CStruct("x" / Enum("B")))]: a union inside the payload of a
    union. *)
Definition nested_variants (inner : Construct) : list (variant_of Construct) :=
  [VSub (named "A" (CStruct [named "x" inner]))].

Definition nested_enum : result Construct :=
  inner <- new_Enum [VName (str "B")] ;;
  new_Enum (nested_variants inner).

(** [A(x=B())] *)
Definition nested_value : value :=
  VVariant 0 (str "A") [(str "x", VVariant 0 (str "B") [])].

(** [Enum("A" / CStruct("index" / U8), "B" / CStruct("index" / U8))] *)
Definition index_variants : list (variant_of Construct) :=
  [VSub (named "A" (CStruct [named "index" U8]));
   VSub (named "B" (CStruct [named "index" U8]))].

(** [A(index=1)] and [B(index=1)] *)
Definition index_value_A : value :=
  VVariant 0 (str "A") [(str "index", VInt 1)].
Definition index_value_B : value :=
  VVariant 1 (str "B") [(str "index", VInt 1)].

(** [{"b": 1, "aa": 2}] and [{256, 1}] *)
Definition map_b_aa : list (value * value) :=
  [(VStr (str "b"), VInt 1); (VStr (str "aa"), VInt 2)].
Definition set_256_1 : list value := [VInt 256; VInt 1].

(** [{"b": 1, "a": 2}], the map of scenario 5. *)
Definition map_b_a : list (value * value) :=
  [(VStr (str "b"), VInt 1); (VStr (str "a"), VInt 2)].


(** An IDL whose account definitions are pairs of a name and a layout:
    [MyAccount] with the single field [data: u64], as in the sample program
    [basic_1] that accounts.py decodes. *)
Definition my_idl : Accounts.Idl (pystr * Construct) :=
  {| Accounts.accounts := [(str "MyAccount", CStruct [named "data" U64])];
     Accounts.types := [] |}.

Definition my_coder : result Accounts.AccountsCoder :=
  Accounts.new_AccountsCoder fst (fun acc _ => snd acc) my_idl.

(** [raw_acc_data] of accounts.py *)
Definition raw_acc_data : bytes :=
  [xf6; x1c; x06; x57; xfb; x2d; x32; x2a;
   xd2; x04; x00; x00; x00; x00; x00; x00].

End Examples.

(** ** Keys of maps and elements of sets

    The host values whose mutual order is used below: the keys (elements) of
    a collection are all integers, or all strings, or all byte strings. *)

Module Keys.

Definition is_int (v : value) : Prop := exists z, v = VInt z.
Definition is_str (v : value) : Prop := exists s, v = VStr s.
Definition is_bytes (v : value) : Prop := exists bs, v = VBytes bs.

Definition homogeneous (ks : list value) : Prop :=
  Forall is_int ks \/ Forall is_str ks \/ Forall is_bytes ks.

(** [a < b] holds in Python. *)
Definition lt (a b : value) : Prop := py_lt a b = Ok true.

(** A class [P] of host values that [==] and [<] order totally. *)
Record ordered_class (P : value -> Prop) : Prop := {
  oc_eq : forall a b, P a -> P b -> (py_eq a b = true <-> a = b);
  oc_defined : forall a b, P a -> P b -> exists r, py_lt a b = Ok r;
  oc_total : forall a b, P a -> P b -> a <> b -> lt a b \/ lt b a;
  oc_irrefl : forall a, P a -> ~ lt a a;
  oc_trans : forall a b c, P a -> P b -> P c -> lt a b -> lt b c -> lt a c
}.

Arguments oc_eq {P} o a b.
Arguments oc_defined {P} o a b.
Arguments oc_total {P} o a b.
Arguments oc_irrefl {P} o a.
Arguments oc_trans {P} o a b c.

(** The items [(k, v)] of a dict whose keys are in the class [P]. *)
Definition item_of (P : value -> Prop) (item : value) : Prop :=
  exists k v, item = VTuple [k; v] /\ P k.

(** The key of an item [(k, v)] of a dict. *)
Definition item_key (item : value) : value :=
  match item with
  | VTuple [k; _] => k
  | _ => item
  end.

(** The bytes of one entry of a map: the key, then the value. *)
Definition entry_encoding (K V : Borsh.Construct) (kv : value * value)
  : result bytes :=
  k <- Borsh._build K (fst kv) ;;
  v <- Borsh._build V (snd kv) ;;
  Ok (k ++ v).

End Keys.

(** ** NaN bit patterns

    The IEEE-754 encodings of NaN, by their masks: all the bits of the
    exponent set and some bit of the fraction set. *)

Module IEEE.

Definition nan_bits32 (x : Z) : Prop :=
  Z.land x 0x7F800000 = 0x7F800000 /\ Z.land x 0x007FFFFF <> 0.

Definition nan_bits64 (x : Z) : Prop :=
  Z.land x 0x7FF0000000000000 = 0x7FF0000000000000
  /\ Z.land x 0x000FFFFFFFFFFFFF <> 0.

(** The little-endian payload [data] of an [f32] or of an [f64] ([double])
    holds a NaN. *)
Definition nan_payload (double : bool) (data : bytes) : Prop :=
  if double then nan_bits64 (le_to_int data) else nan_bits32 (le_to_int data).

End IEEE.

(** ** The variant declarations that [_make_enum] accepts *)

Module Schema.
Import Borsh.

(** A field name that [_check_variant_name] lets through: a non-empty [str]
    other than [TUPLE_DATA] whose first character is not an underscore. *)
Definition valid_field_name (name : value) : Prop :=
  exists c0 s, name = VStr (c0 :: s) /\ c0 <> 95 /\ c0 :: s <> TUPLE_DATA.

(** A name under which [setattr] stores a constructor on the class. *)
Definition settable (n : pystr) : Prop := type_descriptor n = None.

(** A variant is a [str], or a tuple or a struct with a non-empty [str] for
    a name; the fields of a struct have valid names.  The name of the
    variant itself is not examined any further: it only has to be one that
    the class takes. *)
Definition valid_variant (v : variant_of Construct) : Prop :=
  match v with
  | VName n => settable n
  | VSub (Renamed (VStr n) (TupleStruct _)) => n <> [] /\ settable n
  | VSub (Renamed (VStr n) (CStruct subcons)) =>
      n <> [] /\ settable n
      /\ Forall (fun sc => valid_field_name (name_of sc)) subcons
  | VSub _ => False
  end.

(** An ordinary name: an identifier of ASCII letters, digits and
    underscores that starts with a letter, other than the keywords of
    Python and [self], the first parameter of the [__init__] that attrs
    writes for a constructor. *)
Definition is_letter (c : Z) : bool :=
  ((65 <=? c) && (c <=? 90)) || ((97 <=? c) && (c <=? 122)).

Definition is_digit (c : Z) : bool := (48 <=? c) && (c <=? 57).

Definition is_identifier (n : pystr) : bool :=
  match n with
  | [] => false
  | c0 :: s =>
      is_letter c0
      && forallb (fun c => is_letter c || is_digit c || (c =? 95)) s
  end.

Definition keywords : list pystr :=
  map str ["False"; "None"; "True"; "and"; "as"; "assert"; "async"; "await";
           "break"; "class"; "continue"; "def"; "del"; "elif"; "else";
           "except"; "finally"; "for"; "from"; "global"; "if"; "import";
           "in"; "is"; "lambda"; "nonlocal"; "not"; "or"; "pass"; "raise";
           "return"; "try"; "while"; "with"; "yield"]%string.

Definition ordinary (n : pystr) : Prop :=
  is_identifier n = true
  /\ existsb (pystr_eqb n) (str "self" :: keywords) = false.

(** A variant declared with ordinary names only; the fields of a struct are
    distinct and none is called [tuple_data]. *)
Definition ordinary_variant (v : variant_of Construct) : Prop :=
  match v with
  | VName n => ordinary n
  | VSub (Renamed (VStr n) (TupleStruct _)) => ordinary n
  | VSub (Renamed (VStr n) (CStruct subcons)) =>
      ordinary n
      /\ exists fields,
           map name_of subcons = map VStr fields
           /\ Forall ordinary fields
           /\ ~ In TUPLE_DATA fields
           /\ NoDup fields
  | VSub _ => False
  end.

(** What a valid variant declares: the name of a constructor and the names
    of its attributes. *)
Definition field_names (subcons : list Construct) : list pystr :=
  flat_map (fun sc => match name_of sc with VStr n => [n] | _ => [] end)
           subcons.

Definition declaration (v : variant_of Construct) : pystr * constructor :=
  match v with
  | VName n => (n, unit_struct)
  | VSub (Renamed (VStr n) (CStruct subcons)) =>
      (n, clike_struct (field_names subcons))
  | VSub (Renamed (VStr n) _) => (n, tuple_struct)
  | VSub _ => ([], unit_struct)
  end.

End Schema.


(** ** Notions used in the further properties *)

(** *** Parsers and builders on a stream *)

Module Stream.
Import Borsh.

(** A parser whose result depends on the bytes it consumes only: it returns
    a suffix of the stream, and the same object whatever replaces that
    suffix. *)
Definition framed {A} (p : bytes -> result (A * bytes)) : Prop :=
  forall stream a rest,
    p stream = Ok (a, rest) ->
    exists data,
      stream = data ++ rest
      /\ forall rest', p (data ++ rest') = Ok (a, rest').

(** A parser that consumes [n] bytes whenever it succeeds, and a builder
    that writes [n] bytes whenever it succeeds. *)
Definition consumes {A} (p : bytes -> result (A * bytes)) (n : Z) : Prop :=
  forall stream a rest,
    p stream = Ok (a, rest) ->
    Z.of_nat (length stream) = n + Z.of_nat (length rest).

Definition produces (b : builder) (n : Z) : Prop :=
  forall obj data, b obj = Ok data -> Z.of_nat (length data) = n.

End Stream.

Module Canonical.
Import Borsh.

(** *** Codecs with a single encoding for each object

    The codecs that decode nothing but what they encode: the integers, the
    double, byte strings, strings, and the vectors, arrays, tuples and
    structs made of them.  [Bool] and [Option] accept any non-zero byte for
    0x01, [HashMap] and [HashSet] accept entries in any order, and [F32]
    goes through a double: they are left out, and so is [Enum]. *)
Inductive strict : Construct -> Prop :=
| strict_FormatField length signed :
    length <> O -> strict (FormatField length signed)
| strict_BytesInteger length signed swapped :
    strict (BytesInteger length signed swapped)
| strict_F64 : strict (FormatFieldNoNan true)
| strict_Bytes : strict Bytes
| strict_String : strict String
| strict_Vec subcon : strict subcon -> strict (Vec subcon)
| strict_Array count subcon : strict subcon -> strict (Array count subcon)
| strict_TupleStruct subcons :
    Forall strict subcons -> strict (TupleStruct subcons)
| strict_CStruct (fields : list (pystr * Construct)) :
    NoDup (map fst fields) ->
    Forall (fun f => fst f <> []) fields ->
    Forall (fun f => strict (snd f)) fields ->
    strict (CStruct (map (fun f => Renamed (VStr (fst f)) (snd f)) fields))
| strict_Renamed name subcon : strict subcon -> strict (Renamed name subcon).

(** A parser that accepts only what the builder writes for the object it
    returns. *)
Definition canonical (p : parser) (b : builder) : Prop :=
  forall stream v rest,
    p stream = Ok (v, rest) ->
    exists data, stream = data ++ rest /\ b v = Ok data.

End Canonical.

Module Unicode.

(** *** Strings that UTF-8 encodes: sequences of Unicode scalar values *)
Definition scalar (c : Z) : Prop :=
  0 <= c <= 0x10FFFF /\ ~ (0xD800 <= c <= 0xDFFF).

End Unicode.

Module EnumClass.
Import Borsh.

(** The names that a list of variants declares, in order. *)
Definition names (variants : list (variant_of Construct)) : list pystr :=
  map (fun v => fst (Schema.declaration v)) variants.

(** A union of [n] unit variants called by the single characters of code
    points 256, 257, ... *)
Definition units (n : nat) : list (variant_of Construct) :=
  map (fun i => VName [256 + Z.of_nat i]) (seq 0 n).

End EnumClass.

Module Collections.

(** Objects no two of which are equal in Python. *)
Definition pairwise_distinct (l : list value) : Prop :=
  ForallOrdPairs (fun a b => py_eq a b = false) l.

(** The codecs that decode to a list, a dict or a set: construct's
    [ListContainer] and [Container], and Python's [dict] and [set], none of
    which can be hashed. *)
Fixpoint yields_container (c : Borsh.Construct) : bool :=
  match c with
  | Borsh.Vec _ | Borsh.Array _ _ | Borsh.TupleStruct _ | Borsh.CStruct _
  | Borsh.HashMap _ _ | Borsh.HashSet _ => true
  | Borsh.Renamed _ subcon => yields_container subcon
  | _ => false
  end.

End Collections.

Module Single.

(** *** Binary32 values *)

(** The double of the same value as a binary32, as [struct.unpack("<f")]
    returns it. *)
Definition widen (g : spec_float) : spec_float :=
  match g with
  | S754_finite s m e => binary_round 53 1024 s m e
  | S754_zero s => S754_zero s
  | S754_infinity s => S754_infinity s
  | S754_nan => S754_nan
  end.

End Single.

(** ** The examples of [main] in borsh.py *)

Module Main.
Import Borsh.

(** The struct [s] and the object that [main] builds with it: the fields
    with their codecs and values. *)
Definition s_fields : list (pystr * Construct * value) :=
  [(str "myu128", U128, VInt 123456);
   (str "string_field", String, VStr (str "abc"));
   (str "myu128_1", U128, VInt 0xFFFFFFFFFFFFFFFFFFFFFFFFFFFFFFFF)].

Definition s : Construct :=
  CStruct (map (fun f => Renamed (VStr (fst (fst f))) (snd (fst f))) s_fields).


(** [a = String[5]] and the list of six strings that [main] builds with
    it. *)
Definition a : Construct := Array 5 String.

Definition a_object : value :=
  VList (map (fun c => VStr (str c)) ["a"; "b"; "c"; "d"; "e"; "f"]%string).

End Main.

(** * Properties of the codec *)

Import Borsh.

(** ** Reading from the stream *)

Lemma stream_read_one (x : byte) (rest : bytes) :
  stream_read (x :: rest) 1 = Ok ([x], rest).
Proof. reflexivity. Qed.

Lemma stream_read_app (data rest : bytes) :
  stream_read (data ++ rest) (length data) = Ok (data, rest).
Proof.
  unfold stream_read.
  rewrite length_app, (proj2 (Nat.leb_le _ _)) by lia.
  now rewrite firstn_app, firstn_all, Nat.sub_diag, skipn_app, skipn_all,
    Nat.sub_diag, app_nil_r.
Qed.

Lemma byte_eqb_x00 (x : byte) : x <> x00 -> byte_eqb x x00 = false.
Proof.
  intros H. unfold byte_eqb.
  destruct (Byte.eqb x x00) eqn:E; [|reflexivity].
  apply Byte.byte_dec_bl in E. contradiction.
Qed.

Lemma Z_of_byte_range (x : byte) : 0 <= Z_of_byte x < 256.
Proof.
  unfold Z_of_byte. pose proof (Byte.to_N_bounded x) as H.
  lia.
Qed.

Lemma U8_parse_one (x : byte) : U8_parse [x] = Z_of_byte x.
Proof.
  unfold U8_parse, unpack_int. cbn [andb le_to_int]. lia.
Qed.

Lemma Ok_inj {A} (a b : A) : Ok a = Ok b -> a = b.
Proof. now intros [= ->]. Qed.

Lemma Some_inj {A} (a b : A) : Some a = Some b -> a = b.
Proof. now intros [= ->]. Qed.

Lemma nth_error_Some_lt {A} (l : list A) (n : nat) (a : A) :
  nth_error l n = Some a -> (n < length l)%nat.
Proof. intros H. apply nth_error_Some. congruence. Qed.

Lemma raises_bind {A B} (r : result A) (k : A -> result B) :
  raises r -> raises (bind r k).
Proof. intros [e ->]. now exists e. Qed.

#[local] Hint Unfold raises : core.

(** ** Booleans *)

(** C4, as the code has it: [Bool] is construct's [Flag], whose decoder reads
    one byte, yields [False] on 0x00 and [True] on every other byte, and
    fails only when the stream is empty. *)
Theorem bool_parse_any_byte :
  (forall rest, _parse Bool (x00 :: rest) = Ok (VBool false, rest))
  /\ (forall x rest, x <> x00 -> _parse Bool (x :: rest) = Ok (VBool true, rest))
  /\ _parse Bool [] = Err StreamError.
Proof.
  repeat split.
  - intros x rest Hx. cbn [_parse]. rewrite stream_read_one.
    cbn [bind bytes_eqb]. now rewrite (byte_eqb_x00 _ Hx).
Qed.

Lemma bool_parse_any_byte_witness :
  x02 <> x00 /\ _parse Bool [x02; x05] = Ok (VBool true, [x05]).
Proof.
  assert (H : x02 <> x00) by discriminate.
  split; [exact H|].
  exact (proj1 (proj2 bool_parse_any_byte) x02 [x05] H).
Defined.

(** C4 as stated fails: the byte 0x02 decodes to [True] without an error. *)
Lemma bool_parse_rejects_counterexample :
  ~ raises (parse Bool [x02]) /\ parse Bool [x02] = Ok (VBool true).
Proof.
  split; [intros [e He]; discriminate He | reflexivity].
Qed.

(** ** Option *)

(** C9: [Option._parse] never rejects a tag byte: 0x00 yields [None], and
    after any other first byte the rest of the stream is decoded by the inner
    codec; [0x02, 0x05] decodes to 5 as an [Option(U8)]. *)
Theorem option_parse_any_tag :
  (forall T rest, _parse (Option T) (x00 :: rest) = Ok (VNone, rest))
  /\ (forall T tag rest,
        tag <> x00 -> _parse (Option T) (tag :: rest) = _parse T rest)
  /\ parse (Option U8) [x02; x05] = Ok (VInt 5).
Proof.
  repeat split.
  intros T tag rest Htag. cbn [_parse]. rewrite stream_read_one.
  cbn [bind bytes_eqb is_none_flag]. now rewrite (byte_eqb_x00 _ Htag).
Qed.

Lemma option_parse_any_tag_witness :
  xff <> x00 /\ _parse (Option U16) [xff; x01; x02] = _parse U16 [x01; x02].
Proof.
  assert (H : xff <> x00) by discriminate.
  split; [exact H|].
  exact (proj1 (proj2 option_parse_any_tag) U16 xff [x01; x02] H).
Defined.

(** ** Enum: the discriminant *)

Lemma py_getitem_out_of_range {A} (seq : list A) (i : Z) :
  Z.of_nat (length seq) <= i -> py_getitem seq (VInt i) = Err IndexError.
Proof.
  intros H. unfold py_getitem.
  destruct (i <? 0) eqn:E; [lia|].
  replace (i <? Z.of_nat (length seq)) with false by lia.
  now rewrite andb_false_r.
Qed.

(** C7: decoding with a union of N declared variants fails when the first
    byte of the stream is a discriminant greater than or equal to N. *)
Theorem enum_parse_discriminant_bound enum variants (first : byte) rest :
  Z.of_nat (length variants) <= Z_of_byte first ->
  raises (_parse (Enum enum variants) (first :: rest))
  /\ raises (parse (Enum enum variants) (first :: rest)).
Proof.
  intros H.
  assert (Hr : raises (_parse (Enum enum variants) (first :: rest))).
  { cbn [_parse]. rewrite stream_read_one. cbn [bind].
    rewrite U8_parse_one.
    destruct (getitem enum (Z_of_byte first)) as [variant|e]; cbn [bind];
      [|now exists e].
    rewrite py_getitem_out_of_range by (now rewrite length_map).
    now exists IndexError. }
  split; [exact Hr | now apply raises_bind].
Qed.

Lemma enum_parse_discriminant_bound_witness :
  exists e, new_Enum Examples.three_variants = Ok e
            /\ raises (parse e [x03; x07]).
Proof.
  eexists. split; [reflexivity|].
  apply enum_parse_discriminant_bound. vm_compute. discriminate.
Defined.

(** ** The size probe *)

(** C5, as the code has it: on an [Option] the probe reads the tag byte and,
    when the tag marks absence, returns 0, the number of bytes left to read
    after the tag; [_parse_key_or_val] takes that 0 for [None]. *)
Theorem option_probe_absent :
  (forall T rest,
     _calc_bytes_to_read (Option T) (x00 :: rest) = Ok (PInt 0, VNone, rest))
  /\ (forall T, _calc_bytes_to_read (Option T) [] = Err StreamError)
  /\ (forall T rest, _parse_key_or_val (x00 :: rest) (Option T) = Ok (VNone, rest)).
Proof.
  repeat split; intros; reflexivity.
Qed.

(** C5 as stated fails: for [Option(U8)] the probe returns 0 on an absent
    value where the specification has 1, and raises on a present value where
    the specification has 2. *)
Lemma option_probe_counterexample :
  _calc_bytes_to_read (Option U8) [x00] = Ok (PInt 0, VNone, [])
  /\ Spec.probe_option 1 [x00] = Ok 1
  /\ _calc_bytes_to_read (Option U8) [x01; x05] = Err StreamError
  /\ Spec.probe_option 1 [x01; x05] = Ok 2.
Proof. repeat split. Qed.

(** ** Enum: encoding *)

(** Scenario 4: the unit variant at index 1 of a union of three variants
    encodes to the single byte 0x01. *)
Lemma enum_build_unit_variant :
  (e <- new_Enum Examples.three_variants ;;
   obj <- parse e [x01] ;;
   build e obj) = Ok [x01].
Proof. reflexivity. Qed.

Lemma py_getitem_nat {A} (seq : list A) (i : nat) (a : A) :
  py_getitem seq (VInt (Z.of_nat i)) = Ok a -> nth_error seq i = Some a.
Proof.
  unfold py_getitem.
  assert (E : (Z.of_nat i <? 0) = false) by (apply Z.ltb_ge; lia).
  rewrite E.
  destruct (_ && _); [|discriminate].
  rewrite Nat2Z.id. destruct (nth_error seq i); [|discriminate].
  now intros [= ->].
Qed.

(** What C6 describes holds for every value that has no field called
    [index]: when [Enum._build] succeeds, it has written the ordinal of the
    variant on one byte, then nothing for a variant without fields, and
    otherwise what the codec declared at that ordinal writes for the fields
    of the value. *)
Lemma enum_build_discriminant enum variants index cname attrs out :
  assoc (str "index") attrs = None ->
  _build (Enum enum variants) (VVariant index cname attrs) = Ok out ->
  exists payload,
    out = byte_of_Z (Z.of_nat index) :: payload
    /\ (index < length variants)%nat
    /\ (attrs = [] -> payload = [])
    /\ (attrs <> [] ->
        exists sc, nth_error variants index = Some (VSub sc)
                   /\ _build sc (to_build attrs) = Ok payload).
Proof.
  intros Hidx.
  assert (Hb : _build (Enum enum variants) (VVariant index cname attrs) =
               (builder <- py_getitem
                             (map (fun v => match v with
                                            | VName n => VName n
                                            | VSub sc => VSub (_build sc)
                                            end) variants)
                             (VInt (Z.of_nat index)) ;;
                index_byte <- FormatField_build 1 false
                                (VInt (Z.of_nat index)) ;;
                if negb (length attrs =? 0)%nat then
                  match builder with
                  | VName _ => Err AttributeError
                  | VSub build =>
                      data <- build (to_build attrs) ;;
                      Ok (index_byte ++ data)
                  end
                else Ok index_byte)).
  { cbn [_build index_attr asdict]. rewrite Hidx. cbn [bind truthy].
    rewrite length_map. reflexivity. }
  rewrite Hb. clear Hb.
  destruct (py_getitem _ (VInt (Z.of_nat index))) as [builder|] eqn:Eg;
    [|discriminate].
  apply py_getitem_nat in Eg. cbn [bind].
  unfold FormatField_build, pack_int.
  destruct (_ && _); [|discriminate]. cbn [bind int_to_le].
  assert (Hlt : (index < length variants)%nat).
  { apply nth_error_Some_lt in Eg. now rewrite length_map in Eg. }
  destruct attrs as [|a attrs].
  - cbn [length Nat.eqb negb]. intros H. apply Ok_inj in H. subst out.
    exists []. repeat split; auto. now intros [].
  - cbn [length Nat.eqb negb].
    rewrite nth_error_map in Eg.
    destruct (nth_error variants index) as [[n|sc]|] eqn:En;
      try discriminate; cbn [option_map] in Eg;
      apply Some_inj in Eg; subst builder; [discriminate|].
    destruct (_build sc (to_build (a :: attrs))) as [payload|] eqn:Ep;
      [|discriminate].
    cbn [bind]. intros H. apply Ok_inj in H. subst out.
    exists payload. repeat split; auto; [discriminate|].
    intros _. now exists sc.
Qed.

(** C6 fails on the code for a struct variant with a field called [index]:
    [obj.index] then reads the field of the instance, not the ordinal that
    [rust_enum] stored on its class.  [A(index=1)], of ordinal 0, is encoded
    with the discriminant 1, and the bytes decode to [B(index=1)]. *)
Theorem enum_build_index_field_shadows_ordinal :
  exists e,
    new_Enum Examples.index_variants = Ok e
    /\ parse e [x00; x01] = Ok Examples.index_value_A
    /\ build e Examples.index_value_A = Ok [x01; x01]
    /\ parse e [x01; x01] = Ok Examples.index_value_B.
Proof. eexists. repeat split. Qed.

(** C1 fails on the code for a union nested in the payload of a union:
    decoding [0x00, 0x00] yields [A(x=B())], and encoding that value raises,
    [attr.asdict] having turned the inner [B()] into a dict, which has no
    [index]. *)
Theorem nested_enum_value_is_not_encodable :
  exists e,
    Examples.nested_enum = Ok e
    /\ parse e [x00; x00] = Ok Examples.nested_value
    /\ build e Examples.nested_value = Err AttributeError.
Proof. eexists. repeat split. Qed.

(** ** Enum: schema validation *)

Lemma pystr_eqb_eq (a b : pystr) : pystr_eqb a b = true <-> a = b.
Proof.
  revert b. induction a as [|x a IH]; intros [|y b]; cbn; try easy.
  rewrite andb_true_iff, Z.eqb_eq, IH.
  split; [intros [-> ->]; reflexivity | intros [= -> ->]; auto].
Qed.

Lemma pystr_eqb_neq (a b : pystr) : pystr_eqb a b = false <-> a <> b.
Proof.
  rewrite <- pystr_eqb_eq. destruct (pystr_eqb a b); easy.
Qed.

Lemma mapM_nil {A B} (f : A -> result B) : mapM f [] = Ok [].
Proof. reflexivity. Qed.

Lemma mapM_cons {A B} (f : A -> result B) (a : A) (l : list A) :
  mapM f (a :: l) = (b <- f a ;; bs <- mapM f l ;; Ok (b :: bs)).
Proof. reflexivity. Qed.

Lemma mapM_ok {A B} (f : A -> result B) (l : list A) :
  (exists r, mapM f l = Ok r) <-> Forall (fun a => exists b, f a = Ok b) l.
Proof.
  induction l as [|a l IH].
  - split; [constructor | now exists []].
  - rewrite mapM_cons. split.
    + intros [r Hr]. destruct (f a) as [b|] eqn:Ea; [|discriminate].
      cbn [bind] in Hr. destruct (mapM f l) as [bs|] eqn:El; [|discriminate].
      constructor; [now exists b | apply IH; now exists bs].
    + intros H. inversion H as [|? ? [b Hb] Hl]; subst.
      apply IH in Hl as [bs Hbs]. rewrite Hb, Hbs. now exists (b :: bs).
Qed.

Lemma check_variant_name_str (s : pystr) :
  _check_variant_name (VStr s) =
  if pystr_eqb s TUPLE_DATA then Err ValueError
  else match s with
       | [] => Err IndexError
       | c0 :: _ => if c0 =? 95 then Err ValueError else Ok tt
       end.
Proof.
  destruct s as [|c0 s]; [reflexivity|].
  unfold _check_variant_name. cbn [bind _check_name_not_null py_eq].
  destruct (pystr_eqb (c0 :: s) TUPLE_DATA); [reflexivity|].
  change (pystr_eqb [c0] (str "_")) with ((c0 =? 95) && true).
  now rewrite andb_true_r.
Qed.

Lemma check_variant_name_ok (name : value) :
  (exists u, _check_variant_name name = Ok u) <-> Schema.valid_field_name name.
Proof.
  unfold Schema.valid_field_name. split.
  - intros [u Hu].
    destruct name as [| | | | |s| | | | |]; try discriminate Hu.
    rewrite check_variant_name_str in Hu.
    destruct (pystr_eqb s TUPLE_DATA) eqn:Et; [discriminate|].
    destruct s as [|c0 s]; [discriminate|].
    destruct (c0 =? 95) eqn:Ec; [discriminate|].
    exists c0, s. repeat split; [lia | now apply pystr_eqb_neq].
  - intros (c0 & s & -> & Hc & Ht). rewrite check_variant_name_str.
    apply pystr_eqb_neq in Ht. rewrite Ht.
    replace (c0 =? 95) with false by lia. now exists tt.
Qed.

Lemma name_of_cases (c : Construct) :
  name_of c = VNone \/ truthy (name_of c) = true.
Proof.
  induction c; cbn [name_of]; auto.
  destruct (truthy name) eqn:E; [right; exact E | exact IHc].
Qed.

Lemma name_of_Renamed (name : value) (subcon : Construct) (n : pystr) :
  name_of subcon = VNone ->
  name_of (Renamed name subcon) = VStr n -> name = VStr n /\ n <> [].
Proof.
  intros Hs. cbn [name_of]. destruct (truthy name) eqn:E.
  - intros ->. split; [reflexivity|]. intros ->. discriminate E.
  - rewrite Hs. discriminate.
Qed.

Lemma name_of_named (n : pystr) (subcon : Construct) :
  n <> [] -> name_of (Renamed (VStr n) subcon) = VStr n.
Proof. destruct n; [contradiction | reflexivity]. Qed.

Lemma py_setattr_ok enum_def (name : value) (c : constructor) :
  (exists e, py_setattr enum_def name c = Ok e)
  <-> exists n, name = VStr n /\ Schema.settable n.
Proof.
  unfold py_setattr, Schema.settable. split.
  - intros [e He]. destruct name; try discriminate He.
    destruct (type_descriptor s) eqn:Et; [discriminate He|]. now exists s.
  - intros (n & -> & Hn). rewrite Hn. now eexists.
Qed.

Lemma handle_cstruct_variant_ok subcons (name : value) enum_def :
  (exists e, _handle_cstruct_variant subcons name enum_def = Ok e)
  <-> (exists n, name = VStr n /\ Schema.settable n)
      /\ Forall (fun sc => Schema.valid_field_name (name_of sc)) subcons.
Proof.
  unfold _handle_cstruct_variant.
  set (f := fun s : Construct =>
              _ <- _check_variant_name (name_of s) ;;
              match name_of s with VStr n0 => Ok n0 | _ => Err TypeError end).
  assert (Hf : forall sc, (exists m, f sc = Ok m)
                          <-> Schema.valid_field_name (name_of sc)).
  { intros sc. rewrite <- check_variant_name_ok. unfold f. split.
    - intros [m Hm]. destruct (_check_variant_name (name_of sc)) as [u|];
        [now exists u | discriminate].
    - intros [u Hu]. rewrite Hu. cbn.
      assert (Hv : Schema.valid_field_name (name_of sc))
        by (apply check_variant_name_ok; now exists u).
      destruct Hv as (c0 & s & -> & _). now eexists. }
  rewrite <- (py_setattr_ok enum_def name (clike_struct [])).
  split.
  - intros [e He]. destruct (mapM f subcons) as [names|] eqn:Em;
      [|discriminate].
    cbn [bind] in He. split.
    + apply py_setattr_ok.
      apply (proj1 (py_setattr_ok enum_def name (clike_struct names))).
      now exists e.
    + assert (Hall : Forall (fun a => exists m, f a = Ok m) subcons)
        by (apply mapM_ok; now exists names).
      eapply Forall_impl; [|exact Hall]. intros sc. apply Hf.
  - intros [Hname Hall].
    assert (Hm : exists names, mapM f subcons = Ok names).
    { apply mapM_ok. eapply Forall_impl; [|exact Hall]. intros sc. apply Hf. }
    destruct Hm as [names ->]. cbn [bind].
    apply py_setattr_ok. now apply py_setattr_ok in Hname.
Qed.

Lemma handle_struct_variant_eq (name : value) (subcon : Construct) enum_def :
  _handle_struct_variant (Renamed name subcon) enum_def
  = match name_of (Renamed name subcon) with
    | VNone => Err ValueError
    | _ =>
        match subcon with
        | TupleStruct _ =>
            py_setattr enum_def (name_of (Renamed name subcon)) tuple_struct
        | CStruct subcons =>
            _handle_cstruct_variant subcons (name_of (Renamed name subcon))
                                    enum_def
        | _ => Err ValueError
        end
    end.
Proof. reflexivity. Qed.

Lemma handle_struct_variant_ok variant enum_def :
  (exists e, _handle_struct_variant variant enum_def = Ok e)
  <-> Schema.valid_variant (VSub variant).
Proof.
  destruct variant as [| | | | | | | | | |name subcon| | | |];
    try (split; [intros [e He]; discriminate He | intros []]).
  rewrite handle_struct_variant_eq.
  destruct subcon as [| | | | | | | |subcons|subcons| | | | |].
  all: try (split;
            [intros [e He]; revert He;
             destruct (name_of (Renamed name _)); discriminate
            |destruct name; intros []]).
  - (* a tuple *)
    split.
    + intros [e He].
      assert (Hs : exists e', py_setattr enum_def
                                (name_of (Renamed name (TupleStruct subcons)))
                                tuple_struct = Ok e').
      { revert He. destruct (name_of (Renamed name (TupleStruct subcons)));
          try discriminate; intros He; now exists e. }
      apply py_setattr_ok in Hs as (n & Hn & Hset).
      apply name_of_Renamed in Hn as [-> Hne]; [|reflexivity].
      cbn [Schema.valid_variant]. auto.
    + destruct name; try (intros []; fail). intros [Hne Hset].
      destruct s as [|c0 s]; [contradiction|]. cbn [name_of truthy].
      cbn [length Nat.eqb negb]. apply py_setattr_ok. eauto.
  - (* a struct *)
    split.
    + intros [e He].
      assert (Hs : exists e', _handle_cstruct_variant subcons
                                (name_of (Renamed name (CStruct subcons)))
                                enum_def = Ok e').
      { revert He. destruct (name_of (Renamed name (CStruct subcons)));
          try discriminate; intros He; now exists e. }
      apply handle_cstruct_variant_ok in Hs as [(n & Hn & Hset) Hall].
      apply name_of_Renamed in Hn as [-> Hne]; [|reflexivity].
      cbn [Schema.valid_variant]. auto.
    + destruct name; try (intros []; fail). intros (Hne & Hset & Hall).
      destruct s as [|c0 s]; [contradiction|]. cbn [name_of truthy].
      cbn [length Nat.eqb negb]. apply handle_cstruct_variant_ok. eauto.
Qed.

Lemma make_enum_loop_ok variants :
  forall enum_def,
    (exists e, _make_enum_loop variants enum_def = Ok e)
    <-> Forall Schema.valid_variant variants.
Proof.
  induction variants as [|v variants IH]; intros enum_def.
  - split; [constructor | now eexists].
  - rewrite Forall_cons_iff. destruct v as [n|variant]; cbn [_make_enum_loop].
    + cbn [Schema.valid_variant]. split.
      * intros [e He].
        destruct (py_setattr enum_def (VStr n) unit_struct) as [e'|] eqn:Es;
          [|discriminate].
        split; [|apply (IH e'); now exists e].
        assert (Hs : exists n', VStr n = VStr n' /\ Schema.settable n')
          by (eapply py_setattr_ok; eexists; exact Es).
        destruct Hs as (n' & [= <-] & Hset). exact Hset.
      * intros [Hset Hrest].
        assert (Hs : exists e', py_setattr enum_def (VStr n) unit_struct
                                = Ok e') by (apply py_setattr_ok; eauto).
        destruct Hs as [e' ->]. cbn [bind]. now apply IH.
    + rewrite <- (handle_struct_variant_ok variant enum_def). split.
      * intros [e He].
        destruct (_handle_struct_variant variant enum_def) as [e'|] eqn:Eh;
          [|discriminate].
        split; [now exists e' | apply (IH e'); now exists e].
      * intros [[e' He'] Hrest]. rewrite He'. cbn [bind]. now apply IH.
Qed.

Lemma new_Enum_ok variants :
  (exists e, new_Enum variants = Ok e)
  <-> Forall Schema.valid_variant variants.
Proof.
  rewrite <- (make_enum_loop_ok variants class_EnumDef).
  unfold new_Enum, _make_enum. split.
  - intros [e He]. destruct (_make_enum_loop variants class_EnumDef) as [d|];
      [now exists d | discriminate].
  - intros [d ->]. cbn. now eexists.
Qed.

(** Ordinary names pass every check. *)
Lemma existsb_other_first (c0 : Z) (s : pystr) (names : list pystr) :
  c0 <> 95 ->
  forallb (fun x => match x with c :: _ => c =? 95 | [] => false end) names
  = true ->
  existsb (pystr_eqb (c0 :: s)) names = false.
Proof.
  intros Hc. induction names as [|x names IH]; [reflexivity|].
  cbn [forallb existsb]. intros H. apply andb_true_iff in H as [Hx Hl].
  rewrite (IH Hl), orb_false_r. destruct x as [|c x]; [discriminate|].
  cbn [pystr_eqb]. apply Z.eqb_eq in Hx. subst c.
  replace (c0 =? 95) with false by lia. reflexivity.
Qed.

Lemma is_letter_not_underscore (c : Z) :
  Schema.is_letter c = true -> c <> 95.
Proof. unfold Schema.is_letter. lia. Qed.

Lemma ordinary_first (n : pystr) :
  Schema.ordinary n -> exists c0 s, n = c0 :: s /\ c0 <> 95.
Proof.
  intros [Hid _]. destruct n as [|c0 s]; [discriminate|].
  cbn [Schema.is_identifier] in Hid. apply andb_true_iff in Hid as [Hc _].
  exists c0, s. split; [reflexivity | now apply is_letter_not_underscore].
Qed.

Lemma ordinary_settable (n : pystr) : Schema.ordinary n -> Schema.settable n.
Proof.
  intros Hn. destruct (ordinary_first n Hn) as (c0 & s & -> & Hc).
  unfold Schema.settable, type_descriptor.
  now rewrite !(existsb_other_first c0 s) by (exact Hc || reflexivity).
Qed.

Lemma ordinary_field_name (n : pystr) :
  Schema.ordinary n -> n <> TUPLE_DATA -> Schema.valid_field_name (VStr n).
Proof.
  intros Hn Ht. destruct (ordinary_first n Hn) as (c0 & s & -> & Hc).
  now exists c0, s.
Qed.

Lemma ordinary_valid_variant (v : variant_of Construct) :
  Schema.ordinary_variant v -> Schema.valid_variant v.
Proof.
  destruct v as [n|variant]; cbn [Schema.ordinary_variant Schema.valid_variant];
    [apply ordinary_settable|].
  destruct variant as [| | | | | | | | | |name subcon| | | |]; try easy.
  destruct name; try easy.
  destruct subcon as [| | | | | | | |subcons|subcons| | | | |]; try easy.
  - intros Hn. split; [|now apply ordinary_settable].
    destruct (ordinary_first s Hn) as (c0 & s' & -> & _). discriminate.
  - intros (Hn & fields & Hnames & Hord & Hres & _).
    split; [|split; [now apply ordinary_settable|]].
    + destruct (ordinary_first s Hn) as (c0 & s' & -> & _). discriminate.
    + clear Hn. revert fields Hnames Hord Hres.
      induction subcons as [|sc subcons IH]; intros [|f fields];
        try discriminate; [constructor|].
      cbn [map]. intros [= Hsc Hrest] Hord Hres.
      inversion Hord as [|? ? Hf Hord']; subst.
      constructor.
      * rewrite Hsc. apply ordinary_field_name; [exact Hf|].
        intros ->. apply Hres. now left.
      * apply (IH fields); [exact Hrest | exact Hord'|].
        intros Hin. apply Hres. now right.
Qed.

(** C8, as the code has it.  The construction of a union fails whenever a
    variant is not valid: when a struct variant has a field without a name,
    with the reserved name [tuple_data], with a name that starts with an
    underscore or is not a [str], when a variant that is not a [str] has no
    non-empty [str] for a name or is neither a tuple nor a struct, or when
    the name of a variant is one that the class does not take.  On a
    missing, reserved or underscore-led field name the check raises
    [ValueError].  The names of the variants themselves are not checked
    against the reserved name or prefix.  With ordinary names, the fields of
    a struct being distinct and not called [tuple_data], the construction
    succeeds. *)
Theorem new_Enum_validation (variants : list (variant_of Construct)) :
  (Exists (fun v => ~ Schema.valid_variant v) variants ->
   raises (new_Enum variants))
  /\ (Forall Schema.ordinary_variant variants ->
      exists e, new_Enum variants = Ok e)
  /\ (forall name,
        name = VNone \/ name = VStr TUPLE_DATA
        \/ (exists s, name = VStr (95 :: s)) ->
        _check_variant_name name = Err ValueError).
Proof.
  split; [|split].
  - intros Hex. destruct (new_Enum variants) as [e|err] eqn:E;
      [|now exists err].
    assert (Hall : Forall Schema.valid_variant variants)
      by (apply new_Enum_ok; now exists e).
    apply Exists_exists in Hex as (v & Hin & Hv).
    rewrite Forall_forall in Hall. now destruct (Hv (Hall v Hin)).
  - intros Hord. apply new_Enum_ok.
    eapply Forall_impl; [|exact Hord]. apply ordinary_valid_variant.
  - intros name [->|[->|[s ->]]]; [reflexivity | reflexivity |].
    rewrite check_variant_name_str.
    destruct (pystr_eqb (95 :: s) TUPLE_DATA); reflexivity.
Qed.

Lemma new_Enum_validation_witness :
  Forall Schema.ordinary_variant Examples.three_variants
  /\ (exists e, new_Enum Examples.three_variants = Ok e)
  /\ Exists (fun v => ~ Schema.valid_variant v)
       [VName (str "A");
        VSub (Examples.named "B" (CStruct [Examples.named "_x" U8]))]
  /\ raises (new_Enum
               [VName (str "A");
                VSub (Examples.named "B" (CStruct [Examples.named "_x" U8]))])
  /\ _check_variant_name (VStr (str "_x")) = Err ValueError.
Proof.
  assert (H : Forall Schema.ordinary_variant Examples.three_variants).
  { apply Forall_cons; [split; reflexivity|].
    apply Forall_cons; [split; reflexivity|].
    apply Forall_cons; [|constructor].
    split; [split; reflexivity|]. exists [str "x"].
    split; [reflexivity|]. split; [|split].
    - apply Forall_cons; [split; reflexivity | constructor].
    - intros [H|[]]. discriminate H.
    - apply NoDup_cons; [intros [] | constructor]. }
  assert (H' : Exists (fun v => ~ Schema.valid_variant v)
                 [VName (str "A");
                  VSub (Examples.named "B"
                          (CStruct [Examples.named "_x" U8]))]).
  { apply Exists_cons_tl, Exists_cons_hd.
    intros (_ & _ & Hf). inversion Hf as [|? ? (c0 & s & E & Hc & _) _].
    injection E as <- _. now apply Hc. }
  split; [exact H|]. split; [|split; [exact H'|split]].
  - exact (proj1 (proj2 (new_Enum_validation Examples.three_variants)) H).
  - exact (proj1 (new_Enum_validation _) H').
  - apply (proj2 (proj2 (new_Enum_validation []))). right; right.
    now exists [120].
Defined.

(** C8 as stated fails: a variant may carry the reserved name or start with
    the reserved prefix, whether it is a unit, a tuple or a struct variant. *)
Lemma new_Enum_reserved_variant_name_counterexample :
  is_ok (new_Enum [VName TUPLE_DATA]) = true
  /\ is_ok (new_Enum [VName (str "_hidden")]) = true
  /\ is_ok (new_Enum [VSub (Examples.named "tuple_data" (TupleStruct [U8]))])
     = true
  /\ is_ok (new_Enum [VSub (Examples.named "_hidden"
                              (CStruct [Examples.named "x" U8]))]) = true.
Proof. repeat split. Qed.

(** With distinct variant names, none of which is an attribute that the
    class holds from the start, the constructors of the enum class are the
    declarations of the variants, in their order: the ordinal of a variant
    is its position in the declaration. *)
Lemma setattr_fresh (enum_def : class_dict) (n : pystr) (c : constructor) :
  ~ In n (map fst enum_def) -> setattr enum_def n c = enum_def ++ [(n, Some c)].
Proof.
  induction enum_def as [|[n' c'] enum_def IH]; intros Hnin; [reflexivity|].
  cbn [setattr map fst app] in *.
  destruct (pystr_eqb n' n) eqn:E.
  - apply pystr_eqb_eq in E. subst n'. exfalso. apply Hnin. now left.
  - rewrite IH; [reflexivity|]. intros H. apply Hnin. now right.
Qed.

Lemma py_setattr_Ok enum_def (name : value) (c : constructor) e :
  py_setattr enum_def name c = Ok e ->
  exists n, name = VStr n /\ e = setattr enum_def n c.
Proof.
  unfold py_setattr. destruct name; try discriminate.
  destruct (type_descriptor s); [discriminate|].
  intros H. apply Ok_inj in H. now exists s.
Qed.

Lemma handle_struct_variant_declares variant enum_def e :
  _handle_struct_variant variant enum_def = Ok e ->
  e = setattr enum_def (fst (Schema.declaration (VSub variant)))
                       (snd (Schema.declaration (VSub variant))).
Proof.
  intros He.
  assert (Hv : Schema.valid_variant (VSub variant))
    by (apply (proj1 (handle_struct_variant_ok variant enum_def));
        now exists e).
  destruct variant as [| | | | | | | | | |name subcon| | | |];
    try contradiction.
  destruct name; try contradiction.
  destruct subcon as [| | | | | | | |subcons|subcons| | | | |];
    try contradiction.
  - destruct Hv as [Hne _]. destruct s as [|c0 s]; [contradiction|].
    rewrite handle_struct_variant_eq in He. cbn [name_of truthy] in He.
    cbn [length Nat.eqb negb] in He.
    apply py_setattr_Ok in He as (n & [= <-] & ->). reflexivity.
  - destruct Hv as (Hne & _ & _). destruct s as [|c0 s]; [contradiction|].
    rewrite handle_struct_variant_eq in He. cbn [name_of truthy] in He.
    cbn [length Nat.eqb negb] in He.
    unfold _handle_cstruct_variant in He.
    destruct (mapM _ subcons) as [names|] eqn:Em; [|discriminate].
    cbn [bind] in He. apply py_setattr_Ok in He as (n & [= <-] & ->).
    cbn [Schema.declaration fst snd]. do 2 f_equal.
    clear -Em. revert names Em.
    induction subcons as [|sc subcons IH]; intros names.
    + rewrite mapM_nil. intros H. now apply Ok_inj in H.
    + rewrite mapM_cons.
      destruct (_check_variant_name (name_of sc)); [|discriminate].
      cbn [bind]. destruct (name_of sc) eqn:En; try discriminate.
      cbn [bind]. destruct (mapM _ subcons) as [ns|]; [|discriminate].
      cbn [bind]. intros H. apply Ok_inj in H. subst names.
      unfold Schema.field_names. cbn [flat_map]. rewrite En. cbn [app].
      f_equal. now apply IH.
Qed.

Lemma make_enum_loop_step (v : variant_of Construct)
  (variants : list (variant_of Construct)) enum_def e :
  _make_enum_loop (v :: variants) enum_def = Ok e ->
  _make_enum_loop variants
    (setattr enum_def (fst (Schema.declaration v))
                      (snd (Schema.declaration v))) = Ok e.
Proof.
  cbn [_make_enum_loop]. destruct v as [n|variant].
  - destruct (py_setattr enum_def (VStr n) unit_struct) as [e'|] eqn:Es;
      [|discriminate].
    apply py_setattr_Ok in Es as (n' & [= <-] & ->). exact (fun H => H).
  - destruct (_handle_struct_variant variant enum_def) as [e'|] eqn:Eh;
      [|discriminate].
    apply handle_struct_variant_declares in Eh. subst e'. exact (fun H => H).
Qed.

Lemma make_enum_loop_distinct variants :
  forall enum_def e,
    _make_enum_loop variants enum_def = Ok e ->
    NoDup (map fst enum_def
           ++ map (fun v => fst (Schema.declaration v)) variants) ->
    e = enum_def
        ++ map (fun v => (fst (Schema.declaration v),
                          Some (snd (Schema.declaration v)))) variants.
Proof.
  induction variants as [|v variants IH]; intros enum_def e.
  - cbn. intros H _. apply Ok_inj in H. now rewrite app_nil_r.
  - intros H Hnd.
    assert (Hfresh : ~ In (fst (Schema.declaration v)) (map fst enum_def)).
    { cbn [map] in Hnd. apply NoDup_remove_2 in Hnd.
      intros Hin. apply Hnd, in_or_app. now left. }
    apply make_enum_loop_step in H. rewrite setattr_fresh in H by exact Hfresh.
    apply IH in H.
    + subst e. now rewrite <- app_assoc.
    + rewrite map_app, <- app_assoc. exact Hnd.
Qed.

Lemma sumtype_declarations (variants : list (variant_of Construct)) :
  sumtype (map (fun v => (fst (Schema.declaration v),
                          Some (snd (Schema.declaration v)))) variants)
  = map Schema.declaration variants.
Proof.
  unfold sumtype. induction variants as [|v variants IH]; [reflexivity|].
  cbn [map flat_map fst snd app]. rewrite IH.
  now destruct (Schema.declaration v).
Qed.

Lemma new_Enum_distinct variants e :
  new_Enum variants = Ok e ->
  NoDup (map fst class_EnumDef
         ++ map (fun v => fst (Schema.declaration v)) variants) ->
  e = Enum (map Schema.declaration variants) variants.
Proof.
  unfold new_Enum, _make_enum, rust_enum.
  destruct (_make_enum_loop variants class_EnumDef) as [enum|] eqn:E;
    [|discriminate].
  cbn [bind]. intros H Hnd. apply Ok_inj in H. subst e.
  rewrite (make_enum_loop_distinct variants _ enum E Hnd).
  rewrite <- (sumtype_declarations variants).
  unfold sumtype. now rewrite flat_map_app.
Qed.

(** ** Floats *)

Lemma land_mask_field (x width shift : Z) :
  0 <= width -> 0 <= shift ->
  Z.land x (Z.shiftl (Z.ones width) shift) = Z.shiftl (Z.ones width) shift ->
  (x / 2 ^ shift) mod 2 ^ width = Z.ones width.
Proof.
  intros Hw Hs H.
  rewrite <- Z.shiftr_div_pow2, <- Z.land_ones by assumption.
  apply (f_equal (fun y => Z.shiftr y shift)) in H.
  rewrite Z.shiftr_land in H.
  rewrite (Z.shiftr_shiftl_l (Z.ones width) shift shift) in H by lia.
  now rewrite Z.sub_diag, Z.shiftl_0_r in H.
Qed.

Lemma bits_float_nan32 (x : Z) :
  IEEE.nan_bits32 x -> bits_float 24 128 x = S754_nan.
Proof.
  intros [He Hm]. unfold bits_float.
  change (2 ^ (24 - 1)) with (2 ^ 23). change (2 * 128) with (2 ^ 8).
  change 0x7F800000 with (Z.shiftl (Z.ones 8) 23) in He.
  apply land_mask_field in He; [|lia|lia].
  change 0x007FFFFF with (Z.ones 23) in Hm. rewrite Z.land_ones in Hm by lia.
  rewrite He. change (Z.ones 8 =? 2 ^ 8 - 1) with true. cbv iota.
  destruct (x mod 2 ^ 23 =? 0) eqn:E; [lia | reflexivity].
Qed.

Lemma bits_float_nan64 (x : Z) :
  IEEE.nan_bits64 x -> bits_float 53 1024 x = S754_nan.
Proof.
  intros [He Hm]. unfold bits_float.
  change (2 ^ (53 - 1)) with (2 ^ 52). change (2 * 1024) with (2 ^ 11).
  change 0x7FF0000000000000 with (Z.shiftl (Z.ones 11) 52) in He.
  apply land_mask_field in He; [|lia|lia].
  change 0x000FFFFFFFFFFFFF with (Z.ones 52) in Hm.
  rewrite Z.land_ones in Hm by lia.
  rewrite He. change (Z.ones 11 =? 2 ^ 11 - 1) with true. cbv iota.
  destruct (x mod 2 ^ 52 =? 0) eqn:E; [lia | reflexivity].
Qed.

(** C3: for [F32] and for [F64], encoding a NaN fails, and decoding a payload
    that holds the bit pattern of a NaN fails, with the [ValueError] of
    [FormatFieldNoNan]. *)
Theorem float_nan_rejected :
  (forall double, build (FormatFieldNoNan double) (VFloat S754_nan)
                  = Err ValueError)
  /\ (forall (double : bool) (data rest : bytes),
        length data = (if double then 8 else 4)%nat ->
        IEEE.nan_payload double data ->
        _parse (FormatFieldNoNan double) (data ++ rest) = Err ValueError).
Proof.
  split.
  - intros [|]; reflexivity.
  - intros double data rest Hlen Hnan. cbn [_parse].
    rewrite <- Hlen, stream_read_app. cbn [bind].
    unfold unpack_float, IEEE.nan_payload in *.
    destruct double.
    + now rewrite (bits_float_nan64 _ Hnan).
    + now rewrite (bits_float_nan32 _ Hnan).
Qed.

Lemma float_nan_rejected_witness :
  IEEE.nan_payload false [x00; x00; xc0; x7f]
  /\ _parse F32 [x00; x00; xc0; x7f; x2a] = Err ValueError
  /\ IEEE.nan_payload true [x01; x00; x00; x00; x00; x00; xf0; xff]
  /\ _parse F64 [x01; x00; x00; x00; x00; x00; xf0; xff] = Err ValueError.
Proof.
  assert (H32 : IEEE.nan_payload false [x00; x00; xc0; x7f])
    by (split; [reflexivity | discriminate]).
  assert (H64 : IEEE.nan_payload true
                  [x01; x00; x00; x00; x00; x00; xf0; xff])
    by (split; [reflexivity | discriminate]).
  split; [exact H32 | split; [|split; [exact H64|]]].
  - exact (proj2 float_nan_rejected false [x00; x00; xc0; x7f] [x2a]
             eq_refl H32).
  - exact (proj2 float_nan_rejected true
             [x01; x00; x00; x00; x00; x00; xf0; xff] [] eq_refl H64).
Defined.

(** Values that are not NaN pass both ways: 1.0 as an [F32] and as an
    [F64]. *)
Example float_one_roundtrip :
  build F32 (VFloat (S754_finite false 4503599627370496 (-52)))
  = Ok [x00; x00; x80; x3f]
  /\ parse F32 [x00; x00; x80; x3f]
     = Ok (VFloat (S754_finite false 4503599627370496 (-52)))
  /\ build F64 (VFloat (S754_finite false 4503599627370496 (-52)))
     = Ok [x00; x00; x00; x00; x00; x00; xf0; x3f]
  /\ parse F64 [x00; x00; x00; x00; x00; x00; xf0; x3f]
     = Ok (VFloat (S754_finite false 4503599627370496 (-52))).
Proof. repeat split. Qed.

(** * Properties of the account coder *)

(** ** Dict comprehensions *)

Lemma find_append {X} (p : X -> bool) (l1 l2 : list X) :
  find p (l1 ++ l2) =
  match find p l1 with Some x => Some x | None => find p l2 end.
Proof.
  induction l1 as [|x l1 IH]; cbn; [reflexivity|].
  now destruct (p x).
Qed.

Section DictFacts.
Context {K V : Type} (eqb : K -> K -> bool).
Hypothesis eqb_eq : forall a b, eqb a b = true <-> a = b.

Lemma get_put (d : list (K * V)) (k k0 : K) (v : V) :
  Accounts.get eqb (Accounts.put eqb d k v) k0 =
  if eqb k k0 then Some v else Accounts.get eqb d k0.
Proof.
  induction d as [|[k' v'] d IH]; cbn.
  - reflexivity.
  - destruct (eqb k' k) eqn:E; cbn.
    + apply eqb_eq in E. subst k'. now destruct (eqb k k0).
    + rewrite IH. destruct (eqb k' k0) eqn:E0; [|reflexivity].
      apply eqb_eq in E0. subst k'.
      destruct (eqb k k0) eqn:E1; [|reflexivity].
      apply eqb_eq in E1. subst k0.
      rewrite (proj2 (eqb_eq k k) eq_refl) in E. discriminate.
Qed.

Lemma In_put (d : list (K * V)) (k : K) (v : V) (x : K * V) :
  In x (Accounts.put eqb d k v) -> In x d \/ x = (k, v).
Proof.
  induction d as [|[k' v'] d IH]; cbn.
  - intros [<-|[]]. now right.
  - destruct (eqb k' k) eqn:E; cbn.
    + apply eqb_eq in E. subst k'. intros [<-|H]; auto.
    + intros [<-|H]; auto. destruct (IH H); auto.
Qed.

Lemma In_fold_put (pairs acc : list (K * V)) (x : K * V) :
  In x (fold_left (fun d kv => Accounts.put eqb d (fst kv) (snd kv)) pairs acc)
  -> In x acc \/ In x pairs.
Proof.
  revert acc. induction pairs as [|[k v] pairs IH]; intros acc; cbn.
  - auto.
  - intros H. destruct (IH _ H) as [H'|H']; auto.
    destruct (In_put _ _ _ _ H') as [H''| ->]; auto.
Qed.

Lemma In_comprehension (pairs : list (K * V)) (x : K * V) :
  In x (Accounts.comprehension eqb pairs) -> In x pairs.
Proof.
  intros H. destruct (In_fold_put _ _ _ H) as [[]|H']. exact H'.
Qed.

Lemma get_In (d : list (K * V)) (k : K) (v : V) :
  Accounts.get eqb d k = Some v -> In (k, v) d.
Proof.
  induction d as [|[k' v'] d IH]; cbn; [discriminate|].
  destruct (eqb k' k) eqn:E.
  - apply eqb_eq in E. subst k'. intros [= ->]. now left.
  - auto.
Qed.

(** The value of a key in a comprehension over [l] comes from the last
    element of [l] with that key. *)
Lemma get_fold_put {X} (key : X -> K) (f : X -> V) (l : list X) (k : K) :
  forall acc,
    Accounts.get eqb
      (fold_left (fun d kv => Accounts.put eqb d (fst kv) (snd kv))
                 (map (fun x => (key x, f x)) l) acc) k =
    match find (fun x => eqb (key x) k) (rev l) with
    | Some x => Some (f x)
    | None => Accounts.get eqb acc k
    end.
Proof.
  induction l as [|x l IH]; intros acc; cbn [map fold_left rev find].
  - reflexivity.
  - rewrite IH, find_append.
    destruct (find (fun x0 => eqb (key x0) k) (rev l)); [reflexivity|].
    cbn [find fst snd]. rewrite get_put. now destruct (eqb (key x) k).
Qed.

Lemma get_comprehension {X} (key : X -> K) (f : X -> V) (l : list X) (k : K) :
  Accounts.get eqb (Accounts.comprehension eqb (map (fun x => (key x, f x)) l))
               k =
  option_map f (find (fun x => eqb (key x) k) (rev l)).
Proof.
  unfold Accounts.comprehension. rewrite get_fold_put.
  now destruct (find _ (rev l)).
Qed.

Lemma find_last_exists {X} (key : X -> K) (l : list X) (x : X) :
  In x l -> exists y, find (fun y => eqb (key y) (key x)) (rev l) = Some y.
Proof.
  intros H. destruct (find _ (rev l)) as [y|] eqn:E; [now exists y|].
  apply In_rev in H.
  pose proof (find_none _ _ E _ H) as Hn. cbn in Hn.
  assert (eqb (key x) (key x) = true) by now apply eqb_eq.
  congruence.
Qed.

End DictFacts.

Lemma bytes_eqb_eq (a b : bytes) : bytes_eqb a b = true <-> a = b.
Proof.
  revert b. induction a as [|x a IH]; intros [|y b]; cbn; try easy.
  rewrite andb_true_iff, IH. unfold byte_eqb. split.
  - intros [E ->]. apply Byte.byte_dec_bl in E. now subst.
  - intros [= -> ->]. split; [now apply Byte.byte_dec_lb | reflexivity].
Qed.

Lemma mapM_Forall2 {A B} (f : A -> result B) (l : list A) (r : list B) :
  mapM f l = Ok r -> Forall2 (fun a b => f a = Ok b) l r.
Proof.
  revert r. induction l as [|a l IH]; intros r.
  - rewrite mapM_nil. intros [= <-]. constructor.
  - rewrite mapM_cons. destruct (f a) as [b|] eqn:Ea; [|discriminate].
    cbn [bind]. destruct (mapM f l) as [bs|]; [|discriminate].
    intros [= <-]. constructor; auto.
Qed.

Lemma mapM_total {A B} (f : A -> result B) (g : A -> B) (l : list A)
  (r : list B) :
  (forall a b, f a = Ok b -> b = g a) -> mapM f l = Ok r -> r = map g l.
Proof.
  intros Hfg H. apply mapM_Forall2 in H.
  induction H as [|a b l r Hab _ IH]; cbn; [reflexivity|].
  now rewrite (Hfg _ _ Hab), IH.
Qed.

Lemma map_fst_snd {A B} (l : list (A * B)) :
  map (fun x => (fst x, snd x)) l = l.
Proof.
  induction l as [|[a b] l IH]; cbn; [reflexivity | now rewrite IH].
Qed.

(** ** SHA-256 *)

Lemma int_to_le_length (n : nat) (z : Z) : length (int_to_le n z) = n.
Proof.
  revert z. induction n as [|n IH]; intros z; cbn; [reflexivity|].
  now rewrite IH.
Qed.

Lemma digest_length (msg : bytes) : length (SHA256.digest msg) = 32%nat.
Proof.
  unfold SHA256.digest.
  destruct (SHA256.blocks _ _ _) as [[[[[[[a b] c] d] e] f] g] h].
  unfold SHA256.be32.
  now rewrite !length_app, !length_rev, !int_to_le_length.
Qed.

Lemma account_discriminator_length (n : pystr) (d : bytes) :
  Accounts.account_discriminator n = Ok d ->
  length d = Accounts.ACCOUNT_DISCRIMINATOR_SIZE.
Proof.
  unfold Accounts.account_discriminator.
  destruct (utf8_encode _) as [m|]; [|discriminate].
  cbn [bind]. intros H. apply Ok_inj in H. subst d.
  rewrite length_firstn, digest_length. reflexivity.
Qed.

(** The discriminator of [MyAccount] is the prefix of [raw_acc_data], and
    the coder decodes the sample to the account with [data = 1234]. *)
Example my_account_decodes :
  Accounts.account_discriminator (str "MyAccount")
  = Ok (firstn 8 Examples.raw_acc_data)
  /\ (self <- Examples.my_coder ;;
      Accounts._parse self Examples.raw_acc_data)
     = Ok (VDict [(VStr (str "data"),
                   VDict [(VStr (str "data"), VInt 1234)]);
                  (VStr (str "name"), VStr (str "MyAccount"))], [])
  /\ (self <- Examples.my_coder ;;
      '(obj, _) <- Accounts._parse self Examples.raw_acc_data ;;
      Accounts._build self obj) = Ok Examples.raw_acc_data.
Proof. repeat split; vm_compute; reflexivity. Qed.

(** ** The account coder *)

Section AccountsCoderFacts.
Variable IdlTypeDef : Type.
Variable name : IdlTypeDef -> pystr.
Variable typedef_layout : IdlTypeDef -> list IdlTypeDef -> Construct.
Variable idl : Accounts.Idl IdlTypeDef.
Variable self : Accounts.AccountsCoder.
Hypothesis init : Accounts.new_AccountsCoder name typedef_layout idl = Ok self.

Lemma coder_fields :
  exists discs,
    Forall2 (fun acc nd =>
               fst nd = name acc
               /\ Accounts.account_discriminator (name acc) = Ok (snd nd))
            (Accounts.accounts idl) discs
    /\ Accounts.acc_name_to_discriminator self
       = Accounts.comprehension pystr_eqb discs
    /\ Accounts.discriminator_to_acc_name self
       = Accounts.comprehension bytes_eqb
           (map (fun nd => (snd nd, fst nd))
                (Accounts.acc_name_to_discriminator self))
    /\ Accounts.discriminator_to_typedef_layout self
       = Accounts.comprehension bytes_eqb
           (map (fun nd => (snd nd,
                              Accounts.layout_of name typedef_layout idl nd))
                (Accounts.acc_name_to_discriminator self)).
Proof.
  pose proof init as H. unfold Accounts.new_AccountsCoder in H.
  cbv zeta in H.
  destruct (mapM _ (Accounts.accounts idl)) as [discs|] eqn:Ed;
    [|discriminate].
  cbn [bind] in H.
  destruct (mapM _ (Accounts.comprehension pystr_eqb discs)) as [dl|] eqn:El;
    [|discriminate].
  cbn [bind] in H. apply Ok_inj in H.
  assert (Hdl : dl = map (fun nd => (snd nd,
                                      Accounts.layout_of name typedef_layout idl nd))
                         (Accounts.comprehension pystr_eqb discs)).
  { eapply mapM_total; [|exact El].
    intros nd p Hp. cbn beta in Hp. unfold Accounts.layout_of.
    destruct (Accounts.get pystr_eqb _ (fst nd)); [|discriminate].
    apply Ok_inj in Hp. now subst p. }
  exists discs. rewrite <- H.
  cbn [Accounts.acc_name_to_discriminator Accounts.discriminator_to_acc_name
       Accounts.discriminator_to_typedef_layout].
  split; [|split; [reflexivity | split; [reflexivity | now rewrite Hdl]]].
  apply mapM_Forall2 in Ed.
  eapply Forall2_impl; [|exact Ed]. intros acc nd Hnd. cbn beta in Hnd.
  destruct (Accounts.account_discriminator (name acc)) as [d|];
    [|discriminate].
  cbn [bind] in Hnd. apply Ok_inj in Hnd. now subst nd.
Qed.

(** Every entry of [acc_name_to_discriminator] is a declared name with its
    discriminator. *)
Lemma name_to_disc_sound (nd : pystr * bytes) :
  In nd (Accounts.acc_name_to_discriminator self) ->
  Accounts.account_discriminator (fst nd) = Ok (snd nd)
  /\ exists acc, In acc (Accounts.accounts idl) /\ name acc = fst nd.
Proof.
  destruct coder_fields as (discs & Hd & -> & _). intros H.
  apply (In_comprehension pystr_eqb pystr_eqb_eq) in H.
  clear -Hd H. induction Hd as [|acc nd' accs discs [Hn Ha] _ IH].
  - destruct H.
  - destruct H as [<-|H].
    + rewrite Hn. split; [exact Ha|]. exists acc. split; [now left | easy].
    + destruct (IH H) as (? & acc' & ? & ?). split; [easy|].
      exists acc'. split; [now right | easy].
Qed.

Lemma name_to_disc_complete (acc : IdlTypeDef) :
  In acc (Accounts.accounts idl) ->
  exists d, Accounts.get pystr_eqb (Accounts.acc_name_to_discriminator self)
                         (name acc) = Some d
            /\ Accounts.account_discriminator (name acc) = Ok d.
Proof.
  intros Hin.
  assert (Hex : exists nd, In nd (Accounts.acc_name_to_discriminator self)
                           /\ fst nd = name acc).
  { destruct coder_fields as (discs & Hd & E & _).
    assert (Hnd : exists nd, In nd discs /\ fst nd = name acc).
    { clear -Hd Hin. induction Hd as [|a nd accs discs [Hn _] _ IH].
      - destruct Hin.
      - destruct Hin as [->|Hin]; [exists nd; split; [now left | easy]|].
        destruct (IH Hin) as (nd' & ? & ?). exists nd'. split; [now right|easy]. }
    destruct Hnd as (nd & Hnd & Hfst).
    destruct (find_last_exists pystr_eqb pystr_eqb_eq fst discs nd Hnd)
      as [y Hy].
    pose proof (get_comprehension pystr_eqb pystr_eqb_eq fst snd discs (fst nd))
      as Hg.
    rewrite map_fst_snd, Hy in Hg. cbn in Hg. rewrite <- E in Hg.
    apply (get_In pystr_eqb pystr_eqb_eq) in Hg.
    exists (fst nd, snd y). now rewrite <- Hfst. }
  destruct Hex as (nd & Hnd & Hfst).
  destruct (Accounts.get pystr_eqb (Accounts.acc_name_to_discriminator self)
              (name acc)) as [d|] eqn:Eg.
  - exists d. split; [reflexivity|].
    apply (get_In pystr_eqb pystr_eqb_eq) in Eg.
    now destruct (name_to_disc_sound _ Eg).
  - exfalso. destruct nd as [n d]. cbn in Hfst. subst n. clear -Hnd Eg.
    induction (Accounts.acc_name_to_discriminator self) as [|[k v] l IH];
      [destruct Hnd|].
    cbn in Eg. destruct (pystr_eqb k (name acc)) eqn:E; [discriminate|].
    destruct Hnd as [[= -> ->]|Hnd]; [|auto].
    rewrite (proj2 (pystr_eqb_eq _ _) eq_refl) in E. discriminate.
Qed.

(** For a discriminator in use, the two dicts keyed by discriminators hold
    the name and the layout of one and the same declared account. *)
Lemma disc_to_account (n : pystr) (d : bytes) :
  In (n, d) (Accounts.acc_name_to_discriminator self) ->
  exists acc,
    In acc (Accounts.accounts idl)
    /\ Accounts.account_discriminator (name acc) = Ok d
    /\ Accounts.get bytes_eqb (Accounts.discriminator_to_acc_name self) d
       = Some (name acc)
    /\ Accounts.get bytes_eqb (Accounts.discriminator_to_typedef_layout self) d
       = Some (typedef_layout acc (Accounts.types idl)).
Proof.
  intros Hin. destruct coder_fields as (discs & Hd & E & -> & ->).
  destruct (find_last_exists bytes_eqb bytes_eqb_eq snd _ _ Hin) as [x Hx].
  cbn [snd] in Hx.
  rewrite !(get_comprehension bytes_eqb bytes_eqb_eq), Hx. cbn [option_map].
  apply find_some in Hx as [Hx Hk]. apply In_rev in Hx.
  apply bytes_eqb_eq in Hk.
  destruct (name_to_disc_sound _ Hx) as (Hdx & acc0 & Hin0 & Hn0).
  destruct (find_last_exists pystr_eqb pystr_eqb_eq name _ _ Hin0) as [acc Hacc].
  assert (Hl : Accounts.layout_of name typedef_layout idl x
               = typedef_layout acc (Accounts.types idl)).
  { unfold Accounts.layout_of, Accounts.layouts.
    rewrite (get_comprehension pystr_eqb pystr_eqb_eq), <- Hn0, Hacc.
    reflexivity. }
  apply find_some in Hacc as [Hacc Hk']. apply In_rev in Hacc.
  apply pystr_eqb_eq in Hk'.
  exists acc. rewrite Hl, Hk', Hn0, <- Hk. repeat split; easy.
Qed.

End AccountsCoderFacts.

(** C10: for every account declared in the IDL, the discriminator that the
    coder keeps for its name is the first 8 bytes of the SHA-256 of
    ["account:" + name]; encoding an account of that name writes exactly this
    discriminator and then the payload, and decoding bytes that begin with it
    returns the name of a declared account with this discriminator together
    with the payload decoded by the layout of that account ([acc'], which is
    [acc] itself unless another declared account has the same
    discriminator). *)
Theorem accounts_coder_discriminator
  (IdlTypeDef : Type) (name : IdlTypeDef -> pystr)
  (typedef_layout : IdlTypeDef -> list IdlTypeDef -> Construct)
  (idl : Accounts.Idl IdlTypeDef) (self : Accounts.AccountsCoder)
  (acc : IdlTypeDef) :
  Accounts.new_AccountsCoder name typedef_layout idl = Ok self ->
  In acc (Accounts.accounts idl) ->
  exists (d : bytes) (acc' : IdlTypeDef),
    Accounts.get pystr_eqb (Accounts.acc_name_to_discriminator self) (name acc)
    = Some d
    /\ (exists m, utf8_encode (str "account:" ++ name acc) = Ok m
                  /\ d = firstn 8 (SHA256.digest m))
    /\ length d = 8%nat
    /\ In acc' (Accounts.accounts idl)
    /\ Accounts.account_discriminator (name acc') = Ok d
    /\ (forall data,
          Accounts._build self
            (VDict [(VStr (str "name"), VStr (name acc));
                    (VStr (str "data"), data)])
          = (payload <- _build (typedef_layout acc' (Accounts.types idl)) data ;;
             Ok (d ++ payload)))
    /\ (forall rest,
          Accounts._parse self (d ++ rest)
          = ('(obj, rest') <-
               _parse (typedef_layout acc' (Accounts.types idl)) rest ;;
             Ok (VDict [(VStr (str "data"), obj);
                        (VStr (str "name"), VStr (name acc'))], rest')))
    /\ ((forall a, In a (Accounts.accounts idl) ->
                   Accounts.account_discriminator (name a) = Ok d -> a = acc)
        -> acc' = acc).
Proof.
  intros Hinit Hin.
  destruct (name_to_disc_complete _ name typedef_layout idl self Hinit acc Hin)
    as (d & Hget & Hdisc).
  pose proof (get_In pystr_eqb pystr_eqb_eq _ _ _ Hget) as Hnd.
  destruct (disc_to_account _ name typedef_layout idl self Hinit _ _ Hnd)
    as (acc' & Hin' & Hdisc' & Hname & Hlayout).
  pose proof (account_discriminator_length _ _ Hdisc) as Hlen.
  exists d, acc'. repeat apply conj; try assumption.
  - unfold Accounts.account_discriminator in Hdisc.
    destruct (utf8_encode _) as [m|]; [|discriminate].
    exists m. split; [reflexivity|]. cbn [bind] in Hdisc.
    apply Ok_inj in Hdisc. now subst d.
  - intros data. unfold Accounts._build, Accounts._encode.
    change (Accounts.subscript (VDict _) (str "name"))
      with (Ok (VStr (name acc))).
    cbn [bind]. rewrite Hget. cbn [bind].
    change (Accounts.subscript (VDict _) (str "data")) with (Ok data).
    cbn [bind]. unfold Accounts.subcon_build, Accounts.Switch_build.
    rewrite Hlen, Hlayout. reflexivity.
  - intros rest. unfold Accounts._parse, Accounts.subcon_parse.
    rewrite <- Hlen, stream_read_app. cbn [bind].
    unfold Accounts.Switch_parse. rewrite Hlayout.
    destruct (_parse (typedef_layout acc' (Accounts.types idl)) rest)
      as [[obj rest']|e]; [|reflexivity].
    cbn [bind]. unfold Accounts._decode. cbn [fst snd]. now rewrite Hname.
  - intros Huniq. now apply Huniq.
Qed.

Lemma accounts_coder_discriminator_witness :
  exists self d,
    Examples.my_coder = Ok self
    /\ Accounts.get pystr_eqb (Accounts.acc_name_to_discriminator self)
                    (str "MyAccount") = Some d
    /\ d = firstn 8 Examples.raw_acc_data
    /\ length d = 8%nat.
Proof.
  destruct Examples.my_coder as [self|] eqn:E; [|vm_compute in E; discriminate].
  assert (Hin : In (str "MyAccount", CStruct [Examples.named "data" U64])
                   (Accounts.accounts Examples.my_idl)) by (left; reflexivity).
  destruct (accounts_coder_discriminator _ fst (fun acc _ => snd acc)
              Examples.my_idl self _ E Hin)
    as (d & acc' & Hget & (m & Hm & Hd) & Hlen & _).
  exists self, d. repeat split; try assumption.
  vm_compute in Hm. apply Ok_inj in Hm. subst m d. vm_compute. reflexivity.
Defined.

(** * Canonical order of maps and sets *)

(** ** The order of strings and of byte strings *)

Lemma pystr_ltb_irrefl (a : pystr) : pystr_ltb a a = false.
Proof.
  induction a as [|x a IH]; cbn; [reflexivity|].
  now rewrite Z.ltb_irrefl.
Qed.

Lemma pystr_ltb_trans (a b c : pystr) :
  pystr_ltb a b = true -> pystr_ltb b c = true -> pystr_ltb a c = true.
Proof.
  revert b c. induction a as [|x a IH]; intros [|y b] [|z c]; cbn;
    try easy.
  destruct (x <? y) eqn:Exy, (y <? z) eqn:Eyz, (x <? z) eqn:Exz;
    try easy; try lia.
  - destruct (z <? y) eqn:Ezy; [easy|]. lia.
  - destruct (y <? x) eqn:Eyx; [easy|]. lia.
  - destruct (y <? x) eqn:Eyx; [easy|].
    destruct (z <? y) eqn:Ezy; [easy|].
    replace (z <? x) with false by lia. apply IH.
Qed.

Lemma pystr_ltb_total (a b : pystr) :
  a <> b -> pystr_ltb a b = true \/ pystr_ltb b a = true.
Proof.
  revert b. induction a as [|x a IH]; intros [|y b] H; cbn.
  - now contradiction H.
  - now left.
  - now right.
  - destruct (x <? y) eqn:Exy; [auto|].
    destruct (y <? x) eqn:Eyx; [auto|].
    assert (x = y) by lia. subst y.
    apply IH. intros ->. now apply H.
Qed.

Lemma bytes_ltb_pystr (a b : bytes) :
  bytes_ltb a b = pystr_ltb (map Z_of_byte a) (map Z_of_byte b).
Proof.
  revert b. induction a as [|x a IH]; intros [|y b]; cbn; try reflexivity.
  now rewrite IH.
Qed.

Lemma Z_of_byte_inj (x y : byte) : Z_of_byte x = Z_of_byte y -> x = y.
Proof.
  unfold Z_of_byte. intros H. apply N2Z.inj in H.
  assert (E : Byte.of_N (Byte.to_N x) = Byte.of_N (Byte.to_N y))
    by now rewrite H.
  rewrite !Byte.of_to_N in E. now injection E.
Qed.

Lemma map_Z_of_byte_inj (a b : bytes) :
  map Z_of_byte a = map Z_of_byte b -> a = b.
Proof.
  revert b. induction a as [|x a IH]; intros [|y b]; cbn; try easy.
  intros [= Hxy Hab]. f_equal; [now apply Z_of_byte_inj | now apply IH].
Qed.

Lemma bytes_ltb_irrefl (a : bytes) : bytes_ltb a a = false.
Proof. rewrite bytes_ltb_pystr. apply pystr_ltb_irrefl. Qed.

Lemma bytes_ltb_trans (a b c : bytes) :
  bytes_ltb a b = true -> bytes_ltb b c = true -> bytes_ltb a c = true.
Proof. rewrite !bytes_ltb_pystr. apply pystr_ltb_trans. Qed.

Lemma bytes_ltb_total (a b : bytes) :
  a <> b -> bytes_ltb a b = true \/ bytes_ltb b a = true.
Proof.
  intros H. rewrite !bytes_ltb_pystr. apply pystr_ltb_total.
  intros E. now apply H, map_Z_of_byte_inj.
Qed.

(** ** Classes of keys *)

Lemma cmp_is_Lt (a b : Z) : cmp_is Lt (Some (a ?= b)) = (a <? b).
Proof. unfold Z.ltb. destruct (a ?= b); reflexivity. Qed.

Lemma cmp_is_Eq (a b : Z) : cmp_is Eq (Some (a ?= b)) = (a =? b).
Proof.
  destruct (Z.compare_spec a b); cbn; symmetry;
    [now apply Z.eqb_eq | apply Z.eqb_neq; lia | apply Z.eqb_neq; lia].
Qed.

Lemma py_lt_int (a b : Z) : py_lt (VInt a) (VInt b) = Ok (a <? b).
Proof.
  change (py_lt (VInt a) (VInt b)) with (Ok (cmp_is Lt (Some (a ?= b)))).
  now rewrite cmp_is_Lt.
Qed.

Lemma py_eq_int (a b : Z) : py_eq (VInt a) (VInt b) = (a =? b).
Proof.
  change (py_eq (VInt a) (VInt b)) with (cmp_is Eq (Some (a ?= b))).
  now rewrite cmp_is_Eq.
Qed.

Lemma ordered_int : Keys.ordered_class Keys.is_int.
Proof.
  split; unfold Keys.lt.
  - intros a b [x ->] [y ->]. rewrite py_eq_int, Z.eqb_eq.
    split; [now intros -> | now intros [= ->]].
  - intros a b [x ->] [y ->]. rewrite py_lt_int. now eexists.
  - intros a b [x ->] [y ->] H. rewrite !py_lt_int.
    assert (x <> y) by (intros ->; now apply H).
    destruct (x <? y) eqn:E; [now left | right; f_equal; lia].
  - intros a [x ->]. rewrite py_lt_int, Z.ltb_irrefl. discriminate.
  - intros a b c [x ->] [y ->] [z ->]. rewrite !py_lt_int.
    intros H1 H2. apply Ok_inj in H1, H2. f_equal. lia.
Qed.

Lemma ordered_str : Keys.ordered_class Keys.is_str.
Proof.
  split; unfold Keys.lt.
  - intros a b [x ->] [y ->]. cbn [py_eq]. rewrite pystr_eqb_eq.
    split; [now intros -> | now intros [= ->]].
  - intros a b [x ->] [y ->]. cbn [py_lt]. now eexists.
  - intros a b [x ->] [y ->] H. cbn [py_lt].
    destruct (pystr_ltb_total x y) as [E|E];
      [intros ->; now apply H | left | right]; now rewrite E.
  - intros a [x ->]. cbn [py_lt]. rewrite pystr_ltb_irrefl. discriminate.
  - intros a b c [x ->] [y ->] [z ->]. cbn [py_lt].
    intros H1 H2. apply Ok_inj in H1, H2. f_equal.
    eapply pystr_ltb_trans; eassumption.
Qed.

Lemma ordered_bytes : Keys.ordered_class Keys.is_bytes.
Proof.
  split; unfold Keys.lt.
  - intros a b [x ->] [y ->]. cbn [py_eq].
    rewrite andb_true_iff, !negb_true_iff. split.
    + intros [H1 H2]. f_equal.
      destruct (list_eq_dec Byte.byte_eq_dec x y) as [E|E]; [exact E|].
      destruct (bytes_ltb_total x y E); congruence.
    + intros [= ->]. now rewrite bytes_ltb_irrefl.
  - intros a b [x ->] [y ->]. cbn [py_lt]. now eexists.
  - intros a b [x ->] [y ->] H. cbn [py_lt].
    destruct (bytes_ltb_total x y) as [E|E];
      [intros ->; now apply H | left | right]; now rewrite E.
  - intros a [x ->]. cbn [py_lt]. rewrite bytes_ltb_irrefl. discriminate.
  - intros a b c [x ->] [y ->] [z ->]. cbn [py_lt].
    intros H1 H2. apply Ok_inj in H1, H2. f_equal.
    eapply bytes_ltb_trans; eassumption.
Qed.

Lemma homogeneous_class (ks : list value) :
  Keys.homogeneous ks ->
  exists P, Keys.ordered_class P /\ Forall P ks.
Proof.
  intros [H|[H|H]].
  - exists Keys.is_int. split; [apply ordered_int | exact H].
  - exists Keys.is_str. split; [apply ordered_str | exact H].
  - exists Keys.is_bytes. split; [apply ordered_bytes | exact H].
Qed.

(** ** [sorted] on a list with distinct keys of one class *)

Section SortedByKey.
Variable P : value -> Prop.
Hypothesis P_ordered : Keys.ordered_class P.
Variable key : value -> value.
Variable Q : value -> Prop.
Hypothesis Q_key : forall x, Q x -> P (key x).
Hypothesis Q_lt :
  forall x y, Q x -> Q y -> key x <> key y -> py_lt x y = py_lt (key x) (key y).

Lemma by_key_asym (x y : value) :
  Q x -> Q y -> Keys.lt (key x) (key y) -> Keys.lt (key y) (key x) -> False.
Proof.
  intros Hx Hy H1 H2.
  apply (Keys.oc_irrefl P_ordered (key x)); [auto|].
  eapply (Keys.oc_trans P_ordered); eauto.
Qed.

Lemma py_insert_sorted (x : value) (l : list value) :
  Q x -> Forall Q l -> ~ In (key x) (map key l) ->
  StronglySorted (fun a b => Keys.lt (key a) (key b)) l ->
  exists r, py_insert x l = Ok r
            /\ Permutation (x :: l) r
            /\ StronglySorted (fun a b => Keys.lt (key a) (key b)) r.
Proof.
  intros Hx. induction l as [|y l IH]; intros Hl Hnin Hs.
  - exists [x]. repeat split; auto. repeat constructor.
  - inversion Hl as [|? ? Hy Hl']; subst.
    apply StronglySorted_inv in Hs as [Hs Hyl].
    assert (Hxy : key x <> key y) by (intros E; apply Hnin; left; auto).
    assert (Hnin' : ~ In (key x) (map key l))
      by (intros E; apply Hnin; right; auto).
    cbn [py_insert]. rewrite (Q_lt y x Hy Hx) by auto.
    destruct (Keys.oc_defined P_ordered (key y) (key x)) as [[|] Hr]; auto;
      rewrite Hr; cbn [bind].
    + destruct (IH Hl' Hnin' Hs) as (r & Hins & Hperm & Hsorted).
      rewrite Hins. cbn [bind]. exists (y :: r). split; [reflexivity|]. split.
      * rewrite perm_swap. now constructor.
      * constructor; [exact Hsorted|].
        eapply Permutation_Forall; [exact Hperm|].
        constructor; [exact Hr | exact Hyl].
    + exists (x :: y :: l). split; [reflexivity|]. split; [reflexivity|].
      assert (Hlt : Keys.lt (key x) (key y)).
      { destruct (Keys.oc_total P_ordered (key x) (key y)) as [H|H]; auto.
        unfold Keys.lt in H. congruence. }
      constructor; [now constructor|].
      constructor; [exact Hlt|].
      rewrite Forall_forall in Hyl, Hl' |- *. intros z Hz.
      eapply (Keys.oc_trans P_ordered); eauto.
Qed.

Lemma sorted_sorted (l : list value) :
  Forall Q l -> NoDup (map key l) ->
  exists r, sorted l = Ok r
            /\ Permutation l r
            /\ StronglySorted (fun a b => Keys.lt (key a) (key b)) r.
Proof.
  induction l as [|x l IH]; intros Hl Hnd.
  - exists []. repeat split; auto. constructor.
  - inversion Hl as [|? ? Hx Hl']; subst.
    cbn [map] in Hnd. apply NoDup_cons_iff in Hnd as [Hnin Hnd].
    destruct (IH Hl' Hnd) as (r0 & Hr0 & Hperm & Hsorted).
    destruct (py_insert_sorted x r0) as (r & Hr & Hperm' & Hsorted'); auto.
    + eapply Permutation_Forall; eassumption.
    + intros Hin. apply Hnin.
      eapply Permutation_in; [|exact Hin].
      apply Permutation_map. now symmetry.
    + exists r. cbn [sorted]. rewrite Hr0. cbn [bind]. repeat split; auto.
      now rewrite <- Hperm', <- Hperm.
Qed.

Lemma sorted_by_key_unique (r1 : list value) :
  forall r2,
    Forall Q r1 -> Permutation r1 r2 ->
    StronglySorted (fun a b => Keys.lt (key a) (key b)) r1 ->
    StronglySorted (fun a b => Keys.lt (key a) (key b)) r2 ->
    r1 = r2.
Proof.
  induction r1 as [|x r1 IH]; intros r2 HQ Hperm Hs1 Hs2.
  - now apply Permutation_nil in Hperm.
  - destruct r2 as [|y r2];
      [apply Permutation_sym, Permutation_nil in Hperm; discriminate|].
    inversion HQ as [|? ? Hx HQ1]; subst.
    assert (HQ2 : Forall Q (y :: r2)) by (eapply Permutation_Forall; eauto).
    inversion HQ2 as [|? ? Hy _]; subst.
    apply StronglySorted_inv in Hs1 as [Hs1 Hx1].
    apply StronglySorted_inv in Hs2 as [Hs2 Hy2].
    assert (E : x = y).
    { assert (Hin1 : In x (y :: r2))
        by (eapply Permutation_in; [exact Hperm | now left]).
      assert (Hin2 : In y (x :: r1))
        by (eapply Permutation_in; [symmetry; exact Hperm | now left]).
      destruct Hin1 as [->|Hin1]; [reflexivity|].
      destruct Hin2 as [->|Hin2]; [reflexivity|].
      rewrite Forall_forall in Hx1, Hy2.
      exfalso. apply (by_key_asym x y); auto. }
    subst y. f_equal. apply IH; auto.
    eapply Permutation_cons_inv; eassumption.
Qed.

Lemma sorted_permutation (l l' : list value) :
  Forall Q l -> NoDup (map key l) -> Permutation l l' ->
  sorted l' = sorted l.
Proof.
  intros HQ Hnd Hperm.
  destruct (sorted_sorted l HQ Hnd) as (r & Hr & Hp & Hs).
  destruct (sorted_sorted l') as (r' & Hr' & Hp' & Hs').
  - eapply Permutation_Forall; eassumption.
  - eapply Permutation_NoDup; [|exact Hnd]. now apply Permutation_map.
  - rewrite Hr, Hr'. f_equal. apply sorted_by_key_unique; auto.
    + eapply Permutation_Forall; [|exact HQ]. now rewrite Hperm.
    + now rewrite <- Hp', <- Hperm.
Qed.

End SortedByKey.

(** ** The encoding of maps and sets *)

Lemma PrefixedArray_build_list (subcon : builder) (es : list value)
  (out : bytes) :
  PrefixedArray_build subcon (VList es) = Ok out ->
  exists encs, mapM subcon es = Ok encs
               /\ out = int_to_le 4 (Z.of_nat (length es)) ++ concat encs.
Proof.
  unfold PrefixedArray_build, Array_build, FormatField_build, pack_int.
  cbn [py_len py_iter bind]. rewrite Z.eqb_refl. cbn [negb].
  destruct (_ && _); [|discriminate]. cbn [bind].
  destruct (mapM subcon es) as [encs|]; [|discriminate]. cbn [bind].
  intros H. apply Ok_inj in H. exists encs. now split.
Qed.

Lemma item_key_items (d : list (value * value)) :
  map Keys.item_key (items d) = map fst d.
Proof.
  unfold items. rewrite map_map. reflexivity.
Qed.

Lemma items_of_class (P : value -> Prop) (d : list (value * value)) :
  Forall P (map fst d) -> Forall (Keys.item_of P) (items d).
Proof.
  unfold items. rewrite !Forall_map. apply Forall_impl.
  intros [k v] H. now exists k, v.
Qed.

Lemma item_lt (P : value -> Prop) (x y : value) :
  Keys.ordered_class P ->
  Keys.item_of P x -> Keys.item_of P y ->
  Keys.item_key x <> Keys.item_key y ->
  py_lt x y = py_lt (Keys.item_key x) (Keys.item_key y).
Proof.
  intros HP (k1 & v1 & -> & H1) (k2 & v2 & -> & H2). cbn [Keys.item_key].
  intros Hne.
  change (py_lt (VTuple [k1; v1]) (VTuple [k2; v2]))
    with (if py_eq k1 k2
          then (if py_eq v1 v2 then Ok false else py_lt v1 v2)
          else py_lt k1 k2).
  destruct (py_eq k1 k2) eqn:E; [|reflexivity].
  apply (Keys.oc_eq HP) in E; auto. contradiction.
Qed.

Lemma Sequence_build_item (K V : Construct) (kv : value * value) :
  Sequence_build [_build K; _build V] (VTuple [fst kv; snd kv])
  = Keys.entry_encoding K V kv.
Proof.
  unfold Sequence_build, Keys.entry_encoding.
  cbn [py_iter bind Sequence_build_loop].
  destruct (_build K (fst kv)) as [k|]; [|reflexivity]. cbn [bind].
  destruct (_build V (snd kv)) as [v|]; [|reflexivity]. cbn [bind].
  now rewrite app_nil_r.
Qed.

Lemma mapM_ext {A B} (f g : A -> result B) (l : list A) :
  (forall a, f a = g a) -> mapM f l = mapM g l.
Proof.
  intros H. induction l as [|a l IH]; [reflexivity|].
  now rewrite !mapM_cons, H, IH.
Qed.

Lemma mapM_map {A B C} (f : B -> result C) (g : A -> B) (l : list A) :
  mapM f (map g l) = mapM (fun a => f (g a)) l.
Proof.
  induction l as [|a l IH]; [reflexivity|].
  cbn [map]. now rewrite !mapM_cons, IH.
Qed.

Lemma StronglySorted_map {A B} (R : B -> B -> Prop) (f : A -> B)
  (l : list A) :
  StronglySorted R (map f l) -> StronglySorted (fun a b => R (f a) (f b)) l.
Proof.
  induction l as [|a l IH]; cbn [map]; intros H; [constructor|].
  apply StronglySorted_inv in H as [H1 H2].
  constructor; [auto|]. now rewrite Forall_map in H2.
Qed.

(** A map with distinct keys of one class. *)
Lemma hashmap_build_sorted (K V : Construct) (d : list (value * value))
  (out : bytes) :
  Keys.homogeneous (map fst d) -> NoDup (map fst d) ->
  build (HashMap K V) (VDict d) = Ok out ->
  exists entries encs,
    Permutation d entries
    /\ StronglySorted (fun e1 e2 => Keys.lt (fst e1) (fst e2)) entries
    /\ mapM (Keys.entry_encoding K V) entries = Ok encs
    /\ out = int_to_le 4 (Z.of_nat (length d)) ++ concat encs
    /\ forall d', Permutation d d' -> build (HashMap K V) (VDict d') = Ok out.
Proof.
  intros Hhom Hnd Hbuild. pose proof Hbuild as Hout.
  destruct (homogeneous_class _ Hhom) as (P & HP & Hkeys).
  pose proof (items_of_class P d Hkeys) as HQ.
  assert (Hnd' : NoDup (map Keys.item_key (items d)))
    by now rewrite item_key_items.
  assert (Hkey : forall x, Keys.item_of P x -> P (Keys.item_key x))
    by (intros x (k & v & -> & H); exact H).
  destruct (sorted_sorted P HP Keys.item_key (Keys.item_of P) Hkey
              (fun x y => item_lt P x y HP) (items d) HQ Hnd')
    as (r & Hr & Hperm & Hsorted).
  unfold items in Hperm.
  destruct (Permutation_map_inv _ _ (Permutation_sym Hperm))
    as (entries & -> & Hperm').
  fold (items entries) in Hr, Hsorted.
  unfold build in Hbuild, Hout |- *. cbn [_build] in Hbuild, Hout |- *.
  rewrite Hr in Hbuild. cbn [bind] in Hbuild.
  apply PrefixedArray_build_list in Hbuild as (encs & Hencs & Hbytes).
  exists entries, encs. repeat apply conj.
  - exact Hperm'.
  - apply StronglySorted_map in Hsorted. exact Hsorted.
  - rewrite <- Hencs. unfold items. rewrite mapM_map.
    apply mapM_ext. intros kv. now rewrite Sequence_build_item.
  - rewrite Hbytes. unfold items. rewrite length_map.
    now rewrite (Permutation_length Hperm').
  - intros d' Hd'.
    rewrite (sorted_permutation P HP Keys.item_key (Keys.item_of P) Hkey
               (fun x y => item_lt P x y HP) (items d) (items d') HQ Hnd'
               (Permutation_map _ Hd')).
    exact Hout.
Qed.

(** A set with distinct elements of one class. *)
Lemma hashset_build_sorted (T : Construct) (s : list value) (out : bytes) :
  Keys.homogeneous s -> NoDup s ->
  build (HashSet T) (VSet s) = Ok out ->
  exists entries encs,
    Permutation s entries
    /\ StronglySorted Keys.lt entries
    /\ mapM (_build T) entries = Ok encs
    /\ out = int_to_le 4 (Z.of_nat (length s)) ++ concat encs
    /\ forall s', Permutation s s' -> build (HashSet T) (VSet s') = Ok out.
Proof.
  intros Hhom Hnd Hbuild. pose proof Hbuild as Hout.
  destruct (homogeneous_class _ Hhom) as (P & HP & Hs).
  assert (Hnd' : NoDup (map (fun x : value => x) s)) by now rewrite map_id.
  destruct (sorted_sorted P HP (fun x => x) P (fun x H => H)
              (fun x y _ _ _ => eq_refl) s Hs Hnd')
    as (entries & Hr & Hperm & Hsorted).
  unfold build in Hbuild, Hout |- *. cbn [_build py_iter bind] in Hbuild, Hout |- *.
  rewrite Hr in Hbuild. cbn [bind] in Hbuild.
  apply PrefixedArray_build_list in Hbuild as (encs & Hencs & Hbytes).
  exists entries, encs. repeat apply conj; auto.
  - now rewrite Hbytes, (Permutation_length Hperm).
  - intros s' Hs'.
    rewrite (sorted_permutation P HP (fun x => x) P (fun x H => H)
               (fun x y _ _ _ => eq_refl) s s' Hs Hnd' Hs').
    exact Hout.
Qed.

(** C2, as the code has it: for a map whose keys, or a set whose elements,
    are distinct host values of one kind (all integers, all strings or all
    byte strings), the encoded output is the u32 little-endian count followed
    by the encodings of the entries in ascending order of the decoded keys
    (elements), Python's order of the values and not the order of their
    encoded bytes, whatever the insertion or iteration order of the
    container. *)
Theorem collection_build_sorted_by_decoded_key :
  (forall K V d out,
      Keys.homogeneous (map fst d) -> NoDup (map fst d) ->
      build (HashMap K V) (VDict d) = Ok out ->
      exists entries encs,
        Permutation d entries
        /\ StronglySorted (fun e1 e2 => Keys.lt (fst e1) (fst e2)) entries
        /\ mapM (Keys.entry_encoding K V) entries = Ok encs
        /\ out = int_to_le 4 (Z.of_nat (length d)) ++ concat encs
        /\ forall d', Permutation d d' ->
                      build (HashMap K V) (VDict d') = Ok out)
  /\ (forall T s out,
      Keys.homogeneous s -> NoDup s ->
      build (HashSet T) (VSet s) = Ok out ->
      exists entries encs,
        Permutation s entries
        /\ StronglySorted Keys.lt entries
        /\ mapM (_build T) entries = Ok encs
        /\ out = int_to_le 4 (Z.of_nat (length s)) ++ concat encs
        /\ forall s', Permutation s s' ->
                      build (HashSet T) (VSet s') = Ok out).
Proof.
  split.
  - exact hashmap_build_sorted.
  - exact hashset_build_sorted.
Qed.

Lemma collection_build_sorted_by_decoded_key_witness :
  exists out,
    build (HashMap String U8) (VDict Examples.map_b_a) = Ok out
    /\ forall d', Permutation Examples.map_b_a d' ->
                  build (HashMap String U8) (VDict d') = Ok out.
Proof.
  assert (Hhom : Keys.homogeneous (map fst Examples.map_b_a)).
  { right; left. repeat constructor; eexists; reflexivity. }
  assert (Hnd : NoDup (map fst Examples.map_b_a)).
  { repeat constructor; cbn; intuition discriminate. }
  eexists. split; [reflexivity|].
  intros d' Hd'.
  destruct (proj1 collection_build_sorted_by_decoded_key String U8
              Examples.map_b_a _ Hhom Hnd eq_refl)
    as (entries & encs & _ & _ & _ & _ & Hperm).
  exact (Hperm d' Hd').
Defined.

(** Scenario 5: the map [{"b": 1, "a": 2}] is encoded with the key ["a"]
    first, and there the code and the specification agree. *)
Example map_b_a_encoding :
  build (HashMap String U8) (VDict Examples.map_b_a)
  = Ok [x02; x00; x00; x00;
        x01; x00; x00; x00; x61; x02;
        x01; x00; x00; x00; x62; x01]
  /\ Spec.encode_map String U8 Examples.map_b_a
     = build (HashMap String U8) (VDict Examples.map_b_a).
Proof. split; reflexivity. Qed.

(** C2 as stated fails: in [{"b": 1, "aa": 2}] the key ["aa"] sorts before
    ["b"] as a string, and the code emits it first, although its encoded
    bytes [02 00 00 00 61 61] come after [01 00 00 00 62]; likewise the set
    [{256, 1}] of [u16] is emitted as 1, 256 although the encoded [00 01]
    precedes [01 00]. *)
Lemma collection_sorted_by_encoded_bytes_counterexample :
  build (HashMap String U8) (VDict Examples.map_b_aa)
  = Ok [x02; x00; x00; x00;
        x02; x00; x00; x00; x61; x61; x02;
        x01; x00; x00; x00; x62; x01]
  /\ Spec.encode_map String U8 Examples.map_b_aa
     = Ok [x02; x00; x00; x00;
           x01; x00; x00; x00; x62; x01;
           x02; x00; x00; x00; x61; x61; x02]
  /\ build (HashSet U16) (VSet Examples.set_256_1)
     = Ok [x02; x00; x00; x00; x01; x00; x00; x01]
  /\ Spec.encode_set U16 Examples.set_256_1
     = Ok [x02; x00; x00; x00; x00; x01; x01; x00]
  /\ build (HashMap String U8) (VDict Examples.map_b_aa)
     <> Spec.encode_map String U8 Examples.map_b_aa.
Proof. repeat split. discriminate. Qed.

(** * Round trip *)

(** ** Integers *)

Lemma Z_of_byte_of_Z (z : Z) : Z_of_byte (byte_of_Z z) = z mod 256.
Proof.
  unfold byte_of_Z, Z_of_byte.
  assert (H : 0 <= z mod 256 < 256) by (apply Z.mod_pos_bound; lia).
  destruct (Byte.of_N (Z.to_N (z mod 256))) as [x|] eqn:E.
  - apply Byte.to_of_N in E. rewrite E. lia.
  - apply Byte.of_N_None_iff in E. lia.
Qed.

Lemma le_to_int_to_le (n : nat) (z : Z) :
  le_to_int (int_to_le n z) = z mod 2 ^ (8 * Z.of_nat n).
Proof.
  revert z. induction n as [|n IH]; intros z.
  - cbn. now rewrite Z.mod_1_r.
  - cbn [int_to_le le_to_int]. rewrite Z_of_byte_of_Z, IH.
    replace (8 * Z.of_nat (S n)) with (8 + 8 * Z.of_nat n) by lia.
    rewrite Z.pow_add_r by lia. change (2 ^ 8) with 256.
    rewrite Z.rem_mul_r by lia. reflexivity.
Qed.

Lemma in_range_pack (length : nat) (signed : bool) (z : Z) :
  in_range length signed z ->
  pack_int length signed (VInt z) = Ok (int_to_le length z).
Proof.
  unfold in_range, pack_int. intros H.
  destruct signed.
  - replace (_ && _) with true; [reflexivity|]. symmetry.
    apply andb_true_iff. split; [apply Z.leb_le | apply Z.ltb_lt]; lia.
  - replace (_ && _) with true; [reflexivity|]. symmetry.
    apply andb_true_iff. split; [apply Z.leb_le | apply Z.ltb_lt]; lia.
Qed.

Lemma pack_in_range (length : nat) (signed : bool) (z : Z) (data : bytes) :
  pack_int length signed (VInt z) = Ok data ->
  in_range length signed z /\ data = int_to_le length z.
Proof.
  unfold in_range, pack_int.
  destruct (_ && _) eqn:E; [|discriminate].
  intros H. apply Ok_inj in H. split; [|now subst].
  apply andb_true_iff in E as [E1 E2].
  apply Z.leb_le in E1. apply Z.ltb_lt in E2.
  destruct signed; lia.
Qed.

Lemma unpack_pack (length : nat) (signed : bool) (z : Z) :
  in_range length signed z ->
  unpack_int signed (int_to_le length z) = z.
Proof.
  unfold in_range, unpack_int. rewrite int_to_le_length, le_to_int_to_le.
  set (bits := 8 * Z.of_nat length). intros H.
  destruct length as [|n].
  - change bits with 0 in *. cbn in *.
    destruct signed; cbn in *; rewrite ?Z.mod_1_r; lia.
  - assert (Hb : 0 < bits) by (unfold bits; lia).
    assert (Hp : 2 ^ bits = 2 * 2 ^ (bits - 1)).
    { rewrite <- Z.pow_succ_r by lia. f_equal. lia. }
    assert (Hh : 0 < 2 ^ (bits - 1)) by (apply Z.pow_pos_nonneg; lia).
    destruct signed; cbn [andb].
    + destruct (Z.leb_spec (2 ^ (bits - 1)) (z mod 2 ^ bits)) as [Hc|Hc].
      * destruct (Z.lt_ge_cases z 0) as [Hz|Hz].
        -- rewrite <- (Z.mod_add z 1 (2 ^ bits)) by lia.
           rewrite Z.mod_small by lia. lia.
        -- rewrite Z.mod_small in Hc by lia. lia.
      * destruct (Z.lt_ge_cases z 0) as [Hz|Hz].
        -- rewrite <- (Z.mod_add z 1 (2 ^ bits)) in Hc by lia.
           rewrite Z.mod_small in Hc by lia. lia.
        -- rewrite Z.mod_small by lia. lia.
    + apply Z.mod_small. lia.
Qed.

Lemma FormatField_roundtrip (length : nat) (signed : bool) (z : Z)
  (data : bytes) :
  FormatField_build length signed (VInt z) = Ok data ->
  forall rest, FormatField_parse length signed (data ++ rest)
               = Ok (VInt z, rest).
Proof.
  unfold FormatField_build, FormatField_parse. intros H rest.
  apply pack_in_range in H as [Hr ->].
  pose proof (stream_read_app (int_to_le length z) rest) as Hs.
  rewrite int_to_le_length in Hs. rewrite Hs.
  cbn [bind]. now rewrite unpack_pack.
Qed.

Lemma BytesInteger_roundtrip (length : nat) (signed swapped : bool) (z : Z)
  (data : bytes) :
  BytesInteger_build length signed swapped (VInt z) = Ok data ->
  forall rest, BytesInteger_parse length signed swapped (data ++ rest)
               = Ok (VInt z, rest).
Proof.
  unfold BytesInteger_build, BytesInteger_parse. intros H rest.
  destruct (length =? 0)%nat; [discriminate|].
  destruct (_ && _) eqn:E; [|discriminate].
  assert (Hr : in_range length signed z).
  { unfold in_range. apply andb_true_iff in E as [E1 E2].
    apply Z.leb_le in E1. apply Z.ltb_lt in E2. destruct signed; lia. }
  apply Ok_inj in H. subst data.
  destruct swapped; unfold swapbytes, integer2bytes, bytes2integer.
  - pose proof (stream_read_app (rev (rev (int_to_le length z))) rest) as Hs.
    rewrite !length_rev, int_to_le_length in Hs. rewrite Hs. cbn [bind].
    now rewrite !rev_involutive, unpack_pack.
  - pose proof (stream_read_app (rev (int_to_le length z)) rest) as Hs.
    rewrite !length_rev, int_to_le_length in Hs. rewrite Hs. cbn [bind].
    now rewrite !rev_involutive, unpack_pack.
Qed.

(** The 128-bit boundary: the largest [u128] and [-1] as an [i128] are both
    written as sixteen bytes 0xFF and read back as themselves. *)
Example u128_i128_boundary :
  build U128 (VInt (2 ^ 128 - 1)) = Ok (repeat xff 16)
  /\ parse U128 (repeat xff 16) = Ok (VInt (2 ^ 128 - 1))
  /\ build I128 (VInt (-1)) = Ok (repeat xff 16)
  /\ parse I128 (repeat xff 16) = Ok (VInt (-1)).
Proof. repeat split. Qed.

(** Scenarios 1 to 3 and the empty vector. *)
Example scenarios :
  build U32 (VInt 0xDEADBEEF) = Ok [xef; xbe; xad; xde]
  /\ parse U32 [xef; xbe; xad; xde] = Ok (VInt 0xDEADBEEF)
  /\ build String (VStr (str "abc"))
     = Ok [x03; x00; x00; x00; x61; x62; x63]
  /\ parse String [x03; x00; x00; x00; x61; x62; x63] = Ok (VStr (str "abc"))
  /\ build (Option U8) (VInt 5) = Ok [x01; x05]
  /\ build (Option U8) VNone = Ok [x00]
  /\ (forall T, build (Vec T) (VList []) = Ok [x00; x00; x00; x00])
  /\ (forall T, parse (Vec T) [x00; x00; x00; x00] = Ok (VList [])).
Proof. repeat split. Qed.

(** ** Sequences of codecs *)

Lemma Array_roundtrip (b : builder) (p : parser) (es : list value) :
  Forall (roundtrips_with b p) es ->
  exists datas,
    mapM b es = Ok datas
    /\ forall rest,
         Array_parse p (length es) (concat datas ++ rest) = Ok (es, rest).
Proof.
  induction 1 as [|e es (d & Hb & Hp) _ (ds & Hbs & Hps)].
  - exists []. split; reflexivity.
  - exists (d :: ds). rewrite mapM_cons, Hb, Hbs. split; [reflexivity|].
    intros rest. cbn [concat length Array_parse].
    rewrite <- app_assoc, Hp. cbn [bind]. now rewrite Hps.
Qed.

Lemma PrefixedArray_roundtrip (b : builder) (p : parser) (es : list value) :
  Z.of_nat (length es) < 2 ^ 32 ->
  Forall (roundtrips_with b p) es ->
  roundtrips_with (PrefixedArray_build b) (PrefixedArray_parse p) (VList es).
Proof.
  intros Hlen Hes. destruct (Array_roundtrip b p es Hes) as (ds & Hb & Hp).
  assert (Hr : in_range 4 false (Z.of_nat (length es)))
    by (unfold in_range; cbn; lia).
  exists (int_to_le 4 (Z.of_nat (length es)) ++ concat ds). split.
  - unfold PrefixedArray_build, Array_build, FormatField_build.
    cbn [py_len py_iter bind]. rewrite (in_range_pack _ _ _ Hr). cbn [bind].
    rewrite Z.eqb_refl. cbn [negb]. now rewrite Hb.
  - intros rest. unfold PrefixedArray_parse. rewrite <- app_assoc.
    rewrite (FormatField_roundtrip 4 false (Z.of_nat (length es)));
      [|apply in_range_pack, Hr].
    cbn [bind]. now rewrite Nat2Z.id, Hp.
Qed.

Lemma Sequence_roundtrip (subcons : list Construct) (vs : list value) :
  Forall2 roundtrips subcons vs ->
  exists data,
    Sequence_build_loop (map _build subcons) vs = Ok data
    /\ forall rest,
         Sequence_parse (map _parse subcons) (data ++ rest) = Ok (vs, rest).
Proof.
  induction 1 as [|sc v subcons vs (d & Hb & Hp) _ (ds & Hbs & Hps)].
  - exists []. split; reflexivity.
  - exists (d ++ ds). cbn [map Sequence_build_loop Sequence_parse].
    rewrite Hb. cbn [bind]. rewrite Hbs. split; [reflexivity|].
    intros rest. rewrite <- app_assoc, Hp. cbn [bind]. now rewrite Hps.
Qed.

(** ** Structs *)

Lemma py_eq_str (a b : pystr) : py_eq (VStr a) (VStr b) = pystr_eqb a b.
Proof. reflexivity. Qed.

Lemma dict_get_field (fields : list (pystr * Construct * value))
  (n : pystr) (T : Construct) (v : value) :
  NoDup (map (fun f => fst (fst f)) fields) ->
  In (n, T, v) fields ->
  dict_get (map (fun f => (VStr (fst (fst f)), snd f)) fields) (VStr n)
  = Some v.
Proof.
  induction fields as [|[[n' T'] v'] fields IH]; intros Hnd Hin; [destruct Hin|].
  cbn [map fst snd dict_get] in *. rewrite py_eq_str.
  apply NoDup_cons_iff in Hnd as [Hnin Hnd].
  destruct Hin as [[= -> -> ->]|Hin].
  - now rewrite (proj2 (pystr_eqb_eq n n) eq_refl).
  - destruct (pystr_eqb n' n) eqn:E; [|now apply IH].
    apply pystr_eqb_eq in E. subst n'. exfalso. apply Hnin.
    now apply (in_map (fun f => fst (fst f))) in Hin.
Qed.

Lemma dict_get_absent (fields : list (pystr * Construct * value)) (n : pystr) :
  ~ In n (map (fun f => fst (fst f)) fields) ->
  dict_get (map (fun f => (VStr (fst (fst f)), snd f)) fields) (VStr n) = None.
Proof.
  induction fields as [|[[n' T'] v'] fields IH]; intros Hnin; [reflexivity|].
  cbn [map fst snd dict_get] in *. rewrite py_eq_str.
  destruct (pystr_eqb n' n) eqn:E.
  - apply pystr_eqb_eq in E. subst n'. exfalso. apply Hnin. now left.
  - apply IH. intros H. apply Hnin. now right.
Qed.

Lemma dict_set_fresh (fields : list (pystr * Construct * value))
  (n : pystr) (v : value) :
  ~ In n (map (fun f => fst (fst f)) fields) ->
  dict_set (map (fun f => (VStr (fst (fst f)), snd f)) fields) (VStr n) v
  = map (fun f => (VStr (fst (fst f)), snd f)) fields ++ [(VStr n, v)].
Proof.
  induction fields as [|[[n' T'] v'] fields IH]; intros Hnin; [reflexivity|].
  cbn [map fst snd dict_set app] in *. rewrite py_eq_str.
  destruct (pystr_eqb n' n) eqn:E.
  - apply pystr_eqb_eq in E. subst n'. exfalso. apply Hnin. now left.
  - rewrite IH; [reflexivity|]. intros H. apply Hnin. now right.
Qed.

Lemma Struct_roundtrip (done fields : list (pystr * Construct * value))
  (obj : list (value * value)) :
  NoDup (map (fun f => fst (fst f)) (done ++ fields)) ->
  Forall (fun f => fst (fst f) <> []) fields ->
  Forall (fun f => roundtrips (snd (fst f)) (snd f)) fields ->
  (forall n T v, In (n, T, v) fields -> dict_get obj (VStr n) = Some v) ->
  exists data,
    Struct_build_loop
      (map (fun sc => (name_of sc, flagbuildnone sc, _build sc))
           (map (fun f => Renamed (VStr (fst (fst f))) (snd (fst f))) fields))
      obj = Ok data
    /\ forall rest,
         Struct_parse
           (map (fun sc => (name_of sc, _parse sc))
                (map (fun f => Renamed (VStr (fst (fst f))) (snd (fst f)))
                     fields))
           (map (fun f => (VStr (fst (fst f)), snd f)) done)
           (data ++ rest)
         = Ok (map (fun f => (VStr (fst (fst f)), snd f)) (done ++ fields),
               rest).
Proof.
  revert done. induction fields as [|[[n T] v] fields IH];
    intros done Hnd Hne Hrt Hget.
  - exists []. rewrite app_nil_r. split; reflexivity.
  - inversion Hne as [|? ? Hn Hne']; subst.
    inversion Hrt as [|? ? (d & Hb & Hp) Hrt']; subst.
    cbn [fst snd] in *.
    destruct (IH (done ++ [(n, T, v)])) as (ds & Hbs & Hps); auto.
    + now rewrite <- app_assoc.
    + intros n0 T0 v0 Hin. apply (Hget n0 T0 v0). now right.
    + exists (d ++ ds).
      cbn [map fst snd]. rewrite (name_of_named n T Hn).
      cbn [Struct_build_loop Struct_parse _build _parse].
      rewrite (Hget n T v) by now left.
      cbn [bind]. rewrite Hb. cbn [bind]. rewrite Hbs.
      split; [reflexivity|]. intros rest.
      rewrite <- app_assoc, Hp. cbn [bind].
      replace (truthy (VStr n)) with true
        by (destruct n; [contradiction | reflexivity]).
      rewrite dict_set_fresh.
      * specialize (Hps rest). rewrite map_app in Hps. cbn [map fst snd] in Hps.
        rewrite Hps. now rewrite <- app_assoc.
      * rewrite map_app in Hnd. apply NoDup_remove_2 in Hnd.
        intros H. apply Hnd, in_or_app. now left.
Qed.

(** ** Strings *)

Ltac zlia := Z.div_mod_to_equations; lia.

Ltac resolve_if :=
  match goal with
  | |- context [if ?b then _ else _] =>
      let E := fresh "E" in
      destruct b eqn:E; [try (exfalso; zlia) | try (exfalso; zlia)]
  end.

Lemma utf8_decode_char (c : Z) (bs : bytes) (fuel : nat) (tail : bytes) :
  utf8_encode_char c = Ok bs ->
  utf8_decode_aux (S fuel) (bs ++ tail)
  = (s <- utf8_decode_aux fuel tail ;; Ok (c :: s)).
Proof.
  unfold utf8_encode_char.
  destruct ((c <? 0) || (0x10FFFF <? c)) eqn:E0; [discriminate|].
  destruct (c <? 0x80) eqn:E1;
    [|destruct (c <? 0x800) eqn:E2;
      [|destruct ((0xD800 <=? c) && (c <=? 0xDFFF)) eqn:E3; [discriminate|];
        destruct (c <? 0x10000) eqn:E4]];
    intros H; apply Ok_inj in H; subst bs;
    cbn [app utf8_decode_aux]; unfold is_cont; cbv zeta;
    rewrite !Z_of_byte_of_Z.
  - rewrite Z.mod_small by lia. now rewrite E1.
  - rewrite !(Z.mod_small (_ + _) 256) by zlia.
    repeat resolve_if.
    destruct (utf8_decode_aux fuel tail) as [s|e]; [|reflexivity]. cbn [bind].
    do 2 f_equal. zlia.
  - rewrite !(Z.mod_small (_ + _) 256) by zlia.
    repeat resolve_if.
    destruct (utf8_decode_aux fuel tail) as [s|e]; [|reflexivity]. cbn [bind].
    do 2 f_equal. zlia.
  - rewrite !(Z.mod_small (_ + _) 256) by zlia.
    repeat resolve_if.
    destruct (utf8_decode_aux fuel tail) as [s|e]; [|reflexivity]. cbn [bind].
    do 2 f_equal. zlia.
Qed.

Lemma utf8_encode_char_nonempty (c : Z) (bs : bytes) :
  utf8_encode_char c = Ok bs -> (1 <= length bs)%nat.
Proof.
  unfold utf8_encode_char.
  repeat match goal with
         | |- context [if ?b then _ else _] => destruct b
         end;
    try discriminate; intros H; apply Ok_inj in H; subst bs; cbn; lia.
Qed.

Lemma utf8_decode_encode (s : pystr) :
  forall bss fuel,
    mapM utf8_encode_char s = Ok bss ->
    (length s <= fuel)%nat ->
    utf8_decode_aux fuel (concat bss) = Ok s
    /\ (length s <= length (concat bss))%nat.
Proof.
  induction s as [|c s IH]; intros bss fuel.
  - rewrite mapM_nil. intros H _. apply Ok_inj in H. subst bss.
    split; [now destruct fuel | reflexivity].
  - rewrite mapM_cons.
    destruct (utf8_encode_char c) as [bs|] eqn:Ec; [|discriminate].
    cbn [bind]. destruct (mapM utf8_encode_char s) as [bss'|]; [|discriminate].
    cbn [bind]. intros H Hfuel. apply Ok_inj in H. subst bss.
    destruct fuel as [|fuel]; [cbn in Hfuel; lia|].
    cbn [length] in Hfuel.
    destruct (IH bss' fuel eq_refl) as [Hd Hl]; [lia|].
    cbn [concat]. rewrite (utf8_decode_char _ _ _ _ Ec), Hd. split.
    + reflexivity.
    + apply utf8_encode_char_nonempty in Ec.
      rewrite length_app. cbn [length]. lia.
Qed.

Lemma utf8_roundtrip (s : pystr) (data : bytes) :
  utf8_encode s = Ok data -> utf8_decode data = Ok s.
Proof.
  unfold utf8_encode, utf8_decode.
  destruct (mapM utf8_encode_char s) as [bss|] eqn:E; [|discriminate].
  cbn [bind]. intros H. apply Ok_inj in H. subst data.
  destruct (utf8_decode_encode s bss (length s) E (le_n _)) as [_ Hl].
  now destruct (utf8_decode_encode s bss (length (concat bss)) E Hl).
Qed.

Lemma Bytes_roundtrip (data : bytes) :
  Z.of_nat (length data) < 2 ^ 32 ->
  roundtrips_with Bytes_build Bytes_parse (VBytes data).
Proof.
  intros Hlen.
  assert (Hr : in_range 4 false (Z.of_nat (length data)))
    by (unfold in_range; cbn; lia).
  exists (int_to_le 4 (Z.of_nat (length data)) ++ data). split.
  - unfold Bytes_build, FormatField_build.
    now rewrite (in_range_pack _ _ _ Hr).
  - intros rest. unfold Bytes_parse. rewrite <- app_assoc.
    rewrite (FormatField_roundtrip 4 false (Z.of_nat (length data)));
      [|apply in_range_pack, Hr].
    cbn [bind]. now rewrite Nat2Z.id, stream_read_app.
Qed.

(** ** Unions *)

Lemma py_getitem_nth {A} (seq : list A) (i : nat) (a : A) :
  nth_error seq i = Some a -> py_getitem seq (VInt (Z.of_nat i)) = Ok a.
Proof.
  intros H. pose proof (nth_error_Some_lt _ _ _ H) as Hlt.
  unfold py_getitem.
  assert (E : (Z.of_nat i <? 0) = false) by (apply Z.ltb_ge; lia).
  rewrite E.
  replace ((0 <=? Z.of_nat i) && (Z.of_nat i <? Z.of_nat (length seq)))
    with true by lia.
  now rewrite Nat2Z.id, H.
Qed.

Lemma getitem_nth (enum : EnumDef) (index : nat) (cname : pystr)
  (c : constructor) :
  nth_error enum index = Some (cname, c) ->
  getitem enum (Z.of_nat index) = Ok (index, cname, c).
Proof.
  intros H. unfold getitem. rewrite (py_getitem_nth _ _ _ H).
  assert (E : (Z.of_nat index <? 0) = false) by (apply Z.ltb_ge; lia).
  now rewrite E, Nat2Z.id.
Qed.

Lemma index_byte (index : nat) :
  (index < 256)%nat ->
  FormatField_build 1 false (VInt (Z.of_nat index))
  = Ok [byte_of_Z (Z.of_nat index)]
  /\ U8_parse [byte_of_Z (Z.of_nat index)] = Z.of_nat index.
Proof.
  intros H. split.
  - unfold FormatField_build. rewrite in_range_pack; [reflexivity|].
    unfold in_range. cbn. lia.
  - rewrite U8_parse_one, Z_of_byte_of_Z. apply Z.mod_small. lia.
Qed.

Lemma assoc_field (fields : list (pystr * Construct * value))
  (n : pystr) (T : Construct) (v : value) :
  NoDup (map (fun f => fst (fst f)) fields) ->
  In (n, T, v) fields ->
  assoc n (map (fun f => (fst (fst f), snd f)) fields) = Some v.
Proof.
  induction fields as [|[[n' T'] v'] fields IH]; intros Hnd Hin; [destruct Hin|].
  cbn [map fst snd assoc] in *.
  apply NoDup_cons_iff in Hnd as [Hnin Hnd].
  destruct Hin as [[= -> -> ->]|Hin].
  - now rewrite (proj2 (pystr_eqb_eq n n) eq_refl).
  - destruct (pystr_eqb n' n) eqn:E; [|now apply IH].
    apply pystr_eqb_eq in E. subst n'. exfalso. apply Hnin.
    now apply (in_map (fun f => fst (fst f))) in Hin.
Qed.

Lemma assoc_absent (fields : list (pystr * Construct * value)) (n : pystr) :
  ~ In n (map (fun f => fst (fst f)) fields) ->
  assoc n (map (fun f => (fst (fst f), snd f)) fields) = None.
Proof.
  induction fields as [|[[n' T'] v'] fields IH]; intros Hnin; [reflexivity|].
  cbn [map fst snd assoc] in *.
  destruct (pystr_eqb n' n) eqn:E.
  - apply pystr_eqb_eq in E. subst n'. exfalso. apply Hnin. now left.
  - apply IH. intros H. apply Hnin. now right.
Qed.

Lemma str_keys_fields (fields : list (pystr * Construct * value)) :
  str_keys (map (fun f => (VStr (fst (fst f)), snd f)) fields)
  = Ok (map (fun f => (fst (fst f), snd f)) fields).
Proof.
  induction fields as [|f fields IH]; [reflexivity|].
  cbn [map str_keys]. now rewrite IH.
Qed.

Lemma public_items_fields (fields : list (pystr * Construct * value)) :
  Forall (fun f => field_name (fst (fst f))) fields ->
  public_items (map (fun f => (VStr (fst (fst f)), snd f)) fields)
  = Ok (map (fun f => (VStr (fst (fst f)), snd f)) fields).
Proof.
  induction 1 as [|[[n T] v] fields Hf _ IH]; [reflexivity|].
  destruct Hf as [(c0 & s & E & Hc) _]. cbn [fst] in E. subst n.
  cbn [map public_items fst snd not_private]. rewrite IH.
  change (pystr_eqb [c0] (str "_")) with ((c0 =? 95) && true).
  replace (c0 =? 95) with false by lia. reflexivity.
Qed.

(** Calling the constructor of a struct variant with the fields as keyword
    arguments. *)
Lemma call_fields (index : nat) (cname : pystr)
  (fields : list (pystr * Construct * value)) :
  NoDup (map (fun f => fst (fst f)) fields) ->
  call (index, cname, clike_struct (map (fun f => fst (fst f)) fields)) []
       (map (fun f => (VStr (fst (fst f)), snd f)) fields)
  = Ok (VVariant index cname (map (fun f => (fst (fst f), snd f)) fields)).
Proof.
  intros Hnd. unfold call, clike_struct. rewrite str_keys_fields.
  cbn [bind length firstn skipn combine app].
  set (names := map (fun f => fst (fst f)) fields).
  set (kw := map (fun f => (fst (fst f), snd f)) fields).
  replace (length names <? 0)%nat with false by (symmetry; apply Nat.ltb_ge; lia).
  assert (Hall : forallb (fun a => existsb (pystr_eqb (fst a)) names) kw = true).
  { apply forallb_forall. intros [n v] Hin. apply existsb_exists.
    exists n. split; [|now apply pystr_eqb_eq].
    unfold kw in Hin. apply in_map_iff in Hin as ([[n' T'] v'] & [= <- <-] & Hin).
    unfold names. now apply (in_map (fun f => fst (fst f))) in Hin. }
  rewrite Hall. cbn [negb].
  assert (Hnamed : mapM (fun n => match assoc n kw with
                                  | Some v => Ok (n, v)
                                  | None => Err TypeError
                                  end) names = Ok kw).
  { unfold names, kw. rewrite mapM_map.
    assert (Hsub : forall l, incl l fields ->
              mapM (fun f : pystr * Construct * value =>
                      match assoc (fst (fst f))
                              (map (fun f0 => (fst (fst f0), snd f0)) fields)
                      with
                      | Some v => Ok (fst (fst f), v)
                      | None => Err TypeError
                      end) l
              = Ok (map (fun f => (fst (fst f), snd f)) l)).
    { induction l as [|[[n T] v] l IH]; intros Hincl; [reflexivity|].
      rewrite mapM_cons. cbn [fst snd].
      rewrite (assoc_field fields n T v Hnd) by (apply Hincl; now left).
      cbn [bind]. rewrite IH by (intros x Hx; apply Hincl; now right).
      reflexivity. }
    apply Hsub, incl_refl. }
  rewrite Hnamed. reflexivity.
Qed.

Lemma asdict_fields (fields : list (pystr * Construct * value)) :
  Forall (fun f => plain (snd f)) fields ->
  map (fun a => (VStr (fst a), asdict_anything false (snd a)))
      (map (fun f => (fst (fst f), snd f)) fields)
  = map (fun f => (VStr (fst (fst f)), snd f)) fields.
Proof.
  induction 1 as [|f fields Hf _ IH]; [reflexivity|].
  cbn [map fst snd]. now rewrite IH, Hf.
Qed.

Lemma asdict_plain_list (l : list value) :
  Forall plain l -> map (asdict_anything false) l = l.
Proof.
  induction 1 as [|v l Hv _ IH]; [reflexivity|].
  cbn [map]. now rewrite IH, Hv.
Qed.

Lemma Enum_build_eq enum variants index cname attrs :
  assoc (str "index") attrs = None ->
  _build (Enum enum variants) (VVariant index cname attrs) =
  (builder <- py_getitem
                (map (fun v => match v with
                               | VName n => VName n
                               | VSub sc => VSub (_build sc)
                               end) variants)
                (VInt (Z.of_nat index)) ;;
   index_byte <- FormatField_build 1 false (VInt (Z.of_nat index)) ;;
   if negb (length attrs =? 0)%nat then
     match builder with
     | VName _ => Err AttributeError
     | VSub build =>
         data <- build (to_build attrs) ;; Ok (index_byte ++ data)
     end
   else Ok index_byte).
Proof.
  intros Hidx. cbn [_build index_attr asdict]. rewrite Hidx.
  cbn [bind truthy]. rewrite length_map. reflexivity.
Qed.

Lemma Enum_parse_eq enum variants (first : byte) (stream : bytes) :
  _parse (Enum enum variants) (first :: stream) =
  (variant <- getitem enum (U8_parse [first]) ;;
   parser <- py_getitem
               (map (fun v => match v with
                              | VName n => VName n
                              | VSub sc => VSub (_parse sc)
                              end) variants)
               (VInt (U8_parse [first])) ;;
   match parser with
   | VName _ => obj <- call variant [] [] ;; Ok (obj, stream)
   | VSub parse =>
       '(container, stream) <- parse stream ;;
       match container with
       | VDict d =>
           as_dict <- public_items d ;;
           obj <- call variant [] as_dict ;;
           Ok (obj, stream)
       | _ =>
           elems <- py_iter container ;;
           obj <- call variant [VTuple elems] [] ;;
           Ok (obj, stream)
       end
   end).
Proof. reflexivity. Qed.

Lemma Enum_roundtrip_unit enum variants index cname n :
  nth_error enum index = Some (cname, unit_struct) ->
  nth_error variants index = Some (VName n) ->
  (index < 256)%nat ->
  roundtrips (Enum enum variants) (VVariant index cname []).
Proof.
  intros He Hv Hlt. destruct (index_byte index Hlt) as [Hb Hu].
  exists [byte_of_Z (Z.of_nat index)]. split.
  - rewrite Enum_build_eq by reflexivity.
    erewrite py_getitem_nth by (rewrite nth_error_map, Hv; reflexivity).
    cbn [bind]. now rewrite Hb.
  - intros rest. cbn [app]. rewrite Enum_parse_eq, Hu.
    rewrite (getitem_nth _ _ _ _ He). cbn [bind].
    erewrite py_getitem_nth by (rewrite nth_error_map, Hv; reflexivity).
    reflexivity.
Qed.

(** A variant with fields: the payload object goes through the codec [sc] of
    the variant, and the constructor is called on what [sc] parsed. *)
Lemma Enum_roundtrip_payload enum variants index cname c attrs sc :
  nth_error enum index = Some (cname, c) ->
  nth_error variants index = Some (VSub sc) ->
  (index < 256)%nat ->
  assoc (str "index") attrs = None ->
  attrs <> [] ->
  roundtrips sc (to_build attrs) ->
  match to_build attrs with
  | VDict d =>
      as_dict <- public_items d ;; call (index, cname, c) [] as_dict
  | container =>
      elems <- py_iter container ;; call (index, cname, c) [VTuple elems] []
  end = Ok (VVariant index cname attrs) ->
  roundtrips (Enum enum variants) (VVariant index cname attrs).
Proof.
  intros He Hv Hlt Hidx Hne (data & Hbuild & Hparse) Hcall.
  destruct (index_byte index Hlt) as [Hb Hu].
  exists (byte_of_Z (Z.of_nat index) :: data). split.
  - rewrite Enum_build_eq by assumption.
    erewrite py_getitem_nth by (rewrite nth_error_map, Hv; reflexivity).
    cbn [bind]. rewrite Hb. cbn [bind].
    destruct attrs; [contradiction|]. cbn [length Nat.eqb negb].
    now rewrite Hbuild.
  - intros rest. cbn [app]. rewrite Enum_parse_eq, Hu.
    rewrite (getitem_nth _ _ _ _ He). cbn [bind].
    erewrite py_getitem_nth by (rewrite nth_error_map, Hv; reflexivity).
    cbn [bind]. rewrite Hparse. cbn [bind].
    destruct (to_build attrs);
      try (destruct (py_iter _); [|discriminate]; cbn [bind] in *;
           now rewrite Hcall).
    destruct (public_items d); [|discriminate]. cbn [bind] in *.
    now rewrite Hcall.
Qed.

Lemma to_build_tuple (l : list value) :
  Forall plain l -> to_build [(TUPLE_DATA, VTuple l)] = VList l.
Proof.
  intros H. unfold to_build. cbn [map fst snd dict_get].
  rewrite py_eq_str, (proj2 (pystr_eqb_eq _ _) eq_refl).
  cbn [asdict_anything]. now rewrite asdict_plain_list.
Qed.

Lemma field_names_absent (fields : list (pystr * Construct * value))
  (n : pystr) :
  Forall (fun f => fst (fst f) <> n) fields ->
  ~ In n (map (fun f => fst (fst f)) fields).
Proof.
  intros H Hin. apply in_map_iff in Hin as (f & E & Hin).
  rewrite Forall_forall in H. now apply (H f Hin).
Qed.

Lemma to_build_fields (fields : list (pystr * Construct * value)) :
  Forall (fun f => field_name (fst (fst f))) fields ->
  Forall (fun f => plain (snd f)) fields ->
  to_build (map (fun f => (fst (fst f), snd f)) fields)
  = VDict (map (fun f => (VStr (fst (fst f)), snd f)) fields).
Proof.
  intros Hn Hp. unfold to_build. rewrite (asdict_fields _ Hp).
  rewrite dict_get_absent; [reflexivity|].
  apply field_names_absent. eapply Forall_impl; [|exact Hn].
  intros f (_ & H & _). exact H.
Qed.

Lemma Enum_roundtrip_empty_struct enum variants index cname name :
  nth_error enum index = Some (cname, clike_struct []) ->
  nth_error variants index = Some (VSub (Renamed name (CStruct []))) ->
  (index < 256)%nat ->
  roundtrips (Enum enum variants) (VVariant index cname []).
Proof.
  intros He Hv Hlt. destruct (index_byte index Hlt) as [Hb Hu].
  exists [byte_of_Z (Z.of_nat index)]. split.
  - rewrite Enum_build_eq by reflexivity.
    erewrite py_getitem_nth by (rewrite nth_error_map, Hv; reflexivity).
    cbn [bind]. now rewrite Hb.
  - intros rest. cbn [app]. rewrite Enum_parse_eq, Hu.
    rewrite (getitem_nth _ _ _ _ He). cbn [bind].
    erewrite py_getitem_nth by (rewrite nth_error_map, Hv; reflexivity).
    reflexivity.
Qed.

Lemma variant_hypothesis (P : Construct -> Prop)
  (variants : list (variant_of Construct)) (index : nat) (sc : Construct) :
  Forall (fun v => match v with VName _ => True | VSub sc => P sc end)
         variants ->
  nth_error variants index = Some (VSub sc) -> P sc.
Proof.
  intros H Hn. apply nth_error_In in Hn.
  rewrite Forall_forall in H. exact (H _ Hn).
Qed.

(** ** The round trip on the admitted objects *)

Lemma Forall2_admits_roundtrips (subcons : list Construct)
  (vs : list value) :
  Forall (fun c => forall v, admits c v -> roundtrips c v) subcons ->
  Forall2 admits subcons vs -> Forall2 roundtrips subcons vs.
Proof.
  intros HP H. induction H as [|c v subcons vs Hcv _ IH]; [constructor|].
  inversion HP; subst. constructor; auto.
Qed.

Lemma fields_admits_roundtrips (fields : list (pystr * Construct * value)) :
  Forall (fun c => forall v, admits c v -> roundtrips c v)
         (map (fun f => Renamed (VStr (fst (fst f))) (snd (fst f))) fields) ->
  Forall (fun f => admits (snd (fst f)) (snd f)) fields ->
  Forall (fun f => roundtrips (snd (fst f)) (snd f)) fields.
Proof.
  intros HP H. induction H as [|[[n T] v] fields Hf _ IH]; [constructor|].
  cbn [map] in HP. inversion HP as [|? ? Hc HP']; subst.
  constructor; [|auto]. cbn [fst snd] in *.
  exact (Hc v (admits_Renamed _ _ _ Hf)).
Qed.

Lemma CStruct_roundtrip (fields : list (pystr * Construct * value)) :
  NoDup (map (fun f => fst (fst f)) fields) ->
  Forall (fun f => fst (fst f) <> []) fields ->
  Forall (fun f => roundtrips (snd (fst f)) (snd f)) fields ->
  roundtrips
    (CStruct (map (fun f => Renamed (VStr (fst (fst f))) (snd (fst f))) fields))
    (VDict (map (fun f => (VStr (fst (fst f)), snd f)) fields)).
Proof.
  intros Hnd Hne Hrt.
  destruct (Struct_roundtrip [] fields
              (map (fun f => (VStr (fst (fst f)), snd f)) fields))
    as (data & Hb & Hp); auto.
  - intros n T v Hin. now apply (dict_get_field fields n T v).
  - exists data. split.
    + cbn [_build]. unfold Struct_build. exact Hb.
    + intros rest. cbn [_parse]. cbn [map app] in Hp. now rewrite Hp.
Qed.

(** Every codec round-trips on every object that it admits: the objects of
    the integer, byte-string, string, vector, array, tuple, struct and option
    codecs, and those of a union whose fields hold no object that
    [attr.asdict] rewrites and are not called [index]. *)
Theorem admits_roundtrips (c : Construct) :
  forall v, admits c v -> roundtrips c v.
Proof.
  induction c using Construct_nested_ind; intros v Hv; inversion Hv; subst.
  - (* Bool *)
    exists [if b then x01 else x00]. split; [now destruct b|].
    intros rest. now destruct b.
  - (* FormatField *)
    exists (int_to_le length z). split.
    + cbn [_build]. unfold FormatField_build. now apply in_range_pack.
    + intros rest. apply FormatField_roundtrip.
      unfold FormatField_build. now apply in_range_pack.
  - (* BytesInteger *)
    destruct (BytesInteger_build length signed swapped (VInt z))
      as [data|] eqn:E.
    + exists data. split; [exact E|].
      intros rest. now apply BytesInteger_roundtrip.
    + exfalso. unfold BytesInteger_build in E.
      replace (length =? 0)%nat with false in E
        by (symmetry; now apply Nat.eqb_neq).
      match type of E with
      | (if ?b then _ else _) = _ => replace b with true in E; [discriminate|]
      end.
      unfold in_range in *. destruct signed; lia.
  - (* Bytes *)
    now apply Bytes_roundtrip.
  - (* String *)
    destruct (Bytes_roundtrip data) as (out & Hb & Hp); [assumption|].
    exists out. split.
    + cbn [_build]. match goal with H : utf8_encode _ = _ |- _ => rewrite H end.
      exact Hb.
    + intros rest. cbn [_parse]. rewrite Hp. cbn [bind].
      erewrite utf8_roundtrip by eassumption. reflexivity.
  - (* Vec *)
    apply PrefixedArray_roundtrip; [assumption|].
    eapply Forall_impl; [|eassumption]. intros a Ha. now apply IHc.
  - (* Array *)
    match goal with
    | H : Forall (admits c) ?l |- _ =>
        destruct (Array_roundtrip (_build c) (_parse c) l) as (ds & Hb & Hp);
        [eapply Forall_impl; [|exact H]; intros a Ha; now apply IHc|]
    end.
    exists (concat ds). split.
    + cbn [_build]. unfold Array_build. cbn [py_len py_iter bind].
      rewrite Z.eqb_refl. cbn [negb]. now rewrite Hb.
    + intros rest. cbn [_parse]. now rewrite Hp.
  - (* TupleStruct *)
    match goal with
    | H : Forall2 admits _ ?l |- _ =>
        destruct (Sequence_roundtrip subcons l) as (data & Hb & Hp);
        [now apply Forall2_admits_roundtrips|]
    end.
    exists data. split.
    + cbn [_build]. unfold Sequence_build. cbn [py_iter bind]. exact Hb.
    + intros rest. cbn [_parse]. now rewrite Hp.
  - (* CStruct *)
    apply CStruct_roundtrip; auto.
    now apply fields_admits_roundtrips.
  - (* Renamed *)
    now apply IHc.
  - (* Option, None *)
    exists [x00]. split; [reflexivity | intros rest; reflexivity].
  - (* Option, a value *)
    destruct (IHc v) as (data & Hb & Hp); [assumption|].
    exists (x01 :: data). split.
    + cbn [_build]. destruct v; try contradiction; now rewrite Hb.
    + intros rest. cbn [app _parse]. rewrite stream_read_one. cbn [bind].
      exact (Hp rest).
  - (* Enum, unit *)
    eapply Enum_roundtrip_unit; eassumption.
  - (* Enum, tuple *)
    match goal with
    | Hn : nth_error variants index = Some (VSub ?sc),
      Hl : Forall2 admits subcons ?l |- _ =>
        pose proof (variant_hypothesis _ _ _ _ H Hn (VList l)
                      (admits_Renamed _ _ _ (admits_TupleStruct _ _ Hl)))
          as Hrt
    end.
    eapply Enum_roundtrip_payload; try eassumption.
    + reflexivity.
    + discriminate.
    + now rewrite to_build_tuple.
    + now rewrite to_build_tuple.
  - (* Enum, struct *)
    destruct fields as [|f fields].
    + eapply Enum_roundtrip_empty_struct; eassumption.
    + set (fs := f :: fields) in *.
      assert (Hfn : Forall (fun f => field_name (fst (fst f))) fs)
        by assumption.
      assert (Hne : Forall (fun f => fst (fst f) <> []) fs).
      { eapply Forall_impl; [|exact Hfn].
        intros a ((c0 & s & E' & _) & _) E.
        assert (E0 : c0 :: s = [])
          by (transitivity (fst (fst a)); [symmetry; exact E' | exact E]).
        discriminate E0. }
      match goal with
      | Hn : nth_error variants index = Some (VSub ?sc),
        Hnd : NoDup _, Ha : Forall (fun f => admits _ _) fs |- _ =>
          pose proof (variant_hypothesis _ _ _ _ H Hn _
                        (admits_Renamed _ _ _
                           (admits_CStruct fs Hnd Hne Ha))) as Hrt
      end.
      eapply Enum_roundtrip_payload; try eassumption.
      * apply assoc_absent, field_names_absent.
        eapply Forall_impl; [|exact Hfn]. intros a (_ & _ & Ha). exact Ha.
      * discriminate.
      * now rewrite to_build_fields.
      * rewrite to_build_fields by assumption.
        rewrite public_items_fields by assumption. cbn [bind].
        now apply call_fields.
Qed.

(** The union of scenario 4 round-trips on its unit variant [B()] and on
    [C(x=7)]. *)
Example three_variants_roundtrip :
  exists e,
    new_Enum Examples.three_variants = Ok e
    /\ roundtrips e (VVariant 1 (str "B") [])
    /\ roundtrips e (VVariant 2 (str "C") [(str "x", VInt 7)]).
Proof.
  eexists. split; [reflexivity|]. split; apply admits_roundtrips.
  - eapply admits_Enum_unit; [reflexivity | reflexivity | lia].
  - apply (admits_Enum_struct _ _ 2 (str "C") (VStr (str "C"))
             [(str "x", U8, VInt 7)]);
      try reflexivity; try lia.
    + repeat constructor. intros [].
    + repeat constructor; try discriminate. now exists 120, [].
    + repeat constructor. unfold in_range. cbn. lia.
    + repeat constructor.
Qed.

(** * Further properties *)

Import Stream Canonical Unicode EnumClass Collections Single.

(** ** What a codec reads from the stream *)

Lemma stream_read_framed (n : nat) : framed (fun stream => stream_read stream n).
Proof.
  intros stream a rest. unfold stream_read.
  destruct (n <=? length stream)%nat eqn:E; [|discriminate].
  intros H. apply Ok_inj in H. injection H as <- <-.
  exists (firstn n stream). split; [now rewrite firstn_skipn|].
  intros rest'. apply Nat.leb_le in E.
  rewrite length_app, length_firstn, Nat.min_l by exact E.
  rewrite (proj2 (Nat.leb_le _ _)) by lia.
  rewrite firstn_app, length_firstn, Nat.min_l by exact E.
  rewrite Nat.sub_diag, firstn_firstn, Nat.min_id. cbn [firstn].
  rewrite app_nil_r.
  rewrite skipn_app, length_firstn, Nat.min_l by exact E.
  rewrite Nat.sub_diag. cbn [skipn].
  rewrite (skipn_all2 (firstn n stream)); [reflexivity|].
  rewrite length_firstn. lia.
Qed.

Lemma framed_ret {A} (a : A) : framed (fun stream => Ok (a, stream)).
Proof.
  intros stream a' rest H. apply Ok_inj in H. injection H as <- <-.
  exists []. split; [reflexivity|]. intros rest'. reflexivity.
Qed.

Lemma framed_err {A} (e : error) :
  framed (fun _ : bytes => @Err (A * bytes) e).
Proof. intros stream a rest H. discriminate. Qed.

Lemma framed_bind {A B} (p : bytes -> result (A * bytes))
  (k : A -> bytes -> result (B * bytes)) :
  framed p -> (forall a, framed (k a)) ->
  framed (fun stream => '(a, stream) <- p stream ;; k a stream).
Proof.
  intros Hp Hk stream b rest H.
  destruct (p stream) as [[a mid]|] eqn:E; [|discriminate].
  cbn [bind] in H.
  destruct (Hp _ _ _ E) as (d1 & -> & H1).
  destruct (Hk a _ _ _ H) as (d2 & -> & H2).
  exists (d1 ++ d2). split; [now rewrite app_assoc|].
  intros rest'. rewrite <- app_assoc, H1. cbn [bind]. apply H2.
Qed.

Lemma FormatField_parse_framed (length : nat) (signed : bool) :
  framed (FormatField_parse length signed).
Proof.
  unfold FormatField_parse.
  apply (framed_bind (fun s => stream_read s length)
           (fun data s => Ok (VInt (unpack_int signed data), s))).
  - apply stream_read_framed.
  - intros data. apply framed_ret.
Qed.

Lemma BytesInteger_parse_framed (length : nat) (signed swapped : bool) :
  framed (BytesInteger_parse length signed swapped).
Proof.
  unfold BytesInteger_parse. destruct (length =? 0)%nat; [apply framed_err|].
  apply (framed_bind (fun s => stream_read s length)
           (fun data s =>
              Ok (VInt (bytes2integer
                          (if swapped then swapbytes data else data) signed),
                  s))).
  - apply stream_read_framed.
  - intros data. apply framed_ret.
Qed.

Lemma Bytes_parse_framed : framed Bytes_parse.
Proof.
  unfold Bytes_parse.
  apply (framed_bind (FormatField_parse 4 false)
           (fun length s =>
              match length with
              | VInt n =>
                  '(data, s) <- stream_read s (Z.to_nat n) ;;
                  Ok (VBytes data, s)
              | _ => Err TypeError
              end)).
  - apply FormatField_parse_framed.
  - intros length. destruct length; try apply framed_err.
    apply (framed_bind (fun s => stream_read s (Z.to_nat z))
             (fun data s => Ok (VBytes data, s))).
    + apply stream_read_framed.
    + intros data. apply framed_ret.
Qed.

Lemma Array_parse_framed (subcon : parser) (count : nat) :
  framed subcon -> framed (Array_parse subcon count).
Proof.
  intros Hs. induction count as [|count IH]; cbn [Array_parse].
  - apply framed_ret.
  - apply (framed_bind subcon
             (fun e s => '(es, s) <- Array_parse subcon count s ;;
                         Ok (e :: es, s))); [exact Hs|].
    intros e.
    apply (framed_bind (Array_parse subcon count)
             (fun es s => Ok (e :: es, s))); [exact IH|].
    intros es. apply framed_ret.
Qed.

Lemma PrefixedArray_parse_framed (subcon : parser) :
  framed subcon -> framed (PrefixedArray_parse subcon).
Proof.
  intros Hs. unfold PrefixedArray_parse.
  apply (framed_bind (FormatField_parse 4 false)
           (fun count s =>
              match count with
              | VInt n =>
                  '(es, s) <- Array_parse subcon (Z.to_nat n) s ;;
                  Ok (VList es, s)
              | _ => Err TypeError
              end)).
  - apply FormatField_parse_framed.
  - intros count. destruct count; try apply framed_err.
    apply (framed_bind (Array_parse subcon (Z.to_nat z))
             (fun es s => Ok (VList es, s))).
    + now apply Array_parse_framed.
    + intros es. apply framed_ret.
Qed.

Lemma Sequence_parse_framed (subcons : list parser) :
  Forall framed subcons -> framed (Sequence_parse subcons).
Proof.
  induction 1 as [|sc subcons Hsc _ IH]; cbn [Sequence_parse].
  - apply framed_ret.
  - apply (framed_bind sc
             (fun subobj s => '(objs, s) <- Sequence_parse subcons s ;;
                              Ok (subobj :: objs, s))); [exact Hsc|].
    intros subobj.
    apply (framed_bind (Sequence_parse subcons)
             (fun objs s => Ok (subobj :: objs, s))); [exact IH|].
    intros objs. apply framed_ret.
Qed.

Lemma Struct_parse_framed (subcons : list (value * parser)) :
  Forall (fun sc => framed (snd sc)) subcons ->
  forall obj, framed (Struct_parse subcons obj).
Proof.
  induction 1 as [|[name sc] subcons Hsc _ IH]; intros obj;
    cbn [Struct_parse].
  - apply framed_ret.
  - apply (framed_bind sc
             (fun subobj s =>
                Struct_parse subcons
                  (if truthy name then dict_set obj name subobj else obj) s));
      [exact Hsc|].
    intros subobj. apply IH.
Qed.

Lemma py_getitem_In {A} (seq : list A) (i : value) (a : A) :
  py_getitem seq i = Ok a -> In a seq.
Proof.
  unfold py_getitem. destruct i; try discriminate;
    match goal with
    | |- (if ?c then _ else _) = _ -> _ => destruct c; [|discriminate]
    end;
    match goal with
    | |- match nth_error ?l ?n with _ => _ end = _ -> _ =>
        destruct (nth_error l n) eqn:E; [|discriminate]
    end;
    intros H; apply Ok_inj in H; subst; eapply nth_error_In; eassumption.
Qed.

(** The bytes that follow what a codec consumes have no part in what it
    decodes. *)
Lemma parse_framed (c : Construct) : framed (_parse c).
Proof.
  induction c using Construct_nested_ind; cbn [_parse].
  - (* Bool *)
    apply (framed_bind (fun s => stream_read s 1)
             (fun data s => Ok (VBool (negb (bytes_eqb data [x00])), s))).
    + apply stream_read_framed.
    + intros data. apply framed_ret.
  - apply FormatField_parse_framed.
  - apply BytesInteger_parse_framed.
  - (* FormatFieldNoNan *)
    apply (framed_bind
             (fun s => stream_read s (if double then 8 else 4)%nat)
             (fun data s =>
                nan <- isnan (VFloat (unpack_float double data)) ;;
                if nan then Err ValueError
                else Ok (VFloat (unpack_float double data), s))).
    + apply stream_read_framed.
    + intros data. destruct (isnan _) as [[|]|]; cbn [bind];
        [apply framed_err | apply framed_ret | apply framed_err].
  - apply Bytes_parse_framed.
  - (* String *)
    apply (framed_bind Bytes_parse
             (fun obj s =>
                match obj with
                | VBytes data => str <- utf8_decode data ;; Ok (VStr str, s)
                | _ => Err AttributeError
                end)); [apply Bytes_parse_framed|].
    intros obj. destruct obj; try apply framed_err.
    destruct (utf8_decode bs); cbn [bind];
      [apply framed_ret | apply framed_err].
  - now apply PrefixedArray_parse_framed.
  - (* Array *)
    apply (framed_bind (Array_parse (_parse c) count)
             (fun es s => Ok (VList es, s)));
      [now apply Array_parse_framed|].
    intros es. apply framed_ret.
  - (* TupleStruct *)
    apply (framed_bind (Sequence_parse (map _parse subcons))
             (fun objs s => Ok (VList objs, s))).
    + apply Sequence_parse_framed. now rewrite Forall_map.
    + intros objs. apply framed_ret.
  - (* CStruct *)
    apply (framed_bind
             (Struct_parse (map (fun sc => (name_of sc, _parse sc)) subcons) [])
             (fun obj s => Ok (VDict obj, s))).
    + apply Struct_parse_framed. now rewrite Forall_map.
    + intros obj. apply framed_ret.
  - exact IHc.
  - (* Option *)
    apply (framed_bind (fun s => stream_read s 1)
             (fun discriminator s =>
                if bytes_eqb discriminator is_none_flag then Ok (VNone, s)
                else _parse c s)).
    + apply stream_read_framed.
    + intros d. destruct (bytes_eqb d is_none_flag);
        [apply framed_ret | exact IHc].
  - (* Enum *)
    apply (framed_bind (fun s => stream_read s 1)
             (fun index_bytes s =>
                variant <- getitem enum (U8_parse index_bytes) ;;
                parser <- py_getitem
                            (map (fun v => match v with
                                           | VName n => VName n
                                           | VSub sc => VSub (_parse sc)
                                           end) variants)
                            (VInt (U8_parse index_bytes)) ;;
                match parser with
                | VName _ => obj <- call variant [] [] ;; Ok (obj, s)
                | VSub parse =>
                    '(container, s) <- parse s ;;
                    match container with
                    | VDict d =>
                        as_dict <- public_items d ;;
                        obj <- call variant [] as_dict ;;
                        Ok (obj, s)
                    | _ =>
                        elems <- py_iter container ;;
                        obj <- call variant [VTuple elems] [] ;;
                        Ok (obj, s)
                    end
                end)).
    + apply stream_read_framed.
    + intros index_bytes.
      destruct (getitem enum (U8_parse index_bytes)) as [variant|];
        cbn [bind]; [|apply framed_err].
      destruct (py_getitem _ _) as [parser|] eqn:Ep;
        cbn [bind]; [|apply framed_err].
      destruct parser as [n|parse].
      * destruct (call variant [] []); cbn [bind];
          [apply framed_ret | apply framed_err].
      * assert (Hparse : framed parse).
        { apply py_getitem_In, in_map_iff in Ep.
          destruct Ep as ([n|sc] & E & Hin); [discriminate|].
          injection E as <-. rewrite Forall_forall in H. exact (H _ Hin). }
        apply (framed_bind parse
                 (fun container s =>
                    match container with
                    | VDict d =>
                        as_dict <- public_items d ;;
                        obj <- call variant [] as_dict ;;
                        Ok (obj, s)
                    | _ =>
                        elems <- py_iter container ;;
                        obj <- call variant [VTuple elems] [] ;;
                        Ok (obj, s)
                    end)); [exact Hparse|].
        intros container.
        destruct container;
          try (cbn [py_iter bind]; apply framed_err);
          try (cbn [py_iter bind];
               match goal with
               | |- framed (fun s => bind ?r _) =>
                   destruct r; cbn [bind]; [apply framed_ret | apply framed_err]
               end).
        destruct (public_items d) as [as_dict|]; cbn [bind];
          [|apply framed_err].
        destruct (call variant [] as_dict); cbn [bind];
          [apply framed_ret | apply framed_err].
  - (* HashMap *)
    apply (framed_bind
             (PrefixedArray_parse
                (fun s =>
                   '(kv, s) <- Sequence_parse [_parse c1; _parse c2] s ;;
                   Ok (VList kv, s)))
             (fun obj s =>
                pairs <- py_iter obj ;;
                d <- dict_of pairs [] ;;
                Ok (VDict d, s))).
    + apply PrefixedArray_parse_framed.
      apply (framed_bind (Sequence_parse [_parse c1; _parse c2])
               (fun kv s => Ok (VList kv, s))).
      * apply Sequence_parse_framed. now repeat constructor.
      * intros kv. apply framed_ret.
    + intros obj. destruct (py_iter obj) as [pairs|]; cbn [bind];
        [|apply framed_err].
      destruct (dict_of pairs []); cbn [bind];
        [apply framed_ret | apply framed_err].
  - (* HashSet *)
    apply (framed_bind (PrefixedArray_parse (_parse c))
             (fun obj s =>
                elems <- py_iter obj ;;
                st <- set_of elems [] ;;
                Ok (VSet st, s))).
    + now apply PrefixedArray_parse_framed.
    + intros obj. destruct (py_iter obj) as [elems|]; cbn [bind];
        [|apply framed_err].
      destruct (set_of elems []); cbn [bind];
        [apply framed_ret | apply framed_err].
Qed.

(** X1: what a codec decodes depends on the bytes it consumes only.  When
    [_parse] succeeds the stream is [data ++ rest] for the [rest] it
    returns, [parse] decodes [data] alone to the same object, and so does
    [_parse] whatever follows [data]. *)
Theorem parse_ignores_what_follows (c : Construct) (stream : bytes)
  (v : value) (rest : bytes) :
  _parse c stream = Ok (v, rest) ->
  exists data,
    stream = data ++ rest
    /\ parse c data = Ok v
    /\ forall rest', _parse c (data ++ rest') = Ok (v, rest').
Proof.
  intros H. destruct (parse_framed c _ _ _ H) as (data & -> & Hframe).
  exists data. split; [reflexivity|]. split; [|exact Hframe].
  unfold parse. rewrite <- (app_nil_r data) at 1. now rewrite Hframe.
Qed.

Lemma parse_ignores_what_follows_witness :
  exists data,
    [x03; x00; x00; x00; x61; x62; x63; xff] = data ++ [xff]
    /\ parse String data = Ok (VStr (str "abc"))
    /\ forall rest', _parse String (data ++ rest') = Ok (VStr (str "abc"), rest').
Proof.
  exact (parse_ignores_what_follows String
           [x03; x00; x00; x00; x61; x62; x63; xff]
           (VStr (str "abc")) [xff] eq_refl).
Defined.

(** ** Static size *)

Lemma stream_read_consumes (n : nat) :
  consumes (fun stream => stream_read stream n) (Z.of_nat n).
Proof.
  intros stream a rest. unfold stream_read.
  destruct (n <=? length stream)%nat eqn:E; [|discriminate].
  intros H. apply Ok_inj in H. injection H as <- <-.
  apply Nat.leb_le in E. rewrite length_skipn. lia.
Qed.

Lemma consumes_ret {A} (a : A) : consumes (fun stream => Ok (a, stream)) 0.
Proof.
  intros stream a' rest H. apply Ok_inj in H. injection H as <- <-. lia.
Qed.

Lemma consumes_err {A} (e : error) (n : Z) :
  consumes (fun _ : bytes => @Err (A * bytes) e) n.
Proof. intros stream a rest H. discriminate. Qed.

Lemma consumes_bind {A B} (p : bytes -> result (A * bytes))
  (k : A -> bytes -> result (B * bytes)) (n m : Z) :
  consumes p n -> (forall a, consumes (k a) m) ->
  consumes (fun stream => '(a, stream) <- p stream ;; k a stream) (n + m).
Proof.
  intros Hp Hk stream b rest H.
  destruct (p stream) as [[a mid]|] eqn:E; [|discriminate].
  cbn [bind] in H. apply Hp in E. apply Hk in H. lia.
Qed.

Lemma consumes_eq {A} (p : bytes -> result (A * bytes)) (n m : Z) :
  n = m -> consumes p n -> consumes p m.
Proof. now intros ->. Qed.

Lemma FormatField_parse_consumes (length : nat) (signed : bool) :
  consumes (FormatField_parse length signed) (Z.of_nat length).
Proof.
  unfold FormatField_parse.
  apply (consumes_eq _ (Z.of_nat length + 0)); [lia|].
  apply (consumes_bind (fun s => stream_read s length)
           (fun data s => Ok (VInt (unpack_int signed data), s))).
  - apply stream_read_consumes.
  - intros data. apply consumes_ret.
Qed.

Lemma Array_parse_consumes (subcon : parser) (count : nat) (m : Z) :
  consumes subcon m ->
  consumes (Array_parse subcon count) (Z.of_nat count * m).
Proof.
  intros Hs. induction count as [|count IH]; cbn [Array_parse].
  - apply consumes_ret.
  - apply (consumes_eq _ (m + (Z.of_nat count * m + 0))); [lia|].
    apply (consumes_bind subcon
             (fun e s => '(es, s) <- Array_parse subcon count s ;;
                         Ok (e :: es, s))); [exact Hs|].
    intros e.
    apply (consumes_bind (Array_parse subcon count)
             (fun es s => Ok (e :: es, s))); [exact IH|].
    intros es. apply consumes_ret.
Qed.

(** The sum that [sizeof] takes over the subcons of a tuple or a struct. *)
Lemma sizeof_sum_cons (sc : Construct) (subcons : list Construct) (n : Z) :
  sizeof (TupleStruct (sc :: subcons)) = Some n ->
  exists a b, sizeof sc = Some a /\ sizeof (TupleStruct subcons) = Some b
              /\ n = a + b.
Proof.
  cbn [sizeof]. destruct (sizeof sc) as [a|]; [|discriminate].
  match goal with
  | |- match ?s with _ => _ end = _ -> _ => destruct s as [b|]; [|discriminate]
  end.
  intros H. apply Some_inj in H. now exists a, b.
Qed.

Lemma Sequence_parse_consumes (subcons : list Construct) :
  Forall (fun c => forall n, sizeof c = Some n -> consumes (_parse c) n)
         subcons ->
  forall n, sizeof (TupleStruct subcons) = Some n ->
            consumes (Sequence_parse (map _parse subcons)) n.
Proof.
  induction 1 as [|sc subcons Hsc _ IH]; intros n Hn; cbn [map Sequence_parse].
  - apply Some_inj in Hn. subst n. apply consumes_ret.
  - destruct (sizeof_sum_cons _ _ _ Hn) as (a & b & Ha & Hb & ->).
    apply (consumes_eq _ (a + (b + 0))); [lia|].
    apply (consumes_bind (_parse sc)
             (fun subobj s =>
                '(objs, s) <- Sequence_parse (map _parse subcons) s ;;
                Ok (subobj :: objs, s))); [now apply Hsc|].
    intros subobj.
    apply (consumes_bind (Sequence_parse (map _parse subcons))
             (fun objs s => Ok (subobj :: objs, s))); [now apply IH|].
    intros objs. apply consumes_ret.
Qed.

Lemma Struct_parse_consumes (subcons : list Construct) :
  Forall (fun c => forall n, sizeof c = Some n -> consumes (_parse c) n)
         subcons ->
  forall n obj,
    sizeof (TupleStruct subcons) = Some n ->
    consumes (Struct_parse (map (fun sc => (name_of sc, _parse sc)) subcons)
                obj) n.
Proof.
  induction 1 as [|sc subcons Hsc _ IH]; intros n obj Hn;
    cbn [map Struct_parse].
  - apply Some_inj in Hn. subst n. apply consumes_ret.
  - destruct (sizeof_sum_cons _ _ _ Hn) as (a & b & Ha & Hb & ->).
    apply (consumes_bind (_parse sc)
             (fun subobj s =>
                Struct_parse (map (fun sc => (name_of sc, _parse sc)) subcons)
                  (if truthy (name_of sc)
                   then dict_set obj (name_of sc) subobj else obj) s));
      [now apply Hsc|].
    intros subobj. now apply IH.
Qed.

Lemma parse_consumes (c : Construct) :
  forall n, sizeof c = Some n -> consumes (_parse c) n.
Proof.
  induction c using Construct_nested_ind; intros n Hn;
    try discriminate; cbn [sizeof] in Hn; cbn [_parse].
  - (* Bool *)
    apply Some_inj in Hn. subst n.
    apply (consumes_eq _ (Z.of_nat 1 + 0)); [lia|].
    apply (consumes_bind (fun s => stream_read s 1)
             (fun data s => Ok (VBool (negb (bytes_eqb data [x00])), s))).
    + apply stream_read_consumes.
    + intros data. apply consumes_ret.
  - apply Some_inj in Hn. subst n. apply FormatField_parse_consumes.
  - (* BytesInteger *)
    apply Some_inj in Hn. subst n. unfold BytesInteger_parse.
    destruct (length =? 0)%nat; [apply consumes_err|].
    apply (consumes_eq _ (Z.of_nat length + 0)); [lia|].
    apply (consumes_bind (fun s => stream_read s length)
             (fun data s =>
                Ok (VInt (bytes2integer
                            (if swapped then swapbytes data else data) signed),
                    s))).
    + apply stream_read_consumes.
    + intros data. apply consumes_ret.
  - (* FormatFieldNoNan *)
    apply Some_inj in Hn. subst n.
    apply (consumes_eq _ (Z.of_nat (if double then 8 else 4)%nat + 0));
      [destruct double; lia|].
    apply (consumes_bind
             (fun s => stream_read s (if double then 8 else 4)%nat)
             (fun data s =>
                nan <- isnan (VFloat (unpack_float double data)) ;;
                if nan then Err ValueError
                else Ok (VFloat (unpack_float double data), s))).
    + apply stream_read_consumes.
    + intros data. destruct (isnan _) as [[|]|]; cbn [bind];
        [apply consumes_err | apply consumes_ret | apply consumes_err].
  - (* Array *)
    destruct (sizeof c) as [m|]; [|discriminate].
    apply Some_inj in Hn. subst n.
    apply (consumes_eq _ (Z.of_nat count * m + 0)); [cbn; lia|].
    apply (consumes_bind (Array_parse (_parse c) count)
             (fun es s => Ok (VList es, s))).
    + apply Array_parse_consumes. now apply IHc.
    + intros es. apply consumes_ret.
  - (* TupleStruct *)
    apply (consumes_eq _ (n + 0)); [lia|].
    apply (consumes_bind (Sequence_parse (map _parse subcons))
             (fun objs s => Ok (VList objs, s))).
    + now apply Sequence_parse_consumes.
    + intros objs. apply consumes_ret.
  - (* CStruct *)
    apply (consumes_eq _ (n + 0)); [lia|].
    apply (consumes_bind
             (Struct_parse (map (fun sc => (name_of sc, _parse sc)) subcons) [])
             (fun obj s => Ok (VDict obj, s))).
    + now apply Struct_parse_consumes.
    + intros obj. apply consumes_ret.
  - now apply IHc.
Qed.

Lemma mapM_concat_length {A} (f : A -> result bytes) (m : Z) (l : list A) :
  Forall (fun a => forall data, f a = Ok data -> Z.of_nat (length data) = m) l ->
  forall r, mapM f l = Ok r ->
            Z.of_nat (length (concat r)) = Z.of_nat (length l) * m.
Proof.
  induction 1 as [|a l Ha _ IH]; intros r.
  - rewrite mapM_nil. intros H. apply Ok_inj in H. subst r. cbn. lia.
  - rewrite mapM_cons. destruct (f a) as [d|] eqn:Ed; [|discriminate].
    cbn [bind]. destruct (mapM f l) as [ds|]; [|discriminate].
    cbn [bind]. intros H. apply Ok_inj in H. subst r.
    cbn [concat]. rewrite length_app. specialize (Ha d eq_refl).
    specialize (IH ds eq_refl). cbn [length]. lia.
Qed.

Lemma py_len_iter (obj : value) (n : Z) (es : list value) :
  py_len obj = Ok n -> py_iter obj = Ok es -> n = Z.of_nat (length es).
Proof.
  destruct obj; try discriminate; cbn [py_len py_iter];
    intros H1 H2; apply Ok_inj in H1, H2; subst;
    now rewrite ?length_map.
Qed.

Lemma Array_build_produces (subcon : builder) (count : nat) (m : Z) :
  produces subcon m ->
  produces (Array_build subcon (Z.of_nat count)) (Z.of_nat count * m).
Proof.
  intros Hs obj data. unfold Array_build.
  destruct (py_len obj) as [n|] eqn:El; [|discriminate]. cbn [bind].
  destruct (n =? Z.of_nat count) eqn:En; [|discriminate]. cbn [negb].
  destruct (py_iter obj) as [es|] eqn:Ei; [|discriminate]. cbn [bind].
  destruct (mapM subcon es) as [ds|] eqn:Em; [|discriminate]. cbn [bind].
  intros H. apply Ok_inj in H. subst data.
  assert (HF : Forall (fun a => forall d, subcon a = Ok d ->
                                 Z.of_nat (length d) = m) es).
  { apply Forall_forall. intros a _ d Hd. exact (Hs _ _ Hd). }
  rewrite (mapM_concat_length subcon m es HF ds Em).
  rewrite <- (py_len_iter _ _ _ El Ei). lia.
Qed.

Lemma Sequence_build_loop_produces (subcons : list Construct) :
  Forall (fun c => forall n, sizeof c = Some n -> produces (_build c) n)
         subcons ->
  forall n objiter data,
    sizeof (TupleStruct subcons) = Some n ->
    Sequence_build_loop (map _build subcons) objiter = Ok data ->
    Z.of_nat (length data) = n.
Proof.
  induction 1 as [|sc subcons Hsc _ IH]; intros n objiter data Hn;
    cbn [map Sequence_build_loop].
  - apply Some_inj in Hn. subst n. intros H. apply Ok_inj in H. now subst.
  - destruct (sizeof_sum_cons _ _ _ Hn) as (a & b & Ha & Hb & ->).
    destruct objiter as [|subobj objiter]; [discriminate|].
    destruct (_build sc subobj) as [d|] eqn:Ed; [|discriminate]. cbn [bind].
    destruct (Sequence_build_loop _ _) as [r|] eqn:Er; [|discriminate].
    cbn [bind]. intros H. apply Ok_inj in H. subst data.
    rewrite length_app, Nat2Z.inj_add.
    rewrite (Hsc a Ha _ _ Ed), (IH b _ _ Hb Er). reflexivity.
Qed.

Lemma Struct_build_loop_produces (subcons : list Construct) :
  Forall (fun c => forall n, sizeof c = Some n -> produces (_build c) n)
         subcons ->
  forall n obj data,
    sizeof (TupleStruct subcons) = Some n ->
    Struct_build_loop
      (map (fun sc => (name_of sc, flagbuildnone sc, _build sc)) subcons) obj
    = Ok data ->
    Z.of_nat (length data) = n.
Proof.
  induction 1 as [|sc subcons Hsc _ IH]; intros n obj data Hn;
    cbn [map Struct_build_loop].
  - apply Some_inj in Hn. subst n. intros H. apply Ok_inj in H. now subst.
  - destruct (sizeof_sum_cons _ _ _ Hn) as (a & b & Ha & Hb & ->).
    match goal with
    | |- bind ?r _ = _ -> _ => destruct r as [subobj|]; [|discriminate]
    end.
    cbn [bind].
    destruct (_build sc subobj) as [d|] eqn:Ed; [|discriminate]. cbn [bind].
    destruct (Struct_build_loop _ _) as [r|] eqn:Er; [|discriminate].
    cbn [bind]. intros H. apply Ok_inj in H. subst data.
    rewrite length_app, Nat2Z.inj_add.
    rewrite (Hsc a Ha _ _ Ed), (IH b _ _ Hb Er). reflexivity.
Qed.

Lemma build_produces (c : Construct) :
  forall n, sizeof c = Some n -> produces (_build c) n.
Proof.
  induction c using Construct_nested_ind; intros n Hn;
    try discriminate; cbn [sizeof] in Hn; cbn [_build]; intros obj data.
  - (* Bool *)
    apply Some_inj in Hn. subst n. intros H. apply Ok_inj in H. subst data.
    now destruct (truthy obj).
  - (* FormatField *)
    apply Some_inj in Hn. subst n. unfold FormatField_build, pack_int.
    destruct obj; try discriminate;
      match goal with
      | |- (if ?c then _ else _) = _ -> _ => destruct c; [|discriminate]
      end;
      intros H; apply Ok_inj in H; subst data;
      now rewrite int_to_le_length.
  - (* BytesInteger *)
    apply Some_inj in Hn. subst n. unfold BytesInteger_build.
    destruct obj; try discriminate;
      (destruct (length =? 0)%nat; [discriminate|]);
      match goal with
      | |- (if ?c then _ else _) = _ -> _ => destruct c; [|discriminate]
      end;
      intros H; apply Ok_inj in H; subst data;
      unfold swapbytes, integer2bytes;
      destruct swapped; now rewrite ?length_rev, int_to_le_length.
  - (* FormatFieldNoNan *)
    apply Some_inj in Hn. subst n.
    destruct (isnan obj) as [[|]|]; cbn [bind]; try discriminate.
    unfold pack_float. destruct (as_float obj) as [f|]; cbn [bind];
      [|discriminate].
    destruct double.
    + intros H. apply Ok_inj in H. subst data. now rewrite int_to_le_length.
    + destruct f; try (intros H; apply Ok_inj in H; subst data;
                       now rewrite int_to_le_length).
      destruct (binary_round 24 128 s m e); try discriminate;
        intros H; apply Ok_inj in H; subst data;
        now rewrite int_to_le_length.
  - (* Array *)
    destruct (sizeof c) as [m|]; [|discriminate].
    apply Some_inj in Hn. subst n.
    apply Array_build_produces. now apply IHc.
  - (* TupleStruct *)
    unfold Sequence_build.
    match goal with
    | |- bind ?r _ = _ -> _ => destruct r as [objiter|]; [|discriminate]
    end.
    cbn [bind]. now apply Sequence_build_loop_produces.
  - (* CStruct *)
    unfold Struct_build. destruct obj; try discriminate;
      now apply Struct_build_loop_produces.
  - now apply IHc.
Qed.

(** X2: the static size of a codec is the number of bytes that it reads and
    writes.  When [sizeof] is defined and equal to [n], a successful
    [_parse] consumes exactly [n] bytes, a successful [_build] writes
    exactly [n] bytes, and [_parse] raises on a stream shorter than [n]. *)
Theorem static_size_sound (c : Construct) (n : Z) :
  sizeof c = Some n ->
  (forall stream v rest,
     _parse c stream = Ok (v, rest) ->
     Z.of_nat (length stream) = n + Z.of_nat (length rest))
  /\ (forall obj data, _build c obj = Ok data -> Z.of_nat (length data) = n)
  /\ (forall stream, Z.of_nat (length stream) < n -> raises (_parse c stream)).
Proof.
  intros Hs. split; [exact (parse_consumes c n Hs)|].
  split; [exact (build_produces c n Hs)|].
  intros stream Hlt. destruct (_parse c stream) as [[v rest]|e] eqn:E.
  - apply (parse_consumes c n Hs) in E. lia.
  - now exists e.
Qed.

Lemma static_size_sound_witness :
  sizeof (CStruct [Examples.named "a" U16; Examples.named "b" (Array 3 I8)])
  = Some 5
  /\ raises (_parse (CStruct [Examples.named "a" U16;
                              Examples.named "b" (Array 3 I8)])
               [x01; x02; x03; x04]).
Proof.
  split; [reflexivity|].
  apply (static_size_sound
           (CStruct [Examples.named "a" U16; Examples.named "b" (Array 3 I8)])
           5 eq_refl).
  cbn. lia.
Defined.

(** ** The round trip, from the entry points *)



(** ** The size probe and [_parse_key_or_val] *)

Lemma py_getitem_map {A B} (f : A -> B) (seq : list A) (i : value) :
  py_getitem (map f seq) i = (a <- py_getitem seq i ;; Ok (f a)).
Proof.
  unfold py_getitem. destruct i; try reflexivity;
    rewrite length_map;
    match goal with
    | |- (if ?c then _ else _) = _ => destruct c; [|reflexivity]
    end;
    rewrite nth_error_map;
    match goal with
    | |- context [nth_error ?l ?n] => destruct (nth_error l n); reflexivity
    end.
Qed.

Lemma calc_static (c : Construct) (n : Z) (stream : bytes) :
  sizeof c = Some n ->
  _calc_bytes_to_read c stream = Ok (PInt n, VNone, stream).
Proof.
  intros H. destruct c; cbn [_calc_bytes_to_read]; rewrite H; try reflexivity;
    destruct stream; reflexivity.
Qed.

Lemma sizeof_not_Enum (c : Construct) (n : Z) :
  sizeof c = Some n -> is_Enum c = false /\ is_Option c = false.
Proof. destruct c; try discriminate; now split. Qed.

Lemma parse_key_or_val_static_eq (c : Construct) (n : Z) (stream : bytes) :
  sizeof c = Some n -> 0 < n ->
  _parse_key_or_val stream c
  = ('(to_parse, stream) <- stream_read stream (Z.to_nat n) ;;
     obj <- parse c to_parse ;; Ok (obj, stream)).
Proof.
  intros Hs Hn. unfold _parse_key_or_val. rewrite (calc_static _ _ _ Hs).
  cbn [bind]. destruct (sizeof_not_Enum _ _ Hs) as [-> _].
  destruct n as [|p|p]; try lia.
  assert (E : (Z.pos p <? 0) = false) by (apply Z.ltb_ge; lia).
  rewrite E.
  destruct (stream_read stream (Z.to_nat (Z.pos p))) as [[to_parse s]|];
    reflexivity.
Qed.

Lemma stream_read_Ok (stream : bytes) (n : nat) (data rest : bytes) :
  stream_read stream n = Ok (data, rest) ->
  stream = data ++ rest /\ length data = n.
Proof.
  unfold stream_read. destruct (n <=? length stream)%nat eqn:E; [|discriminate].
  intros H. apply Ok_inj in H. injection H as <- <-.
  apply Nat.leb_le in E. split; [now rewrite firstn_skipn|].
  rewrite length_firstn. lia.
Qed.

(** X4: on a codec of static size [n > 0], [_parse_key_or_val] decodes what
    the codec decodes and leaves the same rest; on a codec of static size 0
    it reads nothing and returns [None]. *)
Theorem parse_key_or_val_static (c : Construct) (n : Z) :
  sizeof c = Some n ->
  (0 < n ->
   forall stream v rest,
     _parse_key_or_val stream c = Ok (v, rest)
     <-> _parse c stream = Ok (v, rest))
  /\ (n = 0 -> forall stream, _parse_key_or_val stream c = Ok (VNone, stream)).
Proof.
  intros Hs. split.
  - intros Hn stream v rest.
    rewrite (parse_key_or_val_static_eq c n stream Hs Hn). split.
    + destruct (stream_read stream (Z.to_nat n)) as [[to_parse s]|] eqn:Er;
        [|discriminate].
      cbn [bind]. unfold parse.
      destruct (_parse c to_parse) as [[obj r]|] eqn:Ep; [|discriminate].
      cbn [bind]. intros H. apply Ok_inj in H. injection H as -> ->.
      destruct (stream_read_Ok _ _ _ _ Er) as [-> Hl].
      pose proof (parse_consumes c n Hs _ _ _ Ep) as Hp.
      destruct (parse_framed c _ _ _ Ep) as (d & Hd & Hframe).
      assert (r = []) by (apply length_zero_iff_nil; lia). subst r.
      rewrite app_nil_r in Hd. subst d. apply Hframe.
    + intros H.
      destruct (parse_framed c _ _ _ H) as (d & -> & Hframe).
      pose proof (parse_consumes c n Hs _ _ _ H) as Hp.
      rewrite length_app in Hp.
      assert (Hl : Z.to_nat n = length d) by lia.
      rewrite Hl, stream_read_app. cbn [bind]. unfold parse.
      rewrite <- (app_nil_r d) at 1. rewrite Hframe. reflexivity.
  - intros -> stream. unfold _parse_key_or_val.
    rewrite (calc_static _ _ _ Hs). cbn [bind].
    now destruct (sizeof_not_Enum _ _ Hs) as [_ ->].
Qed.

Lemma parse_key_or_val_static_witness :
  sizeof U16 = Some 2
  /\ _parse_key_or_val [x01; x02; x03] U16 = Ok (VInt 513, [x03])
  /\ _parse_key_or_val [x07] (TupleStruct []) = Ok (VNone, [x07])
  /\ parse (TupleStruct []) [x07] = Ok (VList []).
Proof.
  split; [reflexivity|]. split.
  - apply (proj1 (parse_key_or_val_static U16 2 eq_refl)); [lia|reflexivity].
  - split; [|reflexivity].
    apply (proj2 (parse_key_or_val_static (TupleStruct []) 0 eq_refl)).
    reflexivity.
Defined.

(** X5: [_parse_key_or_val] never decodes a present [Option]: when the tag
    is not 0x00 the probe calls itself on the same codec and binds the pair
    it gets back to [bytes_to_read], which is then no number of bytes. *)
Theorem parse_key_or_val_option_present (T : Construct) (tag : byte)
  (rest : bytes) :
  tag <> x00 -> raises (_parse_key_or_val (tag :: rest) (Option T)).
Proof.
  intros Htag. unfold _parse_key_or_val.
  assert (E : _calc_bytes_to_read (Option T) (tag :: rest)
              = ('(bytes_to_read, aux, stream) <-
                   _calc_bytes_to_read (Option T) rest ;;
                 Ok (PTuple bytes_to_read aux, VNone, stream))).
  { cbn [_calc_bytes_to_read sizeof bytes_eqb is_none_flag].
    rewrite (byte_eqb_x00 _ Htag). reflexivity. }
  rewrite E.
  destruct (_calc_bytes_to_read (Option T) rest) as [[[b aux] s]|e];
    cbn [bind]; eauto.
Qed.

Lemma parse_key_or_val_option_present_witness :
  x01 <> x00
  /\ raises (_parse_key_or_val [x01; x05] (Option U8))
  /\ parse (Option U8) [x01; x05] = Ok (VInt 5).
Proof.
  assert (H : x01 <> x00) by discriminate.
  split; [exact H|]. split; [|reflexivity].
  exact (parse_key_or_val_option_present U8 x01 [x05] H).
Defined.

(** X6: on an [Enum], [_parse_key_or_val] decodes a unit variant as the
    codec does, and never decodes a variant with a payload. *)
Theorem parse_key_or_val_enum (enum : EnumDef)
  (variants : list (variant_of Construct)) (tag : byte) (rest : bytes) :
  (forall n,
     py_getitem variants (VInt (Z_of_byte tag)) = Ok (VName n) ->
     _parse_key_or_val (tag :: rest) (Enum enum variants)
     = _parse (Enum enum variants) (tag :: rest))
  /\ (forall sc,
        py_getitem variants (VInt (Z_of_byte tag)) = Ok (VSub sc) ->
        raises (_parse_key_or_val (tag :: rest) (Enum enum variants))).
Proof.
  assert (E : _calc_bytes_to_read (Enum enum variants) (tag :: rest)
              = (subsubcon <- py_getitem variants (VInt (Z_of_byte tag)) ;;
                 match subsubcon with
                 | VName _ =>
                     variant <- getitem enum (Z_of_byte tag) ;;
                     aux <- call variant [] [] ;;
                     Ok (PInt 0, aux, rest)
                 | VSub sc =>
                     '(bytes_to_read, aux, stream) <-
                       _calc_bytes_to_read sc rest ;;
                     Ok (PTuple bytes_to_read aux, VInt (Z_of_byte tag), stream)
                 end)).
  { cbn [_calc_bytes_to_read sizeof]. rewrite stream_read_one. cbn [bind].
    rewrite U8_parse_one, py_getitem_map.
    destruct (py_getitem variants (VInt (Z_of_byte tag))) as [[n|sc]|];
      reflexivity. }
  split.
  - intros n Hn. unfold _parse_key_or_val. rewrite E, Hn. cbn [bind].
    cbn [_parse]. rewrite stream_read_one. cbn [bind].
    rewrite U8_parse_one, py_getitem_map, Hn. cbn [bind].
    destruct (getitem enum (Z_of_byte tag)) as [variant|]; [|reflexivity].
    cbn [bind]. destruct (call variant [] []); reflexivity.
  - intros sc Hsc. unfold _parse_key_or_val. rewrite E, Hsc. cbn [bind].
    destruct (_calc_bytes_to_read sc rest) as [[[b aux] s]|e];
      cbn [bind]; eauto.
Qed.

Lemma parse_key_or_val_enum_witness :
  exists e,
    new_Enum Examples.three_variants = Ok e
    /\ _parse_key_or_val [x01; x09] e = Ok (VVariant 1 (str "B") [], [x09])
    /\ raises (_parse_key_or_val [x02; x09] e)
    /\ parse e [x02; x09] = Ok (VVariant 2 (str "C") [(str "x", VInt 9)]).
Proof.
  eexists. split; [reflexivity|]. split; [|split; [|reflexivity]].
  - rewrite (proj1 (parse_key_or_val_enum _ Examples.three_variants x01 [x09])
               (str "B") eq_refl).
    reflexivity.
  - exact (proj2 (parse_key_or_val_enum _ Examples.three_variants x02 [x09])
             _ eq_refl).
Defined.

(** ** Decoding, then encoding *)

Lemma byte_of_Z_eq (z : Z) (b : byte) : z = Z_of_byte b -> byte_of_Z z = b.
Proof.
  intros ->. unfold byte_of_Z, Z_of_byte.
  pose proof (Byte.to_N_bounded b) as Hb.
  rewrite Z.mod_small by lia. rewrite N2Z.id. now rewrite Byte.of_to_N.
Qed.

Lemma byte_of_Z_mod (z k : Z) : byte_of_Z (z + k * 256) = byte_of_Z z.
Proof. unfold byte_of_Z. now rewrite Z_mod_plus_full. Qed.

Lemma le_to_int_bounds (data : bytes) :
  0 <= le_to_int data < 2 ^ (8 * Z.of_nat (length data)).
Proof.
  induction data as [|b data IH]; [cbn; lia|].
  cbn [le_to_int length]. pose proof (Z_of_byte_range b) as Hb.
  replace (8 * Z.of_nat (S (length data)))
    with (8 + 8 * Z.of_nat (length data)) by lia.
  rewrite Z.pow_add_r by lia. change (2 ^ 8) with 256. nia.
Qed.

Lemma int_to_le_le_to_int (data : bytes) :
  int_to_le (length data) (le_to_int data) = data.
Proof.
  induction data as [|b data IH]; [reflexivity|].
  cbn [length int_to_le le_to_int]. pose proof (Z_of_byte_range b) as Hb.
  f_equal.
  - replace (Z_of_byte b + 256 * le_to_int data)
      with (Z_of_byte b + le_to_int data * 256) by lia.
    rewrite byte_of_Z_mod. now apply byte_of_Z_eq.
  - transitivity (int_to_le (length data) (le_to_int data)); [|exact IH].
    f_equal. zlia.
Qed.

Lemma int_to_le_shift (n : nat) (z k : Z) :
  int_to_le n (z + k * 2 ^ (8 * Z.of_nat n)) = int_to_le n z.
Proof.
  revert z k. induction n as [|n IH]; intros z k; [reflexivity|].
  cbn [int_to_le].
  replace (8 * Z.of_nat (S n)) with (8 * Z.of_nat n + 8) by lia.
  rewrite Z.pow_add_r by lia. change (2 ^ 8) with 256.
  rewrite Z.mul_assoc, byte_of_Z_mod. f_equal.
  rewrite Z.div_add by lia. apply IH.
Qed.

Lemma pack_unpack (signed : bool) (data : bytes) :
  data <> [] ->
  pack_int (length data) signed (VInt (unpack_int signed data)) = Ok data.
Proof.
  intros Hne. pose proof (le_to_int_bounds data) as Hb.
  assert (Hl : 0 < Z.of_nat (length data))
    by (destruct data; [contradiction | cbn [length]; lia]).
  set (bits := 8 * Z.of_nat (length data)) in *.
  assert (Hp : 2 ^ bits = 2 * 2 ^ (bits - 1)).
  { rewrite <- Z.pow_succ_r by (unfold bits; lia). f_equal. lia. }
  rewrite in_range_pack.
  - f_equal. unfold unpack_int. fold bits.
    destruct (signed && (2 ^ (bits - 1) <=? le_to_int data)).
    + replace (le_to_int data - 2 ^ bits)
        with (le_to_int data + (-1) * 2 ^ bits) by lia.
      unfold bits. rewrite int_to_le_shift. apply int_to_le_le_to_int.
    + apply int_to_le_le_to_int.
  - unfold in_range, unpack_int. fold bits.
    destruct signed; cbn [andb].
    + destruct (Z.leb_spec (2 ^ (bits - 1)) (le_to_int data)); lia.
    + lia.
Qed.

Lemma stream_read_nonempty (stream : bytes) (n : nat) (data rest : bytes) :
  stream_read stream n = Ok (data, rest) -> n <> O -> data <> [].
Proof.
  intros H Hn. apply stream_read_Ok in H as [_ Hl]. intros ->.
  cbn in Hl. congruence.
Qed.

Lemma utf8_encode_cons (c : Z) (s : pystr) :
  utf8_encode (c :: s)
  = (d <- utf8_encode_char c ;; r <- utf8_encode s ;; Ok (d ++ r)).
Proof.
  unfold utf8_encode. rewrite mapM_cons.
  destruct (utf8_encode_char c) as [d|]; [|reflexivity]. cbn [bind].
  destruct (mapM utf8_encode_char s) as [bss|]; reflexivity.
Qed.

Lemma utf8_decode_step (fuel : nat) (bs : bytes) (s : pystr) :
  utf8_decode_aux (S fuel) bs = Ok s ->
  (bs = [] /\ s = [])
  \/ exists c d tail s',
       utf8_encode_char c = Ok d /\ bs = d ++ tail
       /\ utf8_decode_aux fuel tail = Ok s' /\ s = c :: s'.
Proof.
  cbn [utf8_decode_aux]. destruct bs as [|b0 r0].
  { intros H. apply Ok_inj in H. now left. }
  right. revert H. cbv zeta. pose proof (Z_of_byte_range b0) as H0.
  destruct (Z_of_byte b0 <? 0x80) eqn:E0.
  { destruct (utf8_decode_aux fuel r0) as [s'|] eqn:Er; [|discriminate].
    cbn [bind]. intros H. apply Ok_inj in H. subst s.
    exists (Z_of_byte b0), [b0], r0, s'. repeat split; [|exact Er].
    unfold utf8_encode_char. repeat resolve_if.
    f_equal. f_equal. now apply byte_of_Z_eq. }
  destruct ((0xC2 <=? Z_of_byte b0) && (Z_of_byte b0 <=? 0xDF)) eqn:E1.
  { destruct r0 as [|b1 r1]; [discriminate|].
    unfold is_cont. pose proof (Z_of_byte_range b1) as H1.
    destruct ((0x80 <=? Z_of_byte b1) && (Z_of_byte b1 <=? 0xBF)) eqn:C1;
      [|discriminate].
    destruct (utf8_decode_aux fuel r1) as [s'|] eqn:Er; [|discriminate].
    cbn [bind]. intros H. apply Ok_inj in H. subst s.
    eexists _, [b0; b1], r1, s'. repeat split; [|exact Er].
    unfold utf8_encode_char. repeat resolve_if.
    f_equal. repeat f_equal; apply byte_of_Z_eq; zlia. }
  destruct ((0xE0 <=? Z_of_byte b0) && (Z_of_byte b0 <=? 0xEF)) eqn:E2.
  { destruct r0 as [|b1 [|b2 r2]]; try discriminate.
    unfold is_cont. pose proof (Z_of_byte_range b1) as H1.
    pose proof (Z_of_byte_range b2) as H2.
    match goal with
    | |- (if ?c then _ else _) = _ -> _ => destruct c eqn:C; [|discriminate]
    end.
    destruct (utf8_decode_aux fuel r2) as [s'|] eqn:Er; [|discriminate].
    cbn [bind]. intros H. apply Ok_inj in H. subst s.
    eexists _, [b0; b1; b2], r2, s'. repeat split; [|exact Er].
    unfold utf8_encode_char. repeat resolve_if.
    f_equal. repeat f_equal; apply byte_of_Z_eq; zlia. }
  destruct ((0xF0 <=? Z_of_byte b0) && (Z_of_byte b0 <=? 0xF4)) eqn:E3;
    [|discriminate].
  destruct r0 as [|b1 [|b2 [|b3 r3]]]; try discriminate.
  unfold is_cont. pose proof (Z_of_byte_range b1) as H1.
  pose proof (Z_of_byte_range b2) as H2.
  pose proof (Z_of_byte_range b3) as H3.
  match goal with
  | |- (if ?c then _ else _) = _ -> _ => destruct c eqn:C; [|discriminate]
  end.
  destruct (utf8_decode_aux fuel r3) as [s'|] eqn:Er; [|discriminate].
  cbn [bind]. intros H. apply Ok_inj in H. subst s.
  eexists _, [b0; b1; b2; b3], r3, s'. repeat split; [|exact Er].
  unfold utf8_encode_char. repeat resolve_if.
  f_equal. repeat f_equal; apply byte_of_Z_eq; zlia.
Qed.

Lemma utf8_encode_decode_aux (fuel : nat) :
  forall bs s, utf8_decode_aux fuel bs = Ok s -> utf8_encode s = Ok bs.
Proof.
  induction fuel as [|fuel IH]; intros bs s H.
  - cbn in H. destruct bs; [|discriminate]. apply Ok_inj in H. now subst s.
  - apply utf8_decode_step in H
      as [[-> ->]|(c & d & tail & s' & Hc & -> & Hs & ->)]; [reflexivity|].
    rewrite utf8_encode_cons, Hc. cbn [bind]. now rewrite (IH _ _ Hs).
Qed.

Lemma utf8_encode_decode (data : bytes) (s : pystr) :
  utf8_decode data = Ok s -> utf8_encode s = Ok data.
Proof. apply utf8_encode_decode_aux. Qed.

(** ** Doubles *)

Lemma digits2_pos_bounds (m : positive) :
  2 ^ (Z.pos (digits2_pos m) - 1) <= Z.pos m < 2 ^ Z.pos (digits2_pos m).
Proof.
  induction m as [m IH|m IH|]; cbn [digits2_pos];
    [| |cbn; lia];
    rewrite Pos2Z.inj_succ;
    replace (Z.succ (Z.pos (digits2_pos m)) - 1)
      with (Z.succ (Z.pos (digits2_pos m) - 1)) by lia;
    rewrite !Z.pow_succ_r by lia; lia.
Qed.

Lemma valid_binary64 (s : bool) (m : positive) (e : Z) :
  valid_binary 53 1024 (S754_finite s m e) = true ->
  Z.pos m < 2 ^ 53 /\ -1074 <= e <= 971 /\ (Z.pos m < 2 ^ 52 -> e = -1074).
Proof.
  cbn [valid_binary]. unfold bounded, canonical_mantissa, fexp, emin.
  intros H. apply andb_true_iff in H as [H1 H2].
  apply Z.eqb_eq in H1. apply Z.leb_le in H2.
  pose proof (digits2_pos_bounds m) as [Hlo Hhi].
  set (d := Z.pos (digits2_pos m)) in *.
  assert (Hd : d <= 53) by lia.
  assert (Hm : Z.pos m < 2 ^ 53).
  { eapply Z.lt_le_trans; [exact Hhi|]. apply Z.pow_le_mono_r; lia. }
  split; [exact Hm|]. split; [lia|]. intros Hsub.
  destruct (Z.eq_dec d 53) as [E|E]; [|lia].
  rewrite E in Hlo. change (53 - 1) with 52 in Hlo. lia.
Qed.

Lemma float_bits64_range (f : spec_float) :
  valid_binary 53 1024 f = true -> 0 <= float_bits 53 1024 f < 2 ^ 64.
Proof.
  intros Hv. unfold float_bits, emin. change (2 ^ (53 - 1)) with (2 ^ 52).
  destruct f as [s|s| |s m e].
  - destruct s; cbn; lia.
  - destruct s; cbn; lia.
  - cbn; lia.
  - apply valid_binary64 in Hv as (Hm & He & Hsub).
    change (2 ^ 53) with 9007199254740992 in *.
    change (2 ^ 52) with 4503599627370496 in *.
    change (2 ^ 64) with 18446744073709551616.
    destruct (Z.leb_spec 4503599627370496 (Z.pos m)); destruct s; lia.
Qed.

Lemma bits_float_float_bits64 (f : spec_float) :
  valid_binary 53 1024 f = true -> f <> S754_nan ->
  bits_float 53 1024 (float_bits 53 1024 f) = f.
Proof.
  intros Hv Hn. destruct f as [s|s| |s m e]; [| |contradiction|].
  - destruct s; reflexivity.
  - destruct s; reflexivity.
  - apply valid_binary64 in Hv as (Hm & He & Hsub).
    unfold float_bits, bits_float, emin.
    change (2 ^ (53 - 1)) with 4503599627370496.
    change (2 ^ 53) with 9007199254740992 in *.
    change (2 ^ 52) with 4503599627370496 in *.
    change (2 * 1024) with 2048.
    change (4503599627370496 * 2048) with 9223372036854775808.
    change (3 - 1024 - 53) with (-1074).
    set (sign := if s then 9223372036854775808 else 0).
    assert (Hsign : sign = 0 \/ sign = 9223372036854775808)
      by (destruct s; auto).
    destruct (Z.leb_spec 4503599627370496 (Z.pos m)) as [Hnorm|Hsubn].
    + set (bits := sign + ((e - -1074 + 1) * 4503599627370496
                           + (Z.pos m - 4503599627370496))).
      assert (Em : bits mod 4503599627370496 = Z.pos m - 4503599627370496)
        by (unfold bits; zlia).
      assert (Ee : (bits / 4503599627370496) mod 2048 = e + 1075)
        by (unfold bits; zlia).
      assert (Es : (1 <=? bits / 9223372036854775808) = s).
      { unfold bits, sign. destruct s.
        - apply Z.leb_le. zlia.
        - apply Z.leb_gt. zlia. }
      rewrite Em, Ee, Es.
      replace (e + 1075 =? 2048 - 1) with false by (symmetry; lia).
      replace (e + 1075 =? 0) with false by (symmetry; lia).
      replace (Z.pos m - 4503599627370496 + 4503599627370496)
        with (Z.pos m) by lia.
      f_equal. lia.
    + specialize (Hsub Hsubn). subst e.
      set (bits := sign + Z.pos m).
      assert (Em : bits mod 4503599627370496 = Z.pos m)
        by (unfold bits; zlia).
      assert (Ee : (bits / 4503599627370496) mod 2048 = 0)
        by (unfold bits; zlia).
      assert (Es : (1 <=? bits / 9223372036854775808) = s).
      { unfold bits, sign. destruct s.
        - apply Z.leb_le. zlia.
        - apply Z.leb_gt. zlia. }
      rewrite Em, Ee, Es. reflexivity.
Qed.

Lemma float_bits_bits_float64 (x : Z) :
  0 <= x < 2 ^ 64 -> bits_float 53 1024 x <> S754_nan ->
  float_bits 53 1024 (bits_float 53 1024 x) = x.
Proof.
  intros Hx. unfold bits_float, float_bits, emin.
  change (2 ^ (53 - 1)) with 4503599627370496.
  change (2 ^ 64) with 18446744073709551616 in Hx.
  change (2 * 1024) with 2048.
  change (4503599627370496 * 2048) with 9223372036854775808.
  change (3 - 1024 - 53) with (-1074).
  set (m := x mod 4503599627370496).
  set (e := (x / 4503599627370496) mod 2048).
  set (q := x / 9223372036854775808).
  assert (Hm : 0 <= m < 4503599627370496) by (unfold m; zlia).
  assert (He : 0 <= e < 2048) by (unfold e; zlia).
  assert (Hq : 0 <= q <= 1) by (unfold q; zlia).
  assert (Hdec : x = q * 9223372036854775808 + e * 4503599627370496 + m)
    by (unfold q, e, m; zlia).
  assert (Hs : (if 1 <=? q then 9223372036854775808 else 0)
               = q * 9223372036854775808)
    by (destruct (Z.leb_spec 1 q); lia).
  destruct (Z.eqb_spec e (2048 - 1)) as [E1|E1].
  - destruct (Z.eqb_spec m 0) as [E2|E2]; [|contradiction].
    intros _. rewrite Hs. lia.
  - destruct (Z.eqb_spec e 0) as [E2|E2].
    + destruct m as [|p|p] eqn:Emp; intros _; try lia.
      replace (4503599627370496 <=? Z.pos p) with false
        by (symmetry; apply Z.leb_gt; lia).
      rewrite Hs. lia.
    + destruct (m + 4503599627370496) as [|p|p] eqn:Emp; try lia.
      intros _.
      replace (4503599627370496 <=? Z.pos p) with true
        by (symmetry; apply Z.leb_le; lia).
      rewrite Hs. lia.
Qed.

Lemma isnan_float (f : spec_float) :
  isnan (VFloat f) = Ok (match f with S754_nan => true | _ => false end).
Proof. reflexivity. Qed.

(** ** Codecs with a single encoding for each object *)

Lemma FormatField_canonical (length : nat) (signed : bool) :
  length <> O ->
  canonical (FormatField_parse length signed) (FormatField_build length signed).
Proof.
  intros Hl stream v rest. unfold FormatField_parse, FormatField_build.
  destruct (stream_read stream length) as [[data s]|] eqn:Er; [|discriminate].
  cbn [bind]. intros H. apply Ok_inj in H. injection H as <- <-.
  pose proof (stream_read_nonempty _ _ _ _ Er Hl) as Hne.
  apply stream_read_Ok in Er as [-> Hlen].
  exists data. split; [reflexivity|]. rewrite <- Hlen.
  now apply pack_unpack.
Qed.

Lemma U32_canonical : canonical (FormatField_parse 4 false)
                                (FormatField_build 4 false).
Proof. now apply FormatField_canonical. Qed.

Lemma U32_parse_range (stream : bytes) (v : value) (rest : bytes) :
  FormatField_parse 4 false stream = Ok (v, rest) ->
  exists n, v = VInt n /\ 0 <= n < 2 ^ 32.
Proof.
  unfold FormatField_parse.
  destruct (stream_read stream 4) as [[data s]|] eqn:Er; [|discriminate].
  cbn [bind]. intros H. apply Ok_inj in H. injection H as <- <-.
  apply stream_read_Ok in Er as [_ Hlen].
  exists (unpack_int false data). split; [reflexivity|].
  unfold unpack_int. cbn [andb]. pose proof (le_to_int_bounds data) as Hb.
  rewrite Hlen in Hb. exact Hb.
Qed.

Lemma BytesInteger_build_unpack (length : nat) (signed swapped : bool)
  (d : bytes) :
  List.length d = length -> d <> [] ->
  BytesInteger_build length signed swapped (VInt (unpack_int signed d))
  = Ok (if swapped then rev (rev d) else rev d).
Proof.
  intros Hl Hne. unfold BytesInteger_build, swapbytes, integer2bytes.
  pose proof (pack_unpack signed d Hne) as Hp.
  rewrite Hl in Hp. apply pack_in_range in Hp as [Hr Hp].
  unfold in_range in Hr.
  replace (length =? 0)%nat with false
    by (symmetry; apply Nat.eqb_neq; destruct d; [contradiction|];
        cbn in Hl; lia).
  replace (_ && _) with true.
  - now rewrite <- Hp.
  - symmetry. apply andb_true_iff.
    split; [apply Z.leb_le | apply Z.ltb_lt]; destruct signed; lia.
Qed.

Lemma BytesInteger_canonical (length : nat) (signed swapped : bool) :
  canonical (BytesInteger_parse length signed swapped)
            (BytesInteger_build length signed swapped).
Proof.
  intros stream v rest. unfold BytesInteger_parse.
  destruct (length =? 0)%nat eqn:El; [discriminate|].
  apply Nat.eqb_neq in El.
  destruct (stream_read stream length) as [[data s]|] eqn:Er; [|discriminate].
  cbn [bind]. intros H. apply Ok_inj in H. injection H as <- <-.
  pose proof (stream_read_nonempty _ _ _ _ Er El) as Hne.
  apply stream_read_Ok in Er as [-> Hlen].
  exists data. split; [reflexivity|].
  unfold bytes2integer, swapbytes.
  assert (Hrev : rev data <> []).
  { intros E. apply (f_equal (@rev byte)) in E.
    rewrite rev_involutive in E. now apply Hne. }
  destruct swapped.
  - rewrite rev_involutive, BytesInteger_build_unpack by assumption.
    now rewrite rev_involutive.
  - rewrite BytesInteger_build_unpack
      by (rewrite ?length_rev; assumption).
    now rewrite rev_involutive.
Qed.

Lemma F64_canonical :
  canonical (_parse (FormatFieldNoNan true)) (_build (FormatFieldNoNan true)).
Proof.
  intros stream v rest. cbn [_parse _build].
  destruct (stream_read stream 8) as [[data s]|] eqn:Er; [|discriminate].
  cbn [bind]. rewrite isnan_float. cbn [bind unpack_float].
  destruct (bits_float 53 1024 (le_to_int data)) as [sg|sg| |sg m e] eqn:Ef;
    try discriminate;
    intros H; apply Ok_inj in H; injection H as <- <-;
    apply stream_read_Ok in Er as [-> Hlen];
    exists data; (split; [reflexivity|]);
    rewrite isnan_float; cbn [bind pack_float as_float];
    rewrite <- Ef, float_bits_bits_float64, <- Hlen, int_to_le_le_to_int;
    try reflexivity;
    try (pose proof (le_to_int_bounds data) as Hb; rewrite Hlen in Hb;
         exact Hb);
    rewrite Ef; discriminate.
Qed.

Lemma Bytes_canonical : canonical Bytes_parse Bytes_build.
Proof.
  intros stream v rest. unfold Bytes_parse, Bytes_build.
  destruct (FormatField_parse 4 false stream) as [[count s]|] eqn:Ec;
    [|discriminate].
  cbn [bind]. destruct (U32_parse_range _ _ _ Ec) as (n & -> & Hn).
  destruct (U32_canonical _ _ _ Ec) as (prefix & -> & Hprefix).
  destruct (stream_read s (Z.to_nat n)) as [[data s']|] eqn:Er;
    [|discriminate].
  cbn [bind]. intros H. apply Ok_inj in H. injection H as <- <-.
  apply stream_read_Ok in Er as [-> Hlen].
  exists (prefix ++ data). split; [now rewrite app_assoc|].
  rewrite Hlen, Z2Nat.id by lia. rewrite Hprefix. reflexivity.
Qed.

Lemma Array_canonical (p : parser) (b : builder) (count : nat) :
  canonical p b ->
  forall stream es rest,
    Array_parse p count stream = Ok (es, rest) ->
    exists datas,
      stream = concat datas ++ rest /\ mapM b es = Ok datas
      /\ length es = count.
Proof.
  intros Hc. induction count as [|count IH]; intros stream es rest;
    cbn [Array_parse].
  - intros H. apply Ok_inj in H. injection H as <- <-.
    exists []. now repeat split.
  - destruct (p stream) as [[e s]|] eqn:Ep; [|discriminate]. cbn [bind].
    destruct (Array_parse p count s) as [[es' s']|] eqn:Ea; [|discriminate].
    cbn [bind]. intros H. apply Ok_inj in H. injection H as <- <-.
    destruct (Hc _ _ _ Ep) as (d & -> & Hb).
    destruct (IH _ _ _ Ea) as (ds & -> & Hbs & Hlen).
    exists (d :: ds). cbn [concat length].
    rewrite mapM_cons, Hb, Hbs, Hlen, <- app_assoc. now repeat split.
Qed.

Lemma PrefixedArray_canonical (p : parser) (b : builder) :
  canonical p b -> canonical (PrefixedArray_parse p) (PrefixedArray_build b).
Proof.
  intros Hc stream v rest. unfold PrefixedArray_parse, PrefixedArray_build.
  destruct (FormatField_parse 4 false stream) as [[count s]|] eqn:Ec;
    [|discriminate].
  cbn [bind]. destruct (U32_parse_range _ _ _ Ec) as (n & -> & Hn).
  destruct (U32_canonical _ _ _ Ec) as (prefix & -> & Hprefix).
  destruct (Array_parse p (Z.to_nat n) s) as [[es s']|] eqn:Ea;
    [|discriminate].
  cbn [bind]. intros H. apply Ok_inj in H. injection H as <- <-.
  destruct (Array_canonical p b _ Hc _ _ _ Ea) as (ds & -> & Hbs & Hlen).
  exists (prefix ++ concat ds). split; [now rewrite app_assoc|].
  cbn [py_len bind]. rewrite Hlen, Z2Nat.id by lia. rewrite Hprefix.
  cbn [bind]. unfold Array_build. cbn [py_len py_iter bind].
  rewrite Hlen, Z2Nat.id by lia. rewrite Z.eqb_refl. cbn [negb].
  now rewrite Hbs.
Qed.

Lemma Sequence_canonical (subcons : list Construct) :
  Forall (fun c => canonical (_parse c) (_build c)) subcons ->
  forall stream objs rest,
    Sequence_parse (map _parse subcons) stream = Ok (objs, rest) ->
    exists data,
      stream = data ++ rest
      /\ Sequence_build_loop (map _build subcons) objs = Ok data.
Proof.
  induction 1 as [|sc subcons Hsc _ IH]; intros stream objs rest;
    cbn [map Sequence_parse Sequence_build_loop].
  - intros H. apply Ok_inj in H. injection H as <- <-. now exists [].
  - destruct (_parse sc stream) as [[subobj s]|] eqn:Ep; [|discriminate].
    cbn [bind].
    destruct (Sequence_parse (map _parse subcons) s) as [[objs' s']|] eqn:Es;
      [|discriminate].
    cbn [bind]. intros H. apply Ok_inj in H. injection H as <- <-.
    destruct (Hsc _ _ _ Ep) as (d & -> & Hb).
    destruct (IH _ _ _ Es) as (ds & -> & Hbs).
    exists (d ++ ds). rewrite Hb. cbn [bind]. rewrite Hbs.
    split; [now rewrite app_assoc | reflexivity].
Qed.

Lemma py_eq_VStr (k : value) (n : pystr) :
  py_eq k (VStr n) = true <-> k = VStr n.
Proof.
  split.
  - destruct k; cbn; try discriminate.
    intros H. apply pystr_eqb_eq in H. now subst.
  - intros ->. cbn. now apply pystr_eqb_eq.
Qed.

Lemma dict_get_set (d : list (value * value)) (n k : pystr) (v : value) :
  dict_get (dict_set d (VStr n) v) (VStr k)
  = if pystr_eqb n k then Some v else dict_get d (VStr k).
Proof.
  induction d as [|[k' v'] d IH]; cbn [dict_set dict_get].
  - rewrite py_eq_str. reflexivity.
  - destruct (py_eq k' (VStr n)) eqn:E1; cbn [dict_get].
    + apply py_eq_VStr in E1. subst k'. rewrite !py_eq_str.
      destruct (pystr_eqb n k); reflexivity.
    + destruct (py_eq k' (VStr k)) eqn:E2; [|exact IH].
      apply py_eq_VStr in E2. subst k'. rewrite py_eq_str in E1.
      destruct (pystr_eqb n k) eqn:E3; [|reflexivity].
      apply pystr_eqb_eq in E3. subst n.
      rewrite (proj2 (pystr_eqb_eq k k) eq_refl) in E1. discriminate.
Qed.

Lemma Struct_canonical (fields : list (pystr * Construct)) :
  Forall (fun f => canonical (_parse (snd f)) (_build (snd f))) fields ->
  NoDup (map fst fields) ->
  Forall (fun f => fst f <> []) fields ->
  forall acc stream obj rest,
    Struct_parse
      (map (fun sc => (name_of sc, _parse sc))
           (map (fun f => Renamed (VStr (fst f)) (snd f)) fields))
      acc stream = Ok (obj, rest) ->
    (forall k, ~ In k (map fst fields) ->
               dict_get obj (VStr k) = dict_get acc (VStr k))
    /\ exists data,
         stream = data ++ rest
         /\ forall final,
              (forall k, In k (map fst fields) ->
                         dict_get final (VStr k) = dict_get obj (VStr k)) ->
              Struct_build_loop
                (map (fun sc => (name_of sc, flagbuildnone sc, _build sc))
                     (map (fun f => Renamed (VStr (fst f)) (snd f)) fields))
                final = Ok data.
Proof.
  induction 1 as [|[n c] fields Hc _ IH]; intros Hnd Hne acc stream obj rest;
    cbn [map Struct_parse Struct_build_loop fst snd _parse _build].
  - intros H. apply Ok_inj in H. injection H as <- <-.
    split; [reflexivity|]. now exists [].
  - inversion Hnd as [|? ? Hnin Hnd']; subst.
    inversion Hne as [|? ? Hn Hne']; subst. cbn [fst] in Hn.
    cbn [fst snd] in Hc. rewrite !(name_of_named n c Hn).
    destruct (_parse c stream) as [[subobj s]|] eqn:Ep; [|discriminate].
    cbn [bind]. replace (truthy (VStr n)) with true
      by (destruct n; [contradiction | reflexivity]).
    intros H. destruct (IH Hnd' Hne' _ _ _ _ H) as (Hkeep & data & -> & Hb).
    destruct (Hc _ _ _ Ep) as (d & -> & Hd).
    assert (Hn_obj : dict_get obj (VStr n) = Some subobj).
    { rewrite (Hkeep n Hnin), dict_get_set.
      now rewrite (proj2 (pystr_eqb_eq n n) eq_refl). }
    split.
    + intros k Hk. rewrite Hkeep by (intros Hin; apply Hk; now right).
      rewrite dict_get_set. destruct (pystr_eqb n k) eqn:E; [|reflexivity].
      apply pystr_eqb_eq in E. subst k. exfalso. apply Hk. now left.
    + exists (d ++ data). split; [now rewrite app_assoc|].
      intros final Hfinal.
      rewrite (Hfinal n (or_introl eq_refl)), Hn_obj. cbn [bind].
      rewrite Hd. cbn [bind].
      rewrite Hb by (intros k Hk; apply Hfinal; now right).
      reflexivity.
Qed.

Lemma strict_canonical (c : Construct) :
  strict c -> canonical (_parse c) (_build c).
Proof.
  induction c as [| | | | | |c IHc|count c IHc|subcons IH|subcons IH
                  |name c IHc|c IHc|enum variants IH|c1 IHc1 c2 IHc2|c IHc]
    using Construct_nested_ind;
    intros Hs;
    inversion Hs as [? ? Hl| | | | |? Hc|? ? Hc|? Hcs|fields Hnd Hne Hcs E
                     |? ? Hc];
    subst.
  - now apply FormatField_canonical.
  - apply BytesInteger_canonical.
  - apply F64_canonical.
  - apply Bytes_canonical.
  - (* String *)
    intros stream v rest. cbn [_parse _build].
    destruct (Bytes_parse stream) as [[obj s]|] eqn:Eb; [|discriminate].
    cbn [bind]. destruct (Bytes_canonical _ _ _ Eb) as (d & -> & Hd).
    destruct obj; try discriminate.
    destruct (utf8_decode bs) as [s0|] eqn:Eu; [|discriminate].
    cbn [bind]. intros H. apply Ok_inj in H. injection H as <- <-.
    exists d. split; [reflexivity|].
    rewrite (utf8_encode_decode _ _ Eu). cbn [bind]. exact Hd.
  - cbn [_parse _build]. apply PrefixedArray_canonical. auto.
  - (* Array *)
    intros stream v rest. cbn [_parse _build].
    destruct (Array_parse (_parse c) count stream) as [[es s]|] eqn:Ea;
      [|discriminate].
    cbn [bind]. intros H. apply Ok_inj in H. injection H as <- <-.
    destruct (Array_canonical _ _ _ (IHc Hc) _ _ _ Ea) as (ds & -> & Hb & Hl).
    exists (concat ds). split; [reflexivity|].
    unfold Array_build. cbn [py_len py_iter bind].
    rewrite Hl, Z.eqb_refl. cbn [negb]. now rewrite Hb.
  - (* TupleStruct *)
    intros stream v rest. cbn [_parse _build].
    destruct (Sequence_parse (map _parse subcons) stream) as [[objs s]|] eqn:Es;
      [|discriminate].
    cbn [bind]. intros E. apply Ok_inj in E. injection E as <- <-.
    assert (HF : Forall (fun c => canonical (_parse c) (_build c)) subcons).
    { rewrite Forall_forall in *. intros sc Hin. apply IH; auto. }
    destruct (Sequence_canonical subcons HF _ _ _ Es) as (data & -> & Hb).
    exists data. split; [reflexivity|]. unfold Sequence_build.
    cbn [py_iter bind]. exact Hb.
  - (* CStruct *)
    intros stream v rest. cbn [_parse _build].
    match goal with
    | |- bind ?r _ = _ -> _ => destruct r as [[obj s]|] eqn:Es; [|discriminate]
    end.
    cbn [bind]. intros E. apply Ok_inj in E. injection E as <- <-.
    assert (HF : Forall (fun f => canonical (_parse (snd f)) (_build (snd f)))
                        fields).
    { rewrite Forall_forall in *. intros f Hin.
      assert (Hr : canonical (_parse (Renamed (VStr (fst f)) (snd f)))
                             (_build (Renamed (VStr (fst f)) (snd f)))).
      { apply IH.
        - apply in_map_iff. now exists f.
        - apply strict_Renamed. auto. }
      exact Hr. }
    destruct (Struct_canonical fields HF Hnd Hne _ _ _ _ Es)
      as (_ & data & -> & Hb).
    exists data. split; [reflexivity|]. unfold Struct_build.
    apply Hb. reflexivity.
  - cbn [_parse _build]. auto.
Qed.

(** X7: decoding, then encoding.  A strict codec (integers, the double,
    byte strings, strings, and the vectors, arrays, tuples and structs made
    of them) accepts nothing but what it writes: when [_parse] succeeds,
    [build] on the decoded object gives back the very bytes that were
    consumed, so that no two byte strings decode to the same object. *)
Theorem parse_then_build (c : Construct) (stream : bytes) (v : value)
  (rest : bytes) :
  strict c ->
  _parse c stream = Ok (v, rest) ->
  exists data,
    stream = data ++ rest
    /\ build c v = Ok data
    /\ forall stream', _parse c stream' = Ok (v, rest) -> stream' = stream.
Proof.
  intros Hs H. destruct (strict_canonical c Hs _ _ _ H) as (data & -> & Hb).
  exists data. split; [reflexivity|]. split; [exact Hb|].
  intros stream' H'.
  destruct (strict_canonical c Hs _ _ _ H') as (data' & -> & Hb').
  unfold build in *. rewrite Hb in Hb'. apply Ok_inj in Hb'. now subst.
Qed.

Lemma parse_then_build_witness :
  strict (Vec String)
  /\ exists data,
       [x01; x00; x00; x00; x02; x00; x00; x00; xc3; xa9; x2a]
       = data ++ [x2a]
       /\ build (Vec String) (VList [VStr [233]]) = Ok data
       /\ forall stream',
            _parse (Vec String) stream' = Ok (VList [VStr [233]], [x2a]) ->
            stream' = [x01; x00; x00; x00; x02; x00; x00; x00; xc3; xa9; x2a].
Proof.
  assert (H : strict (Vec String)) by (constructor; constructor).
  split; [exact H|].
  exact (parse_then_build (Vec String)
           [x01; x00; x00; x00; x02; x00; x00; x00; xc3; xa9; x2a]
           (VList [VStr [233]]) [x2a] H eq_refl).
Defined.

(** X8: [F64] decodes what it encoded.  Every double other than NaN is
    written on eight bytes, and [_parse] returns it from those bytes,
    whatever follows them. *)
Theorem f64_roundtrip (f : spec_float) :
  valid_binary 53 1024 f = true -> f <> S754_nan ->
  exists data,
    build F64 (VFloat f) = Ok data
    /\ length data = 8%nat
    /\ forall rest, _parse F64 (data ++ rest) = Ok (VFloat f, rest).
Proof.
  intros Hv Hn. exists (int_to_le 8 (float_bits 53 1024 f)).
  assert (Hnan : match f with S754_nan => true | _ => false end = false)
    by (destruct f; try reflexivity; contradiction).
  split; [|split].
  - unfold build, F64. cbn [_build]. rewrite isnan_float, Hnan.
    reflexivity.
  - apply int_to_le_length.
  - intros rest. unfold F64. cbn [_parse].
    pose proof (stream_read_app (int_to_le 8 (float_bits 53 1024 f)) rest)
      as Hr.
    rewrite int_to_le_length in Hr. rewrite Hr. cbn [bind unpack_float].
    rewrite le_to_int_to_le, Z.mod_small
      by (change (8 * Z.of_nat 8) with 64; now apply float_bits64_range).
    rewrite bits_float_float_bits64 by assumption.
    rewrite isnan_float, Hnan. reflexivity.
Qed.

Lemma f64_roundtrip_witness :
  valid_binary 53 1024 (S754_finite true 5629499534213120 (-51)) = true
  /\ exists data,
       build F64 (VFloat (S754_finite true 5629499534213120 (-51))) = Ok data
       /\ length data = 8%nat
       /\ forall rest,
            _parse F64 (data ++ rest)
            = Ok (VFloat (S754_finite true 5629499534213120 (-51)), rest).
Proof.
  split; [reflexivity|].
  apply (f64_roundtrip (S754_finite true 5629499534213120 (-51)));
    [reflexivity | discriminate].
Defined.

(** ** Integers of 128 bits *)

Lemma int_to_le_app (n m : nat) (z : Z) :
  int_to_le (n + m) z
  = int_to_le n z ++ int_to_le m (z / 2 ^ (8 * Z.of_nat n)).
Proof.
  revert z. induction n as [|n IH]; intros z.
  - cbn. now rewrite Z.div_1_r.
  - cbn [Nat.add int_to_le app]. f_equal. rewrite IH. f_equal. f_equal.
    replace (8 * Z.of_nat (S n)) with (8 + 8 * Z.of_nat n) by lia.
    rewrite Z.pow_add_r by lia. change (2 ^ 8) with 256.
    rewrite Z.div_div by lia. reflexivity.
Qed.

Lemma BytesInteger_build_le (length : nat) (signed : bool) (z : Z) :
  length <> O -> in_range length signed z ->
  BytesInteger_build length signed true (VInt z) = Ok (int_to_le length z).
Proof.
  intros Hl Hr. unfold BytesInteger_build, swapbytes, integer2bytes.
  replace (length =? 0)%nat with false by (symmetry; now apply Nat.eqb_neq).
  unfold in_range in Hr.
  replace (_ && _) with true.
  - now rewrite rev_involutive.
  - symmetry. apply andb_true_iff.
    split; [apply Z.leb_le | apply Z.ltb_lt]; destruct signed; lia.
Qed.

(** X9: [U128] and [I128] are [BytesInteger]s written most significant byte
    first and then reversed; the result is the little-endian layout of the
    native formats.  An integer that [U64] encodes is encoded by [U128] as
    the same eight bytes followed by eight bytes 0x00, and one that [I64]
    encodes is encoded by [I128] as the same eight bytes followed by eight
    bytes of sign: 0xFF when it is negative, 0x00 otherwise. *)
Theorem int128_extends_int64 (z : Z) (d : bytes) :
  (build U64 (VInt z) = Ok d ->
   build U128 (VInt z) = Ok (d ++ repeat x00 8))
  /\ (build I64 (VInt z) = Ok d ->
      build I128 (VInt z) = Ok (d ++ repeat (if z <? 0 then xff else x00) 8)).
Proof.
  unfold build, U64, I64, U128, I128. cbn [_build]. unfold FormatField_build.
  split; intros H; apply pack_in_range in H as [Hr ->];
    unfold in_range in Hr; cbn [Z.of_nat Pos.of_succ_nat Pos.succ Z.mul] in Hr;
    change (8 * 8) with 64 in Hr.
  - change (2 ^ 64) with 18446744073709551616 in Hr.
    rewrite BytesInteger_build_le;
      [|discriminate|unfold in_range; cbn; lia].
    change 16%nat with (8 + 8)%nat at 1. rewrite int_to_le_app.
    change (2 ^ (8 * Z.of_nat 8)) with 18446744073709551616.
    rewrite Z.div_small by lia. reflexivity.
  - change (2 ^ (64 - 1)) with 9223372036854775808 in Hr.
    rewrite BytesInteger_build_le;
      [|discriminate|unfold in_range; cbn; lia].
    change 16%nat with (8 + 8)%nat at 1. rewrite int_to_le_app.
    change (2 ^ (8 * Z.of_nat 8)) with 18446744073709551616.
    destruct (Z.ltb_spec z 0) as [Hz|Hz].
    + replace (z / 18446744073709551616) with (-1) by zlia. reflexivity.
    + rewrite Z.div_small by lia. reflexivity.
Qed.

Lemma int128_extends_int64_witness :
  build I64 (VInt (-126)) = Ok [x82; xff; xff; xff; xff; xff; xff; xff]
  /\ build I128 (VInt (-126))
     = Ok ([x82; xff; xff; xff; xff; xff; xff; xff] ++ repeat xff 8).
Proof.
  split; [reflexivity|].
  exact (proj2 (int128_extends_int64 (-126)
                  [x82; xff; xff; xff; xff; xff; xff; xff]) eq_refl).
Defined.

(** ** Strings *)

Lemma utf8_encode_char_scalar (c : Z) :
  (scalar c -> exists d, utf8_encode_char c = Ok d)
  /\ (~ scalar c -> utf8_encode_char c = Err UnicodeError).
Proof.
  unfold scalar, utf8_encode_char. split; intros H.
  - repeat resolve_if; eauto.
  - repeat resolve_if; try reflexivity; exfalso; apply H; lia.
Qed.

Lemma utf8_encode_scalar (s : pystr) :
  Forall scalar s -> exists data, utf8_encode s = Ok data.
Proof.
  induction 1 as [|c s Hc _ [data IH]]; [now exists []|].
  destruct (proj1 (utf8_encode_char_scalar c) Hc) as [d Hd].
  exists (d ++ data). now rewrite utf8_encode_cons, Hd, IH.
Qed.

Lemma utf8_encode_char_error (c : Z) (e : error) :
  utf8_encode_char c = Err e -> e = UnicodeError.
Proof.
  unfold utf8_encode_char.
  repeat match goal with
         | |- context [if ?b then _ else _] => destruct b
         end;
    intros H; congruence.
Qed.

Lemma utf8_encode_not_scalar (s : pystr) :
  Exists (fun c => ~ scalar c) s -> utf8_encode s = Err UnicodeError.
Proof.
  induction 1 as [c s Hc|c s _ IH]; rewrite utf8_encode_cons.
  - now rewrite (proj2 (utf8_encode_char_scalar c) Hc).
  - destruct (utf8_encode_char c) as [d|e] eqn:Ec; cbn [bind].
    + now rewrite IH.
    + now rewrite (utf8_encode_char_error c e Ec).
Qed.

(** X10: [String] encodes exactly the strings made of Unicode scalar values.
    Such a string is written as its UTF-8 bytes after their count on four
    bytes (and [build] raises when the count does not fit in a [U32]); a
    string with a lone surrogate makes [build] raise the error of
    [str.encode]. *)
Theorem string_build_scalar (s : pystr) :
  (Forall scalar s ->
   exists data,
     utf8_encode s = Ok data
     /\ (Z.of_nat (length data) < 2 ^ 32 ->
         build String (VStr s)
         = Ok (int_to_le 4 (Z.of_nat (length data)) ++ data))
     /\ (2 ^ 32 <= Z.of_nat (length data) ->
         build String (VStr s) = Err FormatFieldError))
  /\ (Exists (fun c => ~ scalar c) s ->
      build String (VStr s) = Err UnicodeError).
Proof.
  split.
  - intros H. destruct (utf8_encode_scalar s H) as [data Hd].
    exists data. split; [exact Hd|].
    unfold build. cbn [_build]. rewrite Hd. cbn [bind].
    unfold Bytes_build, FormatField_build, pack_int. cbv beta iota zeta.
    change (8 * Z.of_nat 4) with 32.
    split; intros Hl.
    + replace (_ && _) with true by lia. reflexivity.
    + replace (_ && _) with false by lia. reflexivity.
  - intros H. unfold build. cbn [_build].
    now rewrite (utf8_encode_not_scalar s H).
Qed.

Lemma string_build_scalar_witness :
  Exists (fun c => ~ scalar c) [104; 0xD83D; 105]
  /\ build String (VStr [104; 0xD83D; 105]) = Err UnicodeError.
Proof.
  assert (H : Exists (fun c => ~ scalar c) [104; 0xD83D; 105]).
  { apply Exists_cons_tl, Exists_cons_hd. unfold scalar. lia. }
  split; [exact H|].
  exact (proj2 (string_build_scalar [104; 0xD83D; 105]) H).
Defined.

(** ** Arrays *)

Lemma Array_parse_length (p : parser) (count : nat) :
  forall stream es rest,
    Array_parse p count stream = Ok (es, rest) -> length es = count.
Proof.
  induction count as [|count IH]; intros stream es rest; cbn [Array_parse].
  - intros H. apply Ok_inj in H. now injection H as <- <-.
  - destruct (p stream) as [[e s]|]; [|discriminate]. cbn [bind].
    destruct (Array_parse p count s) as [[es' s']|] eqn:Ea; [|discriminate].
    cbn [bind]. intros H. apply Ok_inj in H. injection H as <- <-.
    cbn [length]. f_equal. eapply IH. exact Ea.
Qed.

(** X11: an array of [count] elements encodes lists of exactly [count]
    elements and decodes to such lists only: [build] raises [RangeError] on
    a list of any other length, before any element is encoded.  The last
    example of [main], six strings for [String[5]], is such a list. *)
Theorem array_count (count : nat) (subcon : Construct) :
  (forall l, length l <> count ->
             build (Array count subcon) (VList l) = Err RangeError)
  /\ (forall stream v rest,
        _parse (Array count subcon) stream = Ok (v, rest) ->
        exists es, v = VList es /\ length es = count).
Proof.
  split.
  - intros l Hl. unfold build. cbn [_build]. unfold Array_build.
    cbn [py_len bind].
    replace (Z.of_nat (length l) =? Z.of_nat count) with false by lia.
    reflexivity.
  - intros stream v rest. cbn [_parse].
    destruct (Array_parse (_parse subcon) count stream) as [[es s]|] eqn:Ea;
      [|discriminate].
    cbn [bind]. intros H. apply Ok_inj in H. injection H as <- <-.
    exists es. split; [reflexivity|]. eapply Array_parse_length. exact Ea.
Qed.

Lemma array_count_witness :
  build Main.a Main.a_object = Err RangeError.
Proof.
  apply (proj1 (array_count 5 String)). cbn. lia.
Defined.

(** ** The enum class *)

Lemma setattr_names (enum_def : class_dict) (n : pystr) (c : constructor) :
  map fst (setattr enum_def n c)
  = if existsb (pystr_eqb n) (map fst enum_def)
    then map fst enum_def else map fst enum_def ++ [n].
Proof.
  induction enum_def as [|[n' c'] enum_def IH]; [reflexivity|].
  cbn [setattr map fst existsb].
  destruct (pystr_eqb n' n) eqn:E.
  - apply pystr_eqb_eq in E. subst n'.
    now rewrite (proj2 (pystr_eqb_eq n n) eq_refl).
  - replace (pystr_eqb n n') with false.
    + cbn [orb map fst]. rewrite IH.
      destruct (existsb _ _); reflexivity.
    + symmetry. apply pystr_eqb_neq. apply pystr_eqb_neq in E. congruence.
Qed.

Lemma existsb_pystr_In (n : pystr) (l : list pystr) :
  existsb (pystr_eqb n) l = true <-> In n l.
Proof.
  rewrite existsb_exists. split.
  - intros (x & Hx & E). apply pystr_eqb_eq in E. now subst.
  - intros H. exists n. split; [exact H | now apply pystr_eqb_eq].
Qed.

Lemma setattr_NoDup (enum_def : class_dict) (n : pystr) (c : constructor) :
  NoDup (map fst enum_def) -> NoDup (map fst (setattr enum_def n c)).
Proof.
  intros Hnd. rewrite setattr_names.
  destruct (existsb (pystr_eqb n) (map fst enum_def)) eqn:E; [exact Hnd|].
  assert (Hn : ~ In n (map fst enum_def)).
  { intros H. apply existsb_pystr_In in H. congruence. }
  apply NoDup_app; [exact Hnd | repeat constructor; intros [] |].
  intros x Hx [<-|[]]. contradiction.
Qed.

(** The constructors that [sumtype] finds after a [setattr]. *)
Lemma sumtype_setattr (enum_def : class_dict) (n : pystr) (c : constructor) :
  forall k, In k (map fst (sumtype (setattr enum_def n c)))
            <-> In k (map fst (sumtype enum_def)) \/ k = n.
Proof.
  intros k. unfold sumtype.
  induction enum_def as [|[n' c'] enum_def IH]; cbn [setattr flat_map].
  - cbn. intuition congruence.
  - destruct (pystr_eqb n' n) eqn:E.
    + apply pystr_eqb_eq in E. subst n'. cbn [flat_map fst snd].
      destruct c' as [c'|]; cbn [app map fst In]; intuition congruence.
    + cbn [flat_map fst snd]. rewrite !map_app, !in_app_iff, IH. tauto.
Qed.

Lemma sumtype_names (klass : class_dict) :
  forall k, In k (map fst (sumtype klass)) -> In k (map fst klass).
Proof.
  intros k. unfold sumtype.
  induction klass as [|[n c] klass IH]; [exact (fun H => H)|].
  cbn [flat_map map fst snd]. rewrite map_app, in_app_iff.
  intros [H|H]; [|right; now apply IH].
  destruct c as [c|]; [|destruct H]. destruct H as [<-|[]]. now left.
Qed.

Lemma sumtype_NoDup (klass : class_dict) :
  NoDup (map fst klass) -> NoDup (map fst (sumtype klass)).
Proof.
  induction klass as [|[n c] klass IH]; [exact (fun H => H)|].
  cbn [map fst]. intros Hnd. inversion Hnd as [|? ? Hnin Hnd']; subst.
  unfold sumtype. cbn [flat_map fst snd]. destruct c as [c|]; cbn [app].
  - cbn [map fst]. constructor; [|now apply IH].
    intros Hin. apply Hnin. now apply sumtype_names.
  - now apply IH.
Qed.

Lemma make_enum_loop_invariant (variants : list (variant_of Construct)) :
  forall enum_def e,
    _make_enum_loop variants enum_def = Ok e ->
    NoDup (map fst enum_def) ->
    NoDup (map fst e)
    /\ forall k, In k (map fst (sumtype e))
                 <-> In k (map fst (sumtype enum_def)) \/ In k (names variants).
Proof.
  induction variants as [|v variants IH]; intros enum_def e H Hnd.
  - cbn in H. apply Ok_inj in H. subst e. split; [exact Hnd|].
    intros k. cbn. tauto.
  - apply make_enum_loop_step in H.
    destruct (IH _ _ H (setattr_NoDup _ _ _ Hnd)) as [Hnd' Hin'].
    split; [exact Hnd'|]. intros k. rewrite Hin', sumtype_setattr.
    unfold names. cbn [map In]. intuition congruence.
Qed.

(** X12: the constructors of the enum class.  [_make_enum] gives the class one
    constructor for each distinct variant name, so that the class has as
    many constructors as the union declares variants only when the names
    are distinct; a discriminant from the number of constructors upwards is
    never decoded, although it may be below the number of declared
    variants. *)
Theorem enum_class_constructors (variants : list (variant_of Construct))
  (e : Construct) :
  new_Enum variants = Ok e ->
  exists enum,
    e = Enum enum variants
    /\ NoDup (map fst enum)
    /\ (forall k, In k (map fst enum) <-> In k (names variants))
    /\ (length enum <= length variants)%nat
    /\ (length enum = length variants <-> NoDup (names variants))
    /\ (forall tag rest,
          Z.of_nat (length enum) <= Z_of_byte tag -> raises (_parse e (tag :: rest))).
Proof.
  unfold new_Enum, _make_enum, rust_enum.
  destruct (_make_enum_loop variants class_EnumDef) as [klass|] eqn:E;
    [|discriminate].
  cbn [bind]. intros H. apply Ok_inj in H. subst e.
  assert (Hnd0 : NoDup (map fst class_EnumDef)).
  { repeat (apply NoDup_cons; [cbn; intuition discriminate|]).
    apply NoDup_nil. }
  destruct (make_enum_loop_invariant variants _ klass E Hnd0) as [Hnd1 Hin].
  set (enum := sumtype klass) in *.
  assert (Hnd : NoDup (map fst enum)) by now apply sumtype_NoDup.
  assert (Hin' : forall k, In k (map fst enum) <-> In k (names variants)).
  { intros k. rewrite Hin. cbn. tauto. }
  assert (Hlen : (length enum <= length variants)%nat).
  { rewrite <- (length_map fst enum).
    replace (length variants) with (length (names variants))
      by (unfold names; apply length_map).
    apply NoDup_incl_length; [exact Hnd|]. intros k. apply Hin'. }
  exists enum. split; [reflexivity|]. split; [exact Hnd|].
  split; [exact Hin'|]. split; [exact Hlen|]. split; [split|].
  - intros Hl. apply NoDup_incl_NoDup with (l := map fst enum); [exact Hnd | |].
    + unfold names. rewrite !length_map. lia.
    + intros k. apply Hin'.
  - intros Hn. apply Nat.le_antisymm; [exact Hlen|].
    rewrite <- (length_map fst enum).
    replace (length variants) with (length (names variants))
      by (unfold names; apply length_map).
    apply NoDup_incl_length; [exact Hn|]. intros k. apply Hin'.
  - intros tag rest Htag. rewrite Enum_parse_eq, U8_parse_one.
    unfold getitem. rewrite py_getitem_out_of_range by exact Htag.
    now exists IndexError.
Qed.

Lemma enum_class_constructors_witness :
  exists e enum,
    new_Enum [VName (str "A"); VName (str "A"); VName (str "B")] = Ok e
    /\ e = Enum enum [VName (str "A"); VName (str "A"); VName (str "B")]
    /\ length enum = 2%nat
    /\ raises (_parse e [x02])
    /\ build e (VVariant 1 (str "B") []) = Ok [x01].
Proof.
  destruct (enum_class_constructors
              [VName (str "A"); VName (str "A"); VName (str "B")] _ eq_refl)
    as (enum & He & _ & _ & _ & _ & Hraise).
  eexists. exists enum. split; [reflexivity|]. split; [exact He|].
  injection He as <-. split; [reflexivity|]. split; [|reflexivity].
  apply Hraise. cbn. lia.
Defined.

(** X13: the discriminant is one byte.  A union may declare more than 256
    variants, but an object of a variant of ordinal 256 or more is never
    encoded: [Enum._build] raises (on [U8.build(index)], when the variant
    exists). *)
Theorem enum_build_ordinal_bound (enum : EnumDef)
  (variants : list (variant_of Construct)) (index : nat) (cname : pystr)
  (attrs : list (pystr * value)) :
  (256 <= index)%nat ->
  assoc (str "index") attrs = None ->
  raises (build (Enum enum variants) (VVariant index cname attrs)).
Proof.
  intros Hi Hattr. unfold build. rewrite Enum_build_eq by exact Hattr.
  destruct (py_getitem _ _) as [builder|e]; cbn [bind]; [|now exists e].
  unfold FormatField_build, pack_int. cbv beta iota zeta.
  replace (_ && _) with false by (cbn; lia).
  now exists FormatFieldError.
Qed.

Lemma enum_build_ordinal_bound_witness :
  exists e,
    new_Enum (units 257) = Ok e
    /\ raises (build e (VVariant 256 [512] []))
    /\ build e (VVariant 255 [511] []) = Ok [xff].
Proof.
  eexists. split; [vm_compute; reflexivity|]. split.
  - apply enum_build_ordinal_bound; [lia | reflexivity].
  - vm_compute. reflexivity.
Defined.

(** ** Enum: what is decoded, what is encoded *)

Lemma map_fst_combine_firstn {A B} (l : list A) (args : list B) :
  (length args <= length l)%nat ->
  map fst (combine (firstn (length args) l) args) = firstn (length args) l.
Proof.
  revert l. induction args as [|a args IH]; intros l Hl; [reflexivity|].
  destruct l as [|x l]; [cbn in Hl; lia|].
  cbn [length firstn combine map fst]. f_equal. apply IH.
  cbn [length] in Hl. lia.
Qed.

Lemma call_shape (index : nat) (cname : pystr) (c : constructor)
  (args : list value) (kwargs : list (value * value)) (obj : value) :
  call (index, cname, c) args kwargs = Ok obj ->
  exists attrs, obj = VVariant index cname attrs /\ map fst attrs = c.
Proof.
  unfold call. destruct (str_keys kwargs) as [kw|]; [|discriminate].
  cbn [bind]. destruct (length c <? length args)%nat eqn:El; [discriminate|].
  apply Nat.ltb_ge in El.
  destruct (negb _); [discriminate|].
  destruct (mapM _ (skipn (length args) c)) as [named|] eqn:Em;
    [|discriminate].
  cbn [bind]. intros H. apply Ok_inj in H. subst obj.
  eexists. split; [reflexivity|].
  rewrite map_app, map_fst_combine_firstn by exact El.
  assert (Hn : map fst named = skipn (length args) c).
  { apply mapM_Forall2 in Em. clear -Em.
    induction Em as [|n nv l r Hn _ IH]; [reflexivity|].
    cbn [map]. rewrite IH. f_equal.
    destruct (assoc n kw); [|discriminate]. apply Ok_inj in Hn. now subst. }
  rewrite Hn. apply firstn_skipn.
Qed.

Lemma getitem_shape (enum : EnumDef) (index : Z)
  (variant : nat * pystr * constructor) :
  0 <= index -> getitem enum index = Ok variant ->
  exists cname c,
    variant = (Z.to_nat index, cname, c)
    /\ nth_error enum (Z.to_nat index) = Some (cname, c).
Proof.
  intros Hi. unfold getitem.
  destruct (py_getitem enum (VInt index)) as [[cname c]|] eqn:Eg;
    [|discriminate].
  assert (E : (index <? 0) = false) by (apply Z.ltb_ge; lia).
  rewrite E. intros H. apply Ok_inj in H. subst variant.
  exists cname, c. split; [reflexivity|].
  apply py_getitem_nat. now rewrite Z2Nat.id.
Qed.

(** X14: what [Enum._parse] returns.  When decoding succeeds, the object is
    an instance of the constructor whose ordinal in the enum class is the
    discriminant byte, and its fields are the attributes of that
    constructor, in their order. *)
Theorem enum_parse_variant (enum : EnumDef)
  (variants : list (variant_of Construct)) (tag : byte) (stream : bytes)
  (v : value) (rest : bytes) :
  _parse (Enum enum variants) (tag :: stream) = Ok (v, rest) ->
  exists cname c attrs,
    nth_error enum (Z.to_nat (Z_of_byte tag)) = Some (cname, c)
    /\ v = VVariant (Z.to_nat (Z_of_byte tag)) cname attrs
    /\ map fst attrs = c.
Proof.
  rewrite Enum_parse_eq, U8_parse_one.
  destruct (getitem enum (Z_of_byte tag)) as [variant|] eqn:Eg;
    [|discriminate].
  cbn [bind].
  destruct (getitem_shape enum _ variant (proj1 (Z_of_byte_range tag)) Eg)
    as (cname & c & -> & Hn).
  destruct (py_getitem _ _) as [[n|parse]|]; [| |discriminate]; cbn [bind].
  - destruct (call _ [] []) as [obj|] eqn:Ec; [|discriminate]. cbn [bind].
    intros H. apply Ok_inj in H. injection H as <- <-.
    destruct (call_shape _ _ _ _ _ _ Ec) as (attrs & -> & Ha).
    now exists cname, c, attrs.
  - destruct (parse stream) as [[container s]|]; [|discriminate].
    cbn [bind].
    assert (Hcall : forall args kw obj,
               call (Z.to_nat (Z_of_byte tag), cname, c) args kw = Ok obj ->
               exists cname0 c0 attrs,
                 nth_error enum (Z.to_nat (Z_of_byte tag)) = Some (cname0, c0)
                 /\ obj = VVariant (Z.to_nat (Z_of_byte tag)) cname0 attrs
                 /\ map fst attrs = c0).
    { intros args kw obj Ec.
      destruct (call_shape _ _ _ _ _ _ Ec) as (attrs & -> & Ha).
      now exists cname, c, attrs. }
    destruct container;
      try discriminate;
      cbn [py_iter bind];
      try (destruct (call _ _ []) as [obj|] eqn:Ec; [|discriminate];
           cbn [bind]; intros H; apply Ok_inj in H; injection H as <- <-;
           exact (Hcall _ _ _ Ec)).
    destruct (public_items d) as [as_dict|]; [|discriminate]. cbn [bind].
    destruct (call _ [] as_dict) as [obj|] eqn:Ec; [|discriminate].
    cbn [bind]. intros H. apply Ok_inj in H. injection H as <- <-.
    exact (Hcall _ _ _ Ec).
Qed.

Lemma enum_parse_variant_witness :
  exists e,
    new_Enum Examples.three_variants = Ok e
    /\ _parse e [x02; x09; x2a]
       = Ok (VVariant 2 (str "C") [(str "x", VInt 9)], [x2a]).
Proof.
  eexists. split; [reflexivity|].
  match goal with
  | |- _parse (Enum ?en ?vs) _ = _ =>
      destruct (enum_parse_variant en vs x02 [x09; x2a]
                  (VVariant 2 (str "C") [(str "x", VInt 9)]) [x2a] eq_refl)
        as (cname & c & attrs & _ & _ & _)
  end.
  reflexivity.
Defined.

(** X15: what [Enum._build] writes.  For an object of a variant without a
    field called [index], when encoding succeeds the first byte is the
    ordinal of the variant, which is below 256 and below the number of
    declared variants; nothing follows it for a variant without fields, and
    otherwise what the codec declared at that ordinal writes for the
    fields. *)
Theorem enum_build_ordinal (enum : EnumDef)
  (variants : list (variant_of Construct)) (index : nat) (cname : pystr)
  (attrs : list (pystr * value)) (out : bytes) :
  assoc (str "index") attrs = None ->
  build (Enum enum variants) (VVariant index cname attrs) = Ok out ->
  exists payload,
    out = byte_of_Z (Z.of_nat index) :: payload
    /\ (index < 256)%nat
    /\ (index < length variants)%nat
    /\ (attrs = [] -> payload = [])
    /\ (attrs <> [] ->
        exists sc, nth_error variants index = Some (VSub sc)
                   /\ build sc (to_build attrs) = Ok payload).
Proof.
  intros Hidx Hb.
  assert (H256 : (index < 256)%nat).
  { destruct (Nat.lt_ge_cases index 256) as [H|H]; [exact H|].
    unfold build in Hb. rewrite Enum_build_eq in Hb by exact Hidx.
    destruct (py_getitem _ _) as [b|]; [|discriminate]. cbn [bind] in Hb.
    unfold FormatField_build, pack_int in Hb. cbv beta iota zeta in Hb.
    replace (_ && _) with false in Hb by (cbn; lia). discriminate. }
  destruct (enum_build_discriminant enum variants index cname attrs out
              Hidx Hb) as (payload & Hout & Hlt & Hunit & Hpay).
  exists payload. auto.
Qed.

Lemma enum_build_ordinal_witness :
  exists e,
    new_Enum Examples.three_variants = Ok e
    /\ build e (VVariant 2 (str "C") [(str "x", VInt 9)]) = Ok [x02; x09].
Proof.
  eexists. split; [reflexivity|].
  match goal with
  | |- build (Enum ?en ?vs) _ = _ =>
      destruct (enum_build_ordinal en vs 2 (str "C")
                  [(str "x", VInt 9)] [x02; x09] eq_refl eq_refl)
        as (payload & _)
  end.
  reflexivity.
Defined.

(** X16: a vector of elements of static size.  When the elements have the
    static size [n], a decoded vector of [k] elements has consumed exactly
    [4 + k * n] bytes, and an encoded one is written on as many. *)
Theorem vec_static_elements (subcon : Construct) (n : Z) :
  sizeof subcon = Some n ->
  (forall stream v rest,
     _parse (Vec subcon) stream = Ok (v, rest) ->
     exists es,
       v = VList es
       /\ Z.of_nat (length stream)
          = 4 + Z.of_nat (length es) * n + Z.of_nat (length rest))
  /\ (forall l data,
        build (Vec subcon) (VList l) = Ok data ->
        Z.of_nat (length data) = 4 + Z.of_nat (length l) * n).
Proof.
  intros Hs. split.
  - intros stream v rest. cbn [_parse]. unfold PrefixedArray_parse.
    destruct (FormatField_parse 4 false stream) as [[count s]|] eqn:Ec;
      [|discriminate].
    cbn [bind]. apply FormatField_parse_consumes in Ec.
    destruct count; try discriminate.
    destruct (Array_parse (_parse subcon) (Z.to_nat z) s) as [[es s']|] eqn:Ea;
      [|discriminate].
    cbn [bind]. intros H. apply Ok_inj in H. injection H as <- <-.
    exists es. split; [reflexivity|].
    pose proof (Array_parse_length _ _ _ _ _ Ea) as Hl.
    apply (Array_parse_consumes _ _ n (parse_consumes subcon n Hs)) in Ea.
    rewrite Hl. change (Z.of_nat 4) with 4 in Ec. lia.
  - intros l data Hb. unfold build in Hb. cbn [_build] in Hb.
    apply PrefixedArray_build_list in Hb as (encs & Hm & ->).
    rewrite length_app, int_to_le_length, Nat2Z.inj_add.
    rewrite (mapM_concat_length (_build subcon) n l); [lia| |exact Hm].
    apply Forall_forall. intros a _ d Hd.
    exact (build_produces subcon n Hs _ _ Hd).
Qed.

Lemma vec_static_elements_witness :
  sizeof U16 = Some 2
  /\ build (Vec U16) (VList [VInt 1; VInt 2; VInt 3])
     = Ok [x03; x00; x00; x00; x01; x00; x02; x00; x03; x00]
  /\ Z.of_nat (length [x03; x00; x00; x00; x01; x00; x02; x00; x03; x00])
     = 4 + Z.of_nat (length [VInt 1; VInt 2; VInt 3]) * 2.
Proof.
  split; [reflexivity|]. split; [reflexivity|].
  exact (proj2 (vec_static_elements U16 2 eq_refl)
           [VInt 1; VInt 2; VInt 3]
           [x03; x00; x00; x00; x01; x00; x02; x00; x03; x00] eq_refl).
Defined.

(** ** Maps and sets: decoding what was encoded *)

Lemma homogeneous_hashable (ks : list value) :
  Keys.homogeneous ks -> Forall (fun k => hashable k = true) ks.
Proof.
  intros [H|[H|H]]; eapply Forall_impl; try exact H;
    intros k [x ->]; reflexivity.
Qed.

Lemma set_add_new (P : value -> Prop) (acc : list value) (x : value) :
  Keys.ordered_class P -> Forall P acc -> P x -> ~ In x acc ->
  set_add acc x = acc ++ [x].
Proof.
  intros HP Hacc Hx Hnin. unfold set_add.
  replace (existsb (fun y => py_eq y x) acc) with false; [reflexivity|].
  symmetry. apply not_true_is_false. intros H.
  apply existsb_exists in H as (y & Hy & E).
  rewrite Forall_forall in Hacc.
  apply (Keys.oc_eq HP) in E; auto. now subst.
Qed.

Lemma set_of_distinct (P : value -> Prop) (l : list value) :
  Keys.ordered_class P ->
  Forall (fun k => hashable k = true) l ->
  forall acc,
    Forall P (acc ++ l) -> NoDup (acc ++ l) -> set_of l acc = Ok (acc ++ l).
Proof.
  intros HP Hh. induction Hh as [|x l Hx _ IH]; intros acc HPl Hnd.
  - now rewrite app_nil_r.
  - cbn [set_of]. rewrite Hx.
    apply Forall_app in HPl as HPl'. destruct HPl' as [Hacc Hl].
    inversion Hl as [|? ? HPx _]; subst.
    rewrite (set_add_new P acc x HP Hacc HPx).
    + rewrite IH;
        [now rewrite <- app_assoc
        |rewrite <- app_assoc; exact HPl
        |rewrite <- app_assoc; exact Hnd].
    + apply NoDup_remove_2 in Hnd. intros Hin. apply Hnd.
      apply in_or_app. now left.
Qed.

Lemma dict_set_new (P : value -> Prop) (acc : list (value * value))
  (k v : value) :
  Keys.ordered_class P -> Forall P (map fst acc) -> P k ->
  ~ In k (map fst acc) ->
  dict_set acc k v = acc ++ [(k, v)].
Proof.
  intros HP Hacc Hk Hnin.
  induction acc as [|[k' v'] acc IH]; [reflexivity|].
  cbn [map fst] in Hacc, Hnin. inversion Hacc as [|? ? Hk' Hacc']; subst.
  cbn [dict_set app].
  destruct (py_eq k' k) eqn:E.
  - apply (Keys.oc_eq HP) in E; auto. subst. exfalso. apply Hnin. now left.
  - rewrite IH; auto. intros Hin. apply Hnin. now right.
Qed.

Lemma dict_of_distinct (P : value -> Prop) (l : list (value * value)) :
  Keys.ordered_class P ->
  Forall (fun k => hashable k = true) (map fst l) ->
  forall acc,
    Forall P (map fst (acc ++ l)) -> NoDup (map fst (acc ++ l)) ->
    dict_of (map (fun kv => VList [fst kv; snd kv]) l) acc = Ok (acc ++ l).
Proof.
  intros HP. induction l as [|[k v] l IH]; intros Hh acc HPl Hnd.
  - now rewrite app_nil_r.
  - cbn [map fst snd dict_of] in *.
    inversion Hh as [|? ? Hk Hh']; subst. rewrite Hk.
    rewrite map_app in HPl, Hnd. cbn [map fst] in HPl, Hnd.
    apply Forall_app in HPl as HPl'. destruct HPl' as [Hacc Hl].
    inversion Hl as [|? ? HPk _]; subst.
    rewrite (dict_set_new P acc k v HP Hacc HPk).
    + rewrite IH;
        [now rewrite <- app_assoc
        |exact Hh'
        |rewrite <- app_assoc, map_app; exact HPl
        |rewrite <- app_assoc, map_app; exact Hnd].
    + apply NoDup_remove_2 in Hnd. intros Hin. apply Hnd.
      apply in_or_app. now left.
Qed.

Lemma Array_roundtrip_as (b : builder) (p : parser) (f : value -> value)
  (es : list value) :
  Forall (fun e => exists d, b e = Ok d
                             /\ forall rest, p (d ++ rest) = Ok (f e, rest))
         es ->
  exists datas,
    mapM b es = Ok datas
    /\ forall rest,
         Array_parse p (length es) (concat datas ++ rest)
         = Ok (map f es, rest).
Proof.
  induction 1 as [|e es (d & Hb & Hp) _ (ds & Hbs & Hps)].
  - exists []. split; reflexivity.
  - exists (d :: ds). rewrite mapM_cons, Hb, Hbs. split; [reflexivity|].
    intros rest. cbn [concat length Array_parse map].
    rewrite <- app_assoc, Hp. cbn [bind]. now rewrite Hps.
Qed.

Lemma PrefixedArray_roundtrip_as (b : builder) (p : parser)
  (f : value -> value) (es : list value) :
  Z.of_nat (length es) < 2 ^ 32 ->
  Forall (fun e => exists d, b e = Ok d
                             /\ forall rest, p (d ++ rest) = Ok (f e, rest))
         es ->
  exists data,
    PrefixedArray_build b (VList es) = Ok data
    /\ forall rest,
         PrefixedArray_parse p (data ++ rest) = Ok (VList (map f es), rest).
Proof.
  intros Hlen Hes. destruct (Array_roundtrip_as b p f es Hes) as (ds & Hb & Hp).
  assert (Hr : in_range 4 false (Z.of_nat (length es)))
    by (unfold in_range; cbn; lia).
  exists (int_to_le 4 (Z.of_nat (length es)) ++ concat ds). split.
  - unfold PrefixedArray_build, Array_build, FormatField_build.
    cbn [py_len py_iter bind]. rewrite (in_range_pack _ _ _ Hr). cbn [bind].
    rewrite Z.eqb_refl. cbn [negb]. now rewrite Hb.
  - intros rest. unfold PrefixedArray_parse. rewrite <- app_assoc.
    rewrite (FormatField_roundtrip 4 false (Z.of_nat (length es)));
      [|apply in_range_pack, Hr].
    cbn [bind]. now rewrite Nat2Z.id, Hp.
Qed.

Lemma sorted_items (d : list (value * value)) :
  Keys.homogeneous (map fst d) -> NoDup (map fst d) ->
  exists entries,
    sorted (items d) = Ok (items entries)
    /\ Permutation d entries
    /\ StronglySorted (fun e1 e2 => Keys.lt (fst e1) (fst e2)) entries.
Proof.
  intros Hhom Hnd.
  destruct (homogeneous_class _ Hhom) as (P & HP & Hkeys).
  pose proof (items_of_class P d Hkeys) as HQ.
  assert (Hnd' : NoDup (map Keys.item_key (items d)))
    by now rewrite item_key_items.
  assert (Hkey : forall x, Keys.item_of P x -> P (Keys.item_key x))
    by (intros x (k & v & -> & H); exact H).
  destruct (sorted_sorted P HP Keys.item_key (Keys.item_of P) Hkey
              (fun x y => item_lt P x y HP) (items d) HQ Hnd')
    as (r & Hr & Hperm & Hsorted).
  unfold items in Hperm.
  destruct (Permutation_map_inv _ _ (Permutation_sym Hperm))
    as (entries & -> & Hperm').
  fold (items entries) in Hr, Hsorted.
  exists entries. split; [exact Hr|]. split; [exact Hperm'|].
  now apply StronglySorted_map in Hsorted.
Qed.

Lemma homogeneous_Permutation (l l' : list value) :
  Permutation l l' -> Keys.homogeneous l -> Keys.homogeneous l'.
Proof.
  intros Hp [H|[H|H]]; [left | right; left | right; right];
    eapply Permutation_Forall; eassumption.
Qed.

(** X17: a map decodes to what was encoded, in key order.  For a map with
    fewer than 2^32 entries whose keys are distinct and of one kind (all
    integers, all strings or all byte strings), when the codecs of the keys
    and of the values round-trip on them, [build] succeeds and [_parse]
    returns from its bytes the dict of the same entries, inserted in
    ascending order of the keys. *)
Theorem hashmap_roundtrip (K V : Construct) (d : list (value * value)) :
  Keys.homogeneous (map fst d) -> NoDup (map fst d) ->
  Z.of_nat (length d) < 2 ^ 32 ->
  Forall (fun kv => roundtrips K (fst kv) /\ roundtrips V (snd kv)) d ->
  exists data entries,
    build (HashMap K V) (VDict d) = Ok data
    /\ Permutation d entries
    /\ StronglySorted (fun e1 e2 => Keys.lt (fst e1) (fst e2)) entries
    /\ forall rest,
         _parse (HashMap K V) (data ++ rest) = Ok (VDict entries, rest).
Proof.
  intros Hhom Hnd Hlen Hrt.
  destruct (sorted_items d Hhom Hnd) as (entries & Hsorted & Hperm & Hss).
  set (p := fun stream : bytes =>
              '(kv, s) <- Sequence_parse [_parse K; _parse V] stream ;;
              Ok (VList kv, s)).
  set (f := fun e : value => match e with VTuple l => VList l | _ => e end).
  assert (Hrt' : Forall (fun e => exists data,
                   Sequence_build [_build K; _build V] e = Ok data
                   /\ forall rest, p (data ++ rest) = Ok (f e, rest))
                  (items entries)).
  { unfold items. rewrite Forall_map.
    eapply Forall_impl; [|eapply Permutation_Forall; [exact Hperm|exact Hrt]].
    intros [k v] [(dk & Hbk & Hpk) (dv & Hbv & Hpv)]. cbn [fst snd] in *.
    exists (dk ++ dv). split.
    - unfold Sequence_build. cbn [py_iter bind Sequence_build_loop].
      rewrite Hbk. cbn [bind]. rewrite Hbv. cbn [bind].
      now rewrite app_nil_r.
    - intros rest. unfold p, f. cbn [Sequence_parse].
      rewrite <- app_assoc, Hpk. cbn [bind]. rewrite Hpv. reflexivity. }
  assert (Hlen' : Z.of_nat (length (items entries)) < 2 ^ 32).
  { unfold items. rewrite length_map, <- (Permutation_length Hperm).
    exact Hlen. }
  destruct (PrefixedArray_roundtrip_as
              (Sequence_build [_build K; _build V]) p f (items entries)
              Hlen' Hrt')
    as (data & Hb & Hp).
  exists data, entries. split; [|split; [exact Hperm|split; [exact Hss|]]].
  - unfold build. cbn [_build]. rewrite Hsorted. cbn [bind]. exact Hb.
  - intros rest. cbn [_parse]. fold p. rewrite Hp. cbn [bind py_iter].
    unfold items, f. rewrite map_map.
    assert (Hhom' : Keys.homogeneous (map fst entries))
      by (eapply homogeneous_Permutation; [|exact Hhom];
          now apply Permutation_map).
    destruct (homogeneous_class _ Hhom') as (P & HP & Hkeys).
    rewrite (dict_of_distinct P entries HP);
      [reflexivity | now apply homogeneous_hashable | exact Hkeys |].
    eapply Permutation_NoDup; [|exact Hnd]. now apply Permutation_map.
Qed.

Lemma hashmap_roundtrip_witness :
  exists data,
    build (HashMap String U8) (VDict Examples.map_b_aa) = Ok data
    /\ parse (HashMap String U8) data
       = Ok (VDict [(VStr (str "aa"), VInt 2); (VStr (str "b"), VInt 1)]).
Proof.
  assert (Hhom : Keys.homogeneous (map fst Examples.map_b_aa)).
  { right; left. repeat constructor; eexists; reflexivity. }
  assert (Hnd : NoDup (map fst Examples.map_b_aa)).
  { repeat constructor; cbn; intuition discriminate. }
  assert (Hrt : Forall (fun kv => roundtrips String (fst kv)
                                  /\ roundtrips U8 (snd kv))
                       Examples.map_b_aa).
  { repeat constructor; cbn [fst snd];
      apply admits_roundtrips;
      try (eapply admits_String; [reflexivity | cbv; reflexivity]);
      apply admits_FormatField; unfold in_range; cbn; lia. }
  destruct (hashmap_roundtrip String U8 Examples.map_b_aa Hhom Hnd
              ltac:(cbn; lia) Hrt) as (data & entries & Hb & _ & _ & Hp).
  exists data. split; [exact Hb|].
  vm_compute in Hb. apply Ok_inj in Hb. subst data. reflexivity.
Defined.

Lemma py_eq_set_Permutation (P : value -> Prop) (s s' : list value) :
  Keys.ordered_class P -> Forall P s -> Permutation s s' ->
  py_eq (VSet s') (VSet s) = true.
Proof.
  intros HP Hs Hperm. cbn [py_eq].
  rewrite (Permutation_length Hperm), Nat.eqb_refl. cbn [andb].
  apply forallb_forall. intros u Hu. apply existsb_exists.
  assert (Hin : In u s)
    by (eapply Permutation_in; [symmetry; exact Hperm | exact Hu]).
  exists u. split; [exact Hin|].
  rewrite Forall_forall in Hs. now apply (Keys.oc_eq HP); auto.
Qed.

(** X18: a set decodes to what was encoded.  For a set with fewer than 2^32
    elements that are distinct and of one kind, when the codec of the
    elements round-trips on them, [build] succeeds and writes the same bytes
    in whatever order the set is iterated, and [_parse] returns from these
    bytes a set of the same elements, equal to the one encoded. *)
Theorem hashset_roundtrip (T : Construct) (s : list value) :
  Keys.homogeneous s -> NoDup s ->
  Z.of_nat (length s) < 2 ^ 32 ->
  Forall (roundtrips T) s ->
  exists data,
    (forall s', Permutation s s' -> build (HashSet T) (VSet s') = Ok data)
    /\ forall rest,
         exists s',
           _parse (HashSet T) (data ++ rest) = Ok (VSet s', rest)
           /\ Permutation s s'
           /\ py_eq (VSet s') (VSet s) = true.
Proof.
  intros Hhom Hnd Hlen Hrt.
  destruct (homogeneous_class _ Hhom) as (P & HP & Hs).
  assert (Hnd' : NoDup (map (fun x : value => x) s)) by now rewrite map_id.
  destruct (sorted_sorted P HP (fun x => x) P (fun x H => H)
              (fun x y _ _ _ => eq_refl) s Hs Hnd')
    as (entries & Hr & Hperm & Hsorted).
  destruct (PrefixedArray_roundtrip (_build T) (_parse T) entries)
    as (data & Hb & Hp).
  - now rewrite <- (Permutation_length Hperm).
  - eapply Permutation_Forall; [exact Hperm | exact Hrt].
  - exists data. split.
    + intros s' Hs'. unfold build. cbn [_build py_iter bind].
      rewrite (sorted_permutation P HP (fun x => x) P (fun x H => H)
                 (fun x y _ _ _ => eq_refl) s s' Hs Hnd' Hs'), Hr.
      cbn [bind]. exact Hb.
    + intros rest. exists entries. split; [|split].
      * cbn [_parse]. rewrite Hp. cbn [bind py_iter].
        rewrite (set_of_distinct P entries HP); [reflexivity | | |].
        -- apply homogeneous_hashable.
           eapply homogeneous_Permutation; eassumption.
        -- cbn [app]. eapply Permutation_Forall; eassumption.
        -- cbn [app]. eapply Permutation_NoDup; eassumption.
      * exact Hperm.
      * now apply (py_eq_set_Permutation P).
Qed.

Lemma hashset_roundtrip_witness :
  exists data,
    build (HashSet U16) (VSet Examples.set_256_1) = Ok data
    /\ build (HashSet U16) (VSet [VInt 1; VInt 256]) = Ok data
    /\ exists s',
         parse (HashSet U16) data = Ok (VSet s')
         /\ Permutation Examples.set_256_1 s'
         /\ py_eq (VSet s') (VSet Examples.set_256_1) = true.
Proof.
  assert (Hhom : Keys.homogeneous Examples.set_256_1).
  { left. repeat constructor; eexists; reflexivity. }
  assert (Hnd : NoDup Examples.set_256_1).
  { repeat constructor; cbn; intuition discriminate. }
  assert (Hrt : Forall (roundtrips U16) Examples.set_256_1).
  { repeat constructor; apply admits_roundtrips;
      apply admits_FormatField; unfold in_range; cbn; lia. }
  destruct (hashset_roundtrip U16 Examples.set_256_1 Hhom Hnd
              ltac:(cbn; lia) Hrt) as (data & Hb & Hp).
  exists data. split; [apply Hb; reflexivity|].
  split; [apply Hb; apply perm_swap|].
  destruct (Hp []) as (s' & Hs' & Hperm & Heq).
  exists s'. split; [|split; [exact Hperm | exact Heq]].
  unfold parse. rewrite app_nil_r in Hs'. now rewrite Hs'.
Defined.

(** ** Keys of two kinds *)

Lemma py_insert_Permutation (x : value) (l r : list value) :
  py_insert x l = Ok r -> Permutation (x :: l) r.
Proof.
  revert r. induction l as [|y l IH]; intros r; cbn [py_insert].
  - intros H. apply Ok_inj in H. now subst.
  - destruct (py_lt y x) as [[|]|]; cbn [bind]; try discriminate.
    + destruct (py_insert x l) as [r'|]; [|discriminate]. cbn [bind].
      intros H. apply Ok_inj in H. subst r.
      rewrite perm_swap. apply perm_skip. now apply IH.
    + intros H. apply Ok_inj in H. now subst.
Qed.

Lemma sorted_Permutation (l r : list value) :
  sorted l = Ok r -> Permutation l r.
Proof.
  revert r. induction l as [|x l IH]; intros r; cbn [sorted].
  - intros H. apply Ok_inj in H. now subst.
  - destruct (sorted l) as [r'|]; [|discriminate]. cbn [bind].
    intros H. apply py_insert_Permutation in H.
    rewrite <- H. apply perm_skip. now apply IH.
Qed.

Lemma py_lt_int_str (a b : value) :
  (Keys.is_int a /\ Keys.is_str b) \/ (Keys.is_str a /\ Keys.is_int b) ->
  py_lt a b = Err TypeError.
Proof.
  intros [[[x ->] [y ->]]|[[x ->] [y ->]]]; reflexivity.
Qed.

Lemma int_not_str (k : value) : Keys.is_int k -> Keys.is_str k -> False.
Proof. intros [z ->] [s H]. discriminate. Qed.

Section TwoKinds.
Variable key : value -> value.
Variable Q : value -> Prop.
Hypothesis Q_kind : forall x, Q x -> Keys.is_int (key x) \/ Keys.is_str (key x).
Hypothesis Q_cross :
  forall x y, Q x -> Q y ->
    (Keys.is_int (key x) /\ Keys.is_str (key y))
    \/ (Keys.is_str (key x) /\ Keys.is_int (key y)) ->
    py_lt x y = Err TypeError.
Hypothesis Q_defined :
  forall x y, Q x -> Q y -> key x <> key y ->
    py_lt x y = Err TypeError \/ exists b, py_lt x y = Ok b.

Lemma py_insert_error (x : value) (l : list value) (e : error) :
  Q x -> Forall Q l -> ~ In (key x) (map key l) ->
  py_insert x l = Err e -> e = TypeError.
Proof.
  intros Hx. induction 1 as [|y l Hy _ IH]; cbn [py_insert map];
    intros Hnin; [discriminate|].
  destruct (Q_defined y x Hy Hx) as [E|[b E]].
  - intros E'. apply Hnin. now left.
  - rewrite E. cbn [bind]. congruence.
  - rewrite E. cbn [bind]. destruct b; [|discriminate].
    destruct (py_insert x l) as [r|e'] eqn:Ei; [discriminate|].
    cbn [bind]. intros H. injection H as <-.
    apply IH; [|reflexivity]. intros Hin. apply Hnin. now right.
Qed.

Lemma sorted_error (l : list value) (e : error) :
  Forall Q l -> NoDup (map key l) -> sorted l = Err e -> e = TypeError.
Proof.
  induction 1 as [|x l Hx Hl IH]; cbn [sorted map]; intros Hnd;
    [discriminate|].
  apply NoDup_cons_iff in Hnd as [Hnin Hnd].
  destruct (sorted l) as [r|e'] eqn:Es; cbn [bind].
  - apply sorted_Permutation in Es.
    apply py_insert_error; [exact Hx | |].
    + eapply Permutation_Forall; eassumption.
    + intros Hin. apply Hnin. eapply Permutation_in; [|exact Hin].
      apply Permutation_map. now symmetry.
  - intros H. injection H as <-. now apply IH.
Qed.

Lemma sorted_two_kinds (l : list value) :
  Forall Q l -> NoDup (map key l) ->
  (exists x, In x l /\ Keys.is_int (key x)) ->
  (exists y, In y l /\ Keys.is_str (key y)) ->
  sorted l = Err TypeError.
Proof.
  induction 1 as [|x l Hx Hl IH]; intros Hnd (i & Hi & Hii) (s & Hs & Hss);
    [destruct Hi|].
  destruct (sorted (x :: l)) as [r|e] eqn:E;
    [|f_equal; apply (sorted_error (x :: l) e);
      [now constructor | exact Hnd | exact E]].
  exfalso. cbn [sorted] in E.
  cbn [map] in Hnd. apply NoDup_cons_iff in Hnd as [Hnin Hnd].
  destruct (sorted l) as [r'|] eqn:Es; [|discriminate]. cbn [bind] in E.
  pose proof (sorted_Permutation _ _ Es) as Hperm.
  destruct r' as [|y r'].
  - apply Permutation_sym, Permutation_nil in Hperm. subst l.
    destruct Hi as [<-|[]], Hs as [<-|[]]. eapply int_not_str; eassumption.
  - assert (Hy : In y l)
      by (eapply Permutation_in; [symmetry; exact Hperm | now left]).
    assert (HQy : Q y) by (rewrite Forall_forall in Hl; auto).
    assert (Hcross : (Keys.is_int (key y) /\ Keys.is_str (key x))
                     \/ (Keys.is_str (key y) /\ Keys.is_int (key x))).
    { destruct (Q_kind y HQy) as [Hky|Hky].
      - left. split; [exact Hky|].
        destruct Hs as [<-|Hs]; [exact Hss|].
        exfalso.
        assert (Hboth : @Ok (list value) (y :: r') = Err TypeError).
        { apply IH; [exact Hnd | now exists y | now exists s]. }
        discriminate.
      - right. split; [exact Hky|].
        destruct Hi as [<-|Hi]; [exact Hii|].
        exfalso.
        assert (Hboth : @Ok (list value) (y :: r') = Err TypeError).
        { apply IH; [exact Hnd | now exists i | now exists y]. }
        discriminate. }
    cbn [py_insert] in E. rewrite (Q_cross y x HQy Hx Hcross) in E.
    discriminate.
Qed.

End TwoKinds.

Lemma item_two_kinds_cross (x y : value) :
  Keys.item_of (fun k => Keys.is_int k \/ Keys.is_str k) x ->
  Keys.item_of (fun k => Keys.is_int k \/ Keys.is_str k) y ->
  (Keys.is_int (Keys.item_key x) /\ Keys.is_str (Keys.item_key y))
  \/ (Keys.is_str (Keys.item_key x) /\ Keys.is_int (Keys.item_key y)) ->
  py_lt x y = Err TypeError.
Proof.
  intros (k1 & v1 & -> & _) (k2 & v2 & -> & _). cbn [Keys.item_key].
  intros [[[a ->] [b ->]]|[[a ->] [b ->]]]; reflexivity.
Qed.

Lemma item_two_kinds_defined (x y : value) :
  Keys.item_of (fun k => Keys.is_int k \/ Keys.is_str k) x ->
  Keys.item_of (fun k => Keys.is_int k \/ Keys.is_str k) y ->
  Keys.item_key x <> Keys.item_key y ->
  py_lt x y = Err TypeError \/ exists b, py_lt x y = Ok b.
Proof.
  intros (k1 & v1 & -> & H1) (k2 & v2 & -> & H2). cbn [Keys.item_key].
  intros Hne.
  change (py_lt (VTuple [k1; v1]) (VTuple [k2; v2]))
    with (if py_eq k1 k2
          then (if py_eq v1 v2 then Ok false else py_lt v1 v2)
          else py_lt k1 k2).
  destruct H1 as [[a ->]|[a ->]], H2 as [[b ->]|[b ->]].
  - rewrite py_eq_int, py_lt_int.
    replace (a =? b) with false by (symmetry; apply Z.eqb_neq; congruence).
    right. eauto.
  - left. reflexivity.
  - left. reflexivity.
  - rewrite py_eq_str.
    replace (pystr_eqb a b) with false
      by (symmetry; apply pystr_eqb_neq; congruence).
    right. cbn [py_lt]. eauto.
Qed.

Lemma two_kinds_defined (x y : value) :
  Keys.is_int x \/ Keys.is_str x -> Keys.is_int y \/ Keys.is_str y ->
  x <> y -> py_lt x y = Err TypeError \/ exists b, py_lt x y = Ok b.
Proof.
  intros [[a ->]|[a ->]] [[b ->]|[b ->]] _.
  - right. rewrite py_lt_int. eauto.
  - left. reflexivity.
  - left. reflexivity.
  - right. cbn [py_lt]. eauto.
Qed.

(** X19: the keys of a map and the elements of a set are compared with one
    another when they are encoded.  A map whose keys (a set whose elements)
    are integers and strings, with at least one of each, is not encoded:
    [sorted] raises [TypeError]. *)
Theorem collection_build_two_kinds :
  (forall K V d,
     Forall (fun k => Keys.is_int k \/ Keys.is_str k) (map fst d) ->
     NoDup (map fst d) ->
     (exists k, In k (map fst d) /\ Keys.is_int k) ->
     (exists k, In k (map fst d) /\ Keys.is_str k) ->
     build (HashMap K V) (VDict d) = Err TypeError)
  /\ (forall T s,
        Forall (fun k => Keys.is_int k \/ Keys.is_str k) s ->
        NoDup s ->
        (exists k, In k s /\ Keys.is_int k) ->
        (exists k, In k s /\ Keys.is_str k) ->
        build (HashSet T) (VSet s) = Err TypeError).
Proof.
  split.
  - intros K V d Hk Hnd (i & Hi & Hii) (s & Hs & Hss).
    unfold build. cbn [_build].
    rewrite (sorted_two_kinds Keys.item_key
               (Keys.item_of (fun k => Keys.is_int k \/ Keys.is_str k))).
    + reflexivity.
    + intros x (k & v & -> & H). exact H.
    + apply item_two_kinds_cross.
    + apply item_two_kinds_defined.
    + now apply items_of_class.
    + now rewrite item_key_items.
    + apply in_map_iff in Hi as ([k v] & <- & Hin).
      exists (VTuple [k; v]). split; [|exact Hii].
      unfold items. apply in_map_iff. now exists (k, v).
    + apply in_map_iff in Hs as ([k v] & <- & Hin).
      exists (VTuple [k; v]). split; [|exact Hss].
      unfold items. apply in_map_iff. now exists (k, v).
  - intros T s Hk Hnd Hi Hs. unfold build. cbn [_build py_iter bind].
    rewrite (sorted_two_kinds (fun x => x)
               (fun k => Keys.is_int k \/ Keys.is_str k)).
    + reflexivity.
    + auto.
    + intros x y _ _. apply py_lt_int_str.
    + apply two_kinds_defined.
    + exact Hk.
    + now rewrite map_id.
    + exact Hi.
    + exact Hs.
Qed.

Lemma collection_build_two_kinds_witness :
  build (HashMap U8 U8) (VDict [(VInt 1, VInt 2); (VStr (str "a"), VInt 3)])
  = Err TypeError.
Proof.
  apply (proj1 collection_build_two_kinds).
  - apply Forall_cons; [left; eexists; reflexivity|].
    apply Forall_cons; [right; eexists; reflexivity | apply Forall_nil].
  - apply NoDup_cons; [cbn; intuition discriminate|].
    apply NoDup_cons; [cbn; tauto | apply NoDup_nil].
  - exists (VInt 1). split; [now left | eexists; reflexivity].
  - exists (VStr (str "a")). split; [right; now left | eexists; reflexivity].
Defined.

(** ** What a decoded map or set holds *)

Lemma ForallOrdPairs_snoc {A} (R : A -> A -> Prop) (l : list A) (x : A) :
  ForallOrdPairs R l -> Forall (fun a => R a x) l ->
  ForallOrdPairs R (l ++ [x]).
Proof.
  induction 1 as [|a l Ha _ IH]; intros Hx; cbn [app].
  - repeat constructor.
  - inversion Hx as [|? ? Hax Hx']; subst. constructor.
    + apply Forall_app. split; [exact Ha | now constructor].
    + now apply IH.
Qed.

Lemma set_add_distinct (acc : list value) (x : value) :
  pairwise_distinct acc -> pairwise_distinct (set_add acc x).
Proof.
  intros H. unfold set_add.
  destruct (existsb (fun y => py_eq y x) acc) eqn:E; [exact H|].
  apply ForallOrdPairs_snoc; [exact H|].
  apply Forall_forall. intros y Hy.
  destruct (py_eq y x) eqn:Ey; [|reflexivity].
  assert (existsb (fun y => py_eq y x) acc = true)
    by (apply existsb_exists; now exists y).
  congruence.
Qed.

Lemma set_of_distinct_result (elems : list value) :
  forall acc s,
    set_of elems acc = Ok s -> pairwise_distinct acc -> pairwise_distinct s.
Proof.
  induction elems as [|x elems IH]; intros acc s; cbn [set_of].
  - intros H. apply Ok_inj in H. now subst.
  - destruct (hashable x); [|discriminate].
    intros H Hacc. eapply IH; [exact H|]. now apply set_add_distinct.
Qed.

Lemma dict_set_keys (d : list (value * value)) (k v : value) :
  map fst (dict_set d k v) = set_add (map fst d) k.
Proof.
  unfold set_add. induction d as [|[k' v'] d IH]; [reflexivity|].
  cbn [dict_set map fst existsb].
  destruct (py_eq k' k); cbn [orb map fst]; [reflexivity|].
  rewrite IH. destruct (existsb _ _); reflexivity.
Qed.

Lemma dict_of_distinct_result (pairs : list value) :
  forall acc d,
    dict_of pairs acc = Ok d ->
    pairwise_distinct (map fst acc) -> pairwise_distinct (map fst d).
Proof.
  induction pairs as [|x pairs IH]; intros acc d; cbn [dict_of].
  - intros H. apply Ok_inj in H. now subst.
  - destruct x as [| | | | | |l|l| | |]; try discriminate;
      destruct l as [|k [|v [|? ?]]]; try discriminate;
      (destruct (hashable k); [|discriminate]);
      intros H Hacc; (eapply IH; [exact H|]);
      rewrite dict_set_keys; now apply set_add_distinct.
Qed.

(** X20: a decoded set never holds two equal elements, nor a decoded map two
    equal keys, whatever the stream: [set(...)] and [dict(...)] drop the
    repetitions, so that the container may hold fewer entries than the
    count that was read. *)
Theorem decoded_collections_distinct (stream : bytes) (v : value)
  (rest : bytes) :
  (forall T, _parse (HashSet T) stream = Ok (v, rest) ->
             exists s, v = VSet s /\ pairwise_distinct s)
  /\ (forall K V, _parse (HashMap K V) stream = Ok (v, rest) ->
                  exists d, v = VDict d /\ pairwise_distinct (map fst d)).
Proof.
  split.
  - intros T. cbn [_parse].
    destruct (PrefixedArray_parse _ stream) as [[obj s0]|]; [|discriminate].
    cbn [bind]. destruct (py_iter obj) as [elems|]; [|discriminate].
    cbn [bind]. destruct (set_of elems []) as [s|] eqn:Es; [|discriminate].
    cbn [bind]. intros H. apply Ok_inj in H. injection H as <- <-.
    exists s. split; [reflexivity|].
    eapply set_of_distinct_result; [exact Es | constructor].
  - intros K V. cbn [_parse].
    destruct (PrefixedArray_parse _ stream) as [[obj s0]|]; [|discriminate].
    cbn [bind]. destruct (py_iter obj) as [pairs|]; [|discriminate].
    cbn [bind]. destruct (dict_of pairs []) as [d|] eqn:Ed; [|discriminate].
    cbn [bind]. intros H. apply Ok_inj in H. injection H as <- <-.
    exists d. split; [reflexivity|].
    eapply dict_of_distinct_result; [exact Ed | constructor].
Qed.

Lemma decoded_collections_distinct_witness :
  _parse (HashSet U8) [x03; x00; x00; x00; x07; x07; x09]
  = Ok (VSet [VInt 7; VInt 9], [])
  /\ exists s, VSet [VInt 7; VInt 9] = VSet s /\ pairwise_distinct s.
Proof.
  split; [reflexivity|].
  exact (proj1 (decoded_collections_distinct
                  [x03; x00; x00; x00; x07; x07; x09]
                  (VSet [VInt 7; VInt 9]) []) U8 eq_refl).
Defined.

(** ** The account coder: round trip and errors *)

Section CoderLookups.
Variable IdlTypeDef : Type.
Variable name : IdlTypeDef -> pystr.
Variable typedef_layout : IdlTypeDef -> list IdlTypeDef -> Construct.
Variable idl : Accounts.Idl IdlTypeDef.
Variable self : Accounts.AccountsCoder.
Hypothesis init : Accounts.new_AccountsCoder name typedef_layout idl = Ok self.

(** The entries of the dicts keyed by a discriminator come from
    [acc_name_to_discriminator]. *)
Lemma disc_key_known (key : bytes) :
  (exists n, Accounts.get bytes_eqb (Accounts.discriminator_to_acc_name self)
               key = Some n)
  \/ (exists l, Accounts.get bytes_eqb
                  (Accounts.discriminator_to_typedef_layout self) key
                = Some l) ->
  exists n, In (n, key) (Accounts.acc_name_to_discriminator self).
Proof.
  destruct (coder_fields _ _ _ _ _ init) as (discs & _ & _ & E1 & E2).
  intros [[n H]|[l H]];
    apply (get_In bytes_eqb bytes_eqb_eq) in H;
    [rewrite E1 in H | rewrite E2 in H];
    apply (In_comprehension bytes_eqb bytes_eqb_eq) in H;
    apply in_map_iff in H as ([n' d'] & E & Hin);
    cbn [fst snd] in E; injection E as -> _; now exists n'.
Qed.

Lemma coder_known (key : bytes) (n : pystr) :
  Accounts.get bytes_eqb (Accounts.discriminator_to_acc_name self) key
  = Some n ->
  exists acc,
    In acc (Accounts.accounts idl)
    /\ n = name acc
    /\ Accounts.account_discriminator (name acc) = Ok key
    /\ Accounts.get pystr_eqb (Accounts.acc_name_to_discriminator self)
         (name acc) = Some key
    /\ Accounts.get bytes_eqb (Accounts.discriminator_to_typedef_layout self)
         key = Some (typedef_layout acc (Accounts.types idl)).
Proof.
  intros H.
  destruct (disc_key_known key (or_introl (ex_intro _ n H))) as [n' Hin].
  destruct (disc_to_account _ _ _ _ _ init n' key Hin)
    as (acc & Hacc & Hd & Hn & Hl).
  exists acc. rewrite H in Hn. apply Some_inj in Hn.
  destruct (name_to_disc_complete _ _ _ _ _ init acc Hacc) as (d & Hg & Hd').
  rewrite Hd in Hd'. apply Ok_inj in Hd'. subst d. auto.
Qed.

Lemma coder_unknown (key : bytes) :
  (forall acc, In acc (Accounts.accounts idl) ->
               Accounts.account_discriminator (name acc) <> Ok key) ->
  Accounts.get bytes_eqb (Accounts.discriminator_to_acc_name self) key = None
  /\ Accounts.get bytes_eqb (Accounts.discriminator_to_typedef_layout self)
       key = None.
Proof.
  intros Hno.
  assert (Hnone : forall n,
             ~ In (n, key) (Accounts.acc_name_to_discriminator self)).
  { intros n Hin.
    destruct (name_to_disc_sound _ _ _ _ _ init _ Hin) as (Hd & acc & Ha & Hn).
    cbn [fst snd] in Hd, Hn. apply (Hno acc Ha). now rewrite Hn. }
  split.
  - destruct (Accounts.get _ (Accounts.discriminator_to_acc_name self) key)
      as [n|] eqn:E; [|reflexivity].
    destruct (disc_key_known key (or_introl (ex_intro _ n E))) as [n' Hin].
    destruct (Hnone n' Hin).
  - destruct (Accounts.get _ (Accounts.discriminator_to_typedef_layout self)
                key) as [l|] eqn:E; [|reflexivity].
    destruct (disc_key_known key (or_intror (ex_intro _ l E))) as [n' Hin].
    destruct (Hnone n' Hin).
Qed.

Lemma coder_unknown_name (n : pystr) :
  ~ In n (map name (Accounts.accounts idl)) ->
  Accounts.get pystr_eqb (Accounts.acc_name_to_discriminator self) n = None.
Proof.
  intros Hno.
  destruct (Accounts.get _ (Accounts.acc_name_to_discriminator self) n)
    as [d|] eqn:E; [|reflexivity].
  apply (get_In pystr_eqb pystr_eqb_eq) in E.
  destruct (name_to_disc_sound _ _ _ _ _ init _ E) as (_ & acc & Ha & Hn).
  cbn [fst] in Hn. exfalso. apply Hno. rewrite <- Hn. now apply in_map.
Qed.

End CoderLookups.

(** X21: the account coder decodes what it encoded.  For an account [acc]
    declared in the IDL whose discriminator no other declared account
    shares, and an object [v] on which the layout of [acc] round-trips,
    [_build] on [{"name": acc.name, "data": v}] writes the discriminator
    and the payload, and [_parse] returns [{"data": v, "name": acc.name}]
    from those bytes. *)
Theorem accounts_coder_roundtrip
  (IdlTypeDef : Type) (name : IdlTypeDef -> pystr)
  (typedef_layout : IdlTypeDef -> list IdlTypeDef -> Construct)
  (idl : Accounts.Idl IdlTypeDef) (self : Accounts.AccountsCoder)
  (acc : IdlTypeDef) (v : value) :
  Accounts.new_AccountsCoder name typedef_layout idl = Ok self ->
  In acc (Accounts.accounts idl) ->
  (forall a, In a (Accounts.accounts idl) ->
             Accounts.account_discriminator (name a)
             = Accounts.account_discriminator (name acc) -> a = acc) ->
  roundtrips (typedef_layout acc (Accounts.types idl)) v ->
  exists data,
    Accounts._build self
      (VDict [(VStr (str "name"), VStr (name acc)); (VStr (str "data"), v)])
    = Ok data
    /\ forall rest,
         Accounts._parse self (data ++ rest)
         = Ok (VDict [(VStr (str "data"), v);
                      (VStr (str "name"), VStr (name acc))], rest).
Proof.
  intros init Hacc Hunique (payload & Hb & Hp).
  destruct (name_to_disc_complete _ _ _ _ _ init acc Hacc) as (d & Hget & Hd).
  pose proof (account_discriminator_length _ _ Hd) as Hlen.
  apply (get_In pystr_eqb pystr_eqb_eq) in Hget as Hin.
  destruct (disc_to_account _ _ _ _ _ init _ _ Hin)
    as (acc' & Hacc' & Hd' & Hname & Hlayout).
  assert (acc' = acc) by (apply Hunique; [exact Hacc' | congruence]).
  subst acc'.
  exists (d ++ payload). split.
  - unfold Accounts._build, Accounts._encode.
    change (Accounts.subscript (VDict _) (str "name"))
      with (Ok (VStr (name acc))).
    cbn [bind]. rewrite Hget. cbn [bind].
    change (Accounts.subscript (VDict _) (str "data")) with (Ok v).
    cbn [bind]. unfold Accounts.subcon_build, Accounts.Switch_build.
    rewrite Hlen, Hlayout, Hb. reflexivity.
  - intros rest. unfold Accounts._parse, Accounts.subcon_parse.
    rewrite <- app_assoc, <- Hlen, stream_read_app. cbn [bind].
    unfold Accounts.Switch_parse. rewrite Hlayout, Hp. cbn [bind].
    unfold Accounts._decode. cbn [fst snd]. now rewrite Hname.
Qed.

(** X22: the account coder accepts nothing but what it writes.  When the
    layouts of the declared accounts are strict codecs and [_parse]
    succeeds, [_build] on the decoded object gives back the bytes that were
    consumed: the check [encoded == raw_acc_data] of accounts.py. *)
Theorem accounts_coder_parse_then_build
  (IdlTypeDef : Type) (name : IdlTypeDef -> pystr)
  (typedef_layout : IdlTypeDef -> list IdlTypeDef -> Construct)
  (idl : Accounts.Idl IdlTypeDef) (self : Accounts.AccountsCoder)
  (stream : bytes) (obj : value) (rest : bytes) :
  Accounts.new_AccountsCoder name typedef_layout idl = Ok self ->
  (forall acc, In acc (Accounts.accounts idl) ->
               strict (typedef_layout acc (Accounts.types idl))) ->
  Accounts._parse self stream = Ok (obj, rest) ->
  exists data, stream = data ++ rest /\ Accounts._build self obj = Ok data.
Proof.
  intros init Hstrict. unfold Accounts._parse, Accounts.subcon_parse.
  destruct (stream_read stream Accounts.ACCOUNT_DISCRIMINATOR_SIZE)
    as [[key s]|] eqn:Er; [|discriminate].
  cbn [bind]. apply stream_read_Ok in Er as [-> Hlen].
  destruct (Accounts.Switch_parse self key s) as [[v s']|] eqn:Es;
    [|discriminate].
  cbn [bind]. unfold Accounts._decode. cbn [fst snd].
  destruct (Accounts.get bytes_eqb (Accounts.discriminator_to_acc_name self)
              key) as [n|] eqn:En; [|discriminate].
  cbn [bind]. intros H. apply Ok_inj in H. injection H as <- <-.
  destruct (coder_known _ _ _ _ _ init key n En)
    as (acc & Hacc & -> & Hd & Hget & Hlayout).
  unfold Accounts.Switch_parse in Es. rewrite Hlayout in Es.
  destruct (strict_canonical _ (Hstrict acc Hacc) _ _ _ Es)
    as (payload & -> & Hb).
  exists (key ++ payload). split; [now rewrite app_assoc|].
  unfold Accounts._build, Accounts._encode.
  change (Accounts.subscript (VDict _) (str "name"))
    with (Ok (VStr (name acc))).
  cbn [bind]. rewrite Hget. cbn [bind].
  change (Accounts.subscript (VDict _) (str "data")) with (Ok v).
  cbn [bind]. unfold Accounts.subcon_build, Accounts.Switch_build.
  rewrite Hlen, Hlayout, Hb. reflexivity.
Qed.

(** X23: encoding an account that the IDL does not declare.  [_build] raises
    [KeyError] on an object whose name is not the name of a declared
    account. *)
Theorem accounts_coder_unknown_name
  (IdlTypeDef : Type) (name : IdlTypeDef -> pystr)
  (typedef_layout : IdlTypeDef -> list IdlTypeDef -> Construct)
  (idl : Accounts.Idl IdlTypeDef) (self : Accounts.AccountsCoder)
  (n : pystr) (v : value) :
  Accounts.new_AccountsCoder name typedef_layout idl = Ok self ->
  ~ In n (map name (Accounts.accounts idl)) ->
  Accounts._build self
    (VDict [(VStr (str "name"), VStr n); (VStr (str "data"), v)])
  = Err KeyError.
Proof.
  intros init Hn. unfold Accounts._build, Accounts._encode.
  change (Accounts.subscript (VDict _) (str "name")) with (Ok (VStr n)).
  cbn [bind]. now rewrite (coder_unknown_name _ _ _ _ _ init n Hn).
Qed.

(** X24: decoding bytes that belong to no declared account.  [_parse] raises
    [StreamError] on fewer than eight bytes; when the first eight bytes are
    the discriminator of no declared account, the [Switch] falls back on
    [Pass] and [_decode] raises [KeyError], whatever follows. *)
Theorem accounts_coder_unknown_discriminator
  (IdlTypeDef : Type) (name : IdlTypeDef -> pystr)
  (typedef_layout : IdlTypeDef -> list IdlTypeDef -> Construct)
  (idl : Accounts.Idl IdlTypeDef) (self : Accounts.AccountsCoder)
  (stream : bytes) :
  Accounts.new_AccountsCoder name typedef_layout idl = Ok self ->
  ((length stream < 8)%nat -> Accounts._parse self stream = Err StreamError)
  /\ ((8 <= length stream)%nat ->
      (forall acc, In acc (Accounts.accounts idl) ->
                   Accounts.account_discriminator (name acc)
                   <> Ok (firstn 8 stream)) ->
      Accounts._parse self stream = Err KeyError).
Proof.
  intros init. unfold Accounts._parse, Accounts.subcon_parse, stream_read.
  change Accounts.ACCOUNT_DISCRIMINATOR_SIZE with 8%nat. split.
  - intros Hl. replace (8 <=? length stream)%nat with false by lia.
    reflexivity.
  - intros Hl Hno. replace (8 <=? length stream)%nat with true by lia.
    cbn [bind].
    destruct (coder_unknown _ _ _ _ _ init _ Hno) as [Hn Hlay].
    unfold Accounts.Switch_parse. rewrite Hlay. cbn [bind].
    unfold Accounts._decode. cbn [fst snd]. now rewrite Hn.
Qed.

Lemma accounts_coder_roundtrip_witness :
  exists self data,
    Examples.my_coder = Ok self
    /\ Accounts._build self
         (VDict [(VStr (str "name"), VStr (str "MyAccount"));
                 (VStr (str "data"), VDict [(VStr (str "data"), VInt 1234)])])
       = Ok data
    /\ forall rest,
         Accounts._parse self (data ++ rest)
         = Ok (VDict [(VStr (str "data"),
                       VDict [(VStr (str "data"), VInt 1234)]);
                      (VStr (str "name"), VStr (str "MyAccount"))], rest).
Proof.
  destruct Examples.my_coder as [self|] eqn:E; [|vm_compute in E; discriminate].
  assert (Hin : In (str "MyAccount", CStruct [Examples.named "data" U64])
                   (Accounts.accounts Examples.my_idl)) by (left; reflexivity).
  assert (Hrt : roundtrips (CStruct [Examples.named "data" U64])
                           (VDict [(VStr (str "data"), VInt 1234)])).
  { apply admits_roundtrips.
    apply (admits_CStruct [(str "data", U64, VInt 1234)]).
    - repeat constructor. intros [].
    - repeat constructor. discriminate.
    - apply Forall_cons; [|apply Forall_nil].
      apply admits_FormatField. unfold in_range. cbn. lia. }
  destruct (accounts_coder_roundtrip _ fst (fun acc _ => snd acc)
              Examples.my_idl self _
              (VDict [(VStr (str "data"), VInt 1234)]) E Hin)
    as (data & Hb & Hp).
  - intros a [<-|[]] _. reflexivity.
  - exact Hrt.
  - exists self, data. auto.
Defined.

Lemma accounts_coder_parse_then_build_witness :
  exists self obj,
    Examples.my_coder = Ok self
    /\ Accounts._parse self Examples.raw_acc_data = Ok (obj, [])
    /\ Accounts._build self obj = Ok Examples.raw_acc_data.
Proof.
  destruct Examples.my_coder as [self|] eqn:E; [|vm_compute in E; discriminate].
  assert (Hs : forall acc, In acc (Accounts.accounts Examples.my_idl) ->
                           strict (snd acc)).
  { intros acc [<-|[]]. cbn [snd].
    apply (strict_CStruct [(str "data", U64)]).
    - repeat constructor. intros [].
    - repeat constructor. discriminate.
    - repeat constructor. discriminate. }
  destruct (Accounts._parse self Examples.raw_acc_data) as [[obj rest]|] eqn:Ep;
    [|vm_compute in E; apply Ok_inj in E; subst self;
      vm_compute in Ep; discriminate].
  assert (rest = []).
  { vm_compute in E. apply Ok_inj in E. subst self.
    vm_compute in Ep. apply Ok_inj in Ep. now injection Ep as _ <-. }
  subst rest.
  destruct (accounts_coder_parse_then_build _ fst (fun acc _ => snd acc)
              Examples.my_idl self _ _ _ E Hs Ep) as (data & Hd & Hb).
  rewrite app_nil_r in Hd. subst data.
  exists self, obj. auto.
Defined.

Lemma accounts_coder_unknown_name_witness :
  exists self,
    Examples.my_coder = Ok self
    /\ Accounts._build self
         (VDict [(VStr (str "name"), VStr (str "Other"));
                 (VStr (str "data"), VNone)])
       = Err KeyError.
Proof.
  destruct Examples.my_coder as [self|] eqn:E; [|vm_compute in E; discriminate].
  exists self. split; [reflexivity|].
  apply (accounts_coder_unknown_name _ fst (fun acc _ => snd acc)
           Examples.my_idl self _ _ E).
  cbv. intros [H|[]]. discriminate.
Defined.

Lemma accounts_coder_unknown_discriminator_witness :
  exists self,
    Examples.my_coder = Ok self
    /\ Accounts._parse self (repeat x00 16) = Err KeyError
    /\ Accounts._parse self (repeat x00 7) = Err StreamError.
Proof.
  destruct Examples.my_coder as [self|] eqn:E; [|vm_compute in E; discriminate].
  exists self. split; [reflexivity|].
  destruct (accounts_coder_unknown_discriminator _ fst (fun acc _ => snd acc)
              Examples.my_idl self (repeat x00 16) E) as [_ H16].
  destruct (accounts_coder_unknown_discriminator _ fst (fun acc _ => snd acc)
              Examples.my_idl self (repeat x00 7) E) as [H7 _].
  split.
  - apply H16; [cbn; lia|].
    intros acc [<-|[]]. vm_compute. discriminate.
  - apply H7. cbn. lia.
Defined.

(** ** Building the account coder *)

Lemma mapM_error {A B} (f : A -> result B) (E : error) (l : list A) :
  (forall a e, f a = Err e -> e = E) ->
  Exists (fun a => exists e, f a = Err e) l -> mapM f l = Err E.
Proof.
  intros HE. induction 1 as [a l [e Ha]|a l _ IH]; rewrite mapM_cons.
  - rewrite Ha. cbn [bind]. f_equal. eapply HE. exact Ha.
  - destruct (f a) as [b|e] eqn:Ea; cbn [bind].
    + now rewrite IH.
    + f_equal. eapply HE. exact Ea.
Qed.

Lemma utf8_encode_error (s : pystr) (e : error) :
  utf8_encode s = Err e -> e = UnicodeError.
Proof.
  induction s as [|c s IH]; [discriminate|].
  rewrite utf8_encode_cons.
  destruct (utf8_encode_char c) as [d|e'] eqn:Ec; cbn [bind].
  - destruct (utf8_encode s) as [r|e'']; cbn [bind]; [discriminate|].
    intros H. injection H as <-. now apply IH.
  - intros H. injection H as <-. eapply utf8_encode_char_error. exact Ec.
Qed.

Lemma account_discriminator_scalar (n : pystr) :
  (Forall scalar n -> exists d, Accounts.account_discriminator n = Ok d)
  /\ (Exists (fun c => ~ scalar c) n ->
      Accounts.account_discriminator n = Err UnicodeError)
  /\ (forall e, Accounts.account_discriminator n = Err e -> e = UnicodeError).
Proof.
  unfold Accounts.account_discriminator. repeat split.
  - intros H.
    destruct (utf8_encode_scalar (str "account:" ++ n)) as [data Hd].
    + apply Forall_app. split; [|exact H].
      repeat constructor; unfold scalar; cbn; lia.
    + rewrite Hd. cbn [bind]. eauto.
  - intros H. rewrite utf8_encode_not_scalar; [reflexivity|].
    apply Exists_app. now right.
  - intros e. destruct (utf8_encode _) as [data|e'] eqn:E; cbn [bind];
      [discriminate|].
    intros H. injection H as <-. eapply utf8_encode_error. exact E.
Qed.

(** X25: building the coder.  [AccountsCoder(idl)] succeeds when the names of
    the declared accounts are strings of Unicode scalar values (the lookup
    of the layout of a name in [_accounts_layout] never fails, the two
    dicts being built from the same accounts), and it raises the error of
    [str.encode] when some name holds a lone surrogate. *)
Theorem accounts_coder_construction
  (IdlTypeDef : Type) (name : IdlTypeDef -> pystr)
  (typedef_layout : IdlTypeDef -> list IdlTypeDef -> Construct)
  (idl : Accounts.Idl IdlTypeDef) :
  (Forall (fun acc => Forall scalar (name acc)) (Accounts.accounts idl) ->
   exists self, Accounts.new_AccountsCoder name typedef_layout idl = Ok self)
  /\ (Exists (fun acc => Exists (fun c => ~ scalar c) (name acc))
             (Accounts.accounts idl) ->
      Accounts.new_AccountsCoder name typedef_layout idl = Err UnicodeError).
Proof.
  unfold Accounts.new_AccountsCoder. cbv zeta. split.
  - intros Hok.
    set (f := fun acc => d <- Accounts.account_discriminator (name acc) ;;
                         Ok (name acc, d)).
    destruct (proj2 (mapM_ok f (Accounts.accounts idl))) as [discs Hd].
    { eapply Forall_impl; [|exact Hok]. intros acc Ha. unfold f.
      destruct (proj1 (account_discriminator_scalar (name acc)) Ha) as [d ->].
      cbn [bind]. eauto. }
    rewrite Hd. cbn [bind].
    match goal with
    | |- exists self, bind (mapM ?g ?l) _ = _ =>
        destruct (proj2 (mapM_ok g l)) as [dl Hdl]
    end.
    { apply Forall_forall. intros nd Hin.
      apply (In_comprehension pystr_eqb pystr_eqb_eq) in Hin.
      apply mapM_Forall2 in Hd.
      assert (Hacc : exists acc, In acc (Accounts.accounts idl)
                                 /\ fst nd = name acc).
      { clear -Hd Hin. induction Hd as [|a b l r Hab _ IH]; [destruct Hin|].
        destruct Hin as [->|Hin].
        - exists a. split; [now left|]. unfold f in Hab.
          destruct (Accounts.account_discriminator (name a)); [|discriminate].
          cbn [bind] in Hab. apply Ok_inj in Hab. now subst.
        - destruct (IH Hin) as (acc & Ha & Hn). exists acc.
          split; [now right | exact Hn]. }
      destruct Hacc as (acc & Ha & ->).
      fold (Accounts.layouts name typedef_layout idl).
      unfold Accounts.layouts.
      rewrite (get_comprehension pystr_eqb pystr_eqb_eq).
      destruct (find_last_exists pystr_eqb pystr_eqb_eq name _ _ Ha)
        as [y ->].
      cbn [option_map]. eauto. }
    rewrite Hdl. cbn [bind]. eauto.
  - intros Hbad.
    rewrite (mapM_error _ UnicodeError); [reflexivity| |].
    + intros acc e. destruct (Accounts.account_discriminator (name acc))
        as [d|e'] eqn:E; cbn [bind]; [discriminate|].
      intros H. injection H as <-.
      eapply (proj2 (proj2 (account_discriminator_scalar (name acc)))).
      exact E.
    + eapply Exists_impl; [|exact Hbad]. intros acc Ha. cbn beta.
      rewrite (proj1 (proj2 (account_discriminator_scalar (name acc))) Ha).
      cbn [bind]. eauto.
Qed.

Lemma accounts_coder_construction_witness :
  (exists self, Examples.my_coder = Ok self)
  /\ Accounts.new_AccountsCoder fst (fun acc _ => snd acc)
       {| Accounts.accounts := [([0xDC00], U8)]; Accounts.types := [] |}
     = Err UnicodeError.
Proof.
  split.
  - apply (proj1 (accounts_coder_construction _ fst (fun acc _ => snd acc)
                    Examples.my_idl)).
    repeat constructor; unfold scalar; cbn; lia.
  - apply (proj2 (accounts_coder_construction _ fst (fun acc _ => snd acc)
                    {| Accounts.accounts := [([0xDC00], U8)];
                       Accounts.types := [] |})).
    apply Exists_cons_hd. apply Exists_cons_hd. unfold scalar. lia.
Defined.

(** ** Keys that cannot be hashed *)

Lemma yields_container_unhashable (c : Construct) :
  yields_container c = true ->
  forall stream v rest, _parse c stream = Ok (v, rest) -> hashable v = false.
Proof.
  induction c; cbn [yields_container]; try discriminate; intros Hc stream v rest;
    cbn [_parse].
  - unfold PrefixedArray_parse.
    destruct (FormatField_parse 4 false stream) as [[count s]|];
      [|discriminate].
    cbn [bind]. destruct count; try discriminate.
    destruct (Array_parse _ _ s) as [[es s']|]; [|discriminate].
    cbn [bind]. intros H. apply Ok_inj in H. now injection H as <- _.
  - destruct (Array_parse _ _ stream) as [[es s']|]; [|discriminate].
    cbn [bind]. intros H. apply Ok_inj in H. now injection H as <- _.
  - destruct (Sequence_parse _ stream) as [[objs s']|]; [|discriminate].
    cbn [bind]. intros H. apply Ok_inj in H. now injection H as <- _.
  - destruct (Struct_parse _ [] stream) as [[obj s']|]; [|discriminate].
    cbn [bind]. intros H. apply Ok_inj in H. now injection H as <- _.
  - now apply IHc.
  - destruct (PrefixedArray_parse _ stream) as [[obj s']|]; [|discriminate].
    cbn [bind]. destruct (py_iter obj) as [pairs|]; [|discriminate].
    cbn [bind]. destruct (dict_of pairs []) as [d|]; [|discriminate].
    cbn [bind]. intros H. apply Ok_inj in H. now injection H as <- _.
  - destruct (PrefixedArray_parse _ stream) as [[obj s']|]; [|discriminate].
    cbn [bind]. destruct (py_iter obj) as [elems|]; [|discriminate].
    cbn [bind]. destruct (set_of elems []) as [s|]; [|discriminate].
    cbn [bind]. intros H. apply Ok_inj in H. now injection H as <- _.
Qed.

Lemma Array_parse_head (p : parser) (count : nat) (stream : bytes)
  (e : value) (es : list value) (rest : bytes) :
  Array_parse p count stream = Ok (e :: es, rest) ->
  exists s, p stream = Ok (e, s).
Proof.
  destruct count as [|count]; cbn [Array_parse]; [discriminate|].
  destruct (p stream) as [[e' s]|]; [|discriminate]. cbn [bind].
  destruct (Array_parse p count s) as [[es' s']|]; [|discriminate].
  cbn [bind]. intros H. apply Ok_inj in H. injection H as -> _ _.
  now exists s.
Qed.

Lemma PrefixedArray_parse_head (p : parser) (stream : bytes) (obj : value)
  (rest : bytes) :
  PrefixedArray_parse p stream = Ok (obj, rest) ->
  obj = VList []
  \/ exists e es s s', obj = VList (e :: es) /\ p s = Ok (e, s').
Proof.
  unfold PrefixedArray_parse.
  destruct (FormatField_parse 4 false stream) as [[count s]|]; [|discriminate].
  cbn [bind]. destruct count; try discriminate.
  destruct (Array_parse p (Z.to_nat z) s) as [[[|e es] s']|] eqn:Ea;
    [| |discriminate]; cbn [bind]; intros H; apply Ok_inj in H;
    injection H as <- _; [now left|].
  right. destruct (Array_parse_head _ _ _ _ _ _ Ea) as [s0 Hs0].
  now exists e, es, s, s0.
Qed.

Lemma container_keys_empty (stream : bytes) (v : value)
  (rest : bytes) :
  (forall K V, yields_container K = true ->
               _parse (HashMap K V) stream = Ok (v, rest) -> v = VDict [])
  /\ (forall T, yields_container T = true ->
                _parse (HashSet T) stream = Ok (v, rest) -> v = VSet []).
Proof.
  split.
  - intros K V HK. cbn [_parse].
    destruct (PrefixedArray_parse _ stream) as [[obj s]|] eqn:Ep;
      [|discriminate].
    cbn [bind].
    destruct (PrefixedArray_parse_head _ _ _ _ Ep)
      as [->|(e & es & s0 & s1 & -> & He)]; cbn [py_iter bind dict_of].
    + intros H. apply Ok_inj in H. now injection H as <- _.
    + cbn [Sequence_parse] in He.
      destruct (_parse K s0) as [[k s2]|] eqn:Ek; [|discriminate].
      cbn [bind] in He.
      destruct (_parse V s2) as [[w s3]|]; [|discriminate].
      cbn [bind] in He. apply Ok_inj in He. injection He as <- _.
      cbn [dict_of].
      rewrite (yields_container_unhashable K HK _ _ _ Ek). discriminate.
  - intros T HT. cbn [_parse].
    destruct (PrefixedArray_parse _ stream) as [[obj s]|] eqn:Ep;
      [|discriminate].
    cbn [bind].
    destruct (PrefixedArray_parse_head _ _ _ _ Ep)
      as [->|(e & es & s0 & s1 & -> & He)]; cbn [py_iter bind set_of].
    + intros H. apply Ok_inj in H. now injection H as <- _.
    + rewrite (yields_container_unhashable T HT _ _ _ He). discriminate.
Qed.

(** X26: keys that cannot be hashed.  When the codec of the keys of a map, or
    of the elements of a set, decodes to a list, a dict or a set (a vector,
    an array, a tuple, a struct, a map or a set), decoding returns the empty
    collection or raises: on the first entry [dict(...)] or [set(...)]
    fails, the key not being hashable. *)
Theorem container_keys_not_decoded (K V : Construct) (stream : bytes) :
  yields_container K = true ->
  ((exists rest, _parse (HashMap K V) stream = Ok (VDict [], rest))
   \/ raises (_parse (HashMap K V) stream))
  /\ ((exists rest, _parse (HashSet K) stream = Ok (VSet [], rest))
      \/ raises (_parse (HashSet K) stream)).
Proof.
  intros HK. split.
  - destruct (_parse (HashMap K V) stream) as [[v rest]|e] eqn:E;
      [left | right; now exists e].
    exists rest.
    now rewrite (proj1 (container_keys_empty stream v rest) K V HK E).
  - destruct (_parse (HashSet K) stream) as [[v rest]|e] eqn:E;
      [left | right; now exists e].
    exists rest.
    now rewrite (proj2 (container_keys_empty stream v rest) K HK E).
Qed.

Lemma container_keys_not_decoded_witness :
  build (HashMap (TupleStruct [U8; U8]) U8)
        (VDict [(VTuple [VInt 1; VInt 2], VInt 3)])
  = Ok [x01; x00; x00; x00; x01; x02; x03]
  /\ _parse (HashMap (TupleStruct [U8; U8]) U8)
            [x01; x00; x00; x00; x01; x02; x03] = Err TypeError
  /\ yields_container (TupleStruct [U8; U8]) = true
  /\ ((exists rest,
         _parse (HashMap (TupleStruct [U8; U8]) U8)
                [x01; x00; x00; x00; x01; x02; x03] = Ok (VDict [], rest))
      \/ raises (_parse (HashMap (TupleStruct [U8; U8]) U8)
                        [x01; x00; x00; x00; x01; x02; x03]))
  /\ ((exists rest,
         _parse (HashSet (TupleStruct [U8; U8]))
                [x01; x00; x00; x00; x01; x02; x03] = Ok (VSet [], rest))
      \/ raises (_parse (HashSet (TupleStruct [U8; U8]))
                        [x01; x00; x00; x00; x01; x02; x03])).
Proof.
  split; [reflexivity|]. split; [reflexivity|]. split; [reflexivity|].
  exact (container_keys_not_decoded (TupleStruct [U8; U8]) U8
           [x01; x00; x00; x00; x01; x02; x03] eq_refl).
Defined.

(** ** Singles *)

Lemma iter_pos_nat {A} (f : A -> A) (p : positive) (x : A) :
  iter_pos f p x = Nat.iter (Pos.to_nat p) f x.
Proof.
  revert x. induction p as [p IH|p IH|]; intros x; cbn [iter_pos].
  - rewrite !IH, Pos2Nat.inj_xI.
    replace (S (2 * Pos.to_nat p)) with (Pos.to_nat p + (Pos.to_nat p + 1))%nat
      by lia.
    rewrite !Nat.iter_add. reflexivity.
  - rewrite !IH, Pos2Nat.inj_xO.
    replace (2 * Pos.to_nat p)%nat with (Pos.to_nat p + Pos.to_nat p)%nat
      by lia.
    rewrite Nat.iter_add. reflexivity.
  - reflexivity.
Qed.

Lemma shr_shl_nat (n : nat) (m : positive) :
  Nat.iter n shr_1
    {| shr_m := Z.pos (Nat.iter n xO m); shr_r := false; shr_s := false |}
  = {| shr_m := Z.pos m; shr_r := false; shr_s := false |}.
Proof.
  induction n as [|n IH]; [reflexivity|].
  rewrite Nat.iter_succ_r, Nat.iter_succ. cbn [shr_1 orb]. exact IH.
Qed.

Lemma iter_xO_nat (m k : positive) :
  Pos.iter xO m k = Nat.iter (Pos.to_nat k) xO m.
Proof. apply Pos2Nat.inj_iter. Qed.

Lemma digits2_iter_xO (n : nat) (m : positive) :
  Z.pos (digits2_pos (Nat.iter n xO m)) = Z.pos (digits2_pos m) + Z.of_nat n.
Proof.
  induction n as [|n IH]; [simpl; lia|].
  rewrite Nat.iter_succ. cbn [digits2_pos].
  rewrite Pos2Z.inj_succ, IH. lia.
Qed.

Lemma shr_shl (m k : positive) :
  iter_pos shr_1 k
    {| shr_m := Z.pos (Pos.iter xO m k); shr_r := false; shr_s := false |}
  = {| shr_m := Z.pos m; shr_r := false; shr_s := false |}.
Proof. rewrite iter_pos_nat, iter_xO_nat. apply shr_shl_nat. Qed.

Lemma digits2_shl (m k : positive) :
  Z.pos (digits2_pos (Pos.iter xO m k)) = Z.pos (digits2_pos m) + Z.pos k.
Proof. rewrite iter_xO_nat, digits2_iter_xO. lia. Qed.

Lemma valid_binary32 (s : bool) (m : positive) (e : Z) :
  valid_binary 24 128 (S754_finite s m e) = true ->
  Z.pos (digits2_pos m) <= 24 /\ -149 <= e <= 104
  /\ fexp 24 128 (Z.pos (digits2_pos m) + e) = e
  /\ Z.pos m < 2 ^ 24 /\ (Z.pos m < 2 ^ 23 -> e = -149).
Proof.
  cbn [valid_binary]. unfold bounded, canonical_mantissa.
  intros H. apply andb_true_iff in H as [H1 H2].
  apply Z.eqb_eq in H1. apply Z.leb_le in H2.
  pose proof (digits2_pos_bounds m) as [Hlo Hhi].
  pose proof H1 as Hf. unfold fexp, emin in H1.
  set (d := Z.pos (digits2_pos m)) in *.
  assert (Hd : d <= 24) by lia.
  assert (Hm : Z.pos m < 2 ^ 24).
  { eapply Z.lt_le_trans; [exact Hhi|]. apply Z.pow_le_mono_r; lia. }
  repeat split; try lia; try assumption.
  intros Hsub. destruct (Z.eq_dec d 24) as [E|E]; [|lia].
  rewrite E in Hlo. change (24 - 1) with 23 in Hlo. lia.
Qed.

Lemma binary_round_aux_exact (prec emax : Z) (s : bool) (m : positive)
    (e : Z) :
  fexp prec emax (Z.pos (digits2_pos m) + e) = e -> e <= emax - prec ->
  binary_round_aux prec emax s (Z.pos m) e loc_Exact = S754_finite s m e.
Proof.
  intros Hf He. unfold binary_round_aux, shr_fexp.
  cbn [Zdigits2 shr_record_of_loc]. rewrite Hf, Z.sub_diag.
  cbn [shr shr_m loc_of_shr_record round_nearest_even Zdigits2].
  rewrite Hf, Z.sub_diag. cbn [shr shr_m].
  apply Z.leb_le in He. now rewrite He.
Qed.

(** A binary32 seen as a double: the significand is shifted up to 53 bits. *)
Lemma widen_finite (s : bool) (m : positive) (e : Z) :
  valid_binary 24 128 (S754_finite s m e) = true ->
  exists k,
    Z.pos k = 53 - Z.pos (digits2_pos m)
    /\ binary_round 53 1024 s m e
       = S754_finite s (Pos.iter xO m k) (e - Z.pos k).
Proof.
  intros Hv. apply valid_binary32 in Hv as (Hd & He & _ & _ & _).
  set (d := Z.pos (digits2_pos m)) in *.
  exists (Z.to_pos (53 - d)).
  assert (Hk : Z.pos (Z.to_pos (53 - d)) = 53 - d)
    by (apply Z2Pos.id; lia).
  split; [exact Hk|].
  set (k := Z.to_pos (53 - d)) in *.
  assert (Hf : fexp 53 1024 (d + e) = e - Z.pos k)
    by (unfold fexp, emin; lia).
  unfold binary_round, shl_align. fold d. rewrite Hf.
  replace (e - Z.pos k - e) with (Z.neg k) by lia.
  apply binary_round_aux_exact.
  - rewrite digits2_shl. fold d. unfold fexp, emin. lia.
  - lia.
Qed.

(** The double of a binary32 rounds back to it. *)
Lemma narrow_widen (s : bool) (m k : positive) (e : Z) :
  valid_binary 24 128 (S754_finite s m e) = true ->
  binary_round 24 128 s (Pos.iter xO m k) (e - Z.pos k)
  = S754_finite s m e.
Proof.
  intros Hv. apply valid_binary32 in Hv as (Hd & He & Hf & _ & _).
  set (d := Z.pos (digits2_pos m)) in *.
  assert (Hf' : fexp 24 128 (d + Z.pos k + (e - Z.pos k)) = e)
    by (rewrite <- Hf at 2; f_equal; lia).
  unfold binary_round, shl_align. rewrite digits2_shl. fold d.
  rewrite Hf'.
  replace (e - (e - Z.pos k)) with (Z.pos k) by lia.
  unfold binary_round_aux, shr_fexp.
  cbn [Zdigits2 shr_record_of_loc]. rewrite digits2_shl. fold d.
  rewrite Hf'.
  replace (e - (e - Z.pos k)) with (Z.pos k) by lia.
  cbn [shr]. rewrite shr_shl.
  cbn [shr_m loc_of_shr_record round_nearest_even Zdigits2].
  replace (e - Z.pos k + Z.pos k) with e by lia.
  fold d. rewrite Hf, Z.sub_diag. cbn [shr shr_m].
  replace (e <=? 128 - 24) with true by (symmetry; apply Z.leb_le; lia).
  reflexivity.
Qed.

Lemma float_bits32_range (f : spec_float) :
  valid_binary 24 128 f = true -> 0 <= float_bits 24 128 f < 2 ^ 32.
Proof.
  intros Hv. unfold float_bits, emin. change (2 ^ (24 - 1)) with (2 ^ 23).
  destruct f as [s|s| |s m e].
  - destruct s; cbn; lia.
  - destruct s; cbn; lia.
  - cbn; lia.
  - apply valid_binary32 in Hv as (_ & He & _ & Hm & Hsub).
    change (2 ^ 24) with 16777216 in *.
    change (2 ^ 23) with 8388608 in *.
    change (2 ^ 32) with 4294967296.
    destruct (Z.leb_spec 8388608 (Z.pos m)); destruct s; lia.
Qed.

Lemma bits_float_float_bits32 (f : spec_float) :
  valid_binary 24 128 f = true -> f <> S754_nan ->
  bits_float 24 128 (float_bits 24 128 f) = f.
Proof.
  intros Hv Hn. destruct f as [s|s| |s m e]; [| |contradiction|].
  - destruct s; reflexivity.
  - destruct s; reflexivity.
  - apply valid_binary32 in Hv as (_ & He & _ & Hm & Hsub).
    unfold float_bits, bits_float, emin.
    change (2 ^ (24 - 1)) with 8388608.
    change (2 ^ 24) with 16777216 in *.
    change (2 ^ 23) with 8388608 in *.
    change (2 * 128) with 256.
    change (8388608 * 256) with 2147483648.
    change (3 - 128 - 24) with (-149).
    set (sign := if s then 2147483648 else 0).
    assert (Hsign : sign = 0 \/ sign = 2147483648)
      by (destruct s; auto).
    destruct (Z.leb_spec 8388608 (Z.pos m)) as [Hnorm|Hsubn].
    + set (bits := sign + ((e - -149 + 1) * 8388608
                           + (Z.pos m - 8388608))).
      assert (Em : bits mod 8388608 = Z.pos m - 8388608)
        by (unfold bits; zlia).
      assert (Ee : (bits / 8388608) mod 256 = e + 150)
        by (unfold bits; zlia).
      assert (Es : (1 <=? bits / 2147483648) = s).
      { unfold bits, sign. destruct s.
        - apply Z.leb_le. zlia.
        - apply Z.leb_gt. zlia. }
      rewrite Em, Ee, Es.
      replace (e + 150 =? 256 - 1) with false by (symmetry; lia).
      replace (e + 150 =? 0) with false by (symmetry; lia).
      replace (Z.pos m - 8388608 + 8388608) with (Z.pos m) by lia.
      f_equal. lia.
    + specialize (Hsub Hsubn). subst e.
      set (bits := sign + Z.pos m).
      assert (Em : bits mod 8388608 = Z.pos m) by (unfold bits; zlia).
      assert (Ee : (bits / 8388608) mod 256 = 0) by (unfold bits; zlia).
      assert (Es : (1 <=? bits / 2147483648) = s).
      { unfold bits, sign. destruct s.
        - apply Z.leb_le. zlia.
        - apply Z.leb_gt. zlia. }
      rewrite Em, Ee, Es. reflexivity.
Qed.

Lemma digits2_pos_le (p : positive) (n : Z) :
  0 <= n -> Z.pos p < 2 ^ n -> Z.pos (digits2_pos p) <= n.
Proof.
  intros Hn Hp. pose proof (digits2_pos_bounds p) as [Hlo _].
  assert (H : 2 ^ (Z.pos (digits2_pos p) - 1) < 2 ^ n) by lia.
  apply Z.pow_lt_mono_r_iff in H; lia.
Qed.

Lemma digits2_pos_gt (p : positive) (n : Z) :
  2 ^ n <= Z.pos p -> n < Z.pos (digits2_pos p).
Proof.
  intros Hp. pose proof (digits2_pos_bounds p) as [_ Hhi].
  assert (H : 2 ^ n < 2 ^ Z.pos (digits2_pos p)) by lia.
  apply Z.pow_lt_mono_r_iff in H; lia.
Qed.

Lemma bits_float32_valid (x : Z) :
  valid_binary 24 128 (bits_float 24 128 x) = true.
Proof.
  unfold bits_float, emin.
  change (2 ^ (24 - 1)) with 8388608.
  change (2 * 128) with 256.
  change (3 - 128 - 24) with (-149).
  set (m := x mod 8388608).
  set (e := (x / 8388608) mod 256).
  assert (Hm : 0 <= m < 8388608) by (unfold m; zlia).
  assert (He : 0 <= e < 256) by (unfold e; zlia).
  destruct (Z.eqb_spec e (256 - 1)) as [E1|E1];
    [destruct (m =? 0); reflexivity|].
  destruct (Z.eqb_spec e 0) as [E2|E2].
  - destruct m as [|p|p] eqn:Emp; try reflexivity.
    cbn [valid_binary]. unfold bounded, canonical_mantissa, fexp, emin.
    pose proof (digits2_pos_le p 23 ltac:(lia) ltac:(cbn; lia)) as Hd.
    apply andb_true_iff. split; [apply Z.eqb_eq | apply Z.leb_le]; lia.
  - destruct (m + 8388608) as [|p|p] eqn:Emp; try reflexivity.
    cbn [valid_binary]. unfold bounded, canonical_mantissa, fexp, emin.
    pose proof (digits2_pos_le p 24 ltac:(lia) ltac:(cbn; lia)) as Hd.
    pose proof (digits2_pos_gt p 23 ltac:(cbn; lia)) as Hd'.
    apply andb_true_iff. split; [apply Z.eqb_eq | apply Z.leb_le]; lia.
Qed.

Lemma float_bits_bits_float32 (x : Z) :
  0 <= x < 2 ^ 32 -> bits_float 24 128 x <> S754_nan ->
  float_bits 24 128 (bits_float 24 128 x) = x.
Proof.
  intros Hx. unfold bits_float, float_bits, emin.
  change (2 ^ (24 - 1)) with 8388608.
  change (2 ^ 32) with 4294967296 in Hx.
  change (2 * 128) with 256.
  change (8388608 * 256) with 2147483648.
  change (3 - 128 - 24) with (-149).
  set (m := x mod 8388608).
  set (e := (x / 8388608) mod 256).
  set (q := x / 2147483648).
  assert (Hm : 0 <= m < 8388608) by (unfold m; zlia).
  assert (He : 0 <= e < 256) by (unfold e; zlia).
  assert (Hq : 0 <= q <= 1) by (unfold q; zlia).
  assert (Hdec : x = q * 2147483648 + e * 8388608 + m)
    by (unfold q, e, m; zlia).
  assert (Hs : (if 1 <=? q then 2147483648 else 0) = q * 2147483648)
    by (destruct (Z.leb_spec 1 q); lia).
  destruct (Z.eqb_spec e (256 - 1)) as [E1|E1].
  - destruct (Z.eqb_spec m 0) as [E2|E2]; [|contradiction].
    intros _. rewrite Hs. lia.
  - destruct (Z.eqb_spec e 0) as [E2|E2].
    + destruct m as [|p|p] eqn:Emp; intros _; try lia.
      replace (8388608 <=? Z.pos p) with false
        by (symmetry; apply Z.leb_gt; lia).
      rewrite Hs. lia.
    + destruct (m + 8388608) as [|p|p] eqn:Emp; try lia.
      intros _.
      replace (8388608 <=? Z.pos p) with true
        by (symmetry; apply Z.leb_le; lia).
      rewrite Hs. lia.
Qed.

Lemma widen_not_nan (g : spec_float) :
  valid_binary 24 128 g = true -> g <> S754_nan -> widen g <> S754_nan.
Proof.
  intros Hv Hn. destruct g as [s|s| |s m e]; try (cbn; congruence).
  cbn [widen]. destruct (widen_finite s m e Hv) as (k & _ & ->).
  discriminate.
Qed.

(** What [struct.pack("<f")] writes for the double of a binary32. *)
Lemma pack_widen (g : spec_float) :
  valid_binary 24 128 g = true ->
  pack_float false (VFloat (widen g))
  = Ok (int_to_le 4 (float_bits 24 128 g)).
Proof.
  intros Hv. unfold pack_float. cbn [as_float bind].
  destruct g as [s|s| |s m e]; try reflexivity.
  cbn [widen]. destruct (widen_finite s m e Hv) as (k & _ & ->).
  now rewrite narrow_widen.
Qed.

Lemma unpack_float_widen (data : bytes) :
  unpack_float false data = widen (bits_float 24 128 (le_to_int data)).
Proof. reflexivity. Qed.

(** X27: [F32] decodes what it encoded.  Every binary32 value other than NaN,
    given as the double of the same value, is written on four bytes, and
    [_parse] returns that double from those bytes, whatever follows them. *)
Theorem f32_roundtrip (g : spec_float) :
  valid_binary 24 128 g = true -> g <> S754_nan ->
  exists data,
    build F32 (VFloat (widen g)) = Ok data
    /\ length data = 4%nat
    /\ forall rest, _parse F32 (data ++ rest) = Ok (VFloat (widen g), rest).
Proof.
  intros Hv Hn. exists (int_to_le 4 (float_bits 24 128 g)).
  pose proof (widen_not_nan g Hv Hn) as Hw.
  assert (Hnan : match widen g with S754_nan => true | _ => false end = false)
    by (destruct (widen g); try reflexivity; contradiction).
  split; [|split].
  - unfold build, F32. cbn [_build]. rewrite isnan_float, Hnan.
    now rewrite pack_widen.
  - apply int_to_le_length.
  - intros rest. unfold F32. cbn [_parse].
    pose proof (stream_read_app (int_to_le 4 (float_bits 24 128 g)) rest)
      as Hr.
    rewrite int_to_le_length in Hr. rewrite Hr. cbn [bind].
    rewrite unpack_float_widen, le_to_int_to_le, Z.mod_small
      by (change (8 * Z.of_nat 4) with 32; now apply float_bits32_range).
    rewrite bits_float_float_bits32 by assumption.
    rewrite isnan_float, Hnan. reflexivity.
Qed.

Lemma f32_roundtrip_witness :
  valid_binary 24 128 (S754_finite true 10485760 (-22)) = true
  /\ widen (S754_finite true 10485760 (-22))
     = S754_finite true 5629499534213120 (-51)
  /\ exists data,
       build F32 (VFloat (widen (S754_finite true 10485760 (-22))))
       = Ok data
       /\ length data = 4%nat
       /\ forall rest,
            _parse F32 (data ++ rest)
            = Ok (VFloat (widen (S754_finite true 10485760 (-22))), rest).
Proof.
  split; [reflexivity|]. split; [reflexivity|].
  apply (f32_roundtrip (S754_finite true 10485760 (-22)));
    [reflexivity | discriminate].
Defined.

(** X28: what [F32] decodes.  A successful [_parse] of [F32] consumes four
    bytes and returns the double of a binary32 value, and [build] writes
    those four bytes again for it. *)
Theorem f32_parse_then_build (stream : bytes) (v : value) (rest : bytes) :
  _parse F32 stream = Ok (v, rest) ->
  exists g data,
    valid_binary 24 128 g = true
    /\ v = VFloat (widen g)
    /\ stream = data ++ rest
    /\ length data = 4%nat
    /\ build F32 v = Ok data.
Proof.
  unfold F32, build. cbn [_parse _build].
  destruct (stream_read stream 4) as [[data s]|] eqn:Er; [|discriminate].
  cbn [bind]. rewrite isnan_float, unpack_float_widen. cbn [bind].
  set (g := bits_float 24 128 (le_to_int data)).
  pose proof (bits_float32_valid (le_to_int data)) as Hv. fold g in Hv.
  apply stream_read_Ok in Er as [-> Hlen].
  destruct (widen g) as [sg|sg| |sg m e] eqn:Ew; try discriminate;
    intros H; apply Ok_inj in H; injection H as <- <-;
    exists g, data; rewrite <- Ew;
    (split; [exact Hv|]); (split; [reflexivity|]);
    (split; [reflexivity|]); (split; [exact Hlen|]);
    rewrite isnan_float, Ew; cbn [bind]; rewrite <- Ew, pack_widen by exact Hv;
    unfold g; rewrite float_bits_bits_float32, <- Hlen, int_to_le_le_to_int;
    try reflexivity;
    try (pose proof (le_to_int_bounds data) as Hb; rewrite Hlen in Hb;
         exact Hb);
    fold g; intros Eg; rewrite Eg in Ew; discriminate.
Qed.

Lemma f32_parse_then_build_witness :
  exists g data,
    valid_binary 24 128 g = true
    /\ VFloat (S754_finite true 5629499534213120 (-51)) = VFloat (widen g)
    /\ [x00; x00; x20; xc0; x2a] = data ++ [x2a]
    /\ length data = 4%nat
    /\ build F32 (VFloat (S754_finite true 5629499534213120 (-51))) = Ok data.
Proof.
  exact (f32_parse_then_build [x00; x00; x20; xc0; x2a]
           (VFloat (S754_finite true 5629499534213120 (-51))) [x2a] eq_refl).
Defined.
